(** * Shallow embedding of [avl_tree.hpp] and [interval_tree.hpp]

    The C++ containers are pointer structures: every node carries
    [_parent], [_left] and [_right] links, and a sentinel header node
    closes the structure ([_header._parent] is the root, the root's
    parent is the header).  The embedding keeps that representation:
    a store maps addresses to node records, a null pointer is [None],
    and every dereference is a fallible read of the store. *)

From stdpp Require Import gmap list sorting.
From Stdlib Require Import ZArith Lia.

Open Scope Z_scope.

(** ** Store, nodes, and the error/state monad *)

Definition ptr := nat.

(** What a run of the C++ code can hit that is not a normal return. *)
Inductive error :=
| NullDeref       (* [p->f] with [p == NULL] *)
| DanglingDeref   (* [p->f] with [p] not an allocated node *)
| StackOverflow   (* write past [_stack[STACK_SIZE - 1]] *)
| OutOfFuel.      (* a loop of the model exhausted its iteration bound *)

Inductive result (A : Type) :=
| Ok (a : A)
| Err (e : error).
Arguments Ok {A} a.
Arguments Err {A} e.

(** [_avl_tree_node<Data>]: the base links, the balance factor, the payload. *)
Record node (D : Type) := Node {
  _parent : option ptr;
  _left : option ptr;
  _right : option ptr;
  _balance : Z;
  _value : D
}.
Arguments Node {D}.
Arguments _parent {D}.
Arguments _left {D}.
Arguments _right {D}.
Arguments _balance {D}.
Arguments _value {D}.

Abbreviation heap D := (gmap ptr (node D)).

Definition M (D A : Type) : Type := heap D → result (A * heap D).

Definition ret {D A} (a : A) : M D A := λ h, Ok (a, h).
Definition bind {D A B} (m : M D A) (f : A → M D B) : M D B :=
  λ h, match m h with
       | Ok (a, h') => f a h'
       | Err e => Err e
       end.
Definition fail {D A} (e : error) : M D A := λ _, Err e.

Declare Scope m_scope.
Delimit Scope m_scope with M.
Notation "x <- m ; f" := (bind m (λ x, f))
  (at level 20, m at level 100, f at level 200, right associativity,
   format "'[v' x  <-  m ; '/' f ']'") : m_scope.
Notation "' pat <- m ; f" := (bind m (λ x, match x with pat => f end))
  (at level 20, pat pattern, m at level 100, f at level 200,
   right associativity) : m_scope.
Notation "m ;; f" := (bind m (λ _, f))
  (at level 100, f at level 200, right associativity,
   format "'[v' m ;; '/' f ']'") : m_scope.
Open Scope m_scope.

(** [*p] *)
Definition load {D} (p : option ptr) : M D (node D) :=
  λ h, match p with
       | None => Err NullDeref
       | Some a => match h !! a with
                   | Some n => Ok (n, h)
                   | None => Err DanglingDeref
                   end
       end.

(** [p->f] *)
Definition get {D A} (f : node D → A) (p : option ptr) : M D A :=
  n <- load p; ret (f n).

(** [p->f = v], as an update of the node record at [p]. *)
Definition store {D} (upd : node D → node D) (p : option ptr) : M D unit :=
  λ h, match p with
       | None => Err NullDeref
       | Some a => match h !! a with
                   | Some n => Ok (tt, <[a := upd n]> h)
                   | None => Err DanglingDeref
                   end
       end.

Definition with_parent {D} (v : option ptr) (n : node D) : node D :=
  Node v (_left n) (_right n) (_balance n) (_value n).
Definition with_left {D} (v : option ptr) (n : node D) : node D :=
  Node (_parent n) v (_right n) (_balance n) (_value n).
Definition with_right {D} (v : option ptr) (n : node D) : node D :=
  Node (_parent n) (_left n) v (_balance n) (_value n).
Definition with_balance {D} (v : Z) (n : node D) : node D :=
  Node (_parent n) (_left n) (_right n) v (_value n).
Definition with_value {D} (v : D) (n : node D) : node D :=
  Node (_parent n) (_left n) (_right n) (_balance n) v.

Definition set_parent {D} (p v : option ptr) : M D unit := store (with_parent v) p.
Definition set_left {D} (p v : option ptr) : M D unit := store (with_left v) p.
Definition set_right {D} (p v : option ptr) : M D unit := store (with_right v) p.
Definition set_balance {D} (p : option ptr) (v : Z) : M D unit := store (with_balance v) p.
Definition set_value {D} (p : option ptr) (v : D) : M D unit := store (with_value v) p.

(** [_alloc.allocate(1)] followed by the construction of the payload:
    a fresh address; the links and the balance are whatever the caller
    assigns next. *)
Definition allocate {D} (v : D) : M D (option ptr) :=
  λ h, let a := fresh (dom h) in Ok (Some a, <[a := Node None None None 0 v]> h).

(** Iteration bound handed to the loops of one call: no loop of the
    library visits a node twice on a well-formed tree, so the number of
    allocated nodes (plus one) always suffices. *)
Definition fuel_of {D} (h : heap D) : nat := S (size h).
Definition with_fuel {D A} (f : nat → M D A) : M D A := λ h, f (fuel_of h) h.

(** Value-initialisation [T()] of the payload of the header node. *)
Class ValueInit (A : Type) := value_init : A.
Global Instance Z_value_init : ValueInit Z := 0.
Global Instance unit_value_init : ValueInit unit := tt.
Global Instance nat_value_init : ValueInit nat := 0%nat.
Global Instance pair_value_init {A B} `{ValueInit A, ValueInit B} : ValueInit (A * B) :=
  (value_init, value_init).

(** ** [_avl_tree_decrement] and [_avl_tree_increment] *)

Section Base.
Context {D : Type}.

(** [while (y->_right != NULL) y = y->_right;] *)
Fixpoint descend_right (fuel : nat) (y : option ptr) : M D (option ptr) :=
  match fuel with
  | O => fail OutOfFuel
  | S fuel =>
      r <- get _right y;
      match r with
      | Some _ => descend_right fuel r
      | None => ret y
      end
  end.

(** [while (x->_left != NULL) x = x->_left;] *)
Fixpoint descend_left (fuel : nat) (x : option ptr) : M D (option ptr) :=
  match fuel with
  | O => fail OutOfFuel
  | S fuel =>
      l <- get _left x;
      match l with
      | Some _ => descend_left fuel l
      | None => ret x
      end
  end.

(** [while (x == y->_left) { x = y; y = y->_parent; }] *)
Fixpoint climb_from_left (fuel : nat) (x y : option ptr)
  : M D (option ptr * option ptr) :=
  match fuel with
  | O => fail OutOfFuel
  | S fuel =>
      yl <- get _left y;
      if decide (x = yl) then
        yp <- get _parent y;
        climb_from_left fuel y yp
      else ret (x, y)
  end.

(** [while (x == y->_right) { x = y; y = y->_parent; }] *)
Fixpoint climb_from_right (fuel : nat) (x y : option ptr)
  : M D (option ptr * option ptr) :=
  match fuel with
  | O => fail OutOfFuel
  | S fuel =>
      yr <- get _right y;
      if decide (x = yr) then
        yp <- get _parent y;
        climb_from_right fuel y yp
      else ret (x, y)
  end.

Definition _avl_tree_decrement (x : option ptr) : M D (option ptr) :=
  with_fuel (λ fuel,
    xl <- get _left x;
    match xl with
    | Some _ => descend_right fuel xl
    | None =>
        y <- get _parent x;
        '(_, y) <- climb_from_left fuel x y;
        ret y
    end).

Definition _avl_tree_increment (x : option ptr) : M D (option ptr) :=
  with_fuel (λ fuel,
    xr <- get _right x;
    match xr with
    | Some _ => descend_left fuel xr
    | None =>
        y <- get _parent x;
        '(x, y) <- climb_from_right fuel x y;
        xr <- get _right x;
        if decide (xr ≠ y) then ret y else ret x
    end).
End Base.

(** ** namespace [AVL]: the default rotation and updater policies *)

(** A policy is what the [Rotation] and [Updater] template parameters of
    [avl_tree] supply.  The [Node_ptr& root] argument of the C++
    functions is always [_header._parent]; it is passed as the address
    of the header, and reading or assigning [root] reads or assigns the
    [_parent] field of that node. *)
Class Policy (D : Type) := {
  rotation_left : option ptr → ptr → M D unit;
  rotation_right : option ptr → ptr → M D unit;
  updater_update : option ptr → option ptr → ptr → M D unit
}.

Module AVL.
Section AVL.
Context {D : Type}.

Definition left (x : option ptr) (root : ptr) : M D unit :=
  y <- get _right x;
  yl <- get _left y;
  set_right x yl;;
  yl <- get _left y;
  (if decide (yl ≠ None) then set_parent yl x else ret tt);;
  xp <- get _parent x;
  set_parent y xp;;
  r <- get _parent (Some root);
  (if decide (x = r) then set_parent (Some root) y
   else
     xp <- get _parent x;
     xpl <- get _left xp;
     if decide (x = xpl) then set_left xp y else set_right xp y);;
  set_left y x;;
  set_parent x y.

Definition right (x : option ptr) (root : ptr) : M D unit :=
  y <- get _left x;
  yr <- get _right y;
  set_left x yr;;
  yr <- get _right y;
  (if decide (yr ≠ None) then set_parent yr x else ret tt);;
  xp <- get _parent x;
  set_parent y xp;;
  r <- get _parent (Some root);
  (if decide (x = r) then set_parent (Some root) y
   else
     xp <- get _parent x;
     xpr <- get _right xp;
     if decide (x = xpr) then set_right xp y else set_left xp y);;
  set_right y x;;
  set_parent x y.

(** [for (;;) { ... if (p == unbalanced) break; leaf = p; }] *)
Fixpoint update_loop (fuel : nat) (leaf unbalanced : option ptr) : M D unit :=
  match fuel with
  | O => fail OutOfFuel
  | S fuel =>
      p <- get _parent leaf;
      pl <- get _left p;
      b <- get _balance p;
      (if decide (pl = leaf) then set_balance p (b - 1)
       else set_balance p (b + 1));;
      if decide (p = unbalanced) then ret tt
      else update_loop fuel p unbalanced
  end.

Definition update (leaf unbalanced : option ptr) (root : ptr) : M D unit :=
  with_fuel (λ fuel, update_loop fuel leaf unbalanced).

Definition policy : Policy D :=
  {| rotation_left := left; rotation_right := right; updater_update := update |}.
End AVL.
End AVL.

(** ** class [avl_tree] *)

(** The tree object: the address of its embedded [_header] node and the
    [_node_count] member (a [size_t], 64 bits here). *)
Record avl_tree := Avl_tree {
  _header : ptr;
  _node_count : Z
}.

Module Tree.
Section Tree.
Context {K V : Type}.
(** [_compare]: the [Compare] template parameter. *)
Context (compare : K → K → bool).
Context `{!ValueInit K, !ValueInit V}.
Context {P : Policy (K * V)}.

Abbreviation D := (K * V)%type.
Abbreviation N := (M D).

(** [avl_tree()]: the header is the only node; [_node_count] is not
    initialised by the constructor, [garbage] is what it holds. *)
Definition avl_tree_new (garbage : Z) : N avl_tree :=
  hd <- allocate value_init;
  set_left hd hd;;
  set_right hd hd;;
  set_parent hd None;;
  set_balance hd 0;;
  match hd with
  | Some a => ret (Avl_tree a garbage)
  | None => fail NullDeref
  end.

Definition _end (t : avl_tree) : option ptr := Some (_header t).
(** [_begin()] is the root, [begin()] the leftmost node. *)
Definition _begin (t : avl_tree) : N (option ptr) := get _parent (_end t).
Definition begin (t : avl_tree) : N (option ptr) := get _left (_end t).
Definition end_ (t : avl_tree) : option ptr := _end t.

(** [while (x != 0) if (!_compare(x->_value.first, k)) y = x, x = _left(x);
    else x = _right(x);] *)
Fixpoint find_loop (fuel : nat) (k : K) (x y : option ptr) : N (option ptr) :=
  match x with
  | None => ret y
  | Some _ =>
      match fuel with
      | O => fail OutOfFuel
      | S fuel =>
          xv <- get _value x;
          if negb (compare xv.1 k) then
            xl <- get _left x;
            find_loop fuel k xl x
          else
            xr <- get _right x;
            find_loop fuel k xr y
      end
  end.

Definition find (t : avl_tree) (k : K) : N (option ptr) :=
  x <- _begin t;
  j <- with_fuel (λ fuel, find_loop fuel k x (_end t));
  if decide (j = end_ t) then ret (end_ t)
  else
    jv <- get _value j;
    if compare k jv.1 then ret (end_ t) else ret j.

(** [_rebalance]: the [switch] on the balance of the candidate.  A
    [switch] without a matching [case] falls through to its end. *)
Definition _rebalance (t : avl_tree) (unbalanced : option ptr) : N unit :=
  let root := _header t in
  b <- get _balance unbalanced;
  if decide (b = 2) then
    right <- get _right unbalanced;
    rb <- get _balance right;
    (if decide (rb = 1) then
       set_balance unbalanced 0;;
       set_balance right 0
     else
       rl <- get _left right;
       rlb <- get _balance rl;
       (if decide (rlb = 1) then
          set_balance unbalanced (-1);;
          set_balance right 0
        else if decide (rlb = 0) then
          set_balance unbalanced 0;;
          set_balance right 0
        else if decide (rlb = -1) then
          set_balance unbalanced 0;;
          set_balance right 1
        else ret tt);;
       rl <- get _left right;
       set_balance rl 0;;
       rotation_right right root);;
    rotation_left unbalanced root
  else if decide (b = -2) then
    left <- get _left unbalanced;
    lb <- get _balance left;
    (if decide (lb = -1) then
       set_balance unbalanced 0;;
       set_balance left 0
     else
       lr <- get _right left;
       lrb <- get _balance lr;
       (if decide (lrb = 1) then
          set_balance unbalanced 0;;
          set_balance left (-1)
        else if decide (lrb = 0) then
          set_balance unbalanced 0;;
          set_balance left 0
        else if decide (lrb = -1) then
          set_balance unbalanced 1;;
          set_balance left 0
        else ret tt);;
       lr <- get _right left;
       set_balance lr 0;;
       rotation_left left root);;
    rotation_right unbalanced root
  else ret tt.

Definition _insert (t : avl_tree) (insert_left : bool) (p : option ptr)
    (v : D) (unbalanced : option ptr) : N (option ptr * avl_tree) :=
  leaf <- allocate v;
  set_parent leaf p;;
  set_left leaf None;;
  set_right leaf None;;
  set_balance leaf 0;;
  (if bool_decide (p = _end t) || insert_left then
     set_left p leaf;;
     if decide (p = Some (_header t)) then
       set_parent (Some (_header t)) leaf;;
       set_right (Some (_header t)) leaf
     else
       hl <- get _left (Some (_header t));
       if decide (p = hl) then set_left (Some (_header t)) leaf else ret tt
   else
     set_right p leaf;;
     hr <- get _right (Some (_header t));
     if decide (p = hr) then set_right (Some (_header t)) leaf else ret tt);;
  updater_update leaf unbalanced (_header t);;
  (if decide (unbalanced ≠ _end t) then _rebalance t unbalanced else ret tt);;
  ret (leaf, Avl_tree (_header t) ((_node_count t + 1) mod 2 ^ 64)).

(** [while (x != NULL) { if (x->_balance != 0) unbalanced = x; y = x;
    comp = _compare(v.first, x->_value.first);
    x = comp ? _left(x) : _right(x); }] *)
Fixpoint insert_loop (fuel : nat) (k : K) (x y unbalanced : option ptr)
    (comp : bool) : N (option ptr * option ptr * bool) :=
  match x with
  | None => ret (y, unbalanced, comp)
  | Some _ =>
      match fuel with
      | O => fail OutOfFuel
      | S fuel =>
          b <- get _balance x;
          let unbalanced := if decide (b ≠ 0) then x else unbalanced in
          xv <- get _value x;
          let comp := compare k xv.1 in
          x' <- (if comp then get _left x else get _right x);
          insert_loop fuel k x' x unbalanced comp
      end
  end.

Definition insert (t : avl_tree) (v : D) : N ((option ptr * bool) * avl_tree) :=
  x <- _begin t;
  '(y, unbalanced, comp) <-
    with_fuel (λ fuel, insert_loop fuel v.1 x (_end t) (_end t) true);
  let do_insert :=
    '(it, t') <- _insert t comp y v unbalanced;
    ret ((it, true), t') in
  let check (j : option ptr) :=
    jv <- get _value j;
    if compare jv.1 v.1 then do_insert else ret ((j, false), t) in
  if comp then
    b <- begin t;
    if decide (y = b) then do_insert
    else
      j <- _avl_tree_decrement y;
      check j
  else check y.

(** [for (i = 0; i < n; ++i) t.insert(v[i]);] *)
Fixpoint insert_all (t : avl_tree) (l : list D) : N avl_tree :=
  match l with
  | [] => ret t
  | v :: l => '(_, t') <- insert t v; insert_all t' l
  end.

(** A tree made by the default constructor and filled by [insert]. *)
Definition build (garbage : Z) (l : list D) : N avl_tree :=
  t <- avl_tree_new garbage;
  insert_all t l.

(** From [begin()] to [end()] by [operator++], collecting what
    [operator*] gives at each position. *)
Fixpoint walk (fuel : nat) (it e : option ptr) : N (list D) :=
  if decide (it = e) then ret []
  else
    match fuel with
    | O => fail OutOfFuel
    | S fuel =>
        v <- get _value it;
        it' <- _avl_tree_increment it;
        rest <- walk fuel it' e;
        ret (v :: rest)
    end.

Definition traverse (t : avl_tree) : N (list D) :=
  b <- begin t;
  with_fuel (λ fuel, walk fuel b (end_ t)).

(** [_clone_node]: the copy has the payload and the balance of [x],
    null children, and a parent link the caller assigns. *)
Definition _clone_node (x : option ptr) : N (option ptr) :=
  xv <- get _value x;
  tmp <- allocate xv;
  xb <- get _balance x;
  set_balance tmp xb;;
  set_left tmp None;;
  set_right tmp None;;
  ret tmp.

(** [_copy]: recursion on right children, the loop walks left.  The
    fuel bounds the recursion depth and the loop together. *)
Fixpoint _copy (fuel : nat) (x p : option ptr) : N (option ptr) :=
  match fuel with
  | O => fail OutOfFuel
  | S fuel =>
      top <- _clone_node x;
      set_parent top p;;
      xr <- get _right x;
      (if decide (xr ≠ None) then
         c <- _copy fuel xr top;
         set_right top c
       else ret tt);;
      xl <- get _left x;
      _copy_loop fuel xl top;;
      ret top
  end
with _copy_loop (fuel : nat) (x p : option ptr) : N unit :=
  match fuel with
  | O => fail OutOfFuel
  | S fuel =>
      match x with
      | None => ret tt
      | Some _ =>
          y <- _clone_node x;
          set_left p y;;
          set_parent y p;;
          xr <- get _right x;
          (if decide (xr ≠ None) then
             c <- _copy fuel xr y;
             set_right y c
           else ret tt);;
          xl <- get _left x;
          _copy_loop fuel xl y
      end
  end.

(** [avl_tree(const avl_tree& o)]: [_header(o._header)] copies the
    header node of [o] field by field, links included. *)
Definition avl_tree_copy (o : avl_tree) : N avl_tree :=
  oh <- load (Some (_header o));
  hd <- allocate (_value oh);
  store (λ _, oh) hd;;
  match hd with
  | None => fail NullDeref
  | Some a =>
      let t := Avl_tree a (_node_count o) in
      op <- get _parent (Some (_header o));
      (if decide (op ≠ None) then
         ob <- _begin o;
         c <- with_fuel (λ fuel, _copy fuel ob (_end t));
         set_parent hd c;;
         r <- get _parent hd;
         set_parent r hd;;
         r <- get _parent hd;
         leftmost <- with_fuel (λ fuel, descend_left fuel r);
         set_left hd leftmost;;
         r <- get _parent hd;
         rightmost <- with_fuel (λ fuel, descend_right fuel r);
         set_right hd rightmost
       else ret tt);;
      ret t
  end.

(** [_alloc.deallocate(x, 1)], after the payload of the node is
    destroyed: the node leaves the store.  Freeing what is not
    allocated is an error. *)
Definition deallocate (x : option ptr) : N unit :=
  λ h, match x with
       | None => Err NullDeref
       | Some a => match h !! a with
                   | Some _ => Ok (tt, delete a h)
                   | None => Err DanglingDeref
                   end
       end.

(** [_erase]: [while (x != NULL) { _erase(_right(x)); y = _left(x);
    destroy and deallocate x; x = y; }].  The recursive call erases
    the right subtree, the loop goes on with the left child; the fuel
    bounds the recursion depth and the loop together. *)
Fixpoint _erase (fuel : nat) (x : option ptr) : N unit :=
  match x with
  | None => ret tt
  | Some _ =>
      match fuel with
      | O => fail OutOfFuel
      | S fuel =>
          xr <- get _right x;
          _erase fuel xr;;
          y <- get _left x;
          deallocate x;;
          _erase fuel y
      end
  end.

(** [~avl_tree()]: [_erase(_begin())].  The header is a member of the
    tree object, not a node of its own allocation. *)
Definition avl_tree_destroy (t : avl_tree) : N unit :=
  x <- _begin t;
  with_fuel (λ fuel, _erase fuel x).
End Tree.
End Tree.

(** ** [interval_tree.hpp] *)

(** [interval_tree_value<Key, Data>]: the augmentation and the user's data. *)
Record interval_tree_value (Data : Type) := Interval_tree_value {
  max : Z;
  min : Z;
  data : Data
}.
Arguments Interval_tree_value {Data}.
Arguments max {Data}.
Arguments min {Data}.
Arguments data {Data}.

Global Instance interval_tree_value_init {Data} `{ValueInit Data}
  : ValueInit (interval_tree_value Data) :=
  Interval_tree_value 0 0 value_init.

(** [std::pair<const Key, const Key>], with [Key] an integer type and
    [Compare] the default [std::less<Key>]. *)
Abbreviation interval_type := (Z * Z)%type.

Definition key_compare (x y : Z) : bool := bool_decide (x < y).

(** Order the intervals by increasing lower bounds. *)
Definition Interval_Compare (x y : interval_type) : bool :=
  key_compare x.1 y.1.

(** Overlapping predicate. *)
Definition Interval_overlap (x y : interval_type) : bool :=
  key_compare x.1 y.2 && key_compare y.1 x.2.

Definition STACK_SIZE : Z := 64.

Definition with_max {Data} (v : Z) (x : interval_tree_value Data) :=
  Interval_tree_value v (min x) (data x).
Definition with_min {Data} (v : Z) (x : interval_tree_value Data) :=
  Interval_tree_value (max x) v (data x).

Module Interval.
Section Interval.
Context {Data : Type}.
Abbreviation D := (interval_type * interval_tree_value Data)%type.
Abbreviation N := (M D).

Definition set_max (p : option ptr) (v : Z) : N unit :=
  store (λ n, with_value ((_value n).1, with_max v (_value n).2) n) p.
Definition set_min (p : option ptr) (v : Z) : N unit :=
  store (λ n, with_value ((_value n).1, with_min v (_value n).2) n) p.
Definition get_max (p : option ptr) : N Z := get (λ n, max (_value n).2) p.
Definition get_min (p : option ptr) : N Z := get (λ n, min (_value n).2) p.

(** [max_subtree] and [min_subtree] are references to the two fields
    of [node]: every assignment goes to the store. *)
Definition _update_min_max (x : option ptr) : N unit :=
  let node := x in
  p <- get _parent node;
  m <- get_max node;
  set_max p m;;
  p <- get _parent node;
  m <- get_min node;
  set_min p m;;
  i <- get (λ n, (_value n).1) node;
  set_max node i.2;;
  i <- get (λ n, (_value n).1) node;
  set_min node i.1;;
  l <- get _left node;
  (if decide (l ≠ None) then
     a <- get_max node;
     b <- get_max l;
     set_max node (Z.max a b);;
     a <- get_min node;
     b <- get_min l;
     set_min node (Z.min a b)
   else ret tt);;
  r <- get _right node;
  (if decide (r ≠ None) then
     a <- get_max node;
     b <- get_max r;
     set_max node (Z.max a b);;
     a <- get_min node;
     b <- get_min r;
     set_min node (Z.min a b)
   else ret tt).

Definition left (x : option ptr) (root : ptr) : N unit :=
  AVL.left x root;;
  _update_min_max x.

Definition right (x : option ptr) (root : ptr) : N unit :=
  AVL.right x root;;
  _update_min_max x.

(** [for (;;) { ... if (p == root) break;
    if (p == unbalanced) unbalance_switch = true; leaf = p; }] *)
Fixpoint update_loop (fuel : nat) (leaf unbalanced : option ptr) (root : ptr)
    (unbalance_switch : bool) : N unit :=
  match fuel with
  | O => fail OutOfFuel
  | S fuel =>
      p <- get _parent leaf;
      (if negb unbalance_switch then
         pl <- get _left p;
         b <- get _balance p;
         if decide (pl = leaf) then set_balance p (b - 1)
         else set_balance p (b + 1)
       else ret tt);;
      a <- get_max leaf;
      b <- get_max p;
      set_max p (Z.max a b);;
      a <- get_min leaf;
      b <- get_min p;
      set_min p (Z.min a b);;
      r <- get _parent (Some root);
      if decide (p = r) then ret tt
      else
        let unbalance_switch :=
          if decide (p = unbalanced) then true else unbalance_switch in
        update_loop fuel p unbalanced root unbalance_switch
  end.

Definition update (x unbalanced : option ptr) (root : ptr) : N unit :=
  with_fuel (λ fuel, update_loop fuel x unbalanced root false).

Definition policy : Policy D :=
  {| rotation_left := left; rotation_right := right; updater_update := update |}.
End Interval.
End Interval.

(** [_interval_const_iterator<Tree>]; [_interval_iterator<Tree>] has the
    same members and the same [_forward]. *)
Record _interval_const_iterator := Interval_iterator {
  _node : option ptr;
  _interval : interval_type;
  _end : option ptr;
  _stack : list (option ptr);
  _sp : Z
}.

Module Iterator.
Section Iterator.
Context {Data : Type}.
Abbreviation D := (interval_type * interval_tree_value Data)%type.
Abbreviation N := (M D).

(** [_stack[_sp++] = p]: a write at an index outside the array is an
    error of the run. *)
Definition push (it : _interval_const_iterator) (p : option ptr)
  : N _interval_const_iterator :=
  if decide (0 ≤ _sp it < STACK_SIZE) then
    ret (Interval_iterator (_node it) (_interval it) (_end it)
           (<[Z.to_nat (_sp it) := p]> (_stack it)) (_sp it + 1))
  else fail StackOverflow.

(** [_node = _stack[--_sp]] *)
Definition pop (it : _interval_const_iterator) : N _interval_const_iterator :=
  let sp := _sp it - 1 in
  match _stack it !! Z.to_nat sp with
  | Some p =>
      if decide (0 ≤ sp) then
        ret (Interval_iterator p (_interval it) (_end it) (_stack it) sp)
      else fail StackOverflow
  | None => fail StackOverflow
  end.

(** One turn of the [while] loop of [_forward]: the node taken from
    the stack, its children pushed where the augmentation allows an
    overlap below them, and whether the node itself overlaps. *)
Definition _forward_step (it : _interval_const_iterator)
  : N (_interval_const_iterator * bool) :=
  it <- pop it;
  l <- get _left (_node it);
  go_left <- (if decide (l ≠ None) then
                m <- Interval.get_max l;
                ret (key_compare (_interval it).1 m)
              else ret false);
  it <- (if go_left : bool then push it l else ret it);
  r <- get _right (_node it);
  go_right <- (if decide (r ≠ None) then
                 m <- Interval.get_min r;
                 ret (key_compare m (_interval it).2)
               else ret false);
  it <- (if go_right : bool then push it r else ret it);
  i <- get (λ n, (_value n).1) (_node it);
  ret (it, Interval_overlap (_interval it) i).

(** [while (_sp > 0) { ...; if (_overlap(...)) return; } _node = _end;] *)
Fixpoint _forward_loop (fuel : nat) (it : _interval_const_iterator)
  : N _interval_const_iterator :=
  if decide (_sp it > 0) then
    match fuel with
    | O => fail OutOfFuel
    | S fuel =>
        '(it, found) <- _forward_step it;
        if found : bool then ret it else _forward_loop fuel it
    end
  else
    ret (Interval_iterator (_end it) (_interval it) (_end it) (_stack it) (_sp it)).

Definition _forward (it : _interval_const_iterator) : N _interval_const_iterator :=
  with_fuel (λ fuel, _forward_loop fuel it).

(** The constructor: the array and [_node] start uninitialised. *)
Definition new (root : option ptr) (i : interval_type) (e : option ptr)
  : N _interval_const_iterator :=
  it <- push (Interval_iterator None i e (replicate (Z.to_nat STACK_SIZE) None) 0) root;
  _forward it.

(** [operator++] *)
Definition incr (it : _interval_const_iterator) : N _interval_const_iterator :=
  _forward it.

(** [operator*], the stored entry as the user sees it. *)
Definition deref (it : _interval_const_iterator) : N D :=
  get _value (_node it).

(** [operator==] and [operator!=] compare [_node] only. *)
Definition eqb (x y : _interval_const_iterator) : bool :=
  bool_decide (_node x = _node y).
End Iterator.
End Iterator.

(** class [interval_tree]: the [avl_tree] base, [_dummy_interval] and [_end]. *)
Record interval_tree := Interval_tree {
  base : avl_tree;
  _dummy_interval : interval_type;
  _end_it : _interval_const_iterator
}.

Module IntervalTree.
Section IntervalTree.
Context {Data : Type} `{!ValueInit Data}.
Abbreviation D := (interval_type * interval_tree_value Data)%type.
Abbreviation N := (M D).

Local Instance interval_policy : Policy D := Interval.policy.

(** [interval_tree()]: the base constructor, then the members in
    declaration order; [_end] is a query for [_dummy_interval] that
    starts at the header. *)
Definition interval_tree_new (garbage : Z) : N interval_tree :=
  b <- Tree.avl_tree_new garbage;
  let dummy : interval_type := value_init in
  e <- Iterator.new (Some (_header b)) dummy (Some (_header b));
  ret (Interval_tree b dummy e).

Definition interval_tree_copy (o : interval_tree) : N interval_tree :=
  b <- Tree.avl_tree_copy (base o);
  let dummy : interval_type := value_init in
  e <- Iterator.new (Some (_header b)) dummy (Some (_header b));
  ret (Interval_tree b dummy e).

(** Find all intervals overlapping interval [i]. *)
Definition equal_range (t : interval_tree) (i : interval_type)
  : N _interval_const_iterator :=
  root <- get _parent (Some (_header (base t)));
  Iterator.new root i (Some (_header (base t))).

(** Find all intervals containing the key [k]. *)
Definition equal_range_key (t : interval_tree) (k : Z) : N _interval_const_iterator :=
  equal_range t (k, k).

(** [insert] returns [void]: the pair of the base [insert] is dropped. *)
Definition insert (t : interval_tree) (x : interval_type * Data) : N (unit * interval_tree) :=
  let data := Interval_tree_value x.1.2 x.1.1 x.2 in
  '(_, b) <- Tree.insert Interval_Compare (base t) (x.1, data);
  ret (tt, Interval_tree b (_dummy_interval t) (_end_it t)).

Definition end_ (t : interval_tree) : _interval_const_iterator := _end_it t.

(** [for (i = 0; i < n; ++i) t.insert(x[i]);] *)
Fixpoint insert_all (t : interval_tree) (l : list (interval_type * Data))
  : N interval_tree :=
  match l with
  | [] => ret t
  | x :: l => '(_, t') <- insert t x; insert_all t' l
  end.

Definition build (garbage : Z) (l : list (interval_type * Data)) : N interval_tree :=
  t <- interval_tree_new garbage;
  insert_all t l.

(** From [it] to [end()] by [operator++], collecting what [operator*]
    gives at each position. *)
Fixpoint drain (fuel : nat) (it e : _interval_const_iterator) : N (list D) :=
  if Iterator.eqb it e then ret []
  else
    match fuel with
    | O => fail OutOfFuel
    | S fuel =>
        v <- Iterator.deref it;
        it' <- Iterator.incr it;
        rest <- drain fuel it' e;
        ret (v :: rest)
    end.

(** Everything the query [equal_range(i)] yields before it reaches
    [end()]. *)
Definition overlapping (t : interval_tree) (i : interval_type) : N (list D) :=
  it <- equal_range t i;
  with_fuel (λ fuel, drain fuel it (end_ t)).

(** The same loop over [equal_range(k)]. *)
Definition containing (t : interval_tree) (k : Z) : N (list D) :=
  it <- equal_range_key t k;
  with_fuel (λ fuel, drain fuel it (end_ t)).
End IntervalTree.
End IntervalTree.


(** * Abstraction: the tree a store represents *)

(** ** Running the monad *)

Section Run.
Context {D : Type}.
Implicit Types (h : heap D) (a : ptr) (n : node D).

Lemma bind_ret_l {A B} (x : A) (k : A → M D B) h : bind (ret x) k h = k x h.
Proof. reflexivity. Qed.

Lemma bind_assoc {A B C} (m : M D A) (k : A → M D B) (k' : B → M D C) h :
  bind (bind m k) k' h = bind m (λ x, bind (k x) k') h.
Proof. unfold bind. destruct (m h) as [[x h']|]; reflexivity. Qed.

Lemma bind_ok {A B} (m : M D A) (k : A → M D B) h x h' :
  m h = Ok (x, h') → bind m k h = k x h'.
Proof. unfold bind. intros ->. reflexivity. Qed.

Lemma get_ok {A} (f : node D → A) a n h :
  h !! a = Some n → get f (Some a) h = Ok (f n, h).
Proof. unfold get, bind, load, ret. intros ->. reflexivity. Qed.

Lemma store_ok (u : node D → node D) a n h :
  h !! a = Some n → store u (Some a) h = Ok (tt, <[a := u n]> h).
Proof. unfold store. intros ->. reflexivity. Qed.

Lemma bind_get {A B} (f : node D → A) (k : A → M D B) a n h :
  h !! a = Some n → bind (get f (Some a)) k h = k (f n) h.
Proof. intros H. apply bind_ok, get_ok, H. Qed.

Lemma bind_store {B} (u : node D → node D) (k : unit → M D B) a n h :
  h !! a = Some n → bind (store u (Some a)) k h = k tt (<[a := u n]> h).
Proof. intros H. apply bind_ok, store_ok, H. Qed.

Lemma fuel_of_insert a n n' h :
  h !! a = Some n → fuel_of (<[a := n']> h) = fuel_of h.
Proof.
  intros H. unfold fuel_of. f_equal.
  rewrite <- (insert_id h a n) at 2 by done.
  rewrite <- (insert_delete_eq h a n'), <- (insert_delete_eq h a n).
  rewrite !map_size_insert_None by apply lookup_delete_eq. done.
Qed.
End Run.

(** ** Trees, contexts, and what it means for a store to hold them *)

(** A node of the abstract tree: its address, balance and payload. *)
Record info (D : Type) := Info { addr : ptr; bal : Z; val : D }.
Arguments Info {D}.
Arguments addr {D}.
Arguments bal {D}.
Arguments val {D}.

Inductive tree (D : Type) := E | T (l : tree D) (n : info D) (r : tree D).
Arguments E {D}.
Arguments T {D}.

Inductive dir := L | R.

(** A context is the path from a hole up to the root: for each
    ancestor, the side the hole is on, the ancestor, and its other
    subtree. *)
Abbreviation frame D := (dir * info D * tree D)%type.
Abbreviation ctx D := (list (frame D)).

Section Rep.
Context {D : Type}.
Implicit Types (h : heap D) (a : ptr).
Abbreviation info := (info D).
Abbreviation tree := (tree D).
Abbreviation frame := (frame D).
Abbreviation ctx := (ctx D).

Definition root_ptr (t : tree) : option ptr :=
  match t with E => None | T _ n _ => Some (addr n) end.

Definition cell (par : option ptr) (l : tree) (n : info) (r : tree) : node D :=
  Node par (root_ptr l) (root_ptr r) (bal n) (val n).

Fixpoint tree_at h (par : option ptr) (t : tree) : Prop :=
  match t with
  | E => True
  | T l n r =>
      h !! addr n = Some (cell par l n r)
      ∧ tree_at h (Some (addr n)) l ∧ tree_at h (Some (addr n)) r
  end.

Fixpoint inorder (t : tree) : list info :=
  match t with E => [] | T l n r => inorder l ++ n :: inorder r end.

Definition addrs (t : tree) : list ptr := addr <$> inorder t.

Fixpoint height (t : tree) : Z :=
  match t with E => 0 | T l _ r => 1 + Z.max (height l) (height r) end.

Definition fill (f : frame) (s : tree) : tree :=
  match f with
  | (L, n, sib) => T s n sib
  | (R, n, sib) => T sib n s
  end.

Fixpoint plug (s : tree) (c : ctx) : tree :=
  match c with [] => s | f :: c => plug (fill f s) c end.

Definition ctx_parent (top : option ptr) (c : ctx) : option ptr :=
  match c with [] => top | (_, n, _) :: _ => Some (addr n) end.

Definition frame_cell (par hole : option ptr) (f : frame) : node D :=
  match f with
  | (L, n, sib) => Node par hole (root_ptr sib) (bal n) (val n)
  | (R, n, sib) => Node par (root_ptr sib) hole (bal n) (val n)
  end.

Fixpoint ctx_at h (top hole : option ptr) (c : ctx) : Prop :=
  match c with
  | [] => True
  | f :: c =>
      h !! addr f.1.2 = Some (frame_cell (ctx_parent top c) hole f)
      ∧ tree_at h (Some (addr f.1.2)) f.2
      ∧ ctx_at h top (Some (addr f.1.2)) c
  end.

(** In-order contents of a context: what comes before the hole and
    what comes after it. *)
Fixpoint ctx_before (c : ctx) : list info :=
  match c with
  | [] => []
  | (L, _, _) :: c => ctx_before c
  | (R, n, sib) :: c => ctx_before c ++ inorder sib ++ [n]
  end.

Fixpoint ctx_after (c : ctx) : list info :=
  match c with
  | [] => []
  | (L, n, sib) :: c => n :: inorder sib ++ ctx_after c
  | (R, _, _) :: c => ctx_after c
  end.

Definition ctx_root (hole : option ptr) (c : ctx) : option ptr :=
  match last c with Some (_, n, _) => Some (addr n) | None => hole end.

Lemma inorder_plug s c :
  inorder (plug s c) = ctx_before c ++ inorder s ++ ctx_after c.
Proof.
  revert s. induction c as [|[[[] n] sib] c IH]; intros s; simpl.
  - by rewrite app_nil_r.
  - rewrite IH. simpl. by rewrite <- !app_assoc.
  - rewrite IH. simpl. by rewrite <- !app_assoc.
Qed.

Lemma root_ptr_plug s c : root_ptr (plug s c) = ctx_root (root_ptr s) c.
Proof.
  revert s. induction c as [|[[d n] sib] c IH]; intros s; [done|].
  simpl. rewrite IH. unfold ctx_root. rewrite last_cons.
  destruct (last c) as [[[??]?]|] eqn:Hl; [done|].
  by destruct d.
Qed.

Lemma tree_at_plug h top s c :
  tree_at h top (plug s c)
  ↔ tree_at h (ctx_parent top c) s ∧ ctx_at h top (root_ptr s) c.
Proof.
  revert s. induction c as [|[[d n] sib] c IH]; intros s; simpl.
  - tauto.
  - rewrite IH. destruct d; simpl; unfold cell; simpl; tauto.
Qed.

(** Frame: a store that agrees on the addresses of a tree holds the same tree. *)
Lemma tree_at_frame h h' par t :
  (∀ a, a ∈ addrs t → h' !! a = h !! a) → tree_at h par t → tree_at h' par t.
Proof.
  revert par. induction t as [|l IHl n r IHr]; intros par Hf; simpl; [done|].
  intros (Hn & Hl & Hr). unfold addrs in Hf. simpl in Hf.
  split_and!.
  - rewrite Hf; [done|]. set_solver.
  - apply IHl; [|done]. intros a Ha. apply Hf. unfold addrs in Ha. set_solver.
  - apply IHr; [|done]. intros a Ha. apply Hf. unfold addrs in Ha. set_solver.
Qed.

Lemma tree_at_insert_ne h par t a n :
  a ∉ addrs t → tree_at h par t → tree_at (<[a := n]> h) par t.
Proof.
  intros Ha. apply tree_at_frame. intros b Hb.
  apply lookup_insert_ne. congruence.
Qed.

Fixpoint ctx_addrs (c : ctx) : list ptr :=
  match c with
  | [] => []
  | (_, n, sib) :: c => addr n :: addrs sib ++ ctx_addrs c
  end.

Lemma ctx_at_frame h h' top hole c :
  (∀ a, a ∈ ctx_addrs c → h' !! a = h !! a) →
  ctx_at h top hole c → ctx_at h' top hole c.
Proof.
  revert hole. induction c as [|[[d n] sib] c IH]; intros hole Hf; simpl; [done|].
  intros (Hn & Hs & Hc). simpl in Hf.
  split_and!.
  - rewrite Hf; [done|]. apply elem_of_cons; by left.
  - eapply tree_at_frame; [|done]. intros a Ha. apply Hf.
    apply elem_of_cons; right. apply elem_of_app; by left.
  - apply IH; [|done]. intros a Ha. apply Hf.
    apply elem_of_cons; right. apply elem_of_app; by right.
Qed.

Lemma addrs_plug s c :
  addrs (plug s c) = (addr <$> ctx_before c) ++ addrs s ++ (addr <$> ctx_after c).
Proof. unfold addrs. by rewrite inorder_plug, !fmap_app. Qed.

Lemma addrs_T l n r : addrs (T l n r) = addrs l ++ addr n :: addrs r.
Proof. unfold addrs. simpl. by rewrite fmap_app. Qed.

Lemma addrs_fill f s :
  addrs (fill f s) ≡ₚ addrs s ++ addr f.1.2 :: addrs f.2.
Proof.
  destruct f as [[[] n] sib]; simpl; rewrite addrs_T; [done|].
  rewrite (Permutation_app_comm (addrs s)). simpl.
  by rewrite Permutation_middle.
Qed.

Lemma addrs_plug_perm s c : addrs (plug s c) ≡ₚ addrs s ++ ctx_addrs c.
Proof.
  revert s. induction c as [|[[d n] sib] c IH]; intros s.
  - simpl. by rewrite app_nil_r.
  - change (plug s ((d, n, sib) :: c)) with (plug (fill (d, n, sib) s) c).
    rewrite IH, addrs_fill. simpl. by rewrite <- app_assoc.
Qed.

Lemma root_ptr_in t a : root_ptr t = Some a → a ∈ addrs t.
Proof.
  destruct t as [|l n r]; [done|]. simpl. intros [= <-].
  rewrite addrs_T. apply elem_of_app; right. apply elem_of_cons; by left.
Qed.

Lemma ctx_root_cons (f : frame) c :
  ∃ r, r ∈ ctx_addrs (f :: c) ∧ ∀ hole, ctx_root hole (f :: c) = Some r.
Proof.
  revert f. induction c as [|f' c IH]; intros [[d n] s].
  - exists (addr n). split; [|done]. simpl. apply elem_of_cons; by left.
  - destruct (IH f') as (r & Hin & Hr). exists r. split.
    + simpl. apply elem_of_cons; right. apply elem_of_app; by right.
    + intros hole. pose proof (Hr None) as Hn. specialize (Hr hole).
      unfold ctx_root in *.
      rewrite last_cons. destruct (last (f' :: c)); done.
Qed.
End Rep.


(** ** Distinct addresses *)

Definition dj (l k : list ptr) : Prop := ∀ x, x ∈ l → x ∈ k → False.

Lemma NoDup_app_dj (l k : list ptr) : NoDup (l ++ k) ↔ NoDup l ∧ dj l k ∧ NoDup k.
Proof. rewrite NoDup_app. unfold dj. naive_solver. Qed.
Lemma dj_app_l l1 l2 k : dj (l1 ++ l2) k ↔ dj l1 k ∧ dj l2 k.
Proof. unfold dj. setoid_rewrite elem_of_app. naive_solver. Qed.
Lemma dj_app_r l k1 k2 : dj l (k1 ++ k2) ↔ dj l k1 ∧ dj l k2.
Proof. unfold dj. setoid_rewrite elem_of_app. naive_solver. Qed.
Lemma dj_cons_l a l k : dj (a :: l) k ↔ a ∉ k ∧ dj l k.
Proof. unfold dj. setoid_rewrite elem_of_cons. naive_solver. Qed.
Lemma dj_cons_r a l k : dj l (a :: k) ↔ a ∉ l ∧ dj l k.
Proof. unfold dj. setoid_rewrite elem_of_cons. naive_solver. Qed.
Lemma dj_nil_l k : dj [] k ↔ True.
Proof. unfold dj. setoid_rewrite elem_of_nil. naive_solver. Qed.
Lemma dj_nil_r l : dj l [] ↔ True.
Proof. unfold dj. setoid_rewrite elem_of_nil. naive_solver. Qed.
Lemma not_elem_of_app_iff (a : ptr) l k : a ∉ l ++ k ↔ a ∉ l ∧ a ∉ k.
Proof. rewrite elem_of_app. tauto. Qed.
Lemma not_elem_of_cons_iff (a b : ptr) l : a ∉ b :: l ↔ a ≠ b ∧ a ∉ l.
Proof. rewrite elem_of_cons. tauto. Qed.

(** Break every [NoDup] hypothesis into atomic facts. *)
Ltac dj_split :=
  repeat match goal with
  | H : NoDup (_ :: _) |- _ => apply NoDup_cons in H; destruct H
  | H : NoDup (_ ++ _) |- _ => apply NoDup_app_dj in H; destruct H as (? & ? & ?)
  | H : NoDup [] |- _ => clear H
  | H : dj (_ ++ _) _ |- _ => apply dj_app_l in H; destruct H
  | H : dj _ (_ ++ _) |- _ => apply dj_app_r in H; destruct H
  | H : dj (_ :: _) _ |- _ => apply dj_cons_l in H; destruct H
  | H : dj _ (_ :: _) |- _ => apply dj_cons_r in H; destruct H
  | H : dj [] _ |- _ => clear H
  | H : dj _ [] |- _ => clear H
  | H : _ ∉ _ ++ _ |- _ => apply not_elem_of_app_iff in H; destruct H
  | H : _ ∉ _ :: _ |- _ => apply not_elem_of_cons_iff in H; destruct H
  | H : _ ∉ [] |- _ => clear H
  | H : _ ∈ _ ++ _ |- _ => apply elem_of_app in H; destruct H
  | H : _ ∈ _ :: _ |- _ => apply elem_of_cons in H; destruct H
  | H : _ ∈ [] |- _ => by apply elem_of_nil in H
  end.

(** Close a goal [a ≠ b] from atomic distinctness facts. *)
Ltac neq :=
  first
    [ assumption
    | apply not_eq_sym; assumption
    | let E := fresh in
      intros E;
      first
        [ match goal with
          | H1 : ?a ∈ ?l, H2 : ?b ∉ ?l |- _ =>
              first [ rewrite E in H1; exact (H2 H1)
                    | rewrite <- E in H1; exact (H2 H1) ]
          | H1 : ?a ∈ ?l, H2 : ?b ∈ ?k, H : dj ?l ?k |- _ =>
              first [ rewrite E in H1; exact (H _ H1 H2)
                    | rewrite <- E in H1; exact (H _ H1 H2) ]
          end
        | congruence ] ].

Ltac hlook :=
  repeat first
    [ rewrite lookup_insert_eq
    | rewrite lookup_insert_ne by neq ];
  first [eassumption | reflexivity].

Arguments bind : simpl never.
Arguments get : simpl never.
Arguments store : simpl never.
Arguments load : simpl never.
Arguments ret : simpl never.
Arguments fail : simpl never.
Arguments fuel_of : simpl never.

Ltac unfold_with :=
  unfold with_parent, with_left, with_right, with_balance, with_value.

Ltac unfold_set :=
  unfold set_parent, set_left, set_right, set_balance, set_value.

Ltac mstep :=
  lazymatch goal with
  | |- bind (ret _) _ _ = _ => rewrite bind_ret_l
  | |- bind (bind _ _) _ _ = _ => rewrite bind_assoc
  | |- bind (get _ (Some _)) _ _ = _ => erewrite bind_get by hlook
  | |- bind (store _ (Some _)) _ _ = _ => erewrite bind_store by hlook
  | |- get _ (Some _) _ = _ => erewrite get_ok by hlook
  | |- store _ (Some _) _ = _ => erewrite store_ok by hlook
  | |- bind (set_parent _ _) _ _ = _ => unfold set_parent at 1
  | |- bind (set_left _ _) _ _ = _ => unfold set_left at 1
  | |- bind (set_right _ _) _ _ = _ => unfold set_right at 1
  | |- bind (set_balance _ _) _ _ = _ => unfold set_balance at 1
  | |- bind (set_value _ _) _ _ = _ => unfold set_value at 1
  | |- set_parent _ _ _ = _ => unfold set_parent at 1
  | |- set_left _ _ _ = _ => unfold set_left at 1
  | |- set_right _ _ _ = _ => unfold set_right at 1
  | |- set_balance _ _ _ = _ => unfold set_balance at 1
  | |- set_value _ _ _ = _ => unfold set_value at 1
  end;
  unfold_with; simpl.

Ltac mdec :=
  lazymatch goal with
  | |- bind (if _ then _ else _) _ _ = _ => idtac
  | |- (if _ then _ else _) _ = _ => idtac
  | |- bind (match _ with _ => _ end) _ _ = _ => idtac
  | |- (match _ with _ => _ end) _ = _ => idtac
  end;
  first [ rewrite decide_True by (first [done | congruence])
        | rewrite decide_False by
            (first [done | congruence
                   | let E := fresh in intros E; injection E; neq
                   | let E := fresh in
                     intros E; first [symmetry in E|idtac]; apply root_ptr_in in E;
                     match goal with H : _ ∉ _ |- _ => exact (H E) end ]) ];
  simpl.

Ltac mrun := repeat first [mstep | mdec].

Ltac frame_tac :=
  match goal with
  | H : tree_at ?h ?p ?t |- tree_at _ ?p ?t =>
      eapply tree_at_frame; [|exact H];
      let a := fresh "a" in let Ha := fresh "Ha" in
      intros a Ha; rewrite ?lookup_insert_ne by neq; reflexivity
  | H : ctx_at ?h ?top ?p ?c |- ctx_at _ ?top ?p ?c =>
      eapply ctx_at_frame; [|exact H];
      let a := fresh "a" in let Ha := fresh "Ha" in
      intros a Ha; rewrite ?lookup_insert_ne by neq; reflexivity
  end.


Section Whole.
Context {D : Type}.
Implicit Types (h : heap D) (a : ptr) (t : tree D) (c : ctx D).

Definition leftmost (hdr : ptr) t : ptr := default hdr (head (addrs t)).
Definition rightmost (hdr : ptr) t : ptr := default hdr (last (addrs t)).

Definition header_cell (hdr : ptr) (hb : Z) (hv : D) t : node D :=
  Node (root_ptr t) (Some (leftmost hdr t)) (Some (rightmost hdr t)) hb hv.

(** The store holds the tree [t] under the header at [hdr]. *)
Definition rep h (hdr : ptr) (hb : Z) (hv : D) t : Prop :=
  NoDup (hdr :: addrs t)
  ∧ tree_at h (Some hdr) t
  ∧ h !! hdr = Some (header_cell hdr hb hv t).

Lemma NoDup_plug hdr s c :
  NoDup (hdr :: addrs (plug s c)) ↔ NoDup (hdr :: addrs s ++ ctx_addrs c).
Proof. by rewrite addrs_plug_perm. Qed.

(** What a rewrite of the focused subtree has to establish. *)
Lemma rep_plug_intro h hdr hb hv s c lm rm :
  NoDup (hdr :: addrs (plug s c)) →
  lm = leftmost hdr (plug s c) → rm = rightmost hdr (plug s c) →
  tree_at h (ctx_parent (Some hdr) c) s →
  ctx_at h (Some hdr) (root_ptr s) c →
  h !! hdr = Some (Node (ctx_root (root_ptr s) c) (Some lm) (Some rm) hb hv) →
  rep h hdr hb hv (plug s c).
Proof.
  intros Hnd -> -> Hs Hc Hh. split_and!; [done| |].
  - apply tree_at_plug. done.
  - unfold header_cell. by rewrite root_ptr_plug.
Qed.

Lemma rep_plug_elim h hdr hb hv s c :
  rep h hdr hb hv (plug s c) →
  NoDup (hdr :: addrs s ++ ctx_addrs c)
  ∧ tree_at h (ctx_parent (Some hdr) c) s
  ∧ ctx_at h (Some hdr) (root_ptr s) c
  ∧ h !! hdr = Some (Node (ctx_root (root_ptr s) c)
                       (Some (leftmost hdr (plug s c)))
                       (Some (rightmost hdr (plug s c))) hb hv).
Proof.
  intros (Hnd & Ht & Hh). apply NoDup_plug in Hnd.
  apply tree_at_plug in Ht as [Hs Hc].
  unfold header_cell in Hh. rewrite root_ptr_plug in Hh. done.
Qed.

Lemma rep_lookup h hdr hb hv l n r c :
  rep h hdr hb hv (plug (T l n r) c) →
  h !! addr n = Some (cell (ctx_parent (Some hdr) c) l n r).
Proof. intros H. apply rep_plug_elim in H as (_ & (H & _) & _). done. Qed.

Lemma rep_header h hdr hb hv t :
  rep h hdr hb hv t → h !! hdr = Some (header_cell hdr hb hv t).
Proof. by intros (_ & _ & H). Qed.

Lemma addrs_plug_same s s' c :
  addrs s' = addrs s → addrs (plug s' c) = addrs (plug s c).
Proof. intros H. by rewrite !addrs_plug, H. Qed.

(** Rewriting the balance and payload of the node in focus. *)
Lemma rep_set_node h hdr hb hv l n r c b v :
  rep h hdr hb hv (plug (T l n r) c) →
  rep (<[addr n := Node (ctx_parent (Some hdr) c) (root_ptr l) (root_ptr r) b v]> h)
    hdr hb hv (plug (T l (Info (addr n) b v) r) c).
Proof.
  intros Hrep. pose proof Hrep as (Hnd0 & _ & _).
  apply rep_plug_elim in Hrep as (Hnd & (Hx & H1 & H2) & Hc & Hh).
  assert (addrs (plug (T l (Info (addr n) b v) r) c) = addrs (plug (T l n r) c)) as Heq.
  { apply addrs_plug_same. by rewrite !addrs_T. }
  eapply rep_plug_intro; [by rewrite Heq|reflexivity|reflexivity|..].
  - rewrite addrs_T in Hnd. dj_split. simpl. split_and!; try hlook; frame_tac.
  - rewrite addrs_T in Hnd. dj_split. simpl in *. frame_tac.
  - unfold leftmost, rightmost. rewrite Heq.
    rewrite addrs_T in Hnd. dj_split. simpl in *. hlook.
Qed.

Lemma rep_set_header h hdr hb hv t hb' hv' :
  rep h hdr hb hv t →
  rep (<[hdr := header_cell hdr hb' hv' t]> h) hdr hb' hv' t.
Proof.
  intros (Hnd & Ht & Hh). split_and!; [done| |hlook].
  dj_split. frame_tac.
Qed.
End Whole.

Section Rotation.
Context {D : Type}.
Implicit Types (h : heap D) (t : tree D) (c : ctx D).

Lemma AVL_left_spec h hdr hb hv t1 x t2 y t3 c :
  rep h hdr hb hv (plug (T t1 x (T t2 y t3)) c) →
  ∃ h', AVL.left (Some (addr x)) hdr h = Ok (tt, h')
        ∧ rep h' hdr hb hv (plug (T (T t1 x t2) y t3) c).
Proof.
  intros Hrep. pose proof Hrep as (Hnd0 & _ & _).
  apply rep_plug_elim in Hrep as (Hnd & (Hx & H1 & Hy & H2 & H3) & Hc & Hh).
  assert (addrs (plug (T (T t1 x t2) y t3) c) = addrs (plug (T t1 x (T t2 y t3)) c)) as Heq.
  { rewrite !addrs_plug, !addrs_T. f_equal. rewrite <- !app_assoc. simpl.
    by rewrite <- !app_assoc. }
  cut (∃ h', AVL.left (Some (addr x)) hdr h = Ok ((), h')
         ∧ tree_at h' (ctx_parent (Some hdr) c) (T (T t1 x t2) y t3)
         ∧ ctx_at h' (Some hdr) (Some (addr y)) c
         ∧ h' !! hdr = Some (Node (ctx_root (Some (addr y)) c)
                       (Some (leftmost hdr (plug (T t1 x (T t2 y t3)) c)))
                       (Some (rightmost hdr (plug (T t1 x (T t2 y t3)) c))) hb hv)).
  { intros (h' & ? & ? & ? & ?). exists h'. split; [done|].
    eapply rep_plug_intro; [by rewrite Heq|..|done]; [| |done|done].
    - unfold leftmost. by rewrite Heq.
    - unfold rightmost. by rewrite Heq. }
  clear Heq Hnd0.
  generalize dependent (leftmost hdr (plug (T t1 x (T t2 y t3)) c)).
  generalize dependent (rightmost hdr (plug (T t1 x (T t2 y t3)) c)).
  intros rm lm Hh.
  rewrite !addrs_T in Hnd.
  unfold AVL.left, set_right, set_parent, set_left, cell in *. simpl in *.
  destruct t2 as [|t2l n2 t2r];
    [|destruct H2 as (Hn2 & H2l & H2r); unfold cell in Hn2]; simpl in *;
    (destruct c as [|f c];
     [unfold ctx_root in *; simpl in *
     |destruct (ctx_root_cons f c) as (r & Hrin & Hr); rewrite !Hr in *; clear Hr;
      destruct f as [[[] p] sib]; simpl in *; destruct Hc as (Hp & Hsib & Hc)]);
    rewrite ?addrs_T in *; dj_split;
    (eexists; split; [mrun; reflexivity|]);
    split_and!; simpl; try done; try hlook; try frame_tac.
Qed.

Lemma AVL_right_spec h hdr hb hv t1 x t2 y t3 c :
  rep h hdr hb hv (plug (T (T t1 y t2) x t3) c) →
  ∃ h', AVL.right (Some (addr x)) hdr h = Ok (tt, h')
        ∧ rep h' hdr hb hv (plug (T t1 y (T t2 x t3)) c).
Proof.
  intros Hrep. pose proof Hrep as (Hnd0 & _ & _).
  apply rep_plug_elim in Hrep as (Hnd & (Hx & (Hy & H1 & H2) & H3) & Hc & Hh).
  assert (addrs (plug (T t1 y (T t2 x t3)) c) = addrs (plug (T (T t1 y t2) x t3) c)) as Heq.
  { rewrite !addrs_plug, !addrs_T. f_equal. rewrite <- !app_assoc. simpl.
    by rewrite <- !app_assoc. }
  cut (∃ h', AVL.right (Some (addr x)) hdr h = Ok ((), h')
         ∧ tree_at h' (ctx_parent (Some hdr) c) (T t1 y (T t2 x t3))
         ∧ ctx_at h' (Some hdr) (Some (addr y)) c
         ∧ h' !! hdr = Some (Node (ctx_root (Some (addr y)) c)
                       (Some (leftmost hdr (plug (T (T t1 y t2) x t3) c)))
                       (Some (rightmost hdr (plug (T (T t1 y t2) x t3) c))) hb hv)).
  { intros (h' & ? & ? & ? & ?). exists h'. split; [done|].
    eapply rep_plug_intro; [by rewrite Heq|..|done]; [| |done|done].
    - unfold leftmost. by rewrite Heq.
    - unfold rightmost. by rewrite Heq. }
  clear Heq Hnd0.
  generalize dependent (leftmost hdr (plug (T (T t1 y t2) x t3) c)).
  generalize dependent (rightmost hdr (plug (T (T t1 y t2) x t3) c)).
  intros rm lm Hh.
  rewrite !addrs_T in Hnd.
  unfold AVL.right, set_right, set_parent, set_left, cell in *. simpl in *.
  destruct t2 as [|t2l n2 t2r];
    [|destruct H2 as (Hn2 & H2l & H2r); unfold cell in Hn2]; simpl in *;
    (destruct c as [|f c];
     [unfold ctx_root in *; simpl in *
     |destruct (ctx_root_cons f c) as (r & Hrin & Hr); rewrite !Hr in *; clear Hr;
      destruct f as [[[] p] sib]; simpl in *; destruct Hc as (Hp & Hsib & Hc)]);
    rewrite ?addrs_T in *; dj_split;
    (eexists; split; [mrun; reflexivity|]);
    split_and!; simpl; try done; try hlook; try frame_tac.
Qed.
End Rotation.


Section Dom.
Context {D : Type}.
Implicit Types (h : heap D) (t : tree D) (c : ctx D).

Lemma tree_at_dom h par t a : tree_at h par t → a ∈ addrs t → is_Some (h !! a).
Proof.
  revert par. induction t as [|l IHl n r IHr]; intros par; simpl.
  - intros _ Ha. by apply elem_of_nil in Ha.
  - intros (Hn & Hl & Hr). rewrite addrs_T.
    rewrite elem_of_app, elem_of_cons. intros [Ha|[->|Ha]]; eauto.
Qed.

Lemma tree_at_lookup h par t m :
  tree_at h par t → m ∈ inorder t →
  ∃ nd, h !! addr m = Some nd ∧ _value nd = val m ∧ _balance nd = bal m.
Proof.
  revert par. induction t as [|l IHl n r IHr]; intros par; simpl.
  - intros _ Hm. by apply elem_of_nil in Hm.
  - intros (Hn & Hl & Hr) Hm.
    apply elem_of_app in Hm as [Hm|Hm]; [by eapply IHl|].
    apply elem_of_cons in Hm as [->|Hm]; [|by eapply IHr].
    eexists. split; [exact Hn|done].
Qed.

Lemma rep_fresh h hdr hb hv t :
  rep h hdr hb hv t →
  fresh (dom h) ≠ hdr ∧ fresh (dom h) ∉ addrs t ∧ h !! fresh (dom h) = None.
Proof.
  intros (Hnd & Ht & Hh).
  assert (h !! fresh (dom h) = None) as Hf.
  { apply not_elem_of_dom. apply is_fresh. }
  split_and!; [| |done].
  - intros E. rewrite E in Hf. congruence.
  - intros Ha. eapply tree_at_dom in Ha as [? Ha]; [|done]. congruence.
Qed.

Lemma rep_size h hdr hb hv t :
  rep h hdr hb hv t → (length (inorder t) < size h)%nat.
Proof.
  intros (Hnd & Ht & Hh).
  assert (list_to_set (hdr :: addrs t) ⊆ dom h) as Hsub.
  { intros a Ha. apply elem_of_list_to_set in Ha. apply elem_of_dom.
    apply elem_of_cons in Ha as [->|Ha]; [eauto|].
    eapply tree_at_dom; done. }
  apply subseteq_size in Hsub.
  rewrite size_list_to_set in Hsub by done. rewrite size_dom in Hsub.
  simpl in Hsub. unfold addrs in Hsub. rewrite length_fmap in Hsub. lia.
Qed.

Lemma length_inorder_plug s c :
  length (inorder (plug s c))
  = (length (inorder s) + length (ctx_before c) + length (ctx_after c))%nat.
Proof. rewrite inorder_plug, !length_app. lia. Qed.

Lemma length_ctx_le c : (length c ≤ length (ctx_before c) + length (ctx_after c))%nat.
Proof.
  induction c as [|[[[] n] sib] c IH]; simpl; [lia|..];
    rewrite ?length_app; simpl; lia.
Qed.
End Dom.

(** ** The insertion path *)

Section Path.
Context {K V : Type} (compare : K → K → bool).
Abbreviation D := (K * V)%type.
Implicit Types (h : heap D) (t s : tree D) (c : ctx D) (k : K).

(** The context of the null link the descent of [insert] ends at. *)
Fixpoint descend k s c : ctx D :=
  match s with
  | E => c
  | T l n r =>
      if compare k (val n).1 then descend k l ((L, n, r) :: c)
      else descend k r ((R, n, l) :: c)
  end.

(** The deepest ancestor with a non-zero balance. *)
Fixpoint cand_info c : option (info D) :=
  match c with
  | [] => None
  | (_, n, _) :: c => if decide (bal n ≠ 0) then Some n else cand_info c
  end.

Definition cand_ptr (hdr : ptr) c : option ptr :=
  Some (match cand_info c with Some n => addr n | None => hdr end).

Definition comp_of c : bool :=
  match c with (R, _, _) :: _ => false | _ => true end.

(** The in-order predecessor of the hole: the nearest ancestor the
    hole is to the right of. *)
Fixpoint pred_info c : option (info D) :=
  match c with
  | [] => None
  | (R, n, _) :: _ => Some n
  | (L, _, _) :: c => pred_info c
  end.

Lemma plug_descend k s c : plug E (descend k s c) = plug s c.
Proof.
  revert c. induction s as [|l IHl n r IHr]; intros c; simpl; [done|].
  destruct (compare k (val n).1); [rewrite IHl|rewrite IHr]; done.
Qed.

Lemma insert_loop_spec fuel k s c h hdr :
  tree_at h (ctx_parent (Some hdr) c) s →
  (length (inorder s) < fuel)%nat →
  Tree.insert_loop compare fuel k (root_ptr s) (ctx_parent (Some hdr) c)
    (cand_ptr hdr c) (comp_of c) h
  = Ok ((ctx_parent (Some hdr) (descend k s c),
         cand_ptr hdr (descend k s c),
         comp_of (descend k s c)), h).
Proof.
  revert fuel c. induction s as [|l IHl n r IHr]; intros fuel c Hs Hf.
  - destruct fuel; done.
  - destruct fuel as [|fuel]; [simpl in Hf; lia|].
    destruct Hs as (Hn & Hl & Hr). unfold cell in Hn.
    simpl in Hf. rewrite length_app in Hf. simpl in Hf.
    simpl. mrun.
    destruct (compare k (val n).1) eqn:Hcmp; simpl; mrun.
    + specialize (IHl fuel ((L, n, r) :: c) Hl ltac:(lia)).
      simpl in IHl. unfold cand_ptr in *. simpl in *.
      destruct (decide (bal n ≠ 0)); apply IHl.
    + specialize (IHr fuel ((R, n, l) :: c) Hr ltac:(lia)).
      simpl in IHr. unfold cand_ptr in *. simpl in *.
      destruct (decide (bal n ≠ 0)); apply IHr.
Qed.

Lemma climb_from_left_spec c x fuel h top m :
  ctx_at h top (Some x) c → pred_info c = Some m →
  NoDup (x :: ctx_addrs c) → (length c < fuel)%nat →
  ∃ x', climb_from_left fuel (Some x) (ctx_parent top c) h
        = Ok ((x', Some (addr m)), h).
Proof.
  revert x fuel. induction c as [|[[[] n] sib] c IH]; intros x fuel Hc Hp Hnd Hf;
    [done|..]; (destruct fuel as [|fuel]; [simpl in Hf; lia|]);
    simpl in *; destruct Hc as (Hn & Hs & Hc); dj_split.
  - destruct (IH (addr n) fuel) as [x' Hx']; try done; [|lia|].
    { apply NoDup_cons. split; [done|done]. }
    exists x'. mrun. exact Hx'.
  - injection Hp as <-. eexists. mrun. reflexivity.
Qed.

Lemma decrement_spec n sib c h top m :
  ctx_at h top None ((L, n, sib) :: c) → pred_info c = Some m →
  NoDup (ctx_addrs ((L, n, sib) :: c)) → (length c < fuel_of h)%nat →
  _avl_tree_decrement (Some (addr n)) h = Ok (Some (addr m), h).
Proof.
  intros (Hn & Hs & Hc) Hp Hnd Hf. simpl in *.
  unfold _avl_tree_decrement, with_fuel.
  generalize dependent (fuel_of h). intros fuel Hf. mrun.
  destruct (climb_from_left_spec c (addr n) fuel h top m) as [x' Hx'];
    try done.
  { dj_split. apply NoDup_cons. done. }
  erewrite bind_ok by exact Hx'. done.
Qed.
End Path.


(** ** What a policy does to the abstract tree *)

Record APolicy (D : Type) := {
  (* retrace: payload of an ancestor from the payload of the child below and its own *)
  ap_merge : D → D → D;
  (* rotation: payload of the promoted node from the payloads of the demoted and promoted nodes *)
  ap_up : D → D → D;
  (* rotation: payload of the demoted node from its own and its new subtrees *)
  ap_down : D → tree D → tree D → D;
  (* the header's balance and payload after the updater ran for a leaf linked under a context *)
  ap_header : ptr → Z → D → info D → ctx D → Z * D
}.
Arguments ap_merge {D}.
Arguments ap_up {D}.
Arguments ap_down {D}.
Arguments ap_header {D}.

Section Abstract.
Context {D : Type} (A : APolicy D).
Implicit Types (t s : tree D) (c : ctx D) (n : info D).

Definition set_bal (b : Z) n : info D := Info (addr n) b (val n).

Definition rotl s : tree D :=
  match s with
  | T t1 x (T t2 y t3) =>
      T (T t1 (Info (addr x) (bal x) (ap_down A (val x) t1 t2)) t2)
        (Info (addr y) (bal y) (ap_up A (val x) (val y))) t3
  | _ => s
  end.

Definition rotr s : tree D :=
  match s with
  | T (T t1 y t2) x t3 =>
      T t1 (Info (addr y) (bal y) (ap_up A (val x) (val y)))
        (T t2 (Info (addr x) (bal x) (ap_down A (val x) t2 t3)) t3)
  | _ => s
  end.

(** [_rebalance] on the subtree of the candidate. *)
Definition rebal s : tree D :=
  match s with
  | T l u r =>
      if decide (bal u = 2) then
        match r with
        | T rl rn rr =>
            if decide (bal rn = 1) then
              rotl (T l (set_bal 0 u) (T rl (set_bal 0 rn) rr))
            else
              match rl with
              | T rll rln rlr =>
                  let '(bu, br) :=
                    if decide (bal rln = 1) then (-1, 0)
                    else if decide (bal rln = 0) then (0, 0)
                    else if decide (bal rln = -1) then (0, 1)
                    else (bal u, bal rn) in
                  rotl (T l (set_bal bu u)
                          (rotr (T (T rll (set_bal 0 rln) rlr) (set_bal br rn) rr)))
              | E => s
              end
        | E => s
        end
      else if decide (bal u = -2) then
        match l with
        | T ll ln lr =>
            if decide (bal ln = -1) then
              rotr (T (T ll (set_bal 0 ln) lr) (set_bal 0 u) r)
            else
              match lr with
              | T lrl lrn lrr =>
                  let '(bu, bl) :=
                    if decide (bal lrn = 1) then (0, -1)
                    else if decide (bal lrn = 0) then (0, 0)
                    else if decide (bal lrn = -1) then (1, 0)
                    else (bal u, bal ln) in
                  rotr (T (rotl (T ll (set_bal bl ln) (T lrl (set_bal 0 lrn) lrr)))
                          (set_bal bu u) r)
              | E => s
              end
        | E => s
        end
      else s
  | E => s
  end.

(** The links [_rebalance] dereferences are there. *)
Definition rebalanceable s : Prop :=
  match s with
  | T l u r =>
      (bal u = 2 →
       match r with
       | T rl rn rr => bal rn ≠ 1 → rl ≠ E
       | E => False
       end)
      ∧ (bal u = -2 →
         match l with
         | T ll ln lr => bal ln ≠ -1 → lr ≠ E
         | E => False
         end)
  | E => False
  end.

(** The balance retrace and the payload merge of the updater, from the
    frame above the new leaf to the root: [sw] is [unbalance_switch],
    [cv] the payload of the node below. *)
Fixpoint retrace (cv : D) (sw : bool) c : ctx D :=
  match c with
  | [] => []
  | (d, n, sib) :: c =>
      let b := if sw then bal n
               else match d with L => bal n - 1 | R => bal n + 1 end in
      let v := ap_merge A cv (val n) in
      (d, Info (addr n) b v, sib) :: retrace v (sw || bool_decide (bal n ≠ 0)) c
  end.

Definition leaf_val (hv v : D) c : D :=
  match c with
  | [] => ap_merge A (ap_merge A v hv) v
  | _ => v
  end.
End Abstract.

(** ** Acting on the node in focus *)

Section Focus.
Context {D : Type}.
Implicit Types (h : heap D) (t s : tree D) (c : ctx D) (n : info D).

Lemma bind_get_focus {X B} (f : node D → X) (k : X → M D B) h hdr hb hv l n r c :
  rep h hdr hb hv (plug (T l n r) c) →
  bind (get f (Some (addr n))) k h
  = k (f (cell (ctx_parent (Some hdr) c) l n r)) h.
Proof. intros H. apply bind_get. eapply rep_lookup, H. Qed.

Lemma bind_store_focus h hdr hb hv l n r c b v (u : node D → node D) :
  rep h hdr hb hv (plug (T l n r) c) →
  u (cell (ctx_parent (Some hdr) c) l n r)
  = Node (ctx_parent (Some hdr) c) (root_ptr l) (root_ptr r) b v →
  ∃ h', (∀ B (k : unit → M D B), bind (store u (Some (addr n))) k h = k tt h')
        ∧ store u (Some (addr n)) h = Ok (tt, h')
        ∧ rep h' hdr hb hv (plug (T l (Info (addr n) b v) r) c).
Proof.
  intros H Hu. eexists. split_and!.
  - intros B k. erewrite bind_store by (eapply rep_lookup, H). reflexivity.
  - erewrite store_ok by (eapply rep_lookup, H). reflexivity.
  - rewrite Hu. by apply rep_set_node.
Qed.

Lemma bind_set_balance_focus h hdr hb hv l n r c b :
  rep h hdr hb hv (plug (T l n r) c) →
  ∃ h', (∀ B (k : unit → M D B),
           bind (set_balance (Some (addr n)) b) k h = k tt h')
        ∧ rep h' hdr hb hv (plug (T l (set_bal b n) r) c).
Proof.
  intros H.
  destruct (bind_store_focus h hdr hb hv l n r c b (val n) (with_balance b) H)
    as (h' & Hk & _ & Hr); [done|].
  exists h'. done.
Qed.
End Focus.

Ltac rw_k Hk :=
  unfold set_bal in Hk; simpl in Hk; rewrite ?bind_assoc; rewrite Hk; cbv beta.

Tactic Notation "rw_focus" uconstr(H) :=
  let Hg := fresh in
  epose proof H as Hg; unfold set_bal in Hg; simpl in Hg; rewrite ?bind_assoc; rewrite Hg; clear Hg; simpl.

(** ** The policies against their abstract counterparts *)

Section Generic.
Context {K V : Type} (compare : K → K → bool).
Context {P : Policy (K * V)} (A : APolicy (K * V)).
Abbreviation D := (K * V)%type.
Implicit Types (h : heap D) (t s : tree D) (c : ctx D) (n : info D).

Record PolicySpec : Prop := {
  ps_left : ∀ h hdr hb hv t1 x t2 y t3 c,
    rep h hdr hb hv (plug (T t1 x (T t2 y t3)) c) →
    ∃ h', rotation_left (Some (addr x)) hdr h = Ok (tt, h')
          ∧ rep h' hdr hb hv (plug (rotl A (T t1 x (T t2 y t3))) c);
  ps_right : ∀ h hdr hb hv t1 y t2 x t3 c,
    rep h hdr hb hv (plug (T (T t1 y t2) x t3) c) →
    ∃ h', rotation_right (Some (addr x)) hdr h = Ok (tt, h')
          ∧ rep h' hdr hb hv (plug (rotr A (T (T t1 y t2) x t3)) c);
  ps_update : ∀ h hdr hb hv a v c,
    rep h hdr hb hv (plug (T E (Info a 0 v) E) c) →
    ∃ h', updater_update (Some a) (cand_ptr hdr c) hdr h = Ok (tt, h')
          ∧ rep h' hdr (ap_header A hdr hb hv (Info a 0 v) c).1
              (ap_header A hdr hb hv (Info a 0 v) c).2
              (plug (T E (Info a 0 (leaf_val A hv v c)) E) (retrace A v false c))
}.

Context (PS : PolicySpec).

Lemma _rebalance_spec h hdr hb hv s c u cnt :
  rep h hdr hb hv (plug s c) → rebalanceable s → root_ptr s = Some u →
  ∃ h', Tree._rebalance (Avl_tree hdr cnt) (Some u) h = Ok (tt, h')
        ∧ rep h' hdr hb hv (plug (rebal A s) c).
Proof.
  intros Hrep Hrb Hu. destruct s as [|l un r]; [done|].
  simpl in Hu. injection Hu as <-. destruct Hrb as [Hr2 Hl2].
  unfold Tree._rebalance. simpl _header.
  rw_focus (bind_get_focus _ _ h hdr hb hv l un r c Hrep).
  destruct (decide (bal un = 2)) as [E2|N2].
  - specialize (Hr2 E2). destruct r as [|rl rn rr]; [done|].
    rw_focus (bind_get_focus _ _ h hdr hb hv l un (T rl rn rr) c Hrep).
    rw_focus (bind_get_focus _ _ h hdr hb hv rl rn rr ((R, un, l) :: c) Hrep).
    destruct (decide (bal rn = 1)) as [E1|N1].
    + rewrite ?bind_assoc.
      destruct (bind_set_balance_focus h hdr hb hv l un (T rl rn rr) c 0 Hrep)
        as (h1 & Hk1 & Hrep1).
      rw_k Hk1.
      destruct (bind_set_balance_focus h1 hdr hb hv rl rn rr ((R, set_bal 0 un, l) :: c) 0 Hrep1)
        as (h2 & Hk2 & Hrep2).
      rw_k Hk2.
      apply (ps_left PS h2 hdr hb hv l (set_bal 0 un) rl (set_bal 0 rn) rr c Hrep2).
    + specialize (Hr2 N1). destruct rl as [|rll rln rlr]; [done|].
      rewrite ?bind_assoc.
      rw_focus (bind_get_focus _ _ h hdr hb hv (T rll rln rlr) rn rr ((R, un, l) :: c) Hrep).
      rw_focus (bind_get_focus _ _ h hdr hb hv rll rln rlr
                 ((L, rn, rr) :: (R, un, l) :: c) Hrep).
      set (bb := if decide (bal rln = 1) then (-1, 0)
                 else if decide (bal rln = 0) then (0, 0)
                 else if decide (bal rln = -1) then (0, 1)
                 else (bal un, bal rn)).
      assert (∃ h1, (∀ B (k : unit → M D B),
                 bind (if decide (bal rln = 1) then
                         set_balance (Some (addr un)) (-1);; set_balance (Some (addr rn)) 0
                       else if decide (bal rln = 0) then
                         set_balance (Some (addr un)) 0;; set_balance (Some (addr rn)) 0
                       else if decide (bal rln = -1) then
                         set_balance (Some (addr un)) 0;; set_balance (Some (addr rn)) 1
                       else ret tt) k h = k tt h1)
               ∧ rep h1 hdr hb hv
                   (plug (T l (set_bal bb.1 un)
                            (T (T rll rln rlr) (set_bal bb.2 rn) rr)) c))
        as (h1 & Hk1 & Hrep1).
      { assert (∀ bu br, ∃ h1, (∀ B (k : unit → M D B),
                 bind (set_balance (Some (addr un)) bu;; set_balance (Some (addr rn)) br) k h
                 = k tt h1)
               ∧ rep h1 hdr hb hv
                   (plug (T l (set_bal bu un)
                            (T (T rll rln rlr) (set_bal br rn) rr)) c)) as Hset.
        { intros bu br.
          destruct (bind_set_balance_focus h hdr hb hv l un _ c bu Hrep)
            as (h1 & Hk1 & Hrep1).
          destruct (bind_set_balance_focus h1 hdr hb hv _ rn rr
                      ((R, set_bal bu un, l) :: c) br Hrep1)
            as (h2 & Hk2 & Hrep2).
          exists h2. split; [|done].
          intros B k. rewrite bind_assoc, Hk1. apply Hk2. }
        subst bb.
        repeat case_decide; simpl; try apply Hset.
        exists h. split; [done|].
        destruct un, rn; exact Hrep. }
      rw_k Hk1.
      rw_focus (bind_get_focus _ _ h1 hdr hb hv (T rll rln rlr) (set_bal bb.2 rn) rr
                 ((R, set_bal bb.1 un, l) :: c) Hrep1).
      destruct (bind_set_balance_focus h1 hdr hb hv rll rln rlr
                  ((L, set_bal bb.2 rn, rr) :: (R, set_bal bb.1 un, l) :: c) 0 Hrep1)
        as (h2 & Hk2 & Hrep2).
      rw_k Hk2.
      destruct (ps_right PS h2 hdr hb hv rll (set_bal 0 rln) rlr (set_bal bb.2 rn) rr
                  ((R, set_bal bb.1 un, l) :: c) Hrep2) as (h3 & Hrun3 & Hrep3).
      rewrite ?bind_assoc. erewrite bind_ok by exact Hrun3. cbv beta.
      simpl in Hrep3.
      destruct (ps_left PS h3 hdr hb hv l (set_bal bb.1 un) _ _ _ c Hrep3)
        as (h4 & Hrun4 & Hrep4).
      exists h4. split; [exact Hrun4|].
      subst bb. simpl. repeat case_decide; exact Hrep4.
  - destruct (decide (bal un = -2)) as [E2|N2'].
    2:{ exists h. split; [done|]. exact Hrep. }
    specialize (Hl2 E2). destruct l as [|ll ln lr]; [done|].
    rw_focus (bind_get_focus _ _ h hdr hb hv (T ll ln lr) un r c Hrep).
    rw_focus (bind_get_focus _ _ h hdr hb hv ll ln lr ((L, un, r) :: c) Hrep).
    destruct (decide (bal ln = -1)) as [E1|N1].
    + rewrite ?bind_assoc.
      destruct (bind_set_balance_focus h hdr hb hv (T ll ln lr) un r c 0 Hrep)
        as (h1 & Hk1 & Hrep1).
      rw_k Hk1.
      destruct (bind_set_balance_focus h1 hdr hb hv ll ln lr ((L, set_bal 0 un, r) :: c) 0 Hrep1)
        as (h2 & Hk2 & Hrep2).
      rw_k Hk2.
      destruct (ps_right PS h2 hdr hb hv ll (set_bal 0 ln) lr (set_bal 0 un) r c Hrep2)
        as (h3 & Hrun3 & Hrep3).
      exists h3. split; [done|]. exact Hrep3.
    + specialize (Hl2 N1). destruct lr as [|lrl lrn lrr]; [done|].
      rewrite ?bind_assoc.
      rw_focus (bind_get_focus _ _ h hdr hb hv ll ln (T lrl lrn lrr) ((L, un, r) :: c) Hrep).
      rw_focus (bind_get_focus _ _ h hdr hb hv lrl lrn lrr
                 ((R, ln, ll) :: (L, un, r) :: c) Hrep).
      set (bb := if decide (bal lrn = 1) then (0, -1)
                 else if decide (bal lrn = 0) then (0, 0)
                 else if decide (bal lrn = -1) then (1, 0)
                 else (bal un, bal ln)).
      assert (∃ h1, (∀ B (k : unit → M D B),
                 bind (if decide (bal lrn = 1) then
                         set_balance (Some (addr un)) 0;; set_balance (Some (addr ln)) (-1)
                       else if decide (bal lrn = 0) then
                         set_balance (Some (addr un)) 0;; set_balance (Some (addr ln)) 0
                       else if decide (bal lrn = -1) then
                         set_balance (Some (addr un)) 1;; set_balance (Some (addr ln)) 0
                       else ret tt) k h = k tt h1)
               ∧ rep h1 hdr hb hv
                   (plug (T (T ll (set_bal bb.2 ln) (T lrl lrn lrr))
                            (set_bal bb.1 un) r) c))
        as (h1 & Hk1 & Hrep1).
      { assert (∀ bu bl, ∃ h1, (∀ B (k : unit → M D B),
                 bind (set_balance (Some (addr un)) bu;; set_balance (Some (addr ln)) bl) k h
                 = k tt h1)
               ∧ rep h1 hdr hb hv
                   (plug (T (T ll (set_bal bl ln) (T lrl lrn lrr))
                            (set_bal bu un) r) c)) as Hset.
        { intros bu bl.
          destruct (bind_set_balance_focus h hdr hb hv _ un r c bu Hrep)
            as (h1 & Hk1 & Hrep1).
          destruct (bind_set_balance_focus h1 hdr hb hv ll ln _
                      ((L, set_bal bu un, r) :: c) bl Hrep1)
            as (h2 & Hk2 & Hrep2).
          exists h2. split; [|done].
          intros B k. rewrite bind_assoc, Hk1. apply Hk2. }
        subst bb.
        repeat case_decide; simpl; try apply Hset.
        exists h. split; [done|].
        destruct un, ln; exact Hrep. }
      rw_k Hk1.
      rw_focus (bind_get_focus _ _ h1 hdr hb hv ll (set_bal bb.2 ln) (T lrl lrn lrr)
                 ((L, set_bal bb.1 un, r) :: c) Hrep1).
      destruct (bind_set_balance_focus h1 hdr hb hv lrl lrn lrr
                  ((R, set_bal bb.2 ln, ll) :: (L, set_bal bb.1 un, r) :: c) 0 Hrep1)
        as (h2 & Hk2 & Hrep2).
      rw_k Hk2.
      destruct (ps_left PS h2 hdr hb hv ll (set_bal bb.2 ln) lrl (set_bal 0 lrn) lrr
                  ((L, set_bal bb.1 un, r) :: c) Hrep2) as (h3 & Hrun3 & Hrep3).
      rewrite ?bind_assoc. erewrite bind_ok by exact Hrun3. cbv beta.
      simpl in Hrep3.
      destruct (ps_right PS h3 hdr hb hv _ _ _ (set_bal bb.1 un) r c Hrep3)
        as (h4 & Hrun4 & Hrep4).
      exists h4. split; [exact Hrun4|].
      subst bb. simpl. repeat case_decide; exact Hrep4.
Qed.
End Generic.


Section Ends.
Context {K V : Type}.
Abbreviation D := (K * V)%type.
Implicit Types (h : heap D) (t s : tree D) (c : ctx D) (n : info D).

(** The nearest ancestor the hole is to the left of. *)
Fixpoint succ_info c : option (info D) :=
  match c with
  | [] => None
  | (L, n, _) :: _ => Some n
  | (R, _, _) :: c => succ_info c
  end.

Lemma ctx_before_pred c :
  match pred_info c with
  | None => ctx_before c = []
  | Some m => ∃ l, ctx_before c = l ++ [m]
  end.
Proof.
  induction c as [|[[[] n] sib] c IH]; simpl; [done|done|].
  exists (ctx_before c ++ inorder sib). by rewrite <- app_assoc.
Qed.

Lemma ctx_after_succ c :
  match succ_info c with
  | None => ctx_after c = []
  | Some m => ∃ l, ctx_after c = m :: l
  end.
Proof.
  induction c as [|[[[] n] sib] c IH]; simpl; [done| |done]. eauto.
Qed.

Lemma leftmost_plug hdr s c :
  leftmost hdr (plug s c) =
  match head (ctx_before c) with
  | Some m => addr m
  | None => match head (inorder s) with
            | Some m => addr m
            | None => match head (ctx_after c) with
                      | Some m => addr m
                      | None => hdr
                      end
            end
  end.
Proof.
  unfold leftmost. rewrite addrs_plug. unfold addrs.
  destruct (ctx_before c); simpl; [|done].
  destruct (inorder s); simpl; [|done].
  destruct (ctx_after c); done.
Qed.

Lemma rightmost_plug hdr s c :
  rightmost hdr (plug s c) =
  match last (ctx_after c) with
  | Some m => addr m
  | None => match last (inorder s) with
            | Some m => addr m
            | None => match last (ctx_before c) with
                      | Some m => addr m
                      | None => hdr
                      end
            end
  end.
Proof.
  unfold rightmost. rewrite addrs_plug. unfold addrs.
  rewrite !last_app, !fmap_last.
  destruct (last (ctx_after c)); simpl; [done|].
  destruct (last (inorder s)); simpl; [done|].
  destruct (last (ctx_before c)); done.
Qed.

Lemma NoDup_insert_mid (a : ptr) l1 l2 :
  NoDup (l1 ++ l2) → a ∉ l1 ++ l2 → NoDup (l1 ++ a :: l2).
Proof.
  intros Hnd Ha. apply NoDup_app_dj in Hnd as (H1 & H12 & H2).
  apply not_elem_of_app_iff in Ha as [Ha1 Ha2].
  apply NoDup_app_dj. split_and!; [done| |by apply NoDup_cons].
  apply dj_cons_r. done.
Qed.

Lemma succ_in_ctx c m : succ_info c = Some m → addr m ∈ ctx_addrs c.
Proof.
  induction c as [|[[[] n] sib] c IH]; simpl; [done|..].
  - intros [= ->]. apply elem_of_cons; by left.
  - intros H. apply elem_of_cons; right. apply elem_of_app; right. by apply IH.
Qed.

Lemma pred_in_ctx c m : pred_info c = Some m → addr m ∈ ctx_addrs c.
Proof.
  induction c as [|[[[] n] sib] c IH]; simpl; [done|..].
  - intros H. apply elem_of_cons; right. apply elem_of_app; right. by apply IH.
  - intros [= ->]. apply elem_of_cons; by left.
Qed.

Lemma head_before_in c m : head (ctx_before c) = Some m → addr m ∈ addr <$> ctx_before c.
Proof. intros H. apply list_elem_of_fmap_2. by apply head_Some_elem_of. Qed.

Lemma last_after_in c m : last (ctx_after c) = Some m → addr m ∈ addr <$> ctx_after c.
Proof. intros H. apply list_elem_of_fmap_2. by apply last_Some_elem_of. Qed.
End Ends.

Section CtxIn.
Context {D : Type}.
Lemma ctx_before_addrs (c : ctx D) x : x ∈ ctx_before c → addr x ∈ ctx_addrs c.
Proof.
  induction c as [|[[[] n] sib] c IH]; simpl; [by intros ?%elem_of_nil|..].
  - intros H. apply elem_of_cons; right. apply elem_of_app; right. auto.
  - rewrite !elem_of_app, list_elem_of_singleton. intros [H|[H| ->]].
    + apply elem_of_cons; right. apply elem_of_app; right. auto.
    + apply elem_of_cons; right. apply elem_of_app; left.
      by apply list_elem_of_fmap_2.
    + apply elem_of_cons; by left.
Qed.
Lemma ctx_after_addrs (c : ctx D) x : x ∈ ctx_after c → addr x ∈ ctx_addrs c.
Proof.
  induction c as [|[[[] n] sib] c IH]; simpl; [by intros ?%elem_of_nil|..].
  - rewrite elem_of_cons, !elem_of_app. intros [->|[H|H]].
    + apply elem_of_cons; by left.
    + apply elem_of_cons; right. apply elem_of_app; left.
      by apply list_elem_of_fmap_2.
    + apply elem_of_cons; right. apply elem_of_app; right. auto.
  - intros H. apply elem_of_cons; right. apply elem_of_app; right. auto.
Qed.
End CtxIn.

Lemma bind_allocate {D B} (v : D) (k : option ptr → M D B) (h : heap D) :
  bind (allocate v) k h
  = k (Some (fresh (dom h))) (<[fresh (dom h) := Node None None None 0 v]> h).
Proof. reflexivity. Qed.

Section LinkLeaf.
Context {K V : Type}.
Abbreviation D := (K * V)%type.
Implicit Types (h : heap D) (t s : tree D) (c : ctx D) (n : info D).

(** Allocation of the leaf and its linking under the insertion point. *)
Lemma link_spec h hdr hb hv c (v : K * V) cnt :
  rep h hdr hb hv (plug E c) →
  ∃ h1,
    rep h1 hdr hb hv (plug (T E (Info (fresh (dom h)) 0 v) E) c)
    ∧ ∀ B (k : option ptr → M D B),
        bind (allocate v) (λ leaf,
          set_parent leaf (ctx_parent (Some hdr) c);;
          set_left leaf None;;
          set_right leaf None;;
          set_balance leaf 0;;
          (if bool_decide (ctx_parent (Some hdr) c = Tree._end (Avl_tree hdr cnt))
              || comp_of c then
             set_left (ctx_parent (Some hdr) c) leaf;;
             if decide (ctx_parent (Some hdr) c = Some (_header (Avl_tree hdr cnt))) then
               set_parent (Some (_header (Avl_tree hdr cnt))) leaf;;
               set_right (Some (_header (Avl_tree hdr cnt))) leaf
             else
               hl <- get _left (Some (_header (Avl_tree hdr cnt)));
               if decide (ctx_parent (Some hdr) c = hl)
               then set_left (Some (_header (Avl_tree hdr cnt))) leaf else ret tt
           else
             set_right (ctx_parent (Some hdr) c) leaf;;
             hr <- get _right (Some (_header (Avl_tree hdr cnt)));
             if decide (ctx_parent (Some hdr) c = hr)
             then set_right (Some (_header (Avl_tree hdr cnt))) leaf else ret tt);;
          k leaf) h
        = k (Some (fresh (dom h))) h1.
Proof.
  intros Hrep.
  destruct (rep_fresh _ _ _ _ _ Hrep) as (Hah & Hat & Hanone).
  assert (fresh (dom h) ∉ ctx_addrs c) as Hac.
  { by rewrite addrs_plug_perm in Hat. }
  pose proof Hrep as (Hnd0 & _ & _).
  apply rep_plug_elim in Hrep as (Hnd & _ & Hc & Hh).
  rewrite addrs_plug in Hat. unfold addrs in Hat. simpl in Hat.
  assert (NoDup (hdr :: addrs (plug (T E (Info (fresh (dom h)) 0 v) E) c))) as Hnd1.
  { rewrite addrs_plug, addrs_T in *. unfold addrs in *. simpl in *.
    apply NoDup_cons in Hnd0 as [Hh0 Hnd0].
    apply NoDup_cons. split.
    - rewrite !elem_of_app, elem_of_cons in *. intros [?|[?|?]]; [tauto|congruence|tauto].
    - by apply NoDup_insert_mid. }
  rewrite leftmost_plug, rightmost_plug in Hh. simpl in Hh.
  pose proof (ctx_before_pred c) as Hpred.
  pose proof (ctx_after_succ c) as Hsucc.
  setoid_rewrite bind_allocate.
  generalize dependent (fresh (dom h)). intros a Hah Hat Hanone Hac Hnd1.
  set (lf := T E (Info a 0 v) E).
  cut (∃ h1, (tree_at h1 (ctx_parent (Some hdr) c) lf
              ∧ ctx_at h1 (Some hdr) (Some a) c
              ∧ h1 !! hdr = Some (Node (ctx_root (Some a) c)
                                    (Some (leftmost hdr (plug lf c)))
                                    (Some (rightmost hdr (plug lf c))) hb hv))
        ∧ ∀ B (k : option ptr → M D B),
            (set_parent (Some a) (ctx_parent (Some hdr) c);;
             set_left (Some a) None;;
             set_right (Some a) None;;
             set_balance (Some a) 0;;
             (if bool_decide (ctx_parent (Some hdr) c = Some hdr) || comp_of c then
                set_left (ctx_parent (Some hdr) c) (Some a);;
                if decide (ctx_parent (Some hdr) c = Some hdr) then
                  set_parent (Some hdr) (Some a);;
                  set_right (Some hdr) (Some a)
                else
                  hl <- get _left (Some hdr);
                  if decide (ctx_parent (Some hdr) c = hl)
                  then set_left (Some hdr) (Some a) else ret tt
              else
                set_right (ctx_parent (Some hdr) c) (Some a);;
                hr <- get _right (Some hdr);
                if decide (ctx_parent (Some hdr) c = hr)
                then set_right (Some hdr) (Some a) else ret tt);;
             k (Some a)) (<[a := Node None None None 0 v]> h)
            = k (Some a) h1).
  { intros (h1 & (H1 & H2 & H3) & Hk). exists h1. split; [|exact Hk].
    eapply rep_plug_intro; done. }
  rewrite leftmost_plug, rightmost_plug. subst lf.
  clear Hnd1 Hnd0 Hanone Hpred Hsucc.
  destruct c as [|[[[] p] sib] c]; simpl in *.
  - (* first node *)
    unfold ctx_root in *. simpl in *.
    eexists. split.
    2:{ intros B k.
        rewrite bool_decide_true by done. simpl.
        mrun. reflexivity. }
    split_and!; try done; hlook.
  - (* left child *)
    destruct Hc as (Hp & Hsib & Hc). dj_split.
    assert (Some (addr p) ≠ Some hdr) as Hne by congruence.
    rewrite bool_decide_false by done. simpl.
    destruct (ctx_root_cons (L, p, sib) c) as (r & Hrin & Hr); rewrite !Hr in *; clear Hr.
    simpl in Hrin.
    rewrite last_cons in *.
    destruct (last (inorder sib ++ ctx_after c)) as [ml|] eqn:Hlast.
    all: destruct (head (ctx_before c)) as [m0|] eqn:Hhead.
    all: try (assert (addr m0 ∈ ctx_addrs c) as Hm0
                by (apply ctx_before_addrs, head_Some_elem_of, Hhead)).
    all: (eexists; split; [|intros B k; mrun; reflexivity]).
    all: split_and!; try done; try hlook; try frame_tac.
  - (* right child *)
    destruct Hc as (Hp & Hsib & Hc). dj_split.
    assert (Some (addr p) ≠ Some hdr) as Hne by congruence.
    rewrite bool_decide_false by done. simpl.
    destruct (ctx_root_cons (R, p, sib) c) as (r & Hrin & Hr); rewrite !Hr in *; clear Hr.
    simpl in Hrin.
    rewrite !last_app in *. simpl in *.
    destruct (last (ctx_after c)) as [ml|] eqn:Hlast.
    all: try (assert (addr ml ∈ ctx_addrs c) as Hml
                by (apply ctx_after_addrs, last_Some_elem_of, Hlast)).
    all: destruct (head (ctx_before c ++ inorder sib ++ [p])) as [m0|] eqn:Hhead.
    all: try (apply head_None in Hhead; apply (f_equal length) in Hhead;
              rewrite !length_app in Hhead; simpl in Hhead; lia).
    all: (eexists; split; [|intros B k; mrun; reflexivity]).
    all: split_and!; try done; try hlook; try frame_tac.
Qed.
End LinkLeaf.


Section Plug.
Context {D : Type}.
Implicit Types (t s : tree D) (c : ctx D).

Lemma plug_app s c1 c2 : plug s (c1 ++ c2) = plug (plug s c1) c2.
Proof. revert s. induction c1 as [|f c1 IH]; intros s; simpl; [done|]. apply IH. Qed.

Lemma plug_take_drop s c i : plug s c = plug (plug s (take i c)) (drop i c).
Proof. by rewrite <- plug_app, take_drop. Qed.
End Plug.

Section GenericInsert.
Context {K V : Type} (compare : K → K → bool).
Context `{!ValueInit K, !ValueInit V}.
Context {P : Policy (K * V)} (A : APolicy (K * V)).
Abbreviation D := (K * V)%type.
Implicit Types (h : heap D) (t s : tree D) (c : ctx D) (n : info D).
Context (PS : PolicySpec A).

(** Position of the candidate on the path, counted from the leaf. *)
Fixpoint cand_index c : option nat :=
  match c with
  | [] => None
  | (_, n, _) :: c => if decide (bal n ≠ 0) then Some O else S <$> cand_index c
  end.

(** The tree after [_insert]: the leaf linked under [c], the retrace,
    and the rebalancing of the subtree of the candidate. *)
Definition ins_tree (hv : D) (a : ptr) (v : D) c : tree D :=
  let lf := T E (Info a 0 (leaf_val A hv v c)) E in
  let c' := retrace A v false c in
  match cand_index c with
  | None => plug lf c'
  | Some i => plug (rebal A (plug lf (take (S i) c'))) (drop (S i) c')
  end.

Lemma cand_index_info c :
  match cand_index c with
  | None => cand_info c = None
  | Some i => ∃ d n sib, c !! i = Some (d, n, sib) ∧ cand_info c = Some n
  end.
Proof.
  induction c as [|[[d n] sib] c IH]; simpl; [done|].
  case_decide; [by eauto|].
  destruct (cand_index c) as [i|]; simpl; [|done].
  destruct IH as (d' & n' & sib' & ? & ?). eauto 10.
Qed.

Lemma retrace_lookup cv sw c i d n sib :
  c !! i = Some (d, n, sib) →
  ∃ b v, retrace A cv sw c !! i = Some (d, Info (addr n) b v, sib).
Proof.
  revert cv sw i. induction c as [|[[d' n'] sib'] c IH]; intros cv sw i; [done|].
  destruct i as [|i]; simpl.
  - intros [= -> -> ->]. eauto.
  - intros H. eapply IH, H.
Qed.

Lemma root_ptr_plug_take s c i d n sib :
  c !! i = Some (d, n, sib) → root_ptr (plug s (take (S i) c)) = Some (addr n).
Proof.
  intros H. rewrite root_ptr_plug. unfold ctx_root.
  erewrite take_S_r by done. by rewrite last_snoc.
Qed.

Lemma cand_info_in c n : cand_info c = Some n → addr n ∈ ctx_addrs c.
Proof.
  induction c as [|[[d n'] sib] c IH]; simpl; [done|].
  case_decide.
  - intros [= ->]. apply elem_of_cons; by left.
  - intros H'. apply elem_of_cons; right. apply elem_of_app; right. auto.
Qed.

Lemma _insert_spec h hdr hb hv c (v : D) cnt :
  rep h hdr hb hv (plug E c) →
  (∀ i, cand_index c = Some i →
        rebalanceable (plug (T E (Info (fresh (dom h)) 0 (leaf_val A hv v c)) E)
                         (take (S i) (retrace A v false c)))) →
  ∃ h',
    Tree._insert (Avl_tree hdr cnt) (comp_of c) (ctx_parent (Some hdr) c) v
      (cand_ptr hdr c) h
    = Ok ((Some (fresh (dom h)), Avl_tree hdr ((cnt + 1) mod 2 ^ 64)), h')
    ∧ rep h' hdr (ap_header A hdr hb hv (Info (fresh (dom h)) 0 v) c).1
        (ap_header A hdr hb hv (Info (fresh (dom h)) 0 v) c).2
        (ins_tree hv (fresh (dom h)) v c).
Proof.
  intros Hrep Hrb.
  pose proof Hrep as (Hnd0 & _ & _). apply NoDup_plug in Hnd0. simpl in Hnd0.
  destruct (link_spec h hdr hb hv c v cnt Hrep) as (h1 & Hrep1 & Hk1).
  unfold Tree._insert. rewrite Hk1. clear Hk1.
  destruct (ps_update A PS h1 hdr hb hv _ v c Hrep1) as (h2 & Hrun2 & Hrep2).
  simpl _header. erewrite bind_ok by exact Hrun2.
  unfold ins_tree.
  pose proof (cand_index_info c) as Hci.
  unfold Tree._end. simpl _header. simpl _node_count.
  generalize dependent (ap_header A hdr hb hv (Info (fresh (dom h)) 0 v) c).
  intros [hb' hv'] Hrep2. simpl in *.
  destruct (cand_index c) as [i|] eqn:Hi.
  - destruct Hci as (d & n & sib & Hlook & Hcand).
    unfold cand_ptr in *. rewrite Hcand in *.
    assert (addr n ≠ hdr) as Hne.
    { apply cand_info_in in Hcand. dj_split. intros E'. rewrite E' in Hcand. done. }
    cbv beta. rewrite (decide_True (P := Some (addr n) ≠ Some hdr)) by (intros [= ?]; done).
    destruct (retrace_lookup v false c i d n sib Hlook) as (b' & v' & Hlook').
    rewrite (plug_take_drop _ _ (S i)) in Hrep2.
    destruct (_rebalance_spec A PS h2 hdr hb' hv' _ _ (addr n) cnt Hrep2) as (h3 & Hrun3 & Hrep3).
    { by apply Hrb. }
    { exact (root_ptr_plug_take _ _ _ _ _ _ Hlook'). }
    erewrite bind_ok by exact Hrun3. eauto.
  - unfold cand_ptr in *. rewrite Hci in *.
    cbv beta. rewrite (decide_False (P := Some hdr ≠ Some hdr)) by (intros ?; done).
    rewrite ?bind_ret_l. eauto.
Qed.
End GenericInsert.

Section GenericInsert2.
Context {K V : Type} (compare : K → K → bool).
Context `{!ValueInit K, !ValueInit V}.
Context {P : Policy (K * V)} (A : APolicy (K * V)).
Abbreviation D := (K * V)%type.
Implicit Types (h : heap D) (t s : tree D) (c : ctx D) (n : info D).
Context (PS : PolicySpec A).

Lemma begin_check hdr c :
  comp_of c = true → NoDup (hdr :: ctx_addrs c) →
  ctx_parent (Some hdr) c = Some (leftmost hdr (plug E c)) ↔ pred_info c = None.
Proof.
  intros Hcomp Hnd. rewrite leftmost_plug. simpl.
  destruct c as [|[[[] n] sib] c]; [done| |done]. simpl in *.
  pose proof (ctx_before_pred c) as Hp.
  destruct (pred_info c) as [m|].
  - destruct Hp as [l Hl]. split; [|done]. intros Heq. exfalso.
    destruct (head (ctx_before c)) as [m0|] eqn:Hh.
    + apply head_Some_elem_of, ctx_before_addrs in Hh.
      injection Heq as Heq. rewrite Heq in *. dj_split. done.
    + apply head_None in Hh. rewrite Hh in Hl. by destruct l.
  - rewrite Hp. done.
Qed.

Lemma pred_lookup h top hole c m :
  ctx_at h top hole c → pred_info c = Some m →
  ∃ nd, h !! addr m = Some nd ∧ _value nd = val m.
Proof.
  revert hole. induction c as [|[[[] n] sib] c IH]; intros hole; simpl; [done|..].
  - intros (_ & _ & Hc) Hp. eauto.
  - intros (Hn & _) [= <-]. eauto.
Qed.

(** What [insert] finds for an entry [v]: the entry with an equivalent
    key, when there is one. *)
Definition find_dup (k : K) t : option (info D) :=
  match pred_info (descend compare k t []) with
  | Some m => if compare (val m).1 k then None else Some m
  | None => None
  end.

Lemma insert_spec h hdr hb hv t (v : D) cnt :
  rep h hdr hb hv t →
  let c := descend compare v.1 t [] in
  match find_dup v.1 t with
  | Some m =>
      Tree.insert compare (Avl_tree hdr cnt) v h
      = Ok (((Some (addr m), false), Avl_tree hdr cnt), h)
  | None =>
      (∀ i, cand_index c = Some i →
         rebalanceable (plug (T E (Info (fresh (dom h)) 0 (leaf_val A hv v c)) E)
                          (take (S i) (retrace A v false c)))) →
      ∃ h',
        Tree.insert compare (Avl_tree hdr cnt) v h
        = Ok (((Some (fresh (dom h)), true),
               Avl_tree hdr ((cnt + 1) mod 2 ^ 64)), h')
        ∧ rep h' hdr (ap_header A hdr hb hv (Info (fresh (dom h)) 0 v) c).1
            (ap_header A hdr hb hv (Info (fresh (dom h)) 0 v) c).2
            (ins_tree A hv (fresh (dom h)) v c)
  end.
Proof.
  intros Hrep c.
  pose proof (rep_size _ _ _ _ _ Hrep) as Hsize.
  pose proof (plug_descend compare v.1 t []) as Hplug. fold c in Hplug. simpl in Hplug.
  assert (∀ B (k : _ → M D B),
    bind (Tree._begin (Avl_tree hdr cnt)) (λ x,
      bind (with_fuel (λ fuel,
              Tree.insert_loop compare fuel v.1 x (Tree._end (Avl_tree hdr cnt))
                (Tree._end (Avl_tree hdr cnt)) true)) k) h
    = k (ctx_parent (Some hdr) c, cand_ptr hdr c, comp_of c) h) as Hloop.
  { intros B k. unfold Tree._begin, Tree._end. simpl _header.
    erewrite bind_get by apply (rep_header _ _ _ _ _ Hrep). simpl.
    unfold with_fuel.
    erewrite bind_ok; [reflexivity|].
    destruct Hrep as (_ & Ht & _).
    apply (insert_loop_spec compare (fuel_of h) v.1 t [] h hdr Ht).
    unfold fuel_of. lia. }
  unfold find_dup. fold c.
  rewrite <- Hplug in Hrep.
  pose proof Hrep as (Hnd0 & _ & _). apply NoDup_plug in Hnd0. simpl in Hnd0.
  pose proof (rep_plug_elim _ _ _ _ _ _ Hrep) as (_ & _ & Hc & Hh).
  assert (∀ m, pred_info c = Some m → compare (val m).1 v.1 = false →
               comp_of c = false ∨ pred_info c ≠ None →
    ∀ X Y : M D ((option ptr * bool) * avl_tree),
      bind (get _value (Some (addr m)))
        (λ jv, if compare jv.1 v.1 then X else Y) h = Y h) as Hcheck_dup.
  { intros m Hm Hcmp _ X Y.
    destruct (pred_lookup _ _ _ _ _ Hc Hm) as (nd & Hnd & Hv).
    erewrite bind_get by exact Hnd. by rewrite Hv, Hcmp. }
  assert (∀ m, pred_info c = Some m → compare (val m).1 v.1 = true →
    ∀ X Y : M D ((option ptr * bool) * avl_tree),
      bind (get _value (Some (addr m)))
        (λ jv, if compare jv.1 v.1 then X else Y) h = X h) as Hcheck_ins.
  { intros m Hm Hcmp X Y.
    destruct (pred_lookup _ _ _ _ _ Hc Hm) as (nd & Hnd & Hv).
    erewrite bind_get by exact Hnd. by rewrite Hv, Hcmp. }
  assert (∀ X, (∀ i, cand_index c = Some i →
         rebalanceable (plug (T E (Info (fresh (dom h)) 0 (leaf_val A hv v c)) E)
                          (take (S i) (retrace A v false c)))) →
    X = Tree._insert (Avl_tree hdr cnt) (comp_of c) (ctx_parent (Some hdr) c) v
          (cand_ptr hdr c) →
    ∃ h', bind X (λ '(it, t'), ret ((it, true), t')) h
          = Ok (((Some (fresh (dom h)), true),
                 Avl_tree hdr ((cnt + 1) mod 2 ^ 64)), h')
        ∧ rep h' hdr (ap_header A hdr hb hv (Info (fresh (dom h)) 0 v) c).1
            (ap_header A hdr hb hv (Info (fresh (dom h)) 0 v) c).2
            (ins_tree A hv (fresh (dom h)) v c)) as Hins.
  { intros X Hrb ->.
    destruct (_insert_spec A PS h hdr hb hv c v cnt Hrep Hrb) as (h' & Hrun & Hrep').
    exists h'. split; [|done]. erewrite bind_ok by exact Hrun. done. }
  unfold Tree.insert. rewrite Hloop. clear Hloop.
  destruct (comp_of c) eqn:Hcomp; rewrite ?Hcomp in Hins.
  - unfold Tree.begin, Tree._end. simpl _header.
    erewrite bind_get by exact Hh. simpl.
    pose proof (begin_check hdr c Hcomp Hnd0) as Hbegin.
    destruct (pred_info c) as [m|] eqn:Hm.
    + rewrite decide_False by (intros E'; apply Hbegin in E'; done).
      destruct c as [|[[[] n] sib] c']; try done. simpl in Hm.
      erewrite bind_ok.
      2:{ eapply (decrement_spec n sib c' h (Some hdr) m Hc Hm).
          - by apply NoDup_cons in Hnd0 as [_ ?].
          - rewrite <- Hplug in Hsize. rewrite length_inorder_plug in Hsize.
            simpl in Hsize. pose proof (length_ctx_le c'). simpl in *.
            rewrite length_app in Hsize. unfold fuel_of. lia. }
      destruct (compare (val m).1 v.1) eqn:Hcmp.
      * intros Hrb. erewrite Hcheck_ins by done.
        apply Hins; [|done]. exact Hrb.
      * erewrite Hcheck_dup; [done|done|done|]. right. done.
    + rewrite decide_True by (by apply Hbegin).
      intros Hrb. apply Hins; [|done]. exact Hrb.
  - destruct c as [|[[[] n] sib] c'] eqn:Ec; try done. simpl.
    destruct (compare (val n).1 v.1) eqn:Hcmp.
    + intros Hrb. erewrite (Hcheck_ins n) by done.
      apply Hins; [exact Hrb|]. done.
    + erewrite (Hcheck_dup n); [done|done|done|]. by left.
Qed.
End GenericInsert2.


Section Retrace.
Context {D : Type} (A : APolicy D).
Implicit Types (t s : tree D) (c : ctx D) (n : info D).

Lemma ctx_before_retrace cv sw c :
  addr <$> ctx_before (retrace A cv sw c) = addr <$> ctx_before c.
Proof.
  revert cv sw. induction c as [|[[[] n] sib] c IH]; intros cv sw; simpl; [done|..].
  - apply IH.
  - rewrite !fmap_app. by rewrite IH.
Qed.

Lemma ctx_after_retrace cv sw c :
  addr <$> ctx_after (retrace A cv sw c) = addr <$> ctx_after c.
Proof.
  revert cv sw. induction c as [|[[[] n] sib] c IH]; intros cv sw; simpl; [done|..].
  - rewrite !fmap_app. by rewrite IH.
  - apply IH.
Qed.

Lemma addrs_plug_retrace s cv sw c :
  addrs (plug s (retrace A cv sw c)) = addrs (plug s c).
Proof. by rewrite !addrs_plug, ctx_before_retrace, ctx_after_retrace. Qed.

Lemma last_retrace cv sw c :
  (λ f : frame D, addr f.1.2) <$> last (retrace A cv sw c)
  = (λ f : frame D, addr f.1.2) <$> last c.
Proof.
  revert cv sw. induction c as [|[[d n] sib] c IH]; intros cv sw; simpl; [done|].
  rewrite !last_cons. specialize (IH (ap_merge A cv (val n)) (sw || bool_decide (bal n ≠ 0))).
  destruct (last (retrace A _ _ c)), (last c); simpl in *; congruence.
Qed.

Lemma ctx_root_retrace hole cv sw c :
  ctx_root hole (retrace A cv sw c) = ctx_root hole c.
Proof.
  unfold ctx_root. pose proof (last_retrace cv sw c) as H.
  destruct (last (retrace A cv sw c)) as [[[??]?]|], (last c) as [[[??]?]|];
    simpl in *; congruence.
Qed.

Lemma length_retrace cv sw c : length (retrace A cv sw c) = length c.
Proof.
  revert cv sw. induction c as [|[[d n] sib] c IH]; intros cv sw; simpl; [done|].
  by rewrite IH.
Qed.
End Retrace.

(** ** The default policy *)

Section AVLPolicy.
Context {K V : Type}.
Abbreviation D := (K * V)%type.
Implicit Types (h : heap D) (t s : tree D) (c : ctx D) (n : info D).

Definition avl_header (hdr : ptr) (hb : Z) (hv : D) (lf : info D) c : Z * D :=
  match cand_info c with
  | Some _ => (hb, hv)
  | None =>
      (if decide (Some (leftmost hdr (plug (T E lf E) c)) = root_ptr (plug (T E lf E) c))
       then hb - 1 else hb + 1, hv)
  end.

Definition avl_apolicy : APolicy D :=
  {| ap_merge := λ _ own, own;
     ap_up := λ _ y, y;
     ap_down := λ x _ _, x;
     ap_header := avl_header |}.

Lemma retrace_avl_true cv c : retrace avl_apolicy cv true c = c.
Proof.
  revert cv. induction c as [|[[d [a b v]] sib] c IH]; intros cv; simpl; [done|].
  by rewrite IH.
Qed.

Lemma avl_update_loop hdr hv c : ∀ s a fuel h hb cv,
  root_ptr s = Some a → rep h hdr hb hv (plug s c) → (length c < fuel)%nat →
  ∃ h', AVL.update_loop fuel (Some a) (cand_ptr hdr c) h = Ok (tt, h')
        ∧ rep h' hdr
            (match cand_info c with
             | Some _ => hb
             | None => if decide (Some (leftmost hdr (plug s c)) = root_ptr (plug s c))
                       then hb - 1 else hb + 1
             end) hv
            (plug s (retrace avl_apolicy cv false c)).
Proof.
  induction c as [|[[d n] sib] c IH]; intros s a fuel h hb cv Hroot Hrep Hf;
    (destruct fuel as [|fuel]; [simpl in Hf; lia|]).
  - destruct s as [|l n r]; [done|]. simpl in Hroot. injection Hroot as <-.
    pose proof (rep_lookup h hdr hb hv l n r [] Hrep) as Hn.
    pose proof (rep_header _ _ _ _ _ Hrep) as Hh.
    unfold cell, header_cell in *. simpl in *.
    unfold cand_ptr. simpl.
    destruct (decide (Some (leftmost hdr (T l n r)) = Some (addr n))).
    + eexists. split; [mrun; reflexivity|].
      apply (rep_set_header h hdr hb hv (T l n r) (hb - 1) hv Hrep).
    + eexists. split; [mrun; reflexivity|].
      apply (rep_set_header h hdr hb hv (T l n r) (hb + 1) hv Hrep).
  - destruct s as [|l m r]; [done|]. simpl in Hroot. injection Hroot as <-.
    pose proof (rep_lookup h hdr hb hv l m r ((d, n, sib) :: c) Hrep) as Hm.
    pose proof Hrep as Hrep0.
    change (plug (T l m r) ((d, n, sib) :: c))
      with (plug (fill (d, n, sib) (T l m r)) c) in Hrep.
    assert (Some (addr m) ≠ root_ptr sib) as Hsib.
    { destruct Hrep0 as (Hnd & _ & _). apply NoDup_plug in Hnd. simpl in Hnd.
      rewrite addrs_T in Hnd. dj_split.
      intros E'. symmetry in E'. apply root_ptr_in in E'. eauto. }
    set (b' := match d with L => bal n - 1 | R => bal n + 1 end).
    assert (∃ h1, (∀ B (k : option ptr → M D B),
               bind (get _parent (Some (addr m))) (λ p,
                 pl <- get _left p;
                 b <- get _balance p;
                 (if decide (pl = Some (addr m)) then set_balance p (b - 1)
                  else set_balance p (b + 1));;
                 k p) h = k (Some (addr n)) h1)
             ∧ rep h1 hdr hb hv (plug (fill (d, set_bal b' n, sib) (T l m r)) c))
      as (h1 & Hk1 & Hrep1).
    { unfold cell in Hm. simpl in Hm. destruct d; simpl in Hrep.
      - destruct (bind_set_balance_focus h hdr hb hv _ n sib c b' Hrep)
          as (h1 & Hk1 & Hrep1).
        exists h1. split; [|exact Hrep1]. intros B k.
        erewrite bind_get by exact Hm. simpl.
        rw_focus (bind_get_focus _ _ h hdr hb hv _ n sib c Hrep).
        rw_focus (bind_get_focus _ _ h hdr hb hv _ n sib c Hrep).
        rewrite decide_True by done. apply (Hk1 B (λ _, k (Some (addr n)))).
      - destruct (bind_set_balance_focus h hdr hb hv sib n _ c b' Hrep)
          as (h1 & Hk1 & Hrep1).
        exists h1. split; [|exact Hrep1]. intros B k.
        erewrite bind_get by exact Hm. simpl.
        rw_focus (bind_get_focus _ _ h hdr hb hv sib n _ c Hrep).
        rw_focus (bind_get_focus _ _ h hdr hb hv sib n _ c Hrep).
        rewrite decide_False by (intros E'; by apply Hsib).
        apply (Hk1 B (λ _, k (Some (addr n)))). }
    simpl AVL.update_loop. rewrite Hk1. clear Hk1.
    unfold cand_ptr. cbn [cand_info].
    assert (length c < fuel)%nat as Hf' by (simpl in Hf; lia).
    assert (addrs (plug (fill (d, set_bal b' n, sib) (T l m r)) c)
            = addrs (plug (T l m r) ((d, n, sib) :: c))) as Haddrs.
    { simpl plug. apply addrs_plug_same. destruct d; simpl; by rewrite !addrs_T. }
    assert (root_ptr (plug (fill (d, set_bal b' n, sib) (T l m r)) c)
            = root_ptr (plug (T l m r) ((d, n, sib) :: c))) as Hroot.
    { simpl plug. rewrite !root_ptr_plug. by destruct d. }
    destruct (decide (bal n ≠ 0)) as [Hb|Hb].
    + rewrite decide_True by done.
      exists h1. split; [done|].
      simpl. rewrite bool_decide_true by done. rewrite retrace_avl_true.
      destruct d; exact Hrep1.
    + assert (Some (addr n) ≠ Some match cand_info c with
                                    | Some n0 => addr n0
                                    | None => hdr
                                    end) as Hne.
      { destruct Hrep0 as (Hnd & _ & _). apply NoDup_plug in Hnd. simpl in Hnd.
        rewrite addrs_T in Hnd. dj_split.
        destruct (cand_info c) as [n0|] eqn:Hc0.
        * apply cand_info_in in Hc0. intros [= E']. rewrite E' in *. done.
        * intros [= E']. congruence. }
      rewrite decide_False by done.
      destruct (IH (fill (d, set_bal b' n, sib) (T l m r)) (addr n) fuel h1 hb
                  (val n) ltac:(by destruct d) Hrep1 Hf') as (h2 & Hrun2 & Hrep2).
      exists h2. split; [exact Hrun2|].
      unfold leftmost in *. rewrite Haddrs, Hroot in Hrep2.
      simpl. rewrite bool_decide_false by done.
      destruct d; exact Hrep2.
Qed.
End AVLPolicy.

Section AVLPolicySpec.
Context {K V : Type}.
Abbreviation D := (K * V)%type.

Lemma rep_ctx_fuel (h : heap D) hdr hb hv s c :
  rep h hdr hb hv (plug s c) → (length c < fuel_of h)%nat.
Proof.
  intros H. apply rep_size in H. rewrite length_inorder_plug in H.
  pose proof (length_ctx_le c). unfold fuel_of. lia.
Qed.

Lemma avl_policy_spec : PolicySpec (P := AVL.policy) (avl_apolicy (K := K) (V := V)).
Proof.
  split.
  - intros h hdr hb hv t1 [xa xb xv] t2 [ya yb yv] t3 c Hrep.
    apply (AVL_left_spec h hdr hb hv t1 _ t2 _ t3 c Hrep).
  - intros h hdr hb hv t1 [ya yb yv] t2 [xa xb xv] t3 c Hrep.
    apply (AVL_right_spec h hdr hb hv t1 _ t2 _ t3 c Hrep).
  - intros h hdr hb hv a v c Hrep.
    pose proof (rep_ctx_fuel _ _ _ _ _ _ Hrep) as Hf.
    destruct (avl_update_loop hdr hv c (T E (Info a 0 v) E) a (fuel_of h) h hb v
                eq_refl Hrep Hf) as (h' & Hrun & Hrep').
    exists h'. split; [exact Hrun|].
    assert (leaf_val avl_apolicy hv v c = v) as -> by (by destruct c).
    unfold ap_header, avl_apolicy, avl_header. simpl.
    destruct (cand_info c); exact Hrep'.
Qed.
End AVLPolicySpec.


(** ** The interval-tree policy *)

Section IntervalPolicy.
Context {Data : Type}.
Abbreviation IV := (interval_tree_value Data).
Abbreviation D := (interval_type * IV)%type.
Implicit Types (h : heap D) (t s : tree D) (c : ctx D) (n : info D).

Definition itv_merge (cv own : D) : D :=
  (own.1, Interval_tree_value (Z.max (max cv.2) (max own.2))
            (Z.min (min cv.2) (min own.2)) (data own.2)).

Definition itv_up (xv yv : D) : D :=
  (yv.1, Interval_tree_value (max xv.2) (min xv.2) (data yv.2)).

(** The maximum and minimum of a node's own interval and of what its
    children carry. *)
Definition itv_absorb (mm : Z * Z) t : Z * Z :=
  match t with
  | E => mm
  | T _ n _ => (Z.max mm.1 (max (val n).2), Z.min mm.2 (min (val n).2))
  end.

Definition itv_down (xv : D) (l r : tree D) : D :=
  let mm := itv_absorb (itv_absorb (xv.1.2, xv.1.1) l) r in
  (xv.1, Interval_tree_value mm.1 mm.2 (data xv.2)).

Definition itv_header (hdr : ptr) (hb : Z) (hv : D) (lf : info D) c : Z * D :=
  match c with
  | [] => (hb - 1, itv_merge (val lf) hv)
  | _ => (hb, hv)
  end.

Definition itv_apolicy : APolicy D :=
  {| ap_merge := itv_merge; ap_up := itv_up; ap_down := itv_down;
     ap_header := itv_header |}.

Definition set_val (v : D) n : info D := Info (addr n) (bal n) v.

Lemma bind_set_max_focus h hdr hb hv l n r c m :
  rep h hdr hb hv (plug (T l n r) c) →
  ∃ h', (∀ B (k : unit → M D B),
           bind (Interval.set_max (Some (addr n)) m) k h = k tt h')
        ∧ rep h' hdr hb hv
            (plug (T l (set_val ((val n).1, with_max m (val n).2) n) r) c).
Proof.
  intros H.
  destruct (bind_store_focus h hdr hb hv l n r c (bal n)
              ((val n).1, with_max m (val n).2)
              (λ nd, with_value ((_value nd).1, with_max m (_value nd).2) nd) H)
    as (h' & Hk & _ & Hr); [done|].
  exists h'. done.
Qed.

Lemma bind_set_min_focus h hdr hb hv l n r c m :
  rep h hdr hb hv (plug (T l n r) c) →
  ∃ h', (∀ B (k : unit → M D B),
           bind (Interval.set_min (Some (addr n)) m) k h = k tt h')
        ∧ rep h' hdr hb hv
            (plug (T l (set_val ((val n).1, with_min m (val n).2) n) r) c).
Proof.
  intros H.
  destruct (bind_store_focus h hdr hb hv l n r c (bal n)
              ((val n).1, with_min m (val n).2)
              (λ nd, with_value ((_value nd).1, with_min m (_value nd).2) nd) H)
    as (h' & Hk & _ & Hr); [done|].
  exists h'. done.
Qed.

(** [a <- get_max x; b <- get_max y; set_max z (Z.max a b);;
    a <- get_min x; b <- get_min y; set_min z (Z.min a b)] on the node
    in focus. *)
Lemma bind_set_max_min_focus h hdr hb hv l n r c mx mn :
  rep h hdr hb hv (plug (T l n r) c) →
  ∃ h', (∀ B (k : unit → M D B),
           bind (Interval.set_max (Some (addr n)) mx)
             (λ _, bind (Interval.set_min (Some (addr n)) mn) k) h = k tt h')
        ∧ rep h' hdr hb hv
            (plug (T l (set_val ((val n).1, Interval_tree_value mx mn (data (val n).2)) n) r) c).
Proof.
  intros H.
  destruct (bind_set_max_focus h hdr hb hv l n r c mx H) as (h1 & Hk1 & H1).
  destruct (bind_set_min_focus h1 hdr hb hv l _ r c mn H1) as (h2 & Hk2 & H2).
  exists h2. split; [|exact H2].
  intros B k. rewrite Hk1. apply Hk2.
Qed.

Lemma itv_parent_update h hdr hb hv tl x tr d y sib c :
  rep h hdr hb hv (plug (T tl x tr) ((d, y, sib) :: c)) →
  ∃ h1, (∀ B (k : M D B),
           (p <- get _parent (Some (addr x));
            m <- Interval.get_max (Some (addr x));
            Interval.set_max p m;;
            p <- get _parent (Some (addr x));
            m <- Interval.get_min (Some (addr x));
            Interval.set_min p m;;
            k) h = k h1)
        ∧ rep h1 hdr hb hv
            (plug (T tl x tr) ((d, set_val (itv_up (val x) (val y)) y, sib) :: c)).
Proof.
  intros H. unfold Interval.get_max, Interval.get_min.
  destruct d; simpl in H.
  - destruct (bind_set_max_min_focus h hdr hb hv _ y sib c (max (val x).2) (min (val x).2) H)
      as (h1 & Hk1 & H1).
    exists h1. split; [|exact H1]. intros B k.
    rw_focus (bind_get_focus _ _ h hdr hb hv tl x tr ((L, y, sib) :: c) H).
    rw_focus (bind_get_focus _ _ h hdr hb hv tl x tr ((L, y, sib) :: c) H).
    destruct (bind_set_max_focus h hdr hb hv _ y sib c (max (val x).2) H) as (h0 & Hk0 & H0).
    rewrite Hk0.
    rw_focus (bind_get_focus _ _ h0 hdr hb hv tl x tr ((L, _, sib) :: c) H0).
    rw_focus (bind_get_focus _ _ h0 hdr hb hv tl x tr ((L, _, sib) :: c) H0).
    rewrite <- (Hk1 B (λ _, k)). by rewrite Hk0.
  - destruct (bind_set_max_min_focus h hdr hb hv sib y _ c (max (val x).2) (min (val x).2) H)
      as (h1 & Hk1 & H1).
    exists h1. split; [|exact H1]. intros B k.
    rw_focus (bind_get_focus _ _ h hdr hb hv tl x tr ((R, y, sib) :: c) H).
    rw_focus (bind_get_focus _ _ h hdr hb hv tl x tr ((R, y, sib) :: c) H).
    destruct (bind_set_max_focus h hdr hb hv sib y _ c (max (val x).2) H) as (h0 & Hk0 & H0).
    rewrite Hk0.
    rw_focus (bind_get_focus _ _ h0 hdr hb hv tl x tr ((R, _, sib) :: c) H0).
    rw_focus (bind_get_focus _ _ h0 hdr hb hv tl x tr ((R, _, sib) :: c) H0).
    rewrite <- (Hk1 B (λ _, k)). by rewrite Hk0.
Qed.

Definition mm_of (v : D) : Z * Z := (max v.2, min v.2).
Definition with_mm (mm : Z * Z) (v : D) : D :=
  (v.1, Interval_tree_value mm.1 mm.2 (data v.2)).

Lemma itv_absorb_left h hdr hb hv tl x tr c :
  rep h hdr hb hv (plug (T tl x tr) c) →
  ∃ h1, (∀ B (k : M D B),
           (l <- get _left (Some (addr x));
            (if decide (l ≠ None) then
               a <- Interval.get_max (Some (addr x));
               b <- Interval.get_max l;
               Interval.set_max (Some (addr x)) (Z.max a b);;
               a <- Interval.get_min (Some (addr x));
               b <- Interval.get_min l;
               Interval.set_min (Some (addr x)) (Z.min a b)
             else ret tt);;
            k) h = k h1)
        ∧ rep h1 hdr hb hv
            (plug (T tl (set_val (with_mm (itv_absorb (mm_of (val x)) tl) (val x)) x) tr) c).
Proof.
  intros H. unfold Interval.get_max, Interval.get_min.
  destruct tl as [|tll ln tlr].
  - exists h. split.
    + intros B k.
      rw_focus (bind_get_focus _ _ h hdr hb hv E x tr c H).
      by rewrite ?bind_ret_l.
    + destruct x as [xa xb [xk [xmax xmin xd]]]. exact H.
  - destruct (bind_set_max_min_focus h hdr hb hv _ x tr c
                (Z.max (max (val x).2) (max (val ln).2))
                (Z.min (min (val x).2) (min (val ln).2)) H) as (h1 & Hk1 & H1).
    exists h1. split; [|exact H1]. intros B k.
    rw_focus (bind_get_focus _ _ h hdr hb hv _ x tr c H).
    rewrite ?bind_assoc.
    rw_focus (bind_get_focus _ _ h hdr hb hv _ x tr c H).
    rw_focus (bind_get_focus _ _ h hdr hb hv tll ln tlr ((L, x, tr) :: c) H).
    destruct (bind_set_max_focus h hdr hb hv _ x tr c
                (Z.max (max (val x).2) (max (val ln).2)) H) as (h0 & Hk0 & H0).
    rewrite ?bind_assoc. rewrite Hk0.
    rw_focus (bind_get_focus _ _ h0 hdr hb hv _ _ tr c H0).
    rw_focus (bind_get_focus _ _ h0 hdr hb hv tll ln tlr ((L, _, tr) :: c) H0).
    rewrite <- (Hk1 B (λ _, k)). by rewrite Hk0.
Qed.

Lemma itv_absorb_right h hdr hb hv tl x tr c :
  rep h hdr hb hv (plug (T tl x tr) c) →
  ∃ h1, (∀ B (k : M D B),
           (r <- get _right (Some (addr x));
            (if decide (r ≠ None) then
               a <- Interval.get_max (Some (addr x));
               b <- Interval.get_max r;
               Interval.set_max (Some (addr x)) (Z.max a b);;
               a <- Interval.get_min (Some (addr x));
               b <- Interval.get_min r;
               Interval.set_min (Some (addr x)) (Z.min a b)
             else ret tt);;
            k) h = k h1)
        ∧ rep h1 hdr hb hv
            (plug (T tl (set_val (with_mm (itv_absorb (mm_of (val x)) tr) (val x)) x) tr) c).
Proof.
  intros H. unfold Interval.get_max, Interval.get_min.
  destruct tr as [|trl rn trr].
  - exists h. split.
    + intros B k.
      rw_focus (bind_get_focus _ _ h hdr hb hv tl x E c H).
      by rewrite ?bind_ret_l.
    + destruct x as [xa xb [xk [xmax xmin xd]]]. exact H.
  - destruct (bind_set_max_min_focus h hdr hb hv tl x _ c
                (Z.max (max (val x).2) (max (val rn).2))
                (Z.min (min (val x).2) (min (val rn).2)) H) as (h1 & Hk1 & H1).
    exists h1. split; [|exact H1]. intros B k.
    rw_focus (bind_get_focus _ _ h hdr hb hv tl x _ c H).
    rewrite ?bind_assoc.
    rw_focus (bind_get_focus _ _ h hdr hb hv tl x _ c H).
    rw_focus (bind_get_focus _ _ h hdr hb hv trl rn trr ((R, x, tl) :: c) H).
    destruct (bind_set_max_focus h hdr hb hv tl x _ c
                (Z.max (max (val x).2) (max (val rn).2)) H) as (h0 & Hk0 & H0).
    rewrite ?bind_assoc. rewrite Hk0.
    rw_focus (bind_get_focus _ _ h0 hdr hb hv tl _ _ c H0).
    rw_focus (bind_get_focus _ _ h0 hdr hb hv trl rn trr ((R, _, tl) :: c) H0).
    rewrite <- (Hk1 B (λ _, k)). by rewrite Hk0.
Qed.

Lemma bind_get_ret_unit {X} (f : node D → X) p (F : X → M D unit) h :
  bind (get f p) F h = bind (get f p) (λ r, bind (F r) (λ _, ret tt)) h.
Proof.
  unfold get, bind, load, ret. destruct p as [a|]; [|done].
  destruct (h !! a); [|done]. destruct (F _ h) as [[[] ?]|]; done.
Qed.

Lemma _update_min_max_spec h hdr hb hv tl x tr d y sib c :
  rep h hdr hb hv (plug (T tl x tr) ((d, y, sib) :: c)) →
  ∃ h', Interval._update_min_max (Some (addr x)) h = Ok (tt, h')
        ∧ rep h' hdr hb hv
            (plug (T tl (set_val (itv_down (val x) tl tr) x) tr)
               ((d, set_val (itv_up (val x) (val y)) y, sib) :: c)).
Proof.
  intros H. unfold Interval._update_min_max.
  destruct (itv_parent_update h hdr hb hv tl x tr d y sib c H) as (h1 & Hk1 & H1).
  cbv zeta. rewrite Hk1. clear Hk1 H.
  set (c1 := (d, set_val (itv_up (val x) (val y)) y, sib) :: c) in *.
  rw_focus (bind_get_focus _ _ h1 hdr hb hv tl x tr c1 H1).
  destruct (bind_set_max_focus h1 hdr hb hv tl x tr c1 (val x).1.2 H1) as (h2 & Hk2 & H2).
  rewrite Hk2. clear Hk2 H1.
  rw_focus (bind_get_focus _ _ h2 hdr hb hv tl _ tr c1 H2).
  destruct (bind_set_min_focus h2 hdr hb hv tl _ tr c1 (val x).1.1 H2) as (h3 & Hk3 & H3).
  simpl in Hk3. rewrite Hk3. clear Hk3 H2.
  destruct (itv_absorb_left h3 hdr hb hv tl _ tr c1 H3) as (h4 & Hk4 & H4).
  simpl in Hk4. rewrite Hk4. clear Hk4 H3.
  destruct (itv_absorb_right h4 hdr hb hv tl _ tr c1 H4) as (h5 & Hk5 & H5).
  simpl in Hk5. rewrite bind_get_ret_unit. rewrite Hk5.
  exists h5. split; [done|]. clear -H5. subst c1. destruct tl, tr; exact H5.
Qed.

Lemma itv_policy_left h hdr hb hv t1 x t2 y t3 c :
  rep h hdr hb hv (plug (T t1 x (T t2 y t3)) c) →
  ∃ h', Interval.left (Some (addr x)) hdr h = Ok (tt, h')
        ∧ rep h' hdr hb hv (plug (rotl itv_apolicy (T t1 x (T t2 y t3))) c).
Proof.
  intros H. destruct (AVL_left_spec h hdr hb hv t1 x t2 y t3 c H) as (h1 & Hr1 & H1).
  unfold Interval.left. erewrite bind_ok by exact Hr1.
  apply (_update_min_max_spec h1 hdr hb hv t1 x t2 L y t3 c H1).
Qed.

Lemma itv_policy_right h hdr hb hv t1 y t2 x t3 c :
  rep h hdr hb hv (plug (T (T t1 y t2) x t3) c) →
  ∃ h', Interval.right (Some (addr x)) hdr h = Ok (tt, h')
        ∧ rep h' hdr hb hv (plug (rotr itv_apolicy (T (T t1 y t2) x t3)) c).
Proof.
  intros H. destruct (AVL_right_spec h hdr hb hv t1 x t2 y t3 c H) as (h1 & Hr1 & H1).
  unfold Interval.right. erewrite bind_ok by exact Hr1.
  apply (_update_min_max_spec h1 hdr hb hv t2 x t3 R y t1 c H1).
Qed.
End IntervalPolicy.

Section IntervalUpdater.
Context {Data : Type}.
Abbreviation IV := (interval_tree_value Data).
Abbreviation D := (interval_type * IV)%type.
Implicit Types (h : heap D) (t s : tree D) (c : ctx D) (n : info D).

Definition step_bal (sw : bool) (d : dir) (b : Z) : Z :=
  if sw then b else match d with L => b - 1 | R => b + 1 end.

(** One iteration of the loop of [Interval::updater::update], up to
    the test [p == root]. *)
Lemma itv_update_step h hdr hb hv l m r d n sib c sw :
  rep h hdr hb hv (plug (T l m r) ((d, n, sib) :: c)) →
  ∃ h1, (∀ B (k : option ptr → M D B),
           (p <- get _parent (Some (addr m));
            (if negb sw then
               pl <- get _left p;
               b <- get _balance p;
               if decide (pl = Some (addr m)) then set_balance p (b - 1)
               else set_balance p (b + 1)
             else ret tt);;
            a <- Interval.get_max (Some (addr m));
            b <- Interval.get_max p;
            Interval.set_max p (Z.max a b);;
            a <- Interval.get_min (Some (addr m));
            b <- Interval.get_min p;
            Interval.set_min p (Z.min a b);;
            k p) h = k (Some (addr n)) h1)
        ∧ rep h1 hdr hb hv
            (plug (T l m r)
               ((d, Info (addr n) (step_bal sw d (bal n)) (itv_merge (val m) (val n)), sib)
                  :: c)).
Proof.
  intros H.
  assert (Some (addr m) ≠ root_ptr sib) as Hsib.
  { destruct H as (Hnd & _ & _). apply NoDup_plug in Hnd. simpl in Hnd.
    rewrite addrs_T in Hnd. dj_split.
    intros E'. symmetry in E'. apply root_ptr_in in E'. eauto. }
  assert (∃ h0, (∀ B (k : M D B),
             ((if negb sw then
                 pl <- get _left (Some (addr n));
                 b <- get _balance (Some (addr n));
                 if decide (pl = Some (addr m)) then set_balance (Some (addr n)) (b - 1)
                 else set_balance (Some (addr n)) (b + 1)
               else ret tt);; k) h = k h0)
           ∧ rep h0 hdr hb hv
               (plug (T l m r) ((d, set_bal (step_bal sw d (bal n)) n, sib) :: c)))
    as (h0 & Hk0 & H0).
  { destruct sw; simpl.
    - exists h. split; [done|]. destruct n; exact H.
    - destruct d; simpl in H.
      + destruct (bind_set_balance_focus h hdr hb hv _ n sib c (bal n - 1) H)
          as (h0 & Hk0 & H0).
        exists h0. split; [|exact H0]. intros B k.
        rw_focus (bind_get_focus _ _ h hdr hb hv _ n sib c H).
        rw_focus (bind_get_focus _ _ h hdr hb hv _ n sib c H).
        rewrite decide_True by done. apply Hk0.
      + destruct (bind_set_balance_focus h hdr hb hv sib n _ c (bal n + 1) H)
          as (h0 & Hk0 & H0).
        exists h0. split; [|exact H0]. intros B k.
        rw_focus (bind_get_focus _ _ h hdr hb hv sib n _ c H).
        rw_focus (bind_get_focus _ _ h hdr hb hv sib n _ c H).
        rewrite decide_False by (intros E'; by apply Hsib).
        apply Hk0. }
  set (n0 := set_bal (step_bal sw d (bal n)) n) in *.
  assert (∃ h1, (∀ B (k : M D B),
             (a <- Interval.get_max (Some (addr m));
              b <- Interval.get_max (Some (addr n));
              Interval.set_max (Some (addr n)) (Z.max a b);;
              a <- Interval.get_min (Some (addr m));
              b <- Interval.get_min (Some (addr n));
              Interval.set_min (Some (addr n)) (Z.min a b);;
              k) h0 = k h1)
           ∧ rep h1 hdr hb hv
               (plug (T l m r)
                  ((d, set_val (itv_merge (val m) (val n)) n0, sib) :: c)))
    as (h1 & Hk1 & H1).
  { unfold Interval.get_max, Interval.get_min.
    destruct d; simpl in H0.
    - destruct (bind_set_max_min_focus h0 hdr hb hv _ n0 sib c
                  (Z.max (max (val m).2) (max (val n).2))
                  (Z.min (min (val m).2) (min (val n).2)) H0) as (h1 & Hk1 & H1).
      exists h1. split; [|exact H1]. intros B k.
      rw_focus (bind_get_focus _ _ h0 hdr hb hv l m r ((L, n0, sib) :: c) H0).
      rw_focus (bind_get_focus _ _ h0 hdr hb hv _ n0 sib c H0).
      destruct (bind_set_max_focus h0 hdr hb hv _ n0 sib c
                  (Z.max (max (val m).2) (max (val n).2)) H0) as (h' & Hk' & H').
      simpl in Hk'. rewrite Hk'.
      rw_focus (bind_get_focus _ _ h' hdr hb hv l m r ((L, _, sib) :: c) H').
      rw_focus (bind_get_focus _ _ h' hdr hb hv _ _ sib c H').
      simpl in Hk1. rewrite <- (Hk1 B (λ _, k)). by rewrite Hk'.
    - destruct (bind_set_max_min_focus h0 hdr hb hv sib n0 _ c
                  (Z.max (max (val m).2) (max (val n).2))
                  (Z.min (min (val m).2) (min (val n).2)) H0) as (h1 & Hk1 & H1).
      exists h1. split; [|exact H1]. intros B k.
      rw_focus (bind_get_focus _ _ h0 hdr hb hv l m r ((R, n0, sib) :: c) H0).
      rw_focus (bind_get_focus _ _ h0 hdr hb hv sib n0 _ c H0).
      destruct (bind_set_max_focus h0 hdr hb hv sib n0 _ c
                  (Z.max (max (val m).2) (max (val n).2)) H0) as (h' & Hk' & H').
      simpl in Hk'. rewrite Hk'.
      rw_focus (bind_get_focus _ _ h' hdr hb hv l m r ((R, _, sib) :: c) H').
      rw_focus (bind_get_focus _ _ h' hdr hb hv sib _ _ c H').
      simpl in Hk1. rewrite <- (Hk1 B (λ _, k)). by rewrite Hk'. }
  exists h1. split; [|exact H1]. intros B k.
  rw_focus (bind_get_focus _ _ h hdr hb hv l m r ((d, n, sib) :: c) H).
  rewrite ?bind_assoc. rewrite Hk0. apply Hk1.
Qed.

Lemma itv_update_loop hdr hb hv unb : ∀ c l m r fuel h sw f,
  rep h hdr hb hv (plug (T l m r) (f :: c)) →
  (length c < fuel)%nat →
  (sw = false → unb = cand_ptr hdr (f :: c)) →
  ∃ h', Interval.update_loop fuel (Some (addr m)) unb hdr sw h = Ok (tt, h')
        ∧ rep h' hdr hb hv (plug (T l m r) (retrace itv_apolicy (val m) sw (f :: c))).
Proof.
  induction c as [|f2 c IH]; intros l m r fuel h sw [[d n] sib] H Hf Hunb;
    (destruct fuel as [|fuel]; [simpl in Hf; lia|]);
    destruct (itv_update_step h hdr hb hv l m r d n sib _ sw H) as (h1 & Hk1 & H1);
    simpl Interval.update_loop; rewrite Hk1; clear Hk1;
    pose proof (rep_header _ _ _ _ _ H1) as Hh1;
    unfold header_cell in Hh1; rewrite root_ptr_plug in Hh1.
  - (erewrite bind_get by exact Hh1); simpl.
    unfold ctx_root. simpl. rewrite decide_True by done.
    exists h1. split; [done|]. exact H1.
  - destruct (ctx_root_cons f2 c) as (rt & Hrin & Hrt).
    replace (ctx_root (root_ptr (T l m r)) ((d, {| addr := addr n; bal := step_bal sw d (bal n); val := itv_merge (val m) (val n) |}, sib) :: f2 :: c))
      with (Some rt) in Hh1.
    2:{ symmetry. unfold ctx_root in *. rewrite last_cons. specialize (Hrt None).
        destruct (last (f2 :: c)) as [[[??]?]|]; done. }
    (erewrite bind_get by exact Hh1); simpl.
    pose proof H as (Hnd & _ & _). apply NoDup_plug in Hnd.
    rewrite addrs_T in Hnd. simpl in Hnd, Hrin. destruct f2 as [[d2 n2] sib2].
    simpl in Hrin.
    assert (Some (addr n) ≠ Some rt) as Hnr.
    { dj_split; intros [= E']; rewrite <- E' in *; done. }
    clear Hrin.
    rewrite decide_False by done.
    set (n' := Info (addr n) (step_bal sw d (bal n)) (itv_merge (val m) (val n))) in *.
    assert (length c < fuel)%nat as Hf' by (simpl in Hf; lia).
    change (plug (T l m r) ((d, n', sib) :: (d2, n2, sib2) :: c))
      with (plug (fill (d, n', sib) (T l m r)) ((d2, n2, sib2) :: c)) in H1.
    set (sw' := if decide (Some (addr n) = unb) then true else sw).
    assert (sw' = sw || bool_decide (bal n ≠ 0)) as Hsw.
    { subst sw'. destruct sw; [by case_decide|]. simpl.
      rewrite (Hunb eq_refl). unfold cand_ptr. simpl.
      destruct (decide (bal n ≠ 0)) as [Hb|Hb].
      - rewrite decide_True by done. by rewrite bool_decide_true.
      - rewrite bool_decide_false by done.
        rewrite decide_False; [done|].
        dj_split. destruct (decide (bal n2 ≠ 0)).
        + intros [= E']. done.
        + destruct (cand_info c) as [nc|] eqn:Hc0.
          * apply cand_info_in in Hc0. intros [= E']. rewrite E' in *. done.
          * intros [= E']. congruence. }
    assert (sw' = false → unb = cand_ptr hdr ((d2, n2, sib2) :: c)) as Hunb'.
    { rewrite Hsw. destruct sw; [done|]. simpl. intros Hb.
      apply bool_decide_eq_false in Hb.
      rewrite (Hunb eq_refl). unfold cand_ptr. simpl.
      rewrite (decide_False (P := bal n ≠ 0)) by done. done. }
    destruct d.
    + destruct (IH _ n' sib fuel h1 sw' (d2, n2, sib2) H1 Hf' Hunb') as (h2 & Hr2 & H2).
      exists h2. split; [exact Hr2|].
      simpl. rewrite <- Hsw. exact H2.
    + destruct (IH sib n' _ fuel h1 sw' (d2, n2, sib2) H1 Hf' Hunb') as (h2 & Hr2 & H2).
      exists h2. split; [exact Hr2|].
      simpl. rewrite <- Hsw. exact H2.
Qed.

(** The first insertion: the walk goes through the header. *)
Lemma itv_update_first h hdr hb hv a (v : D) :
  rep h hdr hb hv (T E (Info a 0 v) E) →
  ∃ h', Interval.update (Some a) (Some hdr) hdr h = Ok (tt, h')
        ∧ rep h' hdr (hb - 1) (itv_merge v hv)
            (T E (Info a 0 (itv_merge (itv_merge v hv) v)) E).
Proof.
  intros (Hnd & (Ha & _) & Hh).
  pose proof Hnd as Hnd'. revert Hnd'.
  unfold cell, header_cell, leftmost, rightmost in *. simpl in *. dj_split.
  intros Hnd'.
  unfold Interval.update, with_fuel. unfold fuel_of.
  assert (∃ k, size h = S k) as [k Hk].
  { destruct (size h) eqn:Hs; [|eauto]. apply map_size_empty_iff in Hs.
    subst h. done. }
  rewrite Hk. simpl Interval.update_loop.
  unfold Interval.get_max, Interval.get_min, Interval.set_max, Interval.set_min.
  eexists. split; [mrun; reflexivity|].
  split_and!; simpl.
  - exact Hnd'.
  - split_and!; try done. hlook.
  - unfold header_cell, leftmost, rightmost. simpl. hlook.
Qed.

Lemma itv_policy_spec : PolicySpec (P := Interval.policy) (itv_apolicy (Data := Data)).
Proof.
  split.
  - intros. by apply itv_policy_left.
  - intros. by apply itv_policy_right.
  - intros h hdr hb hv a v c Hrep.
    destruct c as [|f c].
    + destruct (itv_update_first h hdr hb hv a v Hrep) as (h' & Hr & H').
      exists h'. split; [exact Hr|]. exact H'.
    + pose proof (rep_ctx_fuel _ _ _ _ _ _ Hrep) as Hf.
      destruct (itv_update_loop hdr hb hv (cand_ptr hdr (f :: c)) c E (Info a 0 v) E
                  (fuel_of h) h false f Hrep ltac:(simpl in Hf; lia) ltac:(done))
        as (h' & Hr & H').
      exists h'. split; [exact Hr|]. exact H'.
Qed.
End IntervalUpdater.


(** * The AVL invariant *)

Section AvlInv.
Context {D : Type} (A : APolicy D).
Implicit Types (t s : tree D) (c : ctx D) (n : info D).

(** Every node is balanced, and its balance factor is the height of
    its right subtree minus the height of its left one. *)
Fixpoint avl t : Prop :=
  match t with
  | E => True
  | T l n r =>
      avl l ∧ avl r ∧ bal n = height r - height l ∧ -1 ≤ bal n ≤ 1
  end.

Lemma height_nonneg t : 0 ≤ height t.
Proof. induction t; simpl; lia. Qed.

Lemma height_fill_eq f s s' : height s' = height s → height (fill f s') = height (fill f s).
Proof. destruct f as [[[] n] sib]; simpl; lia. Qed.

Lemma height_plug_eq s s' c : height s' = height s → height (plug s' c) = height (plug s c).
Proof.
  revert s s'. induction c as [|f c IH]; intros s s' H; simpl; [done|].
  apply IH. by apply height_fill_eq.
Qed.

Lemma avl_plug_inv s c : avl (plug s c) → avl s.
Proof.
  revert s. induction c as [|[[[] n] sib] c IH]; intros s H; simpl in *; [done|..].
  - apply IH in H. simpl in H. tauto.
  - apply IH in H. simpl in H. tauto.
Qed.

(** Replacing a subtree by a balanced one of the same height. *)
Lemma avl_plug_replace s s' c :
  avl (plug s c) → avl s' → height s' = height s → avl (plug s' c).
Proof.
  revert s s'. induction c as [|[[[] n] sib] c IH]; intros s s' H Hs' Hh; simpl in *;
    [done|..].
  - eapply IH; [exact H| |simpl; lia].
    apply avl_plug_inv in H. simpl in *. rewrite Hh. tauto.
  - eapply IH; [exact H| |simpl; lia].
    apply avl_plug_inv in H. simpl in *. rewrite Hh. tauto.
Qed.

(** A context whose frames differ from another's only in payloads. *)
Fixpoint same_shape (c1 c2 : ctx D) : Prop :=
  match c1, c2 with
  | [], [] => True
  | (d1, n1, s1) :: c1, (d2, n2, s2) :: c2 =>
      d1 = d2 ∧ addr n1 = addr n2 ∧ bal n1 = bal n2 ∧ s1 = s2 ∧ same_shape c1 c2
  | _, _ => False
  end.

Lemma avl_plug_same_shape s s' c c' :
  same_shape c' c → avl (plug s c) → avl s' → height s' = height s →
  avl (plug s' c') ∧ height (plug s' c') = height (plug s c).
Proof.
  revert s s' c'. induction c as [|[[d n] sib] c IH]; intros s s' [|[[d' n'] sib'] c'];
    simpl; try done.
  intros (-> & Ha & Hb & -> & Hc) H Hs' Hh.
  apply (IH (fill (d, n, sib) s) (fill (d, n', sib) s') c'); [done|done| |].
  - apply avl_plug_inv in H. destruct d; simpl in *; rewrite Hb, Hh; tauto.
  - destruct d; simpl; lia.
Qed.

Lemma retrace_true_same_shape cv c : same_shape (retrace A cv true c) c.
Proof.
  revert cv. induction c as [|[[d n] sib] c IH]; intros cv; simpl; [done|].
  split_and!; done.
Qed.

Definition zero_bal (c : ctx D) : Prop := Forall (λ f : frame D, bal f.1.2 = 0) c.

(** The subtree in the hole grew by one: along frames whose balance
    was zero, every subtree up the path grows by one, and the retrace
    gives each frame its new balance. *)
Lemma zero_path c : ∀ s s' cv,
  zero_bal c → avl (plug s c) → avl s' → height s' = height s + 1 →
  avl (plug s' (retrace A cv false c))
  ∧ height (plug s' (retrace A cv false c)) = height (plug s c) + 1
  ∧ (c ≠ [] → ∃ l n r, plug s' (retrace A cv false c) = T l n r ∧ bal n ≠ 0).
Proof.
  induction c as [|[[d n] sib] c IH]; intros s s' cv Hz H Hs' Hh.
  - simpl. done.
  - apply Forall_cons in Hz as [Hn Hz]. simpl in Hn.
    simpl retrace. rewrite Hn. rewrite bool_decide_false by lia. simpl.
    pose proof (avl_plug_inv (fill (d, n, sib) s) c H) as Hf.
    pose proof (height_nonneg s). pose proof (height_nonneg sib).
    destruct (IH (fill (d, n, sib) s)
                (fill (d, Info (addr n) (match d with L => 0 - 1 | R => 0 + 1 end)
                            (ap_merge A cv (val n)), sib) s')
                (ap_merge A cv (val n)) Hz H) as (Ha & Hh' & Hr).
    { destruct d; simpl in *; split_and!; try tauto; lia. }
    { destruct d; simpl in *; lia. }
    split_and!; [exact Ha|exact Hh'|]. intros _.
    destruct c as [|f c].
    + simpl. destruct d; simpl; eexists _, _, _; (split; [done|]); simpl; lia.
    + apply Hr. done.
Qed.

(** The node at the root of a tree that just grew along a zero path. *)
Definition grown s : Prop :=
  match s with
  | E => False
  | T l n r => bal n ≠ 0 ∨ (l = E ∧ r = E)
  end.

Lemma avl_rotl t1 x t2 y t3 :
  avl (rotl A (T t1 x (T t2 y t3)))
  ↔ avl t1 ∧ avl t2 ∧ avl t3
    ∧ bal x = height t2 - height t1 ∧ -1 ≤ bal x ≤ 1
    ∧ bal y = height t3 - (1 + Z.max (height t1) (height t2)) ∧ -1 ≤ bal y ≤ 1.
Proof. simpl. tauto. Qed.

Lemma avl_rotr t1 y t2 x t3 :
  avl (rotr A (T (T t1 y t2) x t3))
  ↔ avl t1 ∧ avl t2 ∧ avl t3
    ∧ bal x = height t3 - height t2 ∧ -1 ≤ bal x ≤ 1
    ∧ bal y = (1 + Z.max (height t2) (height t3)) - height t1 ∧ -1 ≤ bal y ≤ 1.
Proof. simpl. tauto. Qed.

(** The candidate had balance [±1] and the subtree below it on the
    path grew by one. *)
Lemma cand_fix d n sib x x' v' :
  bal n ≠ 0 → avl (fill (d, n, sib) x) → avl x' → height x' = height x + 1 →
  grown x' →
  let s' := fill (d, Info (addr n) (match d with L => bal n - 1 | R => bal n + 1 end) v',
                  sib) x' in
  rebalanceable s'
  ∧ avl (rebal A s')
  ∧ height (rebal A s') = height (fill (d, n, sib) x).
Proof.
  intros Hb Hf Hx' Hh Hg.
  pose proof (height_nonneg x). pose proof (height_nonneg sib).
  destruct d; simpl in *.
  - (* the left subtree grew *)
    destruct Hf as (Hx & Hsib & Hbal & Hrange).
    destruct (decide (bal n - 1 = 2)); [lia|].
    destruct (decide (bal n - 1 = -2)) as [E2|N2].
    + destruct x' as [|ll ln lr]; [done|]. simpl in Hx', Hh, Hg.
      destruct Hx' as (Hll & Hlr & Hbl & Hrl).
      pose proof (height_nonneg ll). pose proof (height_nonneg lr).
      destruct Hg as [Hg|[-> ->]]; [|simpl in *; lia].
      destruct (decide (bal ln = -1)) as [E1|N1].
      * split; [split; [lia|done]|]. simpl. split; [|lia].
        split_and!; try done; lia.
      * destruct lr as [|lrl lrn lrr]; [simpl in *; lia|].
        simpl in Hlr, Hbl, Hh. destruct Hlr as (Hlrl & Hlrr & Hblr & Hrlr).
        pose proof (height_nonneg lrl). pose proof (height_nonneg lrr).
        split; [split; [lia|done]|].
        repeat case_decide; simpl; (split; [split_and!; try done; lia|lia]).
    + split; [split; [lia|lia]|]. simpl. split; [|lia].
      split_and!; try done; lia.
  - (* the right subtree grew *)
    destruct Hf as (Hsib & Hx & Hbal & Hrange).
    destruct (decide (bal n + 1 = 2)) as [E2|N2].
    + destruct x' as [|rl rn rr]; [done|]. simpl in Hx', Hh, Hg.
      destruct Hx' as (Hrl & Hrr & Hbr & Hrr').
      pose proof (height_nonneg rl). pose proof (height_nonneg rr).
      destruct Hg as [Hg|[-> ->]]; [|simpl in *; lia].
      destruct (decide (bal rn = 1)) as [E1|N1].
      * split; [split; [done|lia]|]. simpl. split; [|lia].
        split_and!; try done; lia.
      * destruct rl as [|rll rln rlr]; [simpl in *; lia|].
        simpl in Hrl, Hbr, Hh. destruct Hrl as (Hrll & Hrlr & Hbrl & Hrrl).
        pose proof (height_nonneg rll). pose proof (height_nonneg rlr).
        split; [split; [done|lia]|].
        repeat case_decide; simpl; (split; [split_and!; try done; lia|lia]).
    + destruct (decide (bal n + 1 = -2)); [lia|].
      split; [split; [lia|lia]|]. simpl. split; [|lia].
      split_and!; try done; lia.
Qed.
End AvlInv.

Section AvlInsert.
Context {K V : Type} (A : APolicy (K * V)).
Abbreviation D := (K * V)%type.
Implicit Types (t s : tree D) (c : ctx D) (n : info D).

Lemma cand_none c : cand_index c = None → zero_bal c.
Proof.
  induction c as [|[[d n] sib] c IH]; simpl; [by constructor|].
  case_decide; [done|]. intros H'. constructor; [simpl; lia|].
  apply IH. by destruct (cand_index c).
Qed.

Lemma cand_split c i :
  cand_index c = Some i →
  ∃ (inner : ctx D) d n sib (outer : ctx D),
    c = inner ++ (d, n, sib) :: outer ∧ length inner = i ∧ zero_bal inner ∧ bal n ≠ 0.
Proof.
  revert i. induction c as [|[[d n] sib] c IH]; intros i; simpl; [done|].
  case_decide as Hb.
  - intros [= <-]. exists [], d, n, sib, c. split_and!; try done. constructor.
  - destruct (cand_index c) as [j|]; [|done]. simpl. intros [= <-].
    destruct (IH j eq_refl) as (inner & d' & n' & sib' & outer & -> & Hl & Hz & Hb').
    exists ((d, n, sib) :: inner), d', n', sib', outer.
    split_and!; try done; [simpl; lia|]. constructor; [simpl; lia|done].
Qed.

(** The payload the retrace carries out of a run of frames. *)
Fixpoint carried (cv : D) (c : ctx D) : D :=
  match c with
  | [] => cv
  | (_, n, _) :: c => carried (ap_merge A cv (val n)) c
  end.

Lemma retrace_app_zero cv inner rest :
  zero_bal inner →
  retrace A cv false (inner ++ rest)
  = retrace A cv false inner ++ retrace A (carried cv inner) false rest.
Proof.
  revert cv. induction inner as [|[[d n] sib] inner IH]; intros cv Hz; simpl; [done|].
  apply Forall_cons in Hz as [Hn Hz]. simpl in Hn.
  rewrite bool_decide_false by lia. simpl. by rewrite IH.
Qed.

Lemma grown_leaf_or_path s' c cv :
  (∃ n, s' = T E n E) →
  (c ≠ [] → ∃ l n r, plug s' (retrace A cv false c) = T l n r ∧ bal n ≠ 0) →
  grown (plug s' (retrace A cv false c)).
Proof.
  intros [n ->] H. destruct c as [|f c].
  - simpl. by right.
  - destruct H as (l & m & r & -> & Hb); [done|]. by left.
Qed.

Theorem ins_tree_avl hv a v c :
  avl (plug E c) →
  (∀ i, cand_index c = Some i →
        rebalanceable (plug (T E (Info a 0 (leaf_val A hv v c)) E)
                         (take (S i) (retrace A v false c))))
  ∧ avl (ins_tree A hv a v c)
  ∧ height (plug E c) ≤ height (ins_tree A hv a v c) ≤ height (plug E c) + 1.
Proof.
  intros Havl. unfold ins_tree.
  set (lf := T E (Info a 0 (leaf_val A hv v c)) E).
  destruct (cand_index c) as [i|] eqn:Hi.
  - destruct (cand_split c i Hi) as (inner & d & n & sib & outer & -> & Hl & Hz & Hb).
    rewrite retrace_app_zero by done. simpl retrace.
    rewrite bool_decide_true by done. simpl.
    assert (length (retrace A v false inner) = i) as Hl'.
    { by rewrite length_retrace. }
    rewrite take_app_ge by lia. rewrite drop_app_ge by lia.
    replace (S i - length (retrace A v false inner))%nat with 1%nat by lia.
    simpl. rewrite take_0.
    rewrite (plug_app E inner ((d, n, sib) :: outer)) in Havl. simpl in Havl.
    pose proof (avl_plug_inv _ _ Havl) as Hf.
    pose proof (avl_plug_inv (plug E inner) [(d, n, sib)] Hf) as Hx.
    destruct (zero_path A inner E lf v Hz Hx) as (Hx' & Hhx' & Hg); [done|done|].
    pose proof (grown_leaf_or_path lf inner v ltac:(by eexists) Hg) as Hgrown.
    destruct (cand_fix A d n sib (plug E inner) _ (ap_merge A (carried v inner) (val n))
                Hb Hf Hx' Hhx' Hgrown) as (Hrb & Ha & Hh).
    rewrite (plug_app lf (retrace A v false inner)). simpl plug.
    destruct (avl_plug_same_shape _ _ _ _
                (retrace_true_same_shape A (ap_merge A (carried v inner) (val n)) outer)
                Havl Ha Hh) as [Ha' Hh'].
    split_and!.
    + intros j [= <-]. rewrite take_app_ge by lia.
      replace (S i - length (retrace A v false inner))%nat with 1%nat by lia.
      simpl. rewrite take_0.
      rewrite (plug_app lf (retrace A v false inner)). exact Hrb.
    + exact Ha'.
    + rewrite (plug_app E inner). apply Z.eq_le_incl. symmetry. exact Hh'.
    + rewrite (plug_app E inner).
      apply Z.le_trans with (height (plug (fill (d, n, sib) (plug E inner)) outer));
        [apply Z.eq_le_incl; exact Hh'|simpl; lia].
  - pose proof (cand_none c Hi) as Hz.
    destruct (zero_path A c E lf v Hz Havl) as (Ha & Hh & _); [done|done|].
    split_and!; [done|exact Ha|lia|lia].
Qed.
End AvlInsert.

(** ** A balanced tree is shallow *)

Section AvlSize.
Context {D : Type}.
Implicit Types (t : tree D).

(** [(min_pair h).1] is the least number of nodes of a balanced tree
    of height [h], [(min_pair h).2] that for height [h + 1]. *)
Fixpoint min_pair (h : nat) : Z * Z :=
  match h with
  | O => (0, 1)
  | S h => let '(a, b) := min_pair h in (b, 1 + a + b)
  end.

Definition min_nodes (h : nat) : Z := (min_pair h).1.

Lemma min_nodes_SS h : min_nodes (S (S h)) = 1 + min_nodes h + min_nodes (S h).
Proof. unfold min_nodes. simpl. destruct (min_pair h). done. Qed.

Lemma min_nodes_S_le h : 0 ≤ min_nodes h ≤ min_nodes (S h).
Proof.
  induction h as [|h IH]; [unfold min_nodes; simpl; lia|].
  rewrite min_nodes_SS. lia.
Qed.

Lemma min_nodes_mono h h' : (h ≤ h')%nat → min_nodes h ≤ min_nodes h'.
Proof.
  induction 1 as [|h' _ IH]; [lia|]. pose proof (min_nodes_S_le h'). lia.
Qed.

Lemma avl_min_nodes t :
  avl t → min_nodes (Z.to_nat (height t)) ≤ Z.of_nat (length (inorder t)).
Proof.
  induction t as [|l IHl n r IHr]; [done|].
  intros (Hl & Hr & Hb & Hrange). specialize (IHl Hl). specialize (IHr Hr).
  pose proof (height_nonneg l). pose proof (height_nonneg r).
  simpl. rewrite length_app. simpl.
  destruct (Z.to_nat (height l)) as [|hl] eqn:El, (Z.to_nat (height r)) as [|hr] eqn:Er.
  - replace (Z.to_nat (1 + Z.max (height l) (height r))) with 1%nat by lia.
    unfold min_nodes. simpl. lia.
  - assert (hr = 0)%nat as -> by lia.
    replace (Z.to_nat (1 + Z.max (height l) (height r))) with 2%nat by lia.
    unfold min_nodes in *. simpl in *. lia.
  - assert (hl = 0)%nat as -> by lia.
    replace (Z.to_nat (1 + Z.max (height l) (height r))) with 2%nat by lia.
    unfold min_nodes in *. simpl in *. lia.
  - destruct (decide (hl ≤ hr)%nat).
    + replace (Z.to_nat (1 + Z.max (height l) (height r))) with (S (S hr)) by lia.
      rewrite min_nodes_SS.
      assert (min_nodes hr ≤ min_nodes (S hl)) by (apply min_nodes_mono; lia).
      lia.
    + replace (Z.to_nat (1 + Z.max (height l) (height r))) with (S (S hl)) by lia.
      rewrite min_nodes_SS.
      assert (min_nodes hl ≤ min_nodes (S hr)) by (apply min_nodes_mono; lia).
      lia.
Qed.

(** Fewer than [2 ^ 45] nodes keep a balanced tree within 64 levels. *)
Lemma avl_height_64 t :
  avl t → Z.of_nat (length (inorder t)) < 2 ^ 45 → height t ≤ 64.
Proof.
  intros Ha Hn. destruct (decide (height t ≤ 64)) as [|Hgt]; [done|].
  pose proof (avl_min_nodes t Ha) as Hm.
  assert (min_nodes 65 ≤ min_nodes (Z.to_nat (height t))) as Hle.
  { apply min_nodes_mono. lia. }
  assert (2 ^ 45 < min_nodes 65) as H65 by (vm_compute; done).
  lia.
Qed.
End AvlSize.


(** ** What the user stored: keys and user payloads *)

Section Entries.
Context {K V U : Type} (user : V → U) (A : APolicy (K * V)).
Abbreviation D := (K * V)%type.
Implicit Types (t s : tree D) (c : ctx D) (n : info D).

(** The key and the part of the payload the user supplied. *)
Definition entry (v : D) : K * U := (v.1, user v.2).
Definition entries (l : list (info D)) : list (K * U) := (λ n, entry (val n)) <$> l.

(** A policy rewrites payloads, never the key or the user's part. *)
Record Keeps : Prop := {
  keeps_merge : ∀ cv own, entry (ap_merge A cv own) = entry own;
  keeps_up : ∀ x y, entry (ap_up A x y) = entry y;
  keeps_down : ∀ x l r, entry (ap_down A x l r) = entry x
}.

Context (HK : Keeps).

Lemma entries_app l1 l2 : entries (l1 ++ l2) = entries l1 ++ entries l2.
Proof. apply fmap_app. Qed.

Lemma entries_cons n l : entries (n :: l) = entry (val n) :: entries l.
Proof. done. Qed.

Lemma entries_plug s c :
  entries (inorder (plug s c))
  = entries (ctx_before c) ++ entries (inorder s) ++ entries (ctx_after c).
Proof. by rewrite inorder_plug, !entries_app. Qed.

Lemma entries_plug_congr s s' c :
  entries (inorder s') = entries (inorder s) →
  entries (inorder (plug s' c)) = entries (inorder (plug s c)).
Proof. intros H. by rewrite !entries_plug, H. Qed.

Lemma entries_rotl s : entries (inorder (rotl A s)) = entries (inorder s).
Proof.
  destruct s as [|t1 x [|t2 y t3]]; try done. simpl.
  rewrite !entries_app, !entries_cons, !entries_app, !entries_cons. simpl.
  rewrite (keeps_down HK), (keeps_up HK). by rewrite <- app_assoc.
Qed.

Lemma entries_rotr s : entries (inorder (rotr A s)) = entries (inorder s).
Proof.
  destruct s as [|[|t1 y t2] x t3]; try done. simpl.
  rewrite !entries_app, !entries_cons, !entries_app, !entries_cons. simpl.
  rewrite (keeps_down HK), (keeps_up HK). by rewrite <- app_assoc.
Qed.

Lemma entries_T l n r l' n' r' :
  entries (inorder l') = entries (inorder l) →
  entry (val n') = entry (val n) →
  entries (inorder r') = entries (inorder r) →
  entries (inorder (T l' n' r')) = entries (inorder (T l n r)).
Proof.
  intros Hl Hn Hr. simpl. rewrite !entries_app, !entries_cons. by rewrite Hl, Hn, Hr.
Qed.

Lemma entries_rebal s : entries (inorder (rebal A s)) = entries (inorder s).
Proof.
  destruct s as [|l u r]; [done|]. unfold rebal.
  destruct (decide (bal u = 2)).
  - destruct r as [|rl rn rr]; [done|].
    destruct (decide (bal rn = 1)).
    + rewrite entries_rotl. repeat first [reflexivity|apply entries_T].
    + destruct rl as [|rll rln rlr]; [done|].
      destruct (if decide (bal rln = 1) then (-1, 0)
                else if decide (bal rln = 0) then (0, 0)
                else if decide (bal rln = -1) then (0, 1)
                else (bal u, bal rn)) as [bu br].
      rewrite entries_rotl. apply entries_T; [reflexivity|reflexivity|].
      rewrite entries_rotr. repeat first [reflexivity|apply entries_T].
  - destruct (decide (bal u = -2)); [|done].
    destruct l as [|ll ln lr]; [done|].
    destruct (decide (bal ln = -1)).
    + rewrite entries_rotr. repeat first [reflexivity|apply entries_T].
    + destruct lr as [|lrl lrn lrr]; [done|].
      destruct (if decide (bal lrn = 1) then (0, -1)
                else if decide (bal lrn = 0) then (0, 0)
                else if decide (bal lrn = -1) then (1, 0)
                else (bal u, bal ln)) as [bu bl].
      rewrite entries_rotr. apply entries_T; [|reflexivity|reflexivity].
      rewrite entries_rotl. repeat first [reflexivity|apply entries_T].
Qed.

Lemma entries_before_retrace cv sw c :
  entries (ctx_before (retrace A cv sw c)) = entries (ctx_before c).
Proof.
  revert cv sw. induction c as [|[[[] n] sib] c IH]; intros cv sw; simpl; [done|..].
  - apply IH.
  - rewrite !entries_app, IH. simpl. by rewrite (keeps_merge HK).
Qed.

Lemma entries_after_retrace cv sw c :
  entries (ctx_after (retrace A cv sw c)) = entries (ctx_after c).
Proof.
  revert cv sw. induction c as [|[[[] n] sib] c IH]; intros cv sw; simpl; [done|..].
  - unfold entries in *. rewrite !fmap_app, IH. f_equal. apply (keeps_merge HK).
  - apply IH.
Qed.

Lemma entry_leaf_val hv v c : entry (leaf_val A hv v c) = entry v.
Proof. destruct c; simpl; [|done]. by rewrite (keeps_merge HK). Qed.

(** The entries of the tree after an insertion: the new entry sits at
    the hole the descent found. *)
Lemma entries_ins_tree hv a v c :
  entries (inorder (ins_tree A hv a v c))
  = entries (ctx_before c) ++ entry v :: entries (ctx_after c).
Proof.
  unfold ins_tree.
  set (lf := T E (Info a 0 (leaf_val A hv v c)) E).
  assert (entries (inorder (plug lf (retrace A v false c)))
          = entries (ctx_before c) ++ entry v :: entries (ctx_after c)) as H.
  { rewrite entries_plug, entries_before_retrace, entries_after_retrace.
    simpl. by rewrite entry_leaf_val. }
  destruct (cand_index c) as [i|]; [|exact H].
  rewrite <- H.
  rewrite (plug_take_drop lf (retrace A v false c) (S i)).
  apply entries_plug_congr, entries_rebal.
Qed.
End Entries.

(** ** The search-tree order *)

Section Order.
Context {K V U : Type} (user : V → U) (compare : K → K → bool).
Abbreviation D := (K * V)%type.
Implicit Types (t s : tree D) (c : ctx D) (n : info D) (k : K).

Definition lt_key (a b : K * U) : Prop := compare a.1 b.1 = true.

(** In-order, the keys increase strictly. *)
Definition bst t : Prop := StronglySorted lt_key (entries user (inorder t)).

(** Two keys neither of which is before the other. *)
Definition equiv_key (a b : K) : bool := negb (compare a b) && negb (compare b a).

Definition path_ok k c : Prop :=
  Forall (λ f : frame D,
            match f.1.1 with
            | L => compare k (val f.1.2).1 = true
            | R => compare k (val f.1.2).1 = false
            end) c.

Lemma descend_path_ok k s c : path_ok k c → path_ok k (descend compare k s c).
Proof.
  revert c. induction s as [|l IHl n r IHr]; intros c Hc; simpl; [done|].
  destruct (compare k (val n).1) eqn:Hcmp.
  - apply IHl. by constructor.
  - apply IHr. by constructor.
Qed.

Lemma pred_info_in c m : pred_info c = Some m → m ∈ ctx_before c.
Proof.
  intros H. pose proof (ctx_before_pred c) as H'. rewrite H in H'.
  destruct H' as [l ->]. apply elem_of_app. right. by apply list_elem_of_singleton.
Qed.

Lemma pred_info_path k c m :
  path_ok k c → pred_info c = Some m → compare k (val m).1 = false.
Proof.
  induction c as [|[[[] n] sib] c IH]; simpl; [done|..]; intros Hp Hm;
    apply Forall_cons in Hp as [Hn Hp]; simpl in Hn.
  - by apply IH.
  - by injection Hm as <-.
Qed.

Context (Htrans : ∀ a b c : K,
           compare a b = true → compare b c = true → compare a c = true).

Lemma lt_key_trans (x y z : K * U) : lt_key x y → lt_key y z → lt_key x z.
Proof. unfold lt_key. apply Htrans. Qed.

(** Everything after the hole of the descent for [k] is after [k]. *)
Lemma after_gt k c s :
  path_ok k c → bst (plug s c) →
  Forall (λ e, compare k e.1 = true) (entries user (ctx_after c)).
Proof.
  revert s. induction c as [|[[[] n] sib] c IH]; intros s Hp Hs;
    [constructor|..]; apply Forall_cons in Hp as [Hn Hp]; simpl in Hn.
  - specialize (IH _ Hp Hs).
    change (ctx_after ((L, n, sib) :: c)) with (n :: inorder sib ++ ctx_after c).
    rewrite entries_cons, entries_app. constructor; [done|].
    apply Forall_app. split; [|done].
    unfold bst in Hs.
    change (plug s ((L, n, sib) :: c)) with (plug (T s n sib) c) in Hs.
    rewrite entries_plug in Hs.
    apply StronglySorted_app_1_r, StronglySorted_app_1_l in Hs.
    change (inorder (T s n sib)) with (inorder s ++ n :: inorder sib) in Hs.
    rewrite entries_app, entries_cons in Hs.
    apply StronglySorted_app_1_r, StronglySorted_cons in Hs as [Hs _].
    eapply Forall_impl; [exact Hs|]. intros e He. unfold lt_key in He. simpl in He.
    eapply Htrans; [exact Hn|exact He].
  - exact (IH _ Hp Hs).
Qed.

(** When the in-order predecessor of the hole is before [k], so is
    everything before the hole. *)
Lemma before_lt k c s m :
  bst (plug s c) → pred_info c = Some m → compare (val m).1 k = true →
  Forall (λ e, compare e.1 k = true) (entries user (ctx_before c)).
Proof.
  intros Hs Hm Hk. unfold bst in Hs. rewrite entries_plug in Hs.
  apply StronglySorted_app_1_l in Hs.
  pose proof (ctx_before_pred c) as H'. rewrite Hm in H'. destruct H' as [l Hl].
  rewrite Hl in *. rewrite entries_app in *.
  apply Forall_app. split; [|by repeat constructor].
  apply Forall_forall. intros e He.
  eapply Htrans; [|exact Hk].
  eapply (StronglySorted_app_1_elem_of lt_key _ _ e (entry user (val m))); [exact Hs|done|].
  simpl. apply list_elem_of_singleton. done.
Qed.

Lemma before_nil c : pred_info c = None → ctx_before c = [].
Proof. intros H. pose proof (ctx_before_pred c) as H'. by rewrite H in H'. Qed.

Lemma sorted_insert_mid (l1 l2 : list (K * U)) x :
  StronglySorted lt_key (l1 ++ l2) →
  Forall (λ e, lt_key e x) l1 → Forall (λ e, lt_key x e) l2 →
  StronglySorted lt_key (l1 ++ x :: l2).
Proof.
  intros Hs H1 H2. apply StronglySorted_app in Hs as (H12 & Hs1 & Hs2).
  apply StronglySorted_app. split_and!; [|done|].
  - intros x1 x2 Hx1 Hx2. apply elem_of_cons in Hx2 as [->|Hx2].
    + eapply Forall_forall in H1; done.
    + by apply H12.
  - apply StronglySorted_cons. done.
Qed.

Section WithPolicy.
Context (A : APolicy D) (HK : Keeps user A).

(** A fresh key goes to its place in the order. *)
Lemma ins_tree_bst hv a (v : D) t :
  bst t → find_dup compare v.1 t = None →
  bst (ins_tree A hv a v (descend compare v.1 t [])).
Proof.
  intros Hs Hf. unfold bst. rewrite (entries_ins_tree user A HK).
  set (c := descend compare v.1 t []) in *.
  assert (path_ok v.1 c) as Hp by (apply descend_path_ok; constructor).
  assert (plug E c = t) as Ht by apply (plug_descend compare v.1 t []).
  rewrite <- Ht in Hs.
  apply sorted_insert_mid.
  - unfold bst in Hs. rewrite entries_plug in Hs. exact Hs.
  - unfold find_dup in Hf. fold c in Hf.
    destruct (pred_info c) as [m|] eqn:Hm.
    + destruct (compare (val m).1 v.1) eqn:Hk; [|done].
      exact (before_lt v.1 c E m Hs Hm Hk).
    + rewrite (before_nil c Hm). constructor.
  - exact (after_gt v.1 c E Hp Hs).
Qed.

(** [insert] reports a stored entry exactly when one has an
    equivalent key. *)
Lemma find_dup_some k t m :
  find_dup compare k t = Some m →
  m ∈ inorder t ∧ equiv_key (val m).1 k = true.
Proof.
  unfold find_dup. set (c := descend compare k t []).
  assert (path_ok k c) as Hp by (apply descend_path_ok; constructor).
  assert (plug E c = t) as Ht by apply (plug_descend compare k t []).
  destruct (pred_info c) as [m'|] eqn:Hm; [|done].
  destruct (compare (val m').1 k) eqn:Hk; [done|]. intros [= <-].
  split.
  - rewrite <- Ht, inorder_plug. apply elem_of_app. left. by apply pred_info_in.
  - unfold equiv_key. by rewrite Hk, (pred_info_path k c m' Hp Hm).
Qed.

Lemma find_dup_none k t :
  bst t → find_dup compare k t = None →
  Forall (λ e, equiv_key e.1 k = false) (entries user (inorder t)).
Proof.
  intros Hs. unfold find_dup. set (c := descend compare k t []).
  assert (path_ok k c) as Hp by (apply descend_path_ok; constructor).
  assert (plug E c = t) as Ht by apply (plug_descend compare k t []).
  rewrite <- Ht in Hs. rewrite <- Ht. intros Hf.
  rewrite entries_plug. simpl.
  apply Forall_app. split.
  - destruct (pred_info c) as [m|] eqn:Hm.
    + destruct (compare (val m).1 k) eqn:Hk; [|done].
      eapply Forall_impl; [exact (before_lt k c E m Hs Hm Hk)|].
      intros e He. simpl in He. unfold equiv_key. by rewrite He.
    + rewrite (before_nil c Hm). constructor.
  - eapply Forall_impl; [exact (after_gt k c E Hp Hs)|].
    intros e He. simpl in He. unfold equiv_key. rewrite He.
    by rewrite andb_false_r.
Qed.
End WithPolicy.
End Order.


(** ** The augmentation bounds what is below *)

Section Aug.
Context {Data : Type}.
Abbreviation IV := (interval_tree_value Data).
Abbreviation D := (interval_type * IV)%type.
Implicit Types (t s : tree D) (c : ctx D) (n : info D) (v : D).

(** [max] is at least the high endpoint, [min] at most the low one. *)
Definition own_le v : Prop := v.1.2 ≤ max v.2 ∧ min v.2 ≤ v.1.1.

(** The fields of [v] bound those of the root of [s]. *)
Definition sub_le s v : Prop :=
  match s with
  | E => True
  | T _ m _ => max (val m).2 ≤ max v.2 ∧ min v.2 ≤ min (val m).2
  end.

Fixpoint aug_ok t : Prop :=
  match t with
  | E => True
  | T l n r =>
      aug_ok l ∧ aug_ok r ∧ own_le (val n) ∧ sub_le l (val n) ∧ sub_le r (val n)
  end.

Lemma sub_le_trans s v v' :
  sub_le s v → max v.2 ≤ max v'.2 → min v'.2 ≤ min v.2 → sub_le s v'.
Proof. destruct s; simpl; [done|]. lia. Qed.

Lemma aug_ok_fill_inv f s : aug_ok (fill f s) → aug_ok s.
Proof. destruct f as [[[] n] sib]; simpl; tauto. Qed.

Lemma aug_ok_plug_inv s c : aug_ok (plug s c) → aug_ok s.
Proof.
  revert s. induction c as [|f c IH]; intros s; simpl; [done|].
  intros H. apply IH in H. by apply aug_ok_fill_inv in H.
Qed.

Lemma aug_ok_plug_replace s s' c :
  aug_ok (plug s c) → aug_ok s' → (∀ v, sub_le s v → sub_le s' v) →
  aug_ok (plug s' c).
Proof.
  revert s s'. induction c as [|[[d n] sib] c IH]; intros s s' H Hs' Hle; simpl in *;
    [done|].
  apply (IH (fill (d, n, sib) s)); [done| |].
  - apply aug_ok_plug_inv in H. destruct d; simpl in *;
      destruct H as (? & ? & ? & ? & ?); split_and!; auto.
  - destruct d; done.
Qed.

(** The updater keeps the bounds along the path it retraces. *)
Lemma aug_ok_plug_retrace c : ∀ s s' cv sw,
  aug_ok (plug s c) → aug_ok s' → sub_le s' cv →
  aug_ok (plug s' (retrace itv_apolicy cv sw c)).
Proof.
  induction c as [|[[d n] sib] c IH]; intros s s' cv sw H Hs' Hle; simpl in *; [done|].
  apply (IH (fill (d, n, sib) s)); [done| |].
  - apply aug_ok_plug_inv in H.
    assert (sub_le s' (itv_merge cv (val n))) as Hs1.
    { eapply sub_le_trans; [exact Hle|simpl; lia..]. }
    destruct d; simpl in *; destruct H as (Hl & Hr & [Ho1 Ho2] & Hsl & Hsr);
      (split_and!; [done|done|split; simpl; lia|..]); try done.
    + eapply sub_le_trans; [exact Hsr|simpl; lia..].
    + eapply sub_le_trans; [exact Hsl|simpl; lia..].
  - destruct d; simpl; lia.
Qed.

Lemma aug_ok_rotl s :
  aug_ok s → aug_ok (rotl itv_apolicy s) ∧ ∀ v, sub_le s v → sub_le (rotl itv_apolicy s) v.
Proof.
  destruct s as [|t1 x [|t2 y t3]]; try done.
  intros (H1 & (H2 & H3 & [Hy1 Hy2] & Hs2 & Hs3) & [Hx1 Hx2] & Hs1 & [Hsy1 Hsy2]).
  split; [|done]. simpl. split_and!; try done;
    unfold own_le, sub_le, itv_down, itv_up, itv_absorb in *;
    destruct t1 as [|? m1 ?], t2 as [|? m2 ?], t3 as [|? m3 ?]; simpl in *; lia.
Qed.

Lemma aug_ok_rotr s :
  aug_ok s → aug_ok (rotr itv_apolicy s) ∧ ∀ v, sub_le s v → sub_le (rotr itv_apolicy s) v.
Proof.
  destruct s as [|[|t1 y t2] x t3]; try done.
  intros ((H1 & H2 & [Hy1 Hy2] & Hs1 & Hs2) & H3 & [Hx1 Hx2] & [Hsy1 Hsy2] & Hs3).
  split; [|done]. simpl. split_and!; try done;
    unfold own_le, sub_le, itv_down, itv_up, itv_absorb in *;
    destruct t1 as [|? m1 ?], t2 as [|? m2 ?], t3 as [|? m3 ?]; simpl in *; lia.
Qed.

Lemma aug_ok_rotl_T l n r r' :
  aug_ok (T l n r) → aug_ok r' → (∀ v, sub_le r v → sub_le r' v) →
  aug_ok (T l n r').
Proof. simpl. intros (? & ? & ? & ? & ?) ? Hle. split_and!; auto. Qed.

Lemma aug_ok_rotr_T l n r l' :
  aug_ok (T l n r) → aug_ok l' → (∀ v, sub_le l v → sub_le l' v) →
  aug_ok (T l' n r).
Proof. simpl. intros (? & ? & ? & ? & ?) ? Hle. split_and!; auto. Qed.

Lemma aug_ok_rebal s :
  aug_ok s → aug_ok (rebal itv_apolicy s) ∧ ∀ v, sub_le s v → sub_le (rebal itv_apolicy s) v.
Proof.
  intros H. destruct s as [|l u r]; [done|]. unfold rebal.
  destruct (decide (bal u = 2)).
  - destruct r as [|rl rn rr]; [done|].
    destruct (decide (bal rn = 1)).
    + apply (aug_ok_rotl (T l (set_bal 0 u) (T rl (set_bal 0 rn) rr))). exact H.
    + destruct rl as [|rll rln rlr]; [done|].
      destruct (if decide (bal rln = 1) then (-1, 0)
                else if decide (bal rln = 0) then (0, 0)
                else if decide (bal rln = -1) then (0, 1)
                else (bal u, bal rn)) as [bu br].
      pose proof (aug_ok_rotr (T (T rll (set_bal 0 rln) rlr) (set_bal br rn) rr)) as [Hr1 Hr2].
      { apply H. }
      assert (aug_ok (T l (set_bal bu u)
                        (rotr itv_apolicy (T (T rll (set_bal 0 rln) rlr) (set_bal br rn) rr))))
        as H'.
      { eapply (aug_ok_rotl_T l (set_bal bu u)
                  (T (T rll (set_bal 0 rln) rlr) (set_bal br rn) rr));
          [exact H|exact Hr1|exact Hr2]. }
      simpl rotr in *.
      apply (aug_ok_rotl _ H').
  - destruct (decide (bal u = -2)); [|done].
    destruct l as [|ll ln lr]; [done|].
    destruct (decide (bal ln = -1)).
    + apply (aug_ok_rotr (T (T ll (set_bal 0 ln) lr) (set_bal 0 u) r)). exact H.
    + destruct lr as [|lrl lrn lrr]; [done|].
      destruct (if decide (bal lrn = 1) then (0, -1)
                else if decide (bal lrn = 0) then (0, 0)
                else if decide (bal lrn = -1) then (1, 0)
                else (bal u, bal ln)) as [bu bl].
      pose proof (aug_ok_rotl (T ll (set_bal bl ln) (T lrl (set_bal 0 lrn) lrr))) as [Hr1 Hr2].
      { apply H. }
      assert (aug_ok (T (rotl itv_apolicy (T ll (set_bal bl ln) (T lrl (set_bal 0 lrn) lrr)))
                        (set_bal bu u) r)) as H'.
      { eapply (aug_ok_rotr_T (T ll (set_bal bl ln) (T lrl (set_bal 0 lrn) lrr))
                  (set_bal bu u) r);
          [exact H|exact Hr1|exact Hr2]. }
      simpl rotl in *.
      apply (aug_ok_rotr _ H').
Qed.

(** The bounds survive an insertion. *)
Lemma ins_tree_aug_ok hv a v c :
  aug_ok (plug E c) → own_le v →
  aug_ok (ins_tree itv_apolicy hv a v c).
Proof.
  intros H [Hv1 Hv2]. unfold ins_tree.
  set (lf := T E (Info a 0 (leaf_val itv_apolicy hv v c)) E).
  assert (aug_ok lf ∧ (c ≠ [] → sub_le lf v)) as [Hlf Hle].
  { unfold lf. destruct c; simpl; unfold own_le; simpl; split_and!; try done; lia. }
  assert (aug_ok (plug lf (retrace itv_apolicy v false c))) as H'.
  { destruct c as [|f c]; [exact Hlf|].
    apply (aug_ok_plug_retrace (f :: c) E); [done|done|]. by apply Hle. }
  destruct (cand_index c) as [i|]; [|exact H'].
  rewrite (plug_take_drop lf (retrace itv_apolicy v false c) (S i)) in H'.
  pose proof (aug_ok_rebal _ (aug_ok_plug_inv _ _ H')) as [Hr1 Hr2].
  eapply aug_ok_plug_replace; [exact H'|exact Hr1|exact Hr2].
Qed.

(** What the bounds give a query: everything stored below a node lies
    within the node's [min] and [max]. *)
Lemma aug_ok_cover t v e :
  aug_ok t → sub_le t v → e ∈ inorder t →
  (val e).1.2 ≤ max v.2 ∧ min v.2 ≤ (val e).1.1.
Proof.
  revert v. induction t as [|l IHl n r IHr]; intros v Ht Hv He; simpl in *.
  - by apply elem_of_nil in He.
  - destruct Ht as (Hl & Hr & [Ho1 Ho2] & Hsl & Hsr).
    apply elem_of_app in He as [He|He]; [|apply elem_of_cons in He as [->|He]].
    + destruct (IHl (val n) Hl Hsl He). lia.
    + lia.
    + destruct (IHr (val n) Hr Hsr He). lia.
Qed.
End Aug.


(** ** [_avl_tree_increment] and the walk from [begin()] to [end()] *)

Section Increment.
Context {K V : Type}.
Abbreviation D := (K * V)%type.
Implicit Types (h : heap D) (t s : tree D) (c : ctx D) (n : info D).

Lemma bind_congr {X Y} (m m' : M D X) (k : X → M D Y) h :
  m h = m' h → bind m k h = bind m' k h.
Proof. unfold bind. by intros ->. Qed.

Lemma last_app_cons_ne {X} (l1 l2 : list X) x :
  l2 ≠ [] → last (l1 ++ x :: l2) = last l2.
Proof.
  intros H. rewrite last_app, last_cons.
  destruct (last l2) eqn:E; [done|]. by apply last_None in E.
Qed.

Lemma descend_left_spec l : ∀ n r par fuel h,
  tree_at h par (T l n r) → (length (inorder l) < fuel)%nat →
  descend_left fuel (Some (addr n)) h
  = Ok (addr <$> head (inorder (T l n r)), h).
Proof.
  induction l as [|ll IH ln lr _]; intros n r par fuel h (Hn & Hl & Hr) Hf;
    (destruct fuel as [|fuel]; [simpl in Hf; lia|]); unfold cell in Hn; simpl.
  - mrun. done.
  - mrun. rewrite (IH ln lr (Some (addr n)) fuel h Hl).
    + simpl. by destruct (inorder ll).
    + simpl in Hf. rewrite length_app in Hf. simpl in Hf. lia.
Qed.

Lemma descend_right_spec r : ∀ n l par fuel h,
  tree_at h par (T l n r) → (length (inorder r) < fuel)%nat →
  descend_right fuel (Some (addr n)) h
  = Ok (addr <$> last (inorder (T l n r)), h).
Proof.
  induction r as [|rl _ rn rr IH]; intros n l par fuel h (Hn & Hl & Hr) Hf;
    (destruct fuel as [|fuel]; [simpl in Hf; lia|]); unfold cell in Hn; simpl.
  - mrun. by rewrite last_snoc.
  - mrun. rewrite (IH rn rl (Some (addr n)) fuel h Hr).
    + simpl. rewrite (last_app_cons_ne (inorder l)); [done|]. by destruct (inorder rl).
    + simpl in Hf. rewrite length_app in Hf. simpl in Hf. lia.
Qed.

(** Climbing out of right subtrees stops below the nearest ancestor
    the node is to the left of. *)
Lemma climb_from_right_succ c : ∀ x fuel h top m,
  ctx_at h top (Some x) c → succ_info c = Some m →
  NoDup (x :: ctx_addrs c) → (length c ≤ fuel)%nat →
  ∃ x', climb_from_right fuel (Some x) (ctx_parent top c) h
        = Ok ((Some x', Some (addr m)), h)
        ∧ (x' = x ∨ ∃ nd y, h !! x' = Some nd ∧ _right nd = Some y ∧ y ≠ addr m).
Proof.
  induction c as [|[[[] n] sib] c IH]; intros x fuel h top m Hc Hs Hnd Hf;
    [done|..]; (destruct fuel as [|fuel]; [simpl in Hf; lia|]);
    simpl in *; destruct Hc as (Hn & Hsib & Hc).
  - injection Hs as <-. exists x. split; [|by left].
    dj_split. mrun. reflexivity.
  - assert (x ≠ addr m) as Hxm.
    { pose proof (succ_in_ctx c m Hs) as Hin. dj_split. neq. }
    destruct (IH (addr n) fuel h top m Hc Hs) as (x' & Hx' & Hd); [|lia|].
    { clear -Hnd. dj_split. apply NoDup_cons. done. }
    exists x'. split.
    + mrun. exact Hx'.
    + right. destruct Hd as [->|Hd]; [|done].
      eexists _, x. split; [exact Hn|]. done.
Qed.

Lemma ctx_root_step (x : ptr) d n sib c :
  ctx_root (Some x) ((d, n, sib) :: c) = ctx_root (Some (addr n)) c.
Proof.
  destruct c as [|f c']; [done|].
  destruct (ctx_root_cons f c') as (r & _ & Hr).
  unfold ctx_root in *. rewrite (last_cons (d, n, sib)).
  specialize (Hr None). destruct (last (f :: c')) as [[[??]?]|]; done.
Qed.

(** With no such ancestor the climb reaches the root. *)
Lemma climb_from_right_top c : ∀ x fuel h top,
  ctx_at h top (Some x) c → succ_info c = None →
  climb_from_right (length c + fuel) (Some x) (ctx_parent top c) h
  = climb_from_right fuel (ctx_root (Some x) c) top h.
Proof.
  induction c as [|[[[] n] sib] c IH]; intros x fuel h top Hc Hs; simpl in *;
    [reflexivity|discriminate|].
  destruct Hc as (Hn & Hsib & Hc).
  mrun. rewrite (IH (addr n) fuel h top Hc Hs).
  by rewrite ctx_root_step.
Qed.

(** The root of such a context has its hole side on the right. *)
Lemma ctx_top_right c : ∀ x h top,
  ctx_at h top (Some x) c → succ_info c = None → c ≠ [] →
  ∃ r0 nd y, ctx_root (Some x) c = Some r0 ∧ r0 ∈ ctx_addrs c
             ∧ h !! r0 = Some nd ∧ _right nd = Some y ∧ y ∈ x :: ctx_addrs c.
Proof.
  induction c as [|[[[] n] sib] c IH]; intros x h top Hc Hs Hne; simpl in *;
    [done|discriminate|].
  destruct Hc as (Hn & Hsib & Hc).
  destruct c as [|f c'].
  - exists (addr n). eexists _, x. split_and!; [done| |exact Hn|done|].
    + apply elem_of_cons. by left.
    + apply elem_of_cons. by left.
  - destruct (IH (addr n) h top Hc Hs) as (r0 & nd & y & Hr0 & Hin & Hnd & Hy & Hyin);
      [done|].
    exists r0, nd, y. split_and!; try done.
    + by rewrite ctx_root_step.
    + apply elem_of_cons. right. apply elem_of_app. by right.
    + apply elem_of_cons. right. apply elem_of_cons in Hyin as [->|Hyin].
      * apply elem_of_cons. by left.
      * apply elem_of_cons. right. apply elem_of_app. by right.
Qed.

Lemma NoDup_focus (hdr : ptr) l n r c :
  NoDup (hdr :: addrs (T l n r) ++ ctx_addrs c) →
  NoDup (addr n :: ctx_addrs c) ∧ hdr ≠ addr n ∧ hdr ∉ ctx_addrs c.
Proof.
  rewrite addrs_T. intros H. apply NoDup_cons in H as [Hh H].
  apply NoDup_app in H as (H1 & H12 & H2).
  assert (addr n ∈ addrs l ++ addr n :: addrs r) as Hn.
  { apply elem_of_app. right. apply elem_of_cons. by left. }
  split_and!.
  - apply NoDup_cons. split; [by apply H12|done].
  - intros ->. apply Hh. apply elem_of_app. by left.
  - intros Hin. apply Hh. apply elem_of_app. by right.
Qed.

(** [operator++]: the in-order successor, or the header past the
    last node. *)
Lemma increment_spec h hdr hb hv l n r c :
  rep h hdr hb hv (plug (T l n r) c) →
  _avl_tree_increment (Some (addr n)) h
  = Ok (Some (default hdr (addr <$> head (inorder r ++ ctx_after c))), h).
Proof.
  intros Hrep.
  assert (length c + length (inorder r) + 3 ≤ fuel_of h)%nat as Hf.
  { pose proof (rep_size _ _ _ _ _ Hrep) as Hs. rewrite length_inorder_plug in Hs.
    pose proof (length_ctx_le c). simpl in Hs. rewrite length_app in Hs. simpl in Hs.
    unfold fuel_of. lia. }
  pose proof (rep_plug_elim _ _ _ _ _ _ Hrep) as (Hnd & (Hn & Hl & Hr) & Hc & Hh).
  unfold cell in Hn. simpl in Hc, Hh.
  unfold _avl_tree_increment, with_fuel.
  generalize dependent (fuel_of h). intros fuel Hf.
  destruct r as [|rl rn rr].
  - simpl in *. mrun.
    destruct (succ_info c) as [m|] eqn:Hm.
    + pose proof (ctx_after_succ c) as Ha. rewrite Hm in Ha. destruct Ha as [la Ha].
      rewrite Ha. simpl.
      destruct (climb_from_right_succ c (addr n) fuel h (Some hdr) m Hc Hm)
        as (x' & Hx' & Hd); [|lia|].
      { by apply (NoDup_focus hdr l n E c). }
      erewrite bind_ok by exact Hx'. simpl.
      destruct Hd as [->|(nd & y & Hnd' & Hy & Hne)].
      * mrun. done.
      * erewrite bind_get by exact Hnd'. rewrite Hy.
        rewrite decide_True by congruence. done.
    + pose proof (ctx_after_succ c) as Ha. rewrite Hm in Ha. rewrite Ha. simpl.
      replace fuel with (length c + (fuel - length c))%nat by lia.
      rewrite (bind_congr _ _ _ _ (climb_from_right_top c (addr n) _ h (Some hdr) Hc Hm)).
      assert (rightmost hdr (plug (T l n E) c) = addr n) as Hrm.
      { rewrite rightmost_plug, Ha. simpl. by rewrite last_snoc. }
      rewrite Hrm in Hh.
      destruct (fuel - length c)%nat as [|[|fuel']] eqn:Ef; [lia|lia|].
      destruct c as [|f c'].
      * change (ctx_root (Some (addr n)) []) with (Some (addr n)) in *.
        simpl in *. mrun. done.
      * destruct (ctx_top_right (f :: c') (addr n) h (Some hdr) Hc Hm)
          as (r0 & nd & y & Hr0 & Hin & Hnd' & Hy & Hyin); [done|].
        rewrite Hr0 in *.
        assert (r0 ≠ addr n ∧ y ≠ hdr) as [Hne1 Hne2].
        { destruct (NoDup_focus hdr l n E _ Hnd) as (Hnd1 & Hh1 & Hh2).
          apply NoDup_cons in Hnd1 as [Hn1 _]. split.
          - intros ->. done.
          - intros ->. apply elem_of_cons in Hyin as [->|Hyin]; done. }
        simpl. mrun. done.
  - simpl in Hf. rewrite length_app in Hf. simpl in Hf.
    mrun.
    rewrite (descend_left_spec rl rn rr (Some (addr n)) fuel h Hr) by lia.
    simpl. by destruct (inorder rl).
Qed.
End Increment.

(** ** The walk from [begin()] to [end()] *)

Section Walk.
Context {K V : Type}.
Abbreviation D := (K * V)%type.
Implicit Types (h : heap D) (t s : tree D) (c : ctx D) (n : info D).

Definition first_ptr (hdr : ptr) (l : list (info D)) : option ptr :=
  Some (default hdr (addr <$> head l)).

Lemma walk_end fuel hdr h : Tree.walk fuel (Some hdr) (Some hdr) h = Ok ([], h).
Proof. destruct fuel; simpl; rewrite decide_True by done; done. Qed.

Lemma walk_subtree s : ∀ c h hdr hb hv fuel res,
  rep h hdr hb hv (plug s c) →
  Tree.walk fuel (first_ptr hdr (ctx_after c)) (Some hdr) h = Ok (res, h) →
  Tree.walk (length (inorder s) + fuel) (first_ptr hdr (inorder s ++ ctx_after c))
    (Some hdr) h
  = Ok ((val <$> inorder s) ++ res, h).
Proof.
  induction s as [|l IHl n r IHr]; intros c h hdr hb hv fuel res Hrep Hres; [done|].
  simpl inorder. rewrite <- app_assoc, fmap_app, fmap_cons, <- app_assoc. simpl.
  replace (length (inorder l ++ n :: inorder r) + fuel)%nat
    with (length (inorder l) + S (length (inorder r) + fuel))%nat
    by (rewrite length_app; simpl; lia).
  apply (IHl ((L, n, r) :: c) h hdr hb hv); [exact Hrep|].
  simpl ctx_after. unfold first_ptr at 1. simpl head. simpl default.
  pose proof (rep_lookup _ _ _ _ _ _ _ _ Hrep) as Hn. unfold cell in Hn.
  assert (addr n ≠ hdr) as Hne.
  { pose proof (rep_plug_elim _ _ _ _ _ _ Hrep) as (Hnd & _).
    destruct (NoDup_focus hdr l n r c Hnd) as (_ & ? & _). done. }
  simpl Tree.walk. rewrite decide_False by congruence.
  mrun.
  erewrite bind_ok by exact (increment_spec h hdr hb hv l n r c Hrep).
  erewrite bind_ok; [reflexivity|].
  apply (IHr ((R, n, l) :: c) h hdr hb hv); [exact Hrep|exact Hres].
Qed.

(** The walk visits the nodes in order and stops at the header. *)
Lemma traverse_spec h hdr hb hv t cnt :
  rep h hdr hb hv t →
  Tree.traverse (Avl_tree hdr cnt) h = Ok (val <$> inorder t, h).
Proof.
  intros Hrep. unfold Tree.traverse, Tree.begin, Tree._end, Tree.end_.
  pose proof (rep_size _ _ _ _ _ Hrep) as Hs.
  assert (∃ f, fuel_of h = (length (inorder t) + f)%nat) as [f Hf].
  { exists (fuel_of h - length (inorder t))%nat. unfold fuel_of. lia. }
  erewrite bind_get by exact (rep_header _ _ _ _ _ Hrep).
  unfold with_fuel. rewrite Hf.
  pose proof (walk_subtree t [] h hdr hb hv f [] Hrep (walk_end _ hdr h)) as H.
  simpl ctx_after in H. rewrite !app_nil_r in H.
  unfold first_ptr in H. unfold header_cell, leftmost, addrs. cbn [_left _header].
  destruct (inorder t); exact H.
Qed.
End Walk.


(** ** The overlap query *)

Section Query.
Context {Data : Type}.
Abbreviation IV := (interval_tree_value Data).
Abbreviation D := (interval_type * IV)%type.
Implicit Types (h : heap D) (t s l r : tree D) (n : info D) (q : interval_type).
Implicit Types (it : _interval_const_iterator) (bs : list (tree D)).

(** The tests [_forward] makes before it pushes a child. *)
Definition go_left q l : bool :=
  match l with
  | E => false
  | T _ m _ => key_compare q.1 (max (val m).2)
  end.

Definition go_right q r : bool :=
  match r with
  | E => false
  | T _ m _ => key_compare (min (val m).2) q.2
  end.

(** The children pushed for a node, in the order of the pushes. *)
Definition kids q l r : list (tree D) :=
  (if go_left q l then [l] else []) ++ (if go_right q r then [r] else []).

(** What the traversal reports for a subtree, in the order it reports. *)
Fixpoint hits q t : list (info D) :=
  match t with
  | E => []
  | T l n r =>
      (if Interval_overlap q (val n).1 then [n] else [])
      ++ (if go_right q r then hits q r else [])
      ++ (if go_left q l then hits q l else [])
  end.

(** What is still to come from a stack, bottom first. *)
Definition pending q bs : list (info D) := concat (hits q <$> reverse bs).

Fixpoint total_size bs : nat :=
  match bs with
  | [] => 0
  | s :: bs => length (inorder s) + total_size bs
  end.

Lemma pending_snoc q bs s : pending q (bs ++ [s]) = hits q s ++ pending q bs.
Proof. unfold pending. by rewrite reverse_snoc. Qed.

Lemma pending_node q bs l r :
  pending q (bs ++ kids q l r)
  = (if go_right q r then hits q r else [])
    ++ (if go_left q l then hits q l else []) ++ pending q bs.
Proof.
  unfold kids. destruct (go_left q l), (go_right q r); simpl.
  - replace (bs ++ [l; r]) with ((bs ++ [l]) ++ [r]) by (by rewrite <- app_assoc).
    by rewrite !pending_snoc.
  - by rewrite pending_snoc.
  - by rewrite pending_snoc.
  - by rewrite app_nil_r.
Qed.

Lemma total_size_app bs bs' : total_size (bs ++ bs') = (total_size bs + total_size bs')%nat.
Proof. induction bs as [|s bs IH]; simpl; [done|]. rewrite IH. lia. Qed.

Lemma total_size_kids q l r :
  (total_size (kids q l r) ≤ length (inorder l) + length (inorder r))%nat.
Proof.
  unfold kids. destruct (go_left q l), (go_right q r); simpl; lia.
Qed.

Lemma length_hits q t : (length (hits q t) ≤ length (inorder t))%nat.
Proof.
  induction t as [|l IHl n r IHr]; simpl; [done|].
  rewrite !length_app. simpl.
  destruct (Interval_overlap q (val n).1), (go_right q r), (go_left q l); simpl; lia.
Qed.

Lemma length_pending q bs : (length (pending q bs) ≤ total_size bs)%nat.
Proof.
  induction bs as [|s bs IH] using rev_ind; [done|].
  rewrite pending_snoc, total_size_app, length_app.
  pose proof (length_hits q s). simpl. lia.
Qed.

Lemma filter_none {X} (P : X → Prop) `{∀ x, Decision (P x)} (l : list X) :
  (∀ x, x ∈ l → ¬ P x) → filter P l = [].
Proof.
  induction l as [|x l IH]; intros Hl; [done|].
  rewrite filter_cons_False by (apply Hl; apply elem_of_cons; by left).
  apply IH. intros y Hy. apply Hl. apply elem_of_cons. by right.
Qed.

(** With the bounds in place a skipped subtree holds no overlap. *)
Lemma hits_perm q t :
  aug_ok t →
  hits q t ≡ₚ filter (λ n, Interval_overlap q (val n).1 = true) (inorder t).
Proof.
  induction t as [|l IHl n r IHr]; [done|].
  intros (Hl & Hr & Hown & Hsl & Hsr). simpl.
  rewrite filter_app, filter_cons.
  assert (∀ s, aug_ok s → sub_le s (val n) → ∀ b : bool,
            (b = false → ∀ e, e ∈ inorder s → Interval_overlap q (val e).1 = false) →
            hits q s ≡ₚ filter (λ n, Interval_overlap q (val n).1 = true) (inorder s) →
            (if b then hits q s else [])
            ≡ₚ filter (λ n, Interval_overlap q (val n).1 = true) (inorder s)) as Hskip.
  { intros s Hs Hle [] Hb IH; [done|].
    rewrite filter_none; [done|].
    intros e He. rewrite (Hb eq_refl e He). done. }
  assert ((if go_left q l then hits q l else [])
          ≡ₚ filter (λ n, Interval_overlap q (val n).1 = true) (inorder l)) as HL.
  { apply Hskip; [done|done| |by apply IHl].
    intros Hgo e He. destruct l as [|ll lm lr]; [by apply elem_of_nil in He|].
    simpl in Hgo. unfold key_compare in Hgo. apply bool_decide_eq_false in Hgo.
    destruct (aug_ok_cover (T ll lm lr) (val lm) e Hl) as [Hc _]; [simpl; lia|done|].
    unfold Interval_overlap, key_compare.
    rewrite (bool_decide_false (q.1 < (val e).1.2)) by lia. done. }
  assert ((if go_right q r then hits q r else [])
          ≡ₚ filter (λ n, Interval_overlap q (val n).1 = true) (inorder r)) as HR.
  { apply Hskip; [done|done| |by apply IHr].
    intros Hgo e He. destruct r as [|rl rm rr]; [by apply elem_of_nil in He|].
    simpl in Hgo. unfold key_compare in Hgo. apply bool_decide_eq_false in Hgo.
    destruct (aug_ok_cover (T rl rm rr) (val rm) e Hr) as [_ Hc]; [simpl; lia|done|].
    unfold Interval_overlap, key_compare.
    rewrite (bool_decide_false ((val e).1.1 < q.2)) by lia.
    by rewrite andb_false_r. }
  rewrite HL, HR.
  destruct (Interval_overlap q (val n).1) eqn:Hov.
  - rewrite decide_True by done. simpl.
    rewrite (Permutation_app_comm (filter _ (inorder r))).
    by rewrite Permutation_middle.
  - rewrite decide_False by congruence. simpl.
    apply Permutation_app_comm.
Qed.
End Query.

(** ** [_forward] on the store *)

Section Forward.
Context {Data : Type}.
Abbreviation IV := (interval_tree_value Data).
Abbreviation D := (interval_type * IV)%type.
Implicit Types (h : heap D) (t s l r : tree D) (n : info D) (q : interval_type).
Implicit Types (it : _interval_const_iterator) (bs : list (tree D)).
Implicit Types (st : list (option ptr)).

(** The first entries of the array are the roots of the pending
    subtrees, bottom first. *)
Definition stack_holds st bs : Prop :=
  ∀ i s, bs !! i = Some s → st !! i = Some (root_ptr s).

Definition sub_ok h (hdr : ptr) s : Prop :=
  s ≠ E ∧ (∃ par, tree_at h par s) ∧ hdr ∉ addrs s.

(** A subtree at position [i] of the stack leaves room above it. *)
Definition depth_ok (H : Z) bs : Prop :=
  ∀ i s, bs !! i = Some s → height s + Z.of_nat i ≤ H.

Definition it_ok h (hdr : ptr) q it bs : Prop :=
  _interval it = q ∧ _end it = Some hdr
  ∧ length (_stack it) = Z.to_nat STACK_SIZE
  ∧ _sp it = Z.of_nat (length bs)
  ∧ stack_holds (_stack it) bs
  ∧ Forall (sub_ok h hdr) bs.

Lemma stack_holds_app_l st bs bs' : stack_holds st (bs ++ bs') → stack_holds st bs.
Proof. intros H i s Hi. apply H. by apply lookup_app_l_Some. Qed.

Lemma stack_holds_last st bs s :
  stack_holds st (bs ++ [s]) → st !! length bs = Some (root_ptr s).
Proof.
  intros H. apply H. rewrite lookup_app_r by lia.
  by rewrite Nat.sub_diag.
Qed.

Lemma stack_holds_push st bs s :
  stack_holds st bs → (length bs < length st)%nat →
  stack_holds (<[length bs := root_ptr s]> st) (bs ++ [s]).
Proof.
  intros H Hl i s' Hi.
  destruct (decide (i < length bs)%nat) as [Hlt|Hge].
  - rewrite lookup_app_l in Hi by done.
    rewrite list_lookup_insert_ne by lia. by apply H.
  - rewrite lookup_app_r in Hi by lia.
    destruct (i - length bs)%nat as [|j] eqn:Ej; [|done].
    simpl in Hi. injection Hi as <-.
    replace i with (length bs) by lia.
    by rewrite list_lookup_insert_eq.
Qed.

Lemma depth_ok_length H bs :
  depth_ok H bs → Forall (λ s, s ≠ E) bs → Z.of_nat (length bs) ≤ Z.max H 0.
Proof.
  intros Hd Hne. destruct bs as [|s0 bs0] using rev_ind; [simpl; lia|].
  clear IHbs0. rewrite length_app. simpl.
  assert ((bs0 ++ [s0]) !! length bs0 = Some s0) as Hi.
  { rewrite lookup_app_r by lia. by rewrite Nat.sub_diag. }
  specialize (Hd _ _ Hi).
  apply Forall_app in Hne as [_ Hs]. apply Forall_cons in Hs as [Hs _].
  destruct s0 as [|l n r]; [done|]. simpl in Hd.
  pose proof (height_nonneg l). pose proof (height_nonneg r). lia.
Qed.

Lemma depth_ok_node H q bs l n r :
  depth_ok H (bs ++ [T l n r]) → depth_ok H (bs ++ kids q l r).
Proof.
  intros Hd.
  assert (height (T l n r) + Z.of_nat (length bs) ≤ H) as Hn.
  { apply Hd. rewrite lookup_app_r by lia. by rewrite Nat.sub_diag. }
  simpl in Hn.
  intros i s Hi.
  destruct (decide (i < length bs)%nat) as [Hlt|Hge].
  - rewrite lookup_app_l in Hi by done. apply Hd. by apply lookup_app_l_Some.
  - rewrite lookup_app_r in Hi by lia.
    unfold kids in Hi.
    destruct (go_left q l), (go_right q r); simpl in Hi;
      destruct (i - length bs)%nat as [|[|j]] eqn:Ej; simpl in Hi; try done;
      injection Hi as <-; lia.
Qed.

Lemma sub_ok_kids h hdr q l n r :
  sub_ok h hdr (T l n r) → Forall (sub_ok h hdr) (kids q l r).
Proof.
  intros (_ & [par (Hn & Hl & Hr)] & Hh).
  rewrite addrs_T in Hh. apply not_elem_of_app_iff in Hh as [Hhl Hhr].
  apply not_elem_of_cons_iff in Hhr as [_ Hhr].
  unfold kids. apply Forall_app. split.
  - destruct l as [|ll lm lr]; simpl; [constructor|].
    destruct (key_compare _ _); [|constructor]. constructor; [|constructor].
    split_and!; [done|eauto|done].
  - destruct r as [|rl rm rr]; simpl; [constructor|].
    destruct (key_compare _ _); [|constructor]. constructor; [|constructor].
    split_and!; [done|eauto|done].
Qed.

(** [_stack[_sp++] = p] done or not done. *)
Definition push_if (b : bool) it (p : option ptr) : _interval_const_iterator :=
  if b then
    Interval_iterator (_node it) (_interval it) (_end it)
      (<[Z.to_nat (_sp it) := p]> (_stack it)) (_sp it + 1)
  else it.

Lemma maybe_push {B} h par s it (f : node D → Z) (g : Z → bool)
    (k : _interval_const_iterator → M D B) (go : bool) :
  tree_at h par s →
  go = match s with E => false | T sl m sr => g (f (cell par sl m sr)) end →
  (go = true → 0 ≤ _sp it < STACK_SIZE) →
  bind (if decide (root_ptr s ≠ None) then bind (get f (root_ptr s)) (λ m, ret (g m))
        else ret false)
    (λ go, bind (if go : bool then Iterator.push it (root_ptr s) else ret it) k) h
  = k (push_if go it (root_ptr s)) h.
Proof.
  intros Hs -> Hroom. destruct s as [|sl m sr]; simpl.
  - mrun. done.
  - destruct Hs as (Hm & _ & _). mrun.
    destruct (g (f (cell par sl m sr))) eqn:Hg; simpl; [|mrun; done].
    unfold Iterator.push. rewrite decide_True by (by apply Hroom). mrun. done.
Qed.

Lemma push_if_ok h hdr q it bs s (b : bool) :
  it_ok h hdr q it bs → sub_ok h hdr s →
  (length bs < Z.to_nat STACK_SIZE)%nat →
  it_ok h hdr q (push_if b it (root_ptr s)) (bs ++ if b then [s] else []).
Proof.
  intros (Hq & He & Hlen & Hsp & Hst & Hsub) Hs Hroom.
  destruct b; simpl; [|by rewrite app_nil_r].
  split_and!; simpl; try done.
  - by rewrite length_insert.
  - rewrite length_app. simpl. lia.
  - rewrite Hsp, Nat2Z.id. apply stack_holds_push; [done|lia].
  - apply Forall_app. split; [done|]. constructor; [done|constructor].
Qed.

(** One turn of the loop: the top subtree is replaced by the
    children worth a visit. *)
Lemma forward_step_spec h hdr q it bs l n r :
  it_ok h hdr q it (bs ++ [T l n r]) →
  (length (bs ++ kids q l r) ≤ Z.to_nat STACK_SIZE)%nat →
  ∃ it', Iterator._forward_step it h = Ok ((it', Interval_overlap q (val n).1), h)
         ∧ _node it' = Some (addr n)
         ∧ it_ok h hdr q it' (bs ++ kids q l r)
         ∧ (∃ nd, h !! addr n = Some nd ∧ _value nd = val n)
         ∧ addr n ≠ hdr.
Proof.
  intros (Hq & He & Hlen & Hsp & Hst & Hsub) Hroom.
  apply Forall_app in Hsub as [Hsub Hs1]. apply Forall_cons in Hs1 as [Hs1 _].
  pose proof (sub_ok_kids h hdr q l n r Hs1) as Hkids.
  destruct Hs1 as (_ & [par (Hn & Hl & Hr)] & Hhdr).
  pose proof (stack_holds_last _ _ _ Hst) as Hlast. simpl in Hlast.
  apply stack_holds_app_l in Hst.
  rewrite length_app in Hsp. simpl in Hsp.
  set (it1 := Interval_iterator (Some (addr n)) (_interval it) (_end it) (_stack it)
                (Z.of_nat (length bs))).
  assert (it_ok h hdr q it1 bs) as Hit1 by done.
  unfold kids in *.
  set (bl := go_left q l) in *. set (br := go_right q r) in *.
  rewrite length_app in Hroom.
  assert (length (if bl then [l] else []) + length (if br then [r] else []) ≤ 2)%nat
    as H2 by (destruct bl, br; simpl; lia).
  apply Forall_app in Hkids as [Hkl Hkr].
  assert (it_ok h hdr q (push_if bl it1 (root_ptr l)) (bs ++ if bl then [l] else []))
    as Hit2.
  { destruct bl eqn:Ebl; [|simpl; by rewrite app_nil_r].
    apply Forall_cons in Hkl as [Hkl _].
    apply push_if_ok; [done|done|]. rewrite length_app in Hroom. simpl in Hroom. lia. }
  set (it2 := push_if bl it1 (root_ptr l)) in *.
  assert (it_ok h hdr q (push_if br it2 (root_ptr r))
            ((bs ++ if bl then [l] else []) ++ if br then [r] else [])) as Hit3.
  { destruct br eqn:Ebr; [|simpl; by rewrite app_nil_r].
    apply Forall_cons in Hkr as [Hkr _].
    apply push_if_ok; [done|done|].
    rewrite !length_app in *. simpl in *. lia. }
  exists (push_if br it2 (root_ptr r)).
  assert (_node it2 = Some (addr n) ∧ _interval it2 = q) as [Hnode2 Hq2].
  { unfold it2, push_if. destruct bl; done. }
  split_and!.
  - unfold Iterator._forward_step, Iterator.pop.
    rewrite Hsp.
    replace (Z.to_nat (Z.of_nat (length bs + 1) - 1)) with (length bs) by lia.
    rewrite Hlast. rewrite decide_True by lia.
    replace (Z.of_nat (length bs + 1) - 1) with (Z.of_nat (length bs)) by lia.
    fold it1. rewrite bind_ret_l.
    change (_node it1) with (Some (addr n)).
    unfold cell in Hn. erewrite bind_get by exact Hn. cbn [_left].
    unfold Interval.get_max.
    rewrite (maybe_push h (Some (addr n)) l it1 _ _ _ bl Hl).
    2:{ unfold bl, go_left. destruct l; [done|]. simpl. by rewrite Hq. }
    2:{ intros Hb. destruct Hit1 as (_ & _ & _ & -> & _). rewrite Hb in Hroom.
        simpl in Hroom. unfold STACK_SIZE in *. lia. }
    fold it2. rewrite Hnode2.
    erewrite bind_get by exact Hn. cbn [_right].
    unfold Interval.get_min.
    rewrite (maybe_push h (Some (addr n)) r it2 _ _ _ br Hr).
    2:{ unfold br, go_right. destruct r; [done|]. simpl. by rewrite Hq2. }
    2:{ intros Hb. destruct Hit2 as (_ & _ & _ & -> & _). rewrite Hb in Hroom.
        rewrite length_app. simpl in Hroom. unfold STACK_SIZE in *.
        destruct bl; simpl in *; lia. }
    assert (_node (push_if br it2 (root_ptr r)) = Some (addr n)
            ∧ _interval (push_if br it2 (root_ptr r)) = q) as [-> ->].
    { unfold push_if. destruct br; done. }
    erewrite bind_get by exact Hn. done.
  - unfold push_if. destruct br; done.
  - by rewrite app_assoc.
  - eexists. split; [exact Hn|done].
  - intros E'. apply Hhdr. rewrite addrs_T, <- E'.
    apply elem_of_app. right. apply elem_of_cons. by left.
Qed.

(** Where [_forward] leaves the iterator: at the next node to report,
    or at the end when nothing is left. *)
Definition forward_post h (hdr : ptr) q it' bs' (out : list (info D)) (bound : nat)
  : Prop :=
  match out with
  | [] => _node it' = Some hdr ∧ bs' = []
  | n :: rest =>
      _node it' = Some (addr n) ∧ pending q bs' = rest
      ∧ (total_size bs' < bound)%nat
      ∧ (∃ nd, h !! addr n = Some nd ∧ _value nd = val n)
      ∧ addr n ≠ hdr
  end.

Lemma forward_loop_spec h hdr q H :
  H ≤ STACK_SIZE → ∀ fuel it bs,
  it_ok h hdr q it bs → depth_ok H bs → (total_size bs < fuel)%nat →
  ∃ it' bs', Iterator._forward_loop fuel it h = Ok (it', h)
             ∧ it_ok h hdr q it' bs' ∧ depth_ok H bs'
             ∧ forward_post h hdr q it' bs' (pending q bs) (total_size bs).
Proof.
  intros HH. induction fuel as [|fuel IH]; intros it bs Hit Hd Hf; [lia|].
  destruct bs as [|s bs0 _] using rev_ind.
  - destruct Hit as (Hq & He & Hlen & Hsp & Hst & Hsub). simpl in Hsp.
    eexists _, []. simpl. rewrite decide_False by lia.
    split_and!; done.
  - pose proof Hit as (Hq & He & Hlen & Hsp & Hst & Hsub).
    assert (Forall (λ s, s ≠ E) (bs0 ++ [s])) as Hne.
    { eapply Forall_impl; [exact Hsub|]. by intros ? (? & _). }
    pose proof Hne as Hne'. apply Forall_app in Hne' as [Hne0 Hs].
    apply Forall_cons in Hs as [Hs _].
    destruct s as [|l n r]; [done|].
    pose proof (depth_ok_node H q bs0 l n r Hd) as Hd1.
    assert (Forall (λ s, s ≠ E) (bs0 ++ kids q l r)) as Hne1.
    { apply Forall_app. split; [done|].
      apply Forall_app in Hsub as [_ Hs1]. apply Forall_cons in Hs1 as [Hs1 _].
      eapply Forall_impl; [exact (sub_ok_kids h hdr q l n r Hs1)|]. by intros ? (? & _). }
    pose proof (depth_ok_length H _ Hd1 Hne1) as Hlen1.
    destruct (forward_step_spec h hdr q it bs0 l n r Hit)
      as (it1 & Hstep & Hnode1 & Hit1 & Hlook & Hnh).
    { unfold STACK_SIZE in *. lia. }
    assert (total_size (bs0 ++ kids q l r) < total_size (bs0 ++ [T l n r]))%nat as Hdec.
    { rewrite !total_size_app. pose proof (total_size_kids q l r). simpl.
      rewrite length_app. simpl. lia. }
    simpl. rewrite decide_True by (rewrite Hsp, length_app; simpl; lia).
    rewrite (bind_ok _ _ _ _ _ Hstep).
    rewrite pending_snoc. simpl hits. rewrite <- !app_assoc, <- pending_node.
    destruct (Interval_overlap q (val n).1) eqn:Hov.
    + exists it1, (bs0 ++ kids q l r). split_and!; done.
    + destruct (IH it1 (bs0 ++ kids q l r) Hit1 Hd1) as (it' & bs' & Hrun & Hit' & Hd' & Hpost).
      { lia. }
      exists it', bs'. split_and!; try done. simpl.
      destruct (pending q (bs0 ++ kids q l r)) as [|m rest]; [done|].
      simpl in *. destruct Hpost as (? & ? & ? & ? & ?). split_and!; try done. lia.
Qed.

(** The iterator between two steps of the client's loop: [out] is
    what the loop has still to collect. *)
Definition cur h (hdr : ptr) q (H : Z) it (out : list (info D)) : Prop :=
  ∃ bs, it_ok h hdr q it bs ∧ depth_ok H bs
        ∧ forward_post h hdr q it bs out (size h).

Lemma forward_post_mono h hdr q it bs out b b' :
  forward_post h hdr q it bs out b → (b ≤ b')%nat → forward_post h hdr q it bs out b'.
Proof.
  destruct out; simpl; [done|]. intros (? & ? & ? & ? & ?) ?. split_and!; try done. lia.
Qed.

Lemma forward_spec h hdr q H it bs :
  H ≤ STACK_SIZE → it_ok h hdr q it bs → depth_ok H bs → (total_size bs < size h)%nat →
  ∃ it', Iterator._forward it h = Ok (it', h) ∧ cur h hdr q H it' (pending q bs).
Proof.
  intros HH Hit Hd Hsz.
  destruct (forward_loop_spec h hdr q H HH (fuel_of h) it bs Hit Hd)
    as (it' & bs' & Hrun & Hit' & Hd' & Hpost).
  { unfold fuel_of. lia. }
  exists it'. split; [exact Hrun|].
  exists bs'. split_and!; try done.
  eapply forward_post_mono; [exact Hpost|lia].
Qed.

Lemma drain_spec h hdr q H e :
  H ≤ STACK_SIZE → _node e = Some hdr → ∀ fuel it out,
  cur h hdr q H it out → (length out < fuel)%nat →
  IntervalTree.drain fuel it e h = Ok (val <$> out, h).
Proof.
  intros HH He. induction fuel as [|fuel IH]; intros it out (bs & Hit & Hd & Hpost) Hf;
    [lia|].
  destruct out as [|n rest]; simpl in Hpost.
  - destruct Hpost as [Hnode _]. simpl. unfold Iterator.eqb.
    rewrite bool_decide_true by congruence. done.
  - destruct Hpost as (Hnode & Hpend & Hsz & (nd & Hnd & Hv) & Hne).
    simpl. unfold Iterator.eqb.
    rewrite bool_decide_false by (rewrite Hnode, He; congruence).
    unfold Iterator.deref. rewrite Hnode.
    erewrite bind_get by exact Hnd. rewrite Hv.
    unfold Iterator.incr.
    destruct (forward_spec h hdr q H it bs HH Hit Hd Hsz) as (it' & Hrun & Hcur).
    erewrite bind_ok by exact Hrun.
    rewrite Hpend in Hcur.
    erewrite bind_ok; [reflexivity|].
    apply IH; [exact Hcur|]. simpl in Hf. lia.
Qed.

(** The query on a tree that has a root. *)
Lemma equal_range_spec h hdr hb hv t cnt dummy e q :
  rep h hdr hb hv t → t ≠ E → height t ≤ STACK_SIZE →
  ∃ it, IntervalTree.equal_range (Interval_tree (Avl_tree hdr cnt) dummy e) q h
        = Ok (it, h)
        ∧ cur h hdr q (height t) it (hits q t).
Proof.
  intros Hrep Hne Hh.
  pose proof (rep_size _ _ _ _ _ Hrep) as Hsz.
  pose proof Hrep as (Hnd & Ht & Hhd).
  unfold IntervalTree.equal_range. simpl.
  erewrite bind_get by exact Hhd. simpl.
  unfold Iterator.new, Iterator.push. simpl.
  rewrite bind_ret_l.
  set (it0 := Interval_iterator None q (Some hdr)
                (<[0%nat := root_ptr t]> (replicate (Z.to_nat STACK_SIZE) None)) 1).
  assert (it_ok h hdr q it0 [t]) as Hit.
  { split_and!; try done.
    - intros [|i] s; simpl; [|done]. by intros [= <-].
    - constructor; [|constructor]. split_and!; [done|eauto|].
      apply NoDup_cons in Hnd as [? _]. done. }
  assert (depth_ok (height t) [t]) as Hd.
  { intros [|i] s; simpl; [|done]. intros [= <-]. lia. }
  destruct (forward_spec h hdr q (height t) it0 [t] Hh Hit Hd) as (it' & Hrun & Hcur).
  { simpl. lia. }
  exists it'. split; [exact Hrun|].
  unfold pending in Hcur. simpl in Hcur. by rewrite app_nil_r in Hcur.
Qed.

Lemma overlapping_spec h hdr hb hv t cnt dummy e q :
  rep h hdr hb hv t → t ≠ E → height t ≤ STACK_SIZE → _node e = Some hdr →
  IntervalTree.overlapping (Interval_tree (Avl_tree hdr cnt) dummy e) q h
  = Ok (val <$> hits q t, h).
Proof.
  intros Hrep Hne Hh He.
  destruct (equal_range_spec h hdr hb hv t cnt dummy e q Hrep Hne Hh) as (it & Hrun & Hcur).
  unfold IntervalTree.overlapping.
  erewrite bind_ok by exact Hrun.
  unfold with_fuel, IntervalTree.end_. cbn [_end_it].
  apply (drain_spec h hdr q (height t) e Hh He); [exact Hcur|].
  pose proof (length_hits q t). pose proof (rep_size _ _ _ _ _ Hrep).
  unfold fuel_of. lia.
Qed.

(** On a tree without a root the query dereferences the null root. *)
Lemma equal_range_empty h hdr hb hv cnt dummy e q :
  rep h hdr hb hv E →
  IntervalTree.equal_range (Interval_tree (Avl_tree hdr cnt) dummy e) q h
  = Err NullDeref.
Proof.
  intros (Hnd & Ht & Hhd).
  unfold IntervalTree.equal_range. simpl.
  erewrite bind_get by exact Hhd. simpl.
  unfold Iterator.new, Iterator.push. simpl. rewrite bind_ret_l.
  unfold Iterator._forward, with_fuel, fuel_of. simpl.
  done.
Qed.
End Forward.


(** * Sequences of insertions *)

(** ** What a sequence of insertions stores *)

Section Stored.
Context {K U : Type} (compare : K → K → bool).
Implicit Types (es : list (K * U)) (x : K * U) (k : K).

(** [es] holds an entry whose key is equivalent to [k]. *)
Definition has_key es k : bool := existsb (λ e, equiv_key compare e.1 k) es.

(** An entry is stored unless an equivalent key is there already. *)
Definition add_entry es x : list (K * U) :=
  if has_key es x.1 then es else es ++ [x].

Definition stored_from es (l : list (K * U)) : list (K * U) := fold_left add_entry l es.
Definition stored (l : list (K * U)) : list (K * U) := stored_from [] l.

Lemma stored_from_cons es x l :
  stored_from es (x :: l) = stored_from (add_entry es x) l.
Proof. done. Qed.

Lemma has_key_perm es es' k : es ≡ₚ es' → has_key es k = has_key es' k.
Proof.
  unfold has_key. induction 1 as [|e l l' _ IH|e e' l|l l' l'' _ IH1 _ IH2]; simpl.
  - done.
  - by rewrite IH.
  - destruct (equiv_key compare e.1 k), (equiv_key compare e'.1 k); done.
  - by rewrite IH1.
Qed.

Lemma add_entry_perm es es' x : es ≡ₚ es' → add_entry es x ≡ₚ add_entry es' x.
Proof.
  intros H. unfold add_entry. rewrite (has_key_perm es es' x.1 H).
  destruct (has_key es' x.1); [done|]. by rewrite H.
Qed.

Lemma stored_from_perm l : ∀ es es', es ≡ₚ es' → stored_from es l ≡ₚ stored_from es' l.
Proof.
  induction l as [|x l IH]; intros es es' H; simpl; [done|].
  apply IH. by apply add_entry_perm.
Qed.

Lemma length_add_entry es x :
  (length es ≤ length (add_entry es x) ≤ S (length es))%nat.
Proof.
  unfold add_entry. destruct (has_key es x.1); [lia|].
  rewrite length_app. simpl. lia.
Qed.

Lemma length_stored_from l : ∀ es,
  (length es ≤ length (stored_from es l) ≤ length es + length l)%nat.
Proof.
  induction l as [|x l IH]; intros es; simpl; [lia|].
  specialize (IH (add_entry es x)). pose proof (length_add_entry es x). lia.
Qed.

Lemma stored_cons_nonempty x l : stored (x :: l) ≠ [].
Proof.
  unfold stored. simpl. change (add_entry [] x) with [x].
  pose proof (length_stored_from l [x]) as H. simpl in H.
  intros E'. rewrite E' in H. simpl in H. lia.
Qed.
End Stored.

(** ** One insertion, and many *)

Section Build.
Context {K V U : Type} (user : V → U) (compare : K → K → bool).
Context `{!ValueInit K, !ValueInit V}.
Context {P : Policy (K * V)} (A : APolicy (K * V)).
Abbreviation D := (K * V)%type.
Implicit Types (h : heap D) (t s : tree D) (c : ctx D) (n : info D) (v : D).
Context (PS : PolicySpec A) (HK : Keeps user A).
Context (Htrans : ∀ a b c : K,
           compare a b = true → compare b c = true → compare a c = true).
(** What else the policy maintains, for entries that qualify. *)
Context (I : tree D → Prop) (okv : D → Prop).
Context (HI : ∀ hv a v c, I (plug E c) → okv v → I (ins_tree A hv a v c)).

(** The store holds a balanced, ordered tree under the header. *)
Definition good h (hdr : ptr) t : Prop :=
  ∃ hb hv, rep h hdr hb hv t ∧ avl t ∧ bst user compare t ∧ I t.

Lemma new_spec (h0 : heap D) garbage :
  ∃ h, Tree.avl_tree_new garbage h0 = Ok (Avl_tree (fresh (dom h0)) garbage, h)
       ∧ rep h (fresh (dom h0)) 0 value_init E.
Proof.
  eexists. split.
  - unfold Tree.avl_tree_new, allocate. unfold bind at 1. mrun. reflexivity.
  - split_and!.
    + apply NoDup_singleton.
    + done.
    + by rewrite lookup_insert_eq.
Qed.

Lemma find_dup_has_key t k :
  bst user compare t →
  has_key compare (entries user (inorder t)) k
  = match find_dup compare k t with Some _ => true | None => false end.
Proof.
  intros Hs. destruct (find_dup compare k t) as [m|] eqn:Hf.
  - destruct (find_dup_some compare k t m Hf) as [Hin Heq].
    apply existsb_exists. exists (entry user (val m)). split; [|done].
    apply list_elem_of_In. unfold entries.
    apply (list_elem_of_fmap_2 (λ n, entry user (val n))). done.
  - pose proof (find_dup_none user compare Htrans k t Hs Hf) as Hall.
    unfold has_key. induction (entries user (inorder t)) as [|e es IH]; [done|].
    apply Forall_cons in Hall as [He Hall]. simpl. rewrite He. by apply IH.
Qed.

Lemma insert_step h hdr t cnt v :
  good h hdr t → okv v →
  match find_dup compare v.1 t with
  | Some m =>
      Tree.insert compare (Avl_tree hdr cnt) v h
      = Ok (((Some (addr m), false), Avl_tree hdr cnt), h)
      ∧ m ∈ inorder t ∧ equiv_key compare (val m).1 v.1 = true
  | None =>
      ∃ h' t',
        Tree.insert compare (Avl_tree hdr cnt) v h
        = Ok (((Some (fresh (dom h)), true), Avl_tree hdr ((cnt + 1) mod 2 ^ 64)), h')
        ∧ good h' hdr t'
        ∧ (∃ b a, entries user (inorder t) = b ++ a
                  ∧ entries user (inorder t') = b ++ entry user v :: a)
        ∧ height t ≤ height t' ≤ height t + 1
  end.
Proof.
  intros (hb & hv & Hrep & Havl & Hbst & HIt) Hv.
  pose proof (insert_spec compare A PS h hdr hb hv t v cnt Hrep) as Hspec.
  simpl in Hspec.
  pose proof (plug_descend compare v.1 t []) as Hplug. simpl in Hplug.
  destruct (find_dup compare v.1 t) as [m|] eqn:Hf.
  - split; [exact Hspec|]. by apply find_dup_some.
  - set (c := descend compare v.1 t []) in *.
    rewrite <- Hplug in Havl, HIt.
    destruct (ins_tree_avl A hv (fresh (dom h)) v c Havl) as (Hrb & Ha' & Hh').
    destruct (Hspec Hrb) as (h' & Hrun & Hrep').
    exists h', (ins_tree A hv (fresh (dom h)) v c). split_and!.
    + exact Hrun.
    + eexists _, _. split_and!; [exact Hrep'|exact Ha'| |by apply HI].
      by apply (ins_tree_bst user compare Htrans A HK).
    + exists (entries user (ctx_before c)), (entries user (ctx_after c)). split.
      * rewrite <- Hplug. by rewrite entries_plug.
      * by apply entries_ins_tree.
    + rewrite <- Hplug. lia.
    + rewrite <- Hplug. lia.
Qed.

(** An entry with a stored key: [insert] changes nothing and hands
    back the stored entry. *)
Lemma insert_dup h hdr t cnt v es :
  good h hdr t → okv v → entries user (inorder t) ≡ₚ es →
  has_key compare es v.1 = true →
  ∃ m nd,
    Tree.insert compare (Avl_tree hdr cnt) v h
    = Ok (((Some (addr m), false), Avl_tree hdr cnt), h)
    ∧ m ∈ inorder t
    ∧ h !! addr m = Some nd ∧ _value nd = val m
    ∧ equiv_key compare (val m).1 v.1 = true.
Proof.
  intros Hgood Hv Hes Hhas.
  pose proof Hgood as (hb & hv & Hrep & Havl & Hbst & HIt).
  pose proof (insert_step h hdr t cnt v Hgood Hv) as Hstep.
  rewrite <- (has_key_perm compare _ _ v.1 Hes) in Hhas.
  rewrite (find_dup_has_key t v.1 Hbst) in Hhas.
  destruct (find_dup compare v.1 t) as [m|]; [|done].
  destruct Hstep as (Hrun & Hin & Heq).
  destruct Hrep as (_ & Ht & _).
  destruct (tree_at_lookup h _ t m Ht Hin) as (nd & Hnd & Hval & _).
  by exists m, nd.
Qed.

Lemma insert_all_spec l : ∀ h hdr t cnt es,
  good h hdr t → Forall okv l → entries user (inorder t) ≡ₚ es →
  ∃ h' t' cnt',
    Tree.insert_all compare (Avl_tree hdr cnt) l h = Ok (Avl_tree hdr cnt', h')
    ∧ good h' hdr t'
    ∧ entries user (inorder t') ≡ₚ stored_from compare es (entry user <$> l)
    ∧ (cnt' - cnt - (Z.of_nat (length (inorder t')) - Z.of_nat (length (inorder t))))
        mod 2 ^ 64 = 0.
Proof.
  induction l as [|v l IH]; intros h hdr t cnt es Hgood Hok Hes.
  - exists h, t, cnt. split_and!; try done.
    replace (cnt - cnt - _) with 0 by lia. done.
  - apply Forall_cons in Hok as [Hv Hok].
    pose proof Hgood as (hb & hv & Hrep & Havl & Hbst & HIt).
    pose proof (insert_step h hdr t cnt v Hgood Hv) as Hstep.
    pose proof (find_dup_has_key t v.1 Hbst) as Hhas.
    simpl Tree.insert_all. rewrite fmap_cons, stored_from_cons.
    unfold add_entry.
    rewrite <- (has_key_perm compare _ _ (entry user v).1 Hes).
    change (entry user v).1 with v.1. rewrite Hhas.
    destruct (find_dup compare v.1 t) as [m|] eqn:Hf.
    + destruct Hstep as (Hrun & _ & _).
      erewrite bind_ok by exact Hrun.
      apply (IH h hdr t cnt es Hgood Hok Hes).
    + destruct Hstep as (h' & t' & Hrun & Hgood' & (b & a & Hb & Ha) & Hh).
      erewrite bind_ok by exact Hrun.
      destruct (IH h' hdr t' ((cnt + 1) mod 2 ^ 64) (es ++ [entry user v]) Hgood' Hok)
        as (h'' & t'' & cnt'' & Hrun' & Hgood'' & Hes'' & Hcnt).
      { rewrite Ha, <- Hes, Hb. by rewrite <- Permutation_middle, Permutation_cons_append. }
      exists h'', t'', cnt''. split_and!; try done.
      assert (length (inorder t') = S (length (inorder t))) as Hlen.
      { apply (f_equal length) in Ha, Hb. unfold entries in *.
        rewrite length_fmap in Ha, Hb. rewrite length_app in *. simpl in *. lia. }
      rewrite Hlen in Hcnt.
      replace (cnt'' - cnt - (Z.of_nat (length (inorder t'')) - Z.of_nat (length (inorder t))))
        with ((cnt'' - (cnt + 1) mod 2 ^ 64
               - (Z.of_nat (length (inorder t'')) - Z.of_nat (S (length (inorder t)))))
              + ((cnt + 1) mod 2 ^ 64 - (cnt + 1))) by lia.
      rewrite Z.add_mod by lia. rewrite Hcnt. simpl.
      rewrite Zminus_mod, Z.mod_mod by lia. rewrite Z.sub_diag. done.
Qed.
End Build.

(** ** Balance alone, for any comparison *)

Section Balanced.
Context {K V : Type} (compare : K → K → bool).
Context `{!ValueInit K, !ValueInit V}.
Context {P : Policy (K * V)} (A : APolicy (K * V)).
Abbreviation D := (K * V)%type.
Implicit Types (h : heap D) (t s : tree D) (c : ctx D) (n : info D) (v : D).
Context (PS : PolicySpec A).

Definition balanced h (hdr : ptr) t : Prop := ∃ hb hv, rep h hdr hb hv t ∧ avl t.

Lemma insert_balanced h hdr t cnt v :
  balanced h hdr t →
  ∃ h' t' r cnt',
    Tree.insert compare (Avl_tree hdr cnt) v h = Ok ((r, Avl_tree hdr cnt'), h')
    ∧ balanced h' hdr t'.
Proof.
  intros (hb & hv & Hrep & Havl).
  pose proof (insert_spec compare A PS h hdr hb hv t v cnt Hrep) as Hspec.
  simpl in Hspec.
  pose proof (plug_descend compare v.1 t []) as Hplug. simpl in Hplug.
  destruct (find_dup compare v.1 t) as [m|].
  - exists h, t. eexists _, _. split; [exact Hspec|]. by exists hb, hv.
  - rewrite <- Hplug in Havl.
    destruct (ins_tree_avl A hv (fresh (dom h)) v _ Havl) as (Hrb & Ha' & Hh').
    destruct (Hspec Hrb) as (h' & Hrun & Hrep').
    exists h'. eexists _, _, _. split; [exact Hrun|].
    eexists _, _. split; [exact Hrep'|exact Ha'].
Qed.

Lemma insert_all_balanced l : ∀ h hdr t cnt,
  balanced h hdr t →
  ∃ h' t' cnt',
    Tree.insert_all compare (Avl_tree hdr cnt) l h = Ok (Avl_tree hdr cnt', h')
    ∧ balanced h' hdr t'.
Proof.
  induction l as [|v l IH]; intros h hdr t cnt Hb.
  - by exists h, t, cnt.
  - destruct (insert_balanced h hdr t cnt v Hb) as (h' & t' & r & cnt' & Hrun & Hb').
    destruct (IH h' hdr t' cnt' Hb') as (h'' & t'' & cnt'' & Hrun' & Hb'').
    exists h'', t'', cnt''. split; [|done].
    simpl. erewrite bind_ok by exact Hrun. destruct r. exact Hrun'.
Qed.
End Balanced.


(** ** The rotations of [_rebalance] *)

Section Rotations.
Context {K V : Type}.
Abbreviation D := (K * V)%type.

(** [_rebalance] up to its rotations: the balance factors it
    rewrites, and the rotations it then makes, in order; [true]
    stands for [Rotation::left], [false] for [Rotation::right]. *)
Definition _rebalance_plan (unbalanced : option ptr)
  : M D (list (bool * option ptr)) :=
  b <- get _balance unbalanced;
  if decide (b = 2) then
    right <- get _right unbalanced;
    rb <- get _balance right;
    if decide (rb = 1) then
      set_balance unbalanced 0;;
      set_balance right 0;;
      ret [(true, unbalanced)]
    else
      rl <- get _left right;
      rlb <- get _balance rl;
      (if decide (rlb = 1) then
         set_balance unbalanced (-1);;
         set_balance right 0
       else if decide (rlb = 0) then
         set_balance unbalanced 0;;
         set_balance right 0
       else if decide (rlb = -1) then
         set_balance unbalanced 0;;
         set_balance right 1
       else ret tt);;
      rl <- get _left right;
      set_balance rl 0;;
      ret [(false, right); (true, unbalanced)]
  else if decide (b = -2) then
    left <- get _left unbalanced;
    lb <- get _balance left;
    if decide (lb = -1) then
      set_balance unbalanced 0;;
      set_balance left 0;;
      ret [(false, unbalanced)]
    else
      lr <- get _right left;
      lrb <- get _balance lr;
      (if decide (lrb = 1) then
         set_balance unbalanced 0;;
         set_balance left (-1)
       else if decide (lrb = 0) then
         set_balance unbalanced 0;;
         set_balance left 0
       else if decide (lrb = -1) then
         set_balance unbalanced 1;;
         set_balance left 0
       else ret tt);;
      lr <- get _right left;
      set_balance lr 0;;
      ret [(true, left); (false, unbalanced)]
  else ret [].

Definition rotate (P : Policy D) (root : ptr) (r : bool * option ptr) : M D unit :=
  if r.1 then rotation_left r.2 root else rotation_right r.2 root.

Fixpoint rotate_all (P : Policy D) (root : ptr) (rs : list (bool * option ptr))
  : M D unit :=
  match rs with
  | [] => ret tt
  | r :: rs => rotate P root r;; rotate_all P root rs
  end.

Lemma bind_ext {X Y} (m : M D X) (f g : X → M D Y) h :
  (∀ x h', f x h' = g x h') → bind m f h = bind m g h.
Proof. intros H. unfold bind. destruct (m h) as [[x h']|]; [apply H|done]. Qed.

Lemma bind_ret_tt (m : M D unit) h : bind m (λ _, ret tt) h = m h.
Proof. unfold bind, ret. destruct (m h) as [[[] h']|]; done. Qed.

Ltac norm := repeat first [rewrite bind_assoc | rewrite bind_ret_l]; cbv beta.

Ltac crunch :=
  repeat (norm;
    first
      [ reflexivity
      | rewrite bind_ret_tt; reflexivity
      | match goal with
        | |- context [decide ?P] => destruct (decide P)
        end
      | apply bind_ext; intros ? ? ]).

(** [_rebalance] is its plan followed by the rotations of the plan. *)
Lemma rebalance_plan_run (P : Policy D) (t : avl_tree) (u : option ptr) h :
  Tree._rebalance t u h
  = bind (_rebalance_plan u) (rotate_all P (_header t)) h.
Proof.
  unfold Tree._rebalance, _rebalance_plan. simpl rotate_all.
  crunch; unfold rotate_all, rotate; simpl; crunch.
Qed.

Lemma bind_inv {X Y} (m : M D X) (f : X → M D Y) h y h' :
  bind m f h = Ok (y, h') → ∃ x h1, m h = Ok (x, h1) ∧ f x h1 = Ok (y, h').
Proof. unfold bind. destruct (m h) as [[x h1]|]; [eauto|done]. Qed.

Lemma get_inv {X} (f : node D → X) p h x h' :
  get f p h = Ok (x, h') → h' = h.
Proof.
  unfold get, bind, load, ret. destruct p as [a|]; [|done].
  destruct (h !! a); [|done]. by intros [= _ <-].
Qed.

(** The plan holds at most two rotations; the last one is at the
    candidate, the one before it at a child of the candidate. *)
Lemma rebalance_plan_rotations (u : option ptr) h rs h1 :
  _rebalance_plan u h = Ok (rs, h1) →
  (length rs ≤ 2)%nat
  ∧ (∀ r, r ∈ rs →
       r.2 = u ∨ get _left u h = Ok (r.2, h) ∨ get _right u h = Ok (r.2, h))
  ∧ (rs = [] ∨ snd <$> last rs = Some u).
Proof.
  unfold _rebalance_plan. intros H.
  apply bind_inv in H as (b & g & Hb & H). pose proof (get_inv _ _ _ _ _ Hb) as ->.
  destruct (decide (b = 2)); [|destruct (decide (b = -2))].
  - apply bind_inv in H as (c & g & Hc & H). pose proof (get_inv _ _ _ _ _ Hc) as ->.
    apply bind_inv in H as (cb & g & _ & H).
    destruct (decide (cb = 1)).
    + apply bind_inv in H as (? & ? & _ & H). apply bind_inv in H as (? & ? & _ & H).
      injection H as <- <-. split_and!; [simpl; lia| |by right].
      intros r Hr. apply list_elem_of_singleton in Hr as ->. by left.
    + apply bind_inv in H as (? & ? & _ & H). apply bind_inv in H as (? & ? & _ & H).
      apply bind_inv in H as (? & ? & _ & H). apply bind_inv in H as (? & ? & _ & H).
      apply bind_inv in H as (? & ? & _ & H).
      injection H as <- <-. split_and!; [simpl; lia| |by right].
      intros r Hr. apply elem_of_cons in Hr as [->|Hr]; [by right; right|].
      apply list_elem_of_singleton in Hr as ->. by left.
  - apply bind_inv in H as (c & g & Hc & H). pose proof (get_inv _ _ _ _ _ Hc) as ->.
    apply bind_inv in H as (cb & g & _ & H).
    destruct (decide (cb = -1)).
    + apply bind_inv in H as (? & ? & _ & H). apply bind_inv in H as (? & ? & _ & H).
      injection H as <- <-. split_and!; [simpl; lia| |by right].
      intros r Hr. apply list_elem_of_singleton in Hr as ->. by left.
    + apply bind_inv in H as (? & ? & _ & H). apply bind_inv in H as (? & ? & _ & H).
      apply bind_inv in H as (? & ? & _ & H). apply bind_inv in H as (? & ? & _ & H).
      apply bind_inv in H as (? & ? & _ & H).
      injection H as <- <-. split_and!; [simpl; lia| |by right].
      intros r Hr. apply elem_of_cons in Hr as [->|Hr]; [by right; left|].
      apply list_elem_of_singleton in Hr as ->. by left.
  - injection H as <- <-. split_and!; [simpl; lia| |by left].
    intros r Hr. by apply elem_of_nil in Hr.
Qed.
End Rotations.


(** * The two trees *)

(** ** [avl_tree] with the default policies *)

Section AvlTree.
Context {K V : Type} `{!ValueInit K, !ValueInit V} (compare : K → K → bool).
Abbreviation D := (K * V)%type.
Implicit Types (h : heap D) (t : tree D) (l : list D).

Lemma avl_keeps : Keeps (K := K) (@id V) avl_apolicy.
Proof. split; done. Qed.

Lemma entries_id (ns : list (info D)) : entries (@id V) ns = val <$> ns.
Proof.
  unfold entries. apply list_fmap_ext. intros _ n _. unfold entry. by destruct (val n).
Qed.

Lemma entry_id_fmap l : entry (@id V) <$> l = l.
Proof.
  rewrite <- (list_fmap_id l) at 2. apply list_fmap_ext. intros _ [k v] _. done.
Qed.

(** Any comparison: the tree is balanced. *)
Lemma avl_build_balanced l (h0 : heap D) garbage :
  ∃ h hdr cnt t,
    Tree.build (P := AVL.policy) compare garbage l h0 = Ok (Avl_tree hdr cnt, h)
    ∧ balanced h hdr t.
Proof.
  destruct (new_spec h0 garbage) as (h1 & Hnew & Hrep).
  destruct (insert_all_balanced (P := AVL.policy) compare avl_apolicy avl_policy_spec l
              h1 (fresh (dom h0)) E garbage) as (h & t & cnt & Hrun & Hb).
  { eexists _, _. split; [exact Hrep|done]. }
  exists h, (fresh (dom h0)), cnt, t. split; [|done].
  unfold Tree.build. erewrite bind_ok by exact Hnew. exact Hrun.
Qed.

Context (Htrans : ∀ a b c : K,
           compare a b = true → compare b c = true → compare a c = true).

(** A transitive comparison: the tree is a balanced search tree that
    holds what the insertions stored. *)
Lemma avl_build_spec l (h0 : heap D) garbage :
  ∃ h hdr cnt t,
    Tree.build (P := AVL.policy) compare garbage l h0 = Ok (Avl_tree hdr cnt, h)
    ∧ good (@id V) compare (λ _, True) h hdr t
    ∧ val <$> inorder t ≡ₚ stored compare l
    ∧ (cnt - garbage - Z.of_nat (length (inorder t))) mod 2 ^ 64 = 0.
Proof.
  destruct (new_spec h0 garbage) as (h1 & Hnew & Hrep).
  destruct (insert_all_spec (P := AVL.policy) (@id V) compare avl_apolicy avl_policy_spec
              avl_keeps Htrans (λ _, True) (λ _, True) ltac:(done) l
              h1 (fresh (dom h0)) E garbage [])
    as (h & t & cnt & Hrun & Hgood & Hes & Hcnt).
  { eexists _, _. split_and!; [exact Hrep|done|constructor|done]. }
  { by apply Forall_true. }
  { done. }
  exists h, (fresh (dom h0)), cnt, t. split_and!; try done.
  - unfold Tree.build. erewrite bind_ok by exact Hnew. exact Hrun.
  - rewrite <- entries_id. rewrite Hes. by rewrite entry_id_fmap.
  - simpl in Hcnt. by rewrite Z.sub_0_r in Hcnt.
Qed.
End AvlTree.

(** ** [interval_tree] *)

Section IntervalTreeInst.
Context {Data : Type} `{!ValueInit Data}.
Abbreviation IV := (interval_tree_value Data).
Abbreviation D := (interval_type * IV)%type.
Implicit Types (h : heap D) (t : tree D) (l : list (interval_type * Data)).

Lemma itv_keeps : Keeps (K := interval_type) data (itv_apolicy (Data := Data)).
Proof. split; done. Qed.

Lemma Interval_Compare_trans (a b c : interval_type) :
  Interval_Compare a b = true → Interval_Compare b c = true →
  Interval_Compare a c = true.
Proof.
  unfold Interval_Compare, key_compare. rewrite !bool_decide_eq_true. lia.
Qed.

(** Equivalent intervals are the ones with the same low endpoint. *)
Lemma equiv_key_Interval (a b : interval_type) :
  equiv_key Interval_Compare a b = bool_decide (a.1 = b.1).
Proof.
  unfold equiv_key, Interval_Compare, key_compare.
  destruct (decide (a.1 = b.1)) as [Heq|Hne].
  - rewrite (bool_decide_true (a.1 = b.1)) by done.
    rewrite !bool_decide_false by lia. done.
  - rewrite (bool_decide_false (a.1 = b.1)) by done.
    destruct (decide (a.1 < b.1)).
    + rewrite (bool_decide_true (a.1 < b.1)) by done. done.
    + rewrite (bool_decide_false (a.1 < b.1)) by done.
      rewrite (bool_decide_true (b.1 < a.1)) by lia. done.
Qed.

(** The node [interval_tree::insert] hands to the base tree. *)
Definition to_node (x : interval_type * Data) : D :=
  (x.1, Interval_tree_value x.1.2 x.1.1 x.2).

Lemma entry_to_node l : entry data <$> (to_node <$> l) = l.
Proof.
  rewrite <- list_fmap_compose. rewrite <- (list_fmap_id l) at 2.
  apply list_fmap_ext. intros _ [i d] _. done.
Qed.

Lemma own_le_to_node x : own_le (to_node x).
Proof. unfold own_le, to_node. simpl. lia. Qed.

Lemma itv_insert_all l : ∀ (T : interval_tree) h,
  IntervalTree.insert_all T l h
  = bind (Tree.insert_all (P := Interval.policy) Interval_Compare (base T) (to_node <$> l))
      (λ b, ret (Interval_tree b (_dummy_interval T) (_end_it T))) h.
Proof.
  induction l as [|x l IH]; intros T h.
  - simpl. rewrite bind_ret_l. by destruct T.
  - simpl. unfold IntervalTree.insert. fold (to_node x).
    rewrite !bind_assoc. unfold bind at 1 3.
    destruct (Tree.insert Interval_Compare (base T) (to_node x) h) as [[[r b] h']|];
      [|done].
    rewrite bind_ret_l. rewrite IH. done.
Qed.

Lemma itv_new_spec (h0 : heap D) garbage :
  ∃ h e,
    IntervalTree.interval_tree_new garbage h0
    = Ok (Interval_tree (Avl_tree (fresh (dom h0)) garbage) (0, 0) e, h)
    ∧ _node e = Some (fresh (dom h0))
    ∧ rep h (fresh (dom h0)) 0 value_init E.
Proof.
  destruct (new_spec (K := interval_type) (V := IV) h0 garbage)
    as (h & Hnew & Hrep).
  pose proof (rep_header _ _ _ _ _ Hrep) as Hh.
  unfold header_cell, leftmost, rightmost in Hh. simpl in Hh.
  exists h. eexists. refine (conj _ (conj _ Hrep)).
  - unfold IntervalTree.interval_tree_new.
    erewrite bind_ok by exact Hnew. simpl.
    unfold Iterator.new, Iterator.push. simpl. rewrite bind_assoc, bind_ret_l.
    unfold Iterator._forward, with_fuel, fuel_of. simpl.
    unfold Iterator._forward_step, Iterator.pop. simpl.
    unfold Interval.get_max, Interval.get_min.
    unfold bind, get, load, ret, bind. simpl.
    repeat (rewrite Hh; simpl). destruct (size h); reflexivity.
  - reflexivity.
Qed.

Lemma itv_build_spec l (h0 : heap D) garbage :
  ∃ h hdr cnt e t,
    IntervalTree.build garbage l h0
    = Ok (Interval_tree (Avl_tree hdr cnt) (0, 0) e, h)
    ∧ _node e = Some hdr
    ∧ good data Interval_Compare aug_ok h hdr t
    ∧ entries data (inorder t) ≡ₚ stored Interval_Compare l
    ∧ (cnt - garbage - Z.of_nat (length (inorder t))) mod 2 ^ 64 = 0.
Proof.
  destruct (itv_new_spec h0 garbage) as (h1 & e & Hnew & He & Hrep).
  destruct (insert_all_spec (P := Interval.policy) data Interval_Compare itv_apolicy
              itv_policy_spec itv_keeps Interval_Compare_trans aug_ok own_le
              (λ hv a v c H1 H2, ins_tree_aug_ok hv a v c H1 H2)
              (to_node <$> l) h1 (fresh (dom h0)) E garbage [])
    as (h & t & cnt & Hrun & Hgood & Hes & Hcnt).
  { eexists _, _. split_and!; [exact Hrep|done|constructor|done]. }
  { apply Forall_fmap, Forall_true. intros x. apply own_le_to_node. }
  { done. }
  exists h, (fresh (dom h0)), cnt, e, t. split_and!; try done.
  - unfold IntervalTree.build. erewrite bind_ok by exact Hnew.
    rewrite itv_insert_all. simpl. erewrite bind_ok by exact Hrun. done.
  - rewrite Hes. by rewrite entry_to_node.
  - simpl in Hcnt. by rewrite Z.sub_0_r in Hcnt.
Qed.
End IntervalTreeInst.


(** * The claims *)

Section ListFacts.
Context {X Y : Type}.

Lemma filter_fmap (f : X → Y) (P : Y → Prop) `{∀ y, Decision (P y)} (l : list X) :
  filter P (f <$> l) = f <$> filter (λ x, P (f x)) l.
Proof.
  induction l as [|x l IH]; [done|].
  rewrite fmap_cons, !filter_cons, IH. by destruct (decide (P (f x))).
Qed.

Lemma filter_ext_in (P Q : X → Prop) `{∀ x, Decision (P x)} `{∀ x, Decision (Q x)}
    (l : list X) :
  (∀ x, x ∈ l → P x ↔ Q x) → filter P l = filter Q l.
Proof.
  induction l as [|x l IH]; intros HPQ; [done|].
  rewrite !filter_cons.
  rewrite IH by (intros y Hy; apply HPQ; apply elem_of_cons; by right).
  destruct (decide (P x)) as [HP|HP], (decide (Q x)) as [HQ|HQ]; try done;
    exfalso; apply (HPQ x) in HP || (apply HP, (HPQ x)); try done;
    apply elem_of_cons; by left.
Qed.

Lemma StronglySorted_lookup (R : X → X → Prop) (l : list X) i j a b :
  StronglySorted R l → (i < j)%nat → l !! i = Some a → l !! j = Some b → R a b.
Proof.
  intros Hs. revert i j. induction Hs as [|x l Hs IH Hall]; intros i j Hij Hi Hj; [done|].
  destruct j as [|j]; [lia|]. simpl in Hj.
  destruct i as [|i]; simpl in Hi.
  - injection Hi as <-. eapply Forall_forall in Hall; [exact Hall|].
    by eapply list_elem_of_lookup_2.
  - apply (IH i j); [lia|done|done].
Qed.
End ListFacts.

Section Distinct.
Context {Data : Type}.
Implicit Types (l es : list (interval_type * Data)).

(** The low endpoints of a list of entries. *)
Definition lows l : list Z := (λ x, x.1.1) <$> l.

Lemma has_key_lows es (k : interval_type) :
  k.1 ∉ lows es → has_key Interval_Compare es k = false.
Proof.
  induction es as [|e es IH]; intros Hk; [done|].
  unfold lows in Hk. rewrite fmap_cons in Hk.
  apply not_elem_of_cons in Hk as [Hne Hk].
  simpl. rewrite equiv_key_Interval. rewrite bool_decide_false by congruence.
  by apply IH.
Qed.

(** Entries with pairwise distinct low endpoints are all stored. *)
Lemma stored_from_distinct l : ∀ es,
  NoDup (lows (es ++ l)) → stored_from Interval_Compare es l = es ++ l.
Proof.
  induction l as [|x l IH]; intros es Hnd; [by rewrite app_nil_r|].
  rewrite stored_from_cons. unfold add_entry.
  rewrite has_key_lows.
  - rewrite IH; [by rewrite <- app_assoc|]. by rewrite <- app_assoc.
  - unfold lows in *. rewrite fmap_app, fmap_cons in Hnd.
    apply NoDup_app in Hnd as (_ & Hd & _).
    intros Hin. apply (Hd _ Hin). apply elem_of_cons. by left.
Qed.

Lemma stored_distinct l : NoDup (lows l) → stored Interval_Compare l = l.
Proof. intros H. by apply (stored_from_distinct l []). Qed.
End Distinct.

(** ** Queries on a tree made by insertions *)

Section BuiltQueries.
Context {Data : Type} `{!ValueInit Data}.
Abbreviation IV := (interval_tree_value Data).
Abbreviation D := (interval_type * IV)%type.
Implicit Types (l : list (interval_type * Data)) (q : interval_type) (h : heap D).

Lemma entries_nil_inv (t : tree D) : entries data (inorder t) = [] → t = E.
Proof.
  destruct t as [|tl n tr]; [done|]. simpl. rewrite entries_app, entries_cons.
  intros H. by destruct (entries data (inorder tl)).
Qed.

Lemma built_height l h hdr (t : tree D) :
  good data Interval_Compare aug_ok h hdr t →
  entries data (inorder t) ≡ₚ stored Interval_Compare l →
  l ≠ [] → Z.of_nat (length l) < 2 ^ 45 →
  t ≠ E ∧ height t ≤ STACK_SIZE.
Proof.
  intros (hb & hv & Hrep & Havl & Hbst & Haug) Hes Hne Hlen. split.
  - intros ->. simpl in Hes. apply Permutation_nil in Hes.
    destruct l as [|x l]; [done|]. by apply stored_cons_nonempty in Hes.
  - apply avl_height_64; [done|].
    apply Permutation_length in Hes. unfold entries in Hes. rewrite length_fmap in Hes.
    pose proof (length_stored_from Interval_Compare l []) as Hl. unfold stored in Hes.
    simpl in Hl. lia.
Qed.

Lemma overlapping_built l q (h0 : heap D) garbage :
  l ≠ [] → Z.of_nat (length l) < 2 ^ 45 →
  ∃ T h out,
    IntervalTree.build garbage l h0 = Ok (T, h)
    ∧ IntervalTree.overlapping T q h = Ok (out, h)
    ∧ entry data <$> out
      ≡ₚ filter (λ x, Interval_overlap q x.1 = true) (stored Interval_Compare l).
Proof.
  intros Hne Hlen.
  destruct (itv_build_spec l h0 garbage) as (h & hdr & cnt & e & t & Hrun & He & Hgood & Hes & _).
  destruct (built_height l h hdr t Hgood Hes Hne Hlen) as [HtE Hh].
  destruct Hgood as (hb & hv & Hrep & Havl & Hbst & Haug).
  eexists _, h, _. split_and!; [exact Hrun| |].
  - apply (overlapping_spec h hdr hb hv t cnt (0, 0) e q Hrep HtE Hh He).
  - rewrite <- Hes. unfold entries.
    rewrite (filter_fmap (λ n : info D, entry data (val n))).
    rewrite <- list_fmap_compose.
    apply fmap_Permutation. apply (hits_perm q t Haug).
Qed.
End BuiltQueries.

(** C1.  An interval tree built by a sequence of insertions answers
    every overlap query [(lo, hi)] with exactly the stored entries
    [[a0, a1)] for which [a0 < hi] and [lo < a1], the comparisons being
    the strict order of the integers: the entries the query yields, as
    a multiset, are the stored entries that satisfy the two
    inequalities, so every entry that is yielded satisfies them (no
    false positive) and every stored entry that satisfies them is
    yielded (no false negative).  When the inserted low endpoints are
    pairwise distinct every inserted entry is stored, and the answer
    does not depend on the order of the insertions: it is the inserted
    entries that satisfy the inequalities, and the tree built from any
    permutation of the insertions answers the query with the same
    entries.  The sequence is not empty (the query on a tree without a
    root is claim C5) and has fewer than [2 ^ 45] entries, which keeps
    the tree within the 64 levels the traversal stack has room for. *)
Theorem C1_overlap_query_exact {Data : Type} `{!ValueInit Data}
    (l : list (interval_type * Data)) (q : interval_type)
    (h0 : heap (interval_type * interval_tree_value Data)) (garbage : Z) :
  l ≠ [] → Z.of_nat (length l) < 2 ^ 45 →
  ∃ T h out,
    IntervalTree.build garbage l h0 = Ok (T, h)
    ∧ IntervalTree.overlapping T q h = Ok (out, h)
    ∧ entry data <$> out
      ≡ₚ filter (λ x, x.1.1 < q.2 ∧ q.1 < x.1.2) (stored Interval_Compare l)
    ∧ (∀ x, x ∈ entry data <$> out → x.1.1 < q.2 ∧ q.1 < x.1.2)
    ∧ (∀ x, x ∈ stored Interval_Compare l → x.1.1 < q.2 → q.1 < x.1.2 →
         x ∈ entry data <$> out)
    ∧ (NoDup (lows l) →
       ∀ l', l' ≡ₚ l →
       entry data <$> out ≡ₚ filter (λ x, x.1.1 < q.2 ∧ q.1 < x.1.2) l'
       ∧ ∃ T' h' out',
           IntervalTree.build garbage l' h0 = Ok (T', h')
           ∧ IntervalTree.overlapping T' q h' = Ok (out', h')
           ∧ entry data <$> out' ≡ₚ entry data <$> out).
Proof.
  intros Hne Hlen.
  assert (∀ k : list (interval_type * Data),
            filter (λ x, Interval_overlap q x.1 = true) k
            = filter (λ x, x.1.1 < q.2 ∧ q.1 < x.1.2) k) as Hlt.
  { intros k. apply filter_ext_in. intros x _.
    unfold Interval_overlap, key_compare.
    rewrite andb_true_iff, !bool_decide_eq_true. lia. }
  destruct (overlapping_built l q h0 garbage Hne Hlen) as (T & h & out & Hrun & Hq & Hout).
  rewrite Hlt in Hout.
  exists T, h, out. split_and!; try done.
  - intros x Hx. rewrite Hout in Hx. by apply list_elem_of_filter in Hx as [Hov _].
  - intros x Hx H1 H2. rewrite Hout. apply list_elem_of_filter. by split.
  - intros Hnd l' Hl'.
    assert (entry data <$> out ≡ₚ filter (λ x, x.1.1 < q.2 ∧ q.1 < x.1.2) l') as Hall.
    { rewrite Hout, (stored_distinct l Hnd). by rewrite Hl'. }
    split; [exact Hall|].
    assert (l' ≠ []) as Hne'.
    { intros ->. apply Permutation_nil in Hl'. by symmetry in Hl'. }
    assert (Z.of_nat (length l') < 2 ^ 45) as Hlen'.
    { by rewrite (Permutation_length Hl'). }
    destruct (overlapping_built l' q h0 garbage Hne' Hlen')
      as (T' & h' & out' & Hrun' & Hq' & Hout').
    exists T', h', out'. split_and!; try done.
    rewrite Hout', Hlt, Hall. rewrite stored_distinct; [done|].
    unfold lows. by rewrite Hl'.
Qed.

Lemma C1_overlap_query_exact_witness :
  [((1, 5), tt); ((5, 8), tt); ((0, 2), tt)] ≠ []
  ∧ Z.of_nat (length [((1, 5), tt); ((5, 8), tt); ((0, 2), tt)]) < 2 ^ 45
  ∧ ∃ T h out,
      IntervalTree.build 0 [((1, 5), tt); ((5, 8), tt); ((0, 2), tt)] ∅ = Ok (T, h)
      ∧ IntervalTree.overlapping T (2, 5) h = Ok (out, h)
      ∧ entry data <$> out
        ≡ₚ filter (λ x, x.1.1 < (2, 5).2 ∧ (2, 5).1 < x.1.2)
             (stored Interval_Compare [((1, 5), tt); ((5, 8), tt); ((0, 2), tt)])
      ∧ (∀ x, x ∈ entry data <$> out → x.1.1 < (2, 5).2 ∧ (2, 5).1 < x.1.2)
      ∧ (∀ x, x ∈ stored Interval_Compare [((1, 5), tt); ((5, 8), tt); ((0, 2), tt)] →
           x.1.1 < (2, 5).2 → (2, 5).1 < x.1.2 → x ∈ entry data <$> out)
      ∧ (NoDup (lows [((1, 5), tt); ((5, 8), tt); ((0, 2), tt)]) →
         ∀ l', l' ≡ₚ [((1, 5), tt); ((5, 8), tt); ((0, 2), tt)] →
         entry data <$> out ≡ₚ filter (λ x, x.1.1 < (2, 5).2 ∧ (2, 5).1 < x.1.2) l'
         ∧ ∃ T' h' out',
             IntervalTree.build 0 l' ∅ = Ok (T', h')
             ∧ IntervalTree.overlapping T' (2, 5) h' = Ok (out', h')
             ∧ entry data <$> out' ≡ₚ entry data <$> out).
Proof.
  split; [discriminate|]. split; [vm_compute; reflexivity|].
  apply (C1_overlap_query_exact [((1, 5), tt); ((5, 8), tt); ((0, 2), tt)] (2, 5) ∅ 0);
    [discriminate|].
  vm_compute. reflexivity.
Defined.

(** C10.  The point query [equal_range(k)] is the overlap query for the
    interval [(k, k)]: on a tree built by insertions it yields exactly
    the stored entries [[lo, hi)] with [lo < k] and [k < hi], so no
    entry whose low or high endpoint is [k] is among them.  The same
    bounds on the sequence of insertions as for C1. *)
Theorem C10_point_query_strict {Data : Type} `{!ValueInit Data}
    (l : list (interval_type * Data)) (k : Z)
    (h0 : heap (interval_type * interval_tree_value Data)) (garbage : Z) :
  l ≠ [] → Z.of_nat (length l) < 2 ^ 45 →
  ∃ T h out,
    IntervalTree.build garbage l h0 = Ok (T, h)
    ∧ IntervalTree.equal_range_key T k h = IntervalTree.equal_range T (k, k) h
    ∧ IntervalTree.containing T k h = Ok (out, h)
    ∧ entry data <$> out
      ≡ₚ filter (λ x, x.1.1 < k ∧ k < x.1.2) (stored Interval_Compare l)
    ∧ (∀ x, x ∈ entry data <$> out → x.1.1 ≠ k ∧ x.1.2 ≠ k).
Proof.
  intros Hne Hlen.
  destruct (overlapping_built l (k, k) h0 garbage Hne Hlen)
    as (T & h & out & Hrun & Hq & Hout).
  assert (entry data <$> out
          ≡ₚ filter (λ x, x.1.1 < k ∧ k < x.1.2) (stored Interval_Compare l)) as Hout'.
  { rewrite Hout.
    rewrite (filter_ext_in (λ x, Interval_overlap (k, k) x.1 = true)
               (λ x, x.1.1 < k ∧ k < x.1.2)); [done|].
    intros x _. unfold Interval_overlap, key_compare. simpl.
    rewrite andb_true_iff, !bool_decide_eq_true. lia. }
  exists T, h, out. split_and!; try done.
  intros x Hx. rewrite Hout' in Hx. apply list_elem_of_filter in Hx as [Hx _]. lia.
Qed.

Lemma C10_point_query_strict_witness :
  [((1, 5), tt)] ≠ []
  ∧ Z.of_nat (length [((1, 5), tt)]) < 2 ^ 45
  ∧ ∃ T h out,
      IntervalTree.build 0 [((1, 5), tt)] ∅ = Ok (T, h)
      ∧ IntervalTree.equal_range_key T 1 h = IntervalTree.equal_range T (1, 1) h
      ∧ IntervalTree.containing T 1 h = Ok (out, h)
      ∧ entry data <$> out
        ≡ₚ filter (λ x, x.1.1 < 1 ∧ 1 < x.1.2) (stored Interval_Compare [((1, 5), tt)])
      ∧ (∀ x, x ∈ entry data <$> out → x.1.1 ≠ 1 ∧ x.1.2 ≠ 1).
Proof.
  split; [discriminate|]. split; [vm_compute; reflexivity|].
  apply (C10_point_query_strict [((1, 5), tt)] 1 ∅ 0); [discriminate|].
  vm_compute. reflexivity.
Defined.

(** C8.  For a tree built by any sequence of insertions, the walk from
    [begin()] to [end()] by [operator++] visits the stored entries with
    their keys strictly increasing under the comparison, and no two of
    the visited entries have equivalent keys.  The comparison is
    transitive, as a strict ordering is. *)
Theorem C8_inorder_strictly_increasing {K V : Type} `{!ValueInit K, !ValueInit V}
    (compare : K → K → bool) (l : list (K * V)) (h0 : heap (K * V)) (garbage : Z) :
  (∀ a b c : K, compare a b = true → compare b c = true → compare a c = true) →
  ∃ T h out,
    Tree.build (P := AVL.policy) compare garbage l h0 = Ok (T, h)
    ∧ Tree.traverse T h = Ok (out, h)
    ∧ out ≡ₚ stored compare l
    ∧ StronglySorted (λ a b, compare a.1 b.1 = true) out
    ∧ (∀ i j a b, i ≠ j → out !! i = Some a → out !! j = Some b →
       equiv_key compare a.1 b.1 = false).
Proof.
  intros Htrans.
  destruct (avl_build_spec compare Htrans l h0 garbage)
    as (h & hdr & cnt & t & Hrun & (hb & hv & Hrep & Havl & Hbst & _) & Hes & _).
  assert (StronglySorted (λ a b : K * V, compare a.1 b.1 = true) (val <$> inorder t))
    as Hsorted.
  { unfold bst in Hbst. by rewrite entries_id in Hbst. }
  exists (Avl_tree hdr cnt), h, (val <$> inorder t). split_and!; try done.
  - by apply (traverse_spec h hdr hb hv t cnt).
  - intros i j a b Hij Hi Hj. unfold equiv_key.
    destruct (decide (i < j)%nat).
    + by rewrite (StronglySorted_lookup _ _ i j a b Hsorted).
    + rewrite (StronglySorted_lookup _ _ j i b a Hsorted) by (done || lia).
      by rewrite andb_false_r.
Qed.

Lemma C8_inorder_strictly_increasing_witness :
  ∃ T h out,
    Tree.build (P := AVL.policy) Z.ltb 0 [(2, 20); (1, 10); (3, 30)] ∅ = Ok (T, h)
    ∧ Tree.traverse T h = Ok (out, h)
    ∧ out ≡ₚ stored Z.ltb [(2, 20); (1, 10); (3, 30)]
    ∧ StronglySorted (λ a b : Z * Z, Z.ltb a.1 b.1 = true) out
    ∧ (∀ i j a b, i ≠ j → out !! i = Some a → out !! j = Some b →
       equiv_key Z.ltb a.1 b.1 = false).
Proof.
  apply (C8_inorder_strictly_increasing Z.ltb [(2, 20); (1, 10); (3, 30)] ∅ 0).
  intros a b c. rewrite !Z.ltb_lt. lia.
Defined.

(** C3.  After every insertion of a sequence, into an [avl_tree] with
    the default policies under any comparison and into an
    [interval_tree], the store holds a tree in which every node has
    subtrees whose heights differ by at most one and a balance factor
    equal to the height of the right subtree minus that of the left
    one.  [_rebalance] itself is a rewrite of balance factors followed
    by the rotations of its plan, whatever the rotation policy: at most
    two, the last one at the candidate and the one before it at a child
    of the candidate. *)
Theorem C3_avl_invariant_and_rotations :
  (∀ (K V : Type) (HK : ValueInit K) (HV : ValueInit V) (compare : K → K → bool)
     (l : list (K * V)) (h0 : heap (K * V)) (garbage : Z),
     ∃ T h hb hv t,
       Tree.build (P := AVL.policy) compare garbage l h0 = Ok (T, h)
       ∧ rep h (_header T) hb hv t ∧ avl t)
  ∧ (∀ (Data : Type) (HD : ValueInit Data) (l : list (interval_type * Data))
       (h0 : heap (interval_type * interval_tree_value Data)) (garbage : Z),
       ∃ T h hb hv t,
         IntervalTree.build garbage l h0 = Ok (T, h)
         ∧ rep h (_header (base T)) hb hv t ∧ avl t)
  ∧ (∀ (K V : Type) (P : Policy (K * V)) (T : avl_tree) (u : option ptr)
       (h : heap (K * V)),
       Tree._rebalance T u h = bind (_rebalance_plan u) (rotate_all P (_header T)) h)
  ∧ (∀ (K V : Type) (u : option ptr) (h : heap (K * V)) rs h1,
       _rebalance_plan u h = Ok (rs, h1) →
       (length rs ≤ 2)%nat
       ∧ (∀ r, r ∈ rs →
            r.2 = u ∨ get _left u h = Ok (r.2, h) ∨ get _right u h = Ok (r.2, h))
       ∧ (rs = [] ∨ snd <$> last rs = Some u)).
Proof.
  split_and!.
  - intros K V HK HV compare l h0 garbage.
    destruct (avl_build_balanced compare l h0 garbage)
      as (h & hdr & cnt & t & Hrun & hb & hv & Hrep & Havl).
    by exists (Avl_tree hdr cnt), h, hb, hv, t.
  - intros Data HD l h0 garbage.
    destruct (itv_build_spec l h0 garbage)
      as (h & hdr & cnt & e & t & Hrun & _ & (hb & hv & Hrep & Havl & _) & _).
    by eexists _, h, hb, hv, t.
  - intros K V P T u h. apply rebalance_plan_run.
  - intros K V u h rs h1. apply rebalance_plan_rotations.
Qed.

Section Duplicates.
Context {Data : Type} `{!ValueInit Data}.
Implicit Types (l es : list (interval_type * Data)).

Lemma has_key_lows_true es (k : interval_type) :
  k.1 ∈ lows es → has_key Interval_Compare es k = true.
Proof.
  induction es as [|e es IH]; intros Hk; [by apply elem_of_nil in Hk|].
  unfold lows in Hk. rewrite fmap_cons in Hk. simpl.
  rewrite equiv_key_Interval.
  apply elem_of_cons in Hk as [Hk|Hk].
  - rewrite bool_decide_true by done. done.
  - rewrite (IH Hk). by rewrite orb_true_r.
Qed.

Lemma has_key_true_lows es (k : interval_type) :
  has_key Interval_Compare es k = true → k.1 ∈ lows es.
Proof.
  induction es as [|e es IH]; [done|]. simpl. rewrite equiv_key_Interval.
  change (lows (e :: es)) with (e.1.1 :: lows es).
  destruct (decide (e.1.1 = k.1)) as [Heq|Hne].
  - intros _. apply elem_of_cons. by left.
  - rewrite bool_decide_false by done. simpl. intros H.
    apply elem_of_cons. right. by apply IH.
Qed.

Lemma stored_snoc_low l x : x.1.1 ∈ lows (stored Interval_Compare (l ++ [x])).
Proof.
  unfold stored, stored_from. rewrite fold_left_app. simpl.
  unfold add_entry at 1.
  destruct (has_key Interval_Compare _ x.1) eqn:Hk.
  - by apply has_key_true_lows.
  - unfold lows. rewrite fmap_app. apply elem_of_app. right.
    apply elem_of_cons. by left.
Qed.

(** [interval_tree::insert] of an entry whose low endpoint is stored. *)
Lemma itv_insert_dup l (x : interval_type * Data)
    (h0 : heap (interval_type * interval_tree_value Data)) garbage :
  x.1.1 ∈ lows (stored Interval_Compare l) →
  ∃ T h a nd,
    IntervalTree.build garbage l h0 = Ok (T, h)
    ∧ Tree.insert (P := Interval.policy) Interval_Compare (base T) (to_node x) h
      = Ok (((Some a, false), base T), h)
    ∧ IntervalTree.insert T x h = Ok ((tt, T), h)
    ∧ h !! a = Some nd
    ∧ entry data (_value nd) ∈ stored Interval_Compare l
    ∧ (_value nd).1.1 = x.1.1.
Proof.
  intros Hlow.
  destruct (itv_build_spec l h0 garbage)
    as (h & hdr & cnt & e & t & Hrun & He & Hgood & Hes & _).
  destruct (insert_dup (P := Interval.policy) data Interval_Compare itv_apolicy
              itv_policy_spec itv_keeps Interval_Compare_trans aug_ok own_le
              (λ hv a v c H1 H2, ins_tree_aug_ok hv a v c H1 H2)
              h hdr t cnt (to_node x) (stored Interval_Compare l) Hgood
              (own_le_to_node x) Hes)
    as (m & nd & Hins & Hin & Hnd & Hval & Heq).
  { by apply has_key_lows_true. }
  eexists _, h, (addr m), nd. split_and!; [exact Hrun|exact Hins| |exact Hnd| |].
  + unfold IntervalTree.insert. simpl. fold (to_node x).
    erewrite bind_ok by exact Hins. done.
  + rewrite <- Hes, Hval. unfold entries.
    by apply (list_elem_of_fmap_2 (λ n, entry data (val n))).
  + rewrite Hval. rewrite equiv_key_Interval in Heq.
    by apply bool_decide_eq_true in Heq.
Qed.
End Duplicates.

(** C4.  Inserting an entry whose key is equivalent to the key of a
    stored entry (for the interval tree: whose interval has the low
    endpoint of a stored interval, whatever its high endpoint and
    value) changes nothing: the store and the tree object, with its
    node count, are as before, and the base [insert] reports [false]
    with the handle of the stored entry.  The comparison of the
    [avl_tree] is transitive. *)
Theorem C4_duplicate_insert_idempotent {K V : Type} `{!ValueInit K, !ValueInit V}
    (compare : K → K → bool) :
  (∀ a b c : K, compare a b = true → compare b c = true → compare a c = true) →
  (∀ (l : list (K * V)) (v : K * V) (h0 : heap (K * V)) (garbage : Z),
     has_key compare (stored compare l) v.1 = true →
     ∃ T h a nd,
       Tree.build (P := AVL.policy) compare garbage l h0 = Ok (T, h)
       ∧ Tree.insert (P := AVL.policy) compare T v h = Ok (((Some a, false), T), h)
       ∧ h !! a = Some nd
       ∧ _value nd ∈ stored compare l
       ∧ equiv_key compare (_value nd).1 v.1 = true)
  ∧ (∀ (Data : Type) (HD : ValueInit Data) (l : list (interval_type * Data))
       (x : interval_type * Data)
       (h0 : heap (interval_type * interval_tree_value Data)) (garbage : Z),
       x.1.1 ∈ lows (stored Interval_Compare l) →
       ∃ T h a nd,
         IntervalTree.build garbage l h0 = Ok (T, h)
         ∧ Tree.insert (P := Interval.policy) Interval_Compare (base T) (to_node x) h
           = Ok (((Some a, false), base T), h)
         ∧ IntervalTree.insert T x h = Ok ((tt, T), h)
         ∧ h !! a = Some nd
         ∧ entry data (_value nd) ∈ stored Interval_Compare l
         ∧ (_value nd).1.1 = x.1.1).
Proof.
  intros Htrans. split.
  - intros l v h0 garbage Hhas.
    destruct (avl_build_spec compare Htrans l h0 garbage)
      as (h & hdr & cnt & t & Hrun & Hgood & Hes & _).
    destruct (insert_dup (P := AVL.policy) (@id V) compare avl_apolicy avl_policy_spec
                avl_keeps Htrans (λ _, True) (λ _, True) ltac:(done)
                h hdr t cnt v (stored compare l) Hgood I)
      as (m & nd & Hins & Hin & Hnd & Hval & Heq); [|done|].
    { by rewrite entries_id. }
    exists (Avl_tree hdr cnt), h, (addr m), nd. split_and!; try done.
    + rewrite <- Hes, Hval. by apply list_elem_of_fmap_2.
    + by rewrite Hval.
  - intros Data HD l x h0 garbage Hlow. by apply itv_insert_dup.
Qed.

Lemma C4_duplicate_insert_idempotent_witness :
  ∃ T h a nd,
    Tree.build (P := AVL.policy) Z.ltb 0 [(1, 10)] ∅ = Ok (T, h)
    ∧ Tree.insert (P := AVL.policy) Z.ltb T (1, 20) h = Ok (((Some a, false), T), h)
    ∧ h !! a = Some nd
    ∧ _value nd ∈ stored Z.ltb [(1, 10)]
    ∧ equiv_key Z.ltb (_value nd).1 (1, 20).1 = true.
Proof.
  refine (proj1 (C4_duplicate_insert_idempotent Z.ltb _) [(1, 10)] (1, 20) ∅ 0 _).
  - intros a b c. rewrite !Z.ltb_lt. lia.
  - vm_compute. reflexivity.
Defined.

(** ** The traversal stack *)

Section StackBound.
Context {Data : Type}.
Abbreviation IV := (interval_tree_value Data).
Abbreviation D := (interval_type * IV)%type.
Implicit Types (h : heap D) (t : tree D) (q : interval_type).
Implicit Types (it : _interval_const_iterator).

(** The iterator after the constructor's [_stack[_sp++] = root]. *)
Definition started q (hdr : ptr) (root : option ptr) : _interval_const_iterator :=
  Interval_iterator None q (Some hdr)
    (<[0%nat := root]> (replicate (Z.to_nat STACK_SIZE) None)) 1.

(** The iterators a query passes through at the head of the [while]
    loop of [_forward], from the constructor on and across the calls
    of [operator++]. *)
Inductive visits h : _interval_const_iterator → _interval_const_iterator → Prop :=
| visits_here it : visits h it it
| visits_turn it it1 it2 b :
    visits h it it1 → _sp it1 > 0 →
    Iterator._forward_step it1 h = Ok ((it2, b), h) →
    visits h it it2.

Lemma visits_inv h hdr hb hv t q it :
  rep h hdr hb hv t → t ≠ E → height t ≤ STACK_SIZE →
  visits h (started q hdr (root_ptr t)) it →
  ∃ bs, it_ok h hdr q it bs ∧ depth_ok (height t) bs.
Proof.
  intros Hrep Hne Hh Hv.
  remember (started q hdr (root_ptr t)) as it0 eqn:E0.
  induction Hv as [it|it it1 it2 b Hv IH Hsp Hstep].
  - subst it. exists [t]. split.
    + destruct Hrep as (Hnd & Ht & _).
      split_and!; try done.
      * intros [|i] s; simpl; [|done]. by intros [= <-].
      * constructor; [|constructor]. split_and!; [done|eauto|].
        apply NoDup_cons in Hnd as [? _]. done.
    + intros [|i] s; simpl; [|done]. intros [= <-]. lia.
  - destruct (IH E0) as (bs & Hit & Hd).
    destruct bs as [|s bs0 _] using rev_ind.
    { destruct Hit as (_ & _ & _ & Hsp' & _). simpl in Hsp'. lia. }
    pose proof Hit as (_ & _ & _ & _ & _ & Hsub).
    assert (Forall (λ s, s ≠ E) (bs0 ++ [s])) as Hne'.
    { eapply Forall_impl; [exact Hsub|]. by intros ? (? & _). }
    apply Forall_app in Hsub as [_ Hs]. apply Forall_cons in Hs as [Hs _].
    destruct s as [|l n r]; [by destruct Hs|].
    pose proof (depth_ok_node (height t) q bs0 l n r Hd) as Hd1.
    assert (Forall (λ s, s ≠ E) (bs0 ++ kids q l r)) as Hne1.
    { apply Forall_app in Hne' as [Hne0 _]. apply Forall_app. split; [done|].
      eapply Forall_impl; [exact (sub_ok_kids h hdr q l n r Hs)|]. by intros ? (? & _). }
    pose proof (depth_ok_length _ _ Hd1 Hne1) as Hlen1.
    destruct (forward_step_spec h hdr q it1 bs0 l n r Hit)
      as (it' & Hstep' & _ & Hit' & _).
    { unfold STACK_SIZE in *. lia. }
    rewrite Hstep' in Hstep. injection Hstep as <- _.
    exists (bs0 ++ kids q l r). done.
Qed.

Lemma visits_empty h q hdr it :
  visits h (started q hdr None) it → it = started q hdr None.
Proof.
  intros Hv. remember (started q hdr None) as it0 eqn:E0.
  induction Hv as [it|it it1 it2 b Hv IH Hsp Hstep]; [done|].
  rewrite (IH E0) in Hstep. subst it. done.
Qed.
End StackBound.

(** C9.  For an interval tree of at most 64 levels (the height counts
    the nodes of the longest path, one more than its edges, so these
    are the trees of height at most 63 in edges) and every query, at
    every turn of the loop of [_forward] the stack holds at most as
    many entries as the tree has levels, and one entry for the tree
    without a root: [_sp] stays within [STACK_SIZE], no turn of the loop
    writes outside the array, and the query as a whole does not end in
    such a write. *)
Theorem C9_query_stack_bounded {Data : Type}
    (h : heap (interval_type * interval_tree_value Data)) (hdr : ptr) (hb : Z)
    (hv : interval_type * interval_tree_value Data)
    (t : tree (interval_type * interval_tree_value Data))
    (cnt : Z) (dummy : interval_type) (e : _interval_const_iterator)
    (q : interval_type) (it : _interval_const_iterator) :
  rep h hdr hb hv t → height t ≤ STACK_SIZE → _node e = Some hdr →
  visits h (started q hdr (root_ptr t)) it →
  Iterator.push (Interval_iterator None q (Some hdr)
                   (replicate (Z.to_nat STACK_SIZE) None) 0) (root_ptr t) h
  = Ok (started q hdr (root_ptr t), h)
  ∧ 0 ≤ _sp it ≤ Z.max 1 (height t)
  ∧ _sp it ≤ STACK_SIZE
  ∧ (_sp it > 0 → Iterator._forward_step it h ≠ Err StackOverflow)
  ∧ IntervalTree.overlapping (Interval_tree (Avl_tree hdr cnt) dummy e) q h
    ≠ Err StackOverflow.
Proof.
  intros Hrep Hh He Hv. split; [done|].
  assert (t = E ∨ t ≠ E) as [->|Hne] by (destruct t; [by left|by right]).
  - apply visits_empty in Hv as ->. simpl.
    split_and!; try (unfold STACK_SIZE; lia).
    + intros _. done.
    + unfold IntervalTree.overlapping.
      rewrite (bind_congr _ (fail NullDeref) _ h); [done|].
      apply (equal_range_empty h hdr hb hv cnt dummy e q Hrep).
  - destruct (visits_inv h hdr hb hv t q it Hrep Hne Hh Hv) as (bs & Hit & Hd).
    pose proof Hit as (_ & _ & _ & Hsp & _ & Hsub).
    assert (Forall (λ s, s ≠ E) bs) as Hne'.
    { eapply Forall_impl; [exact Hsub|]. by intros ? (? & _). }
    pose proof (depth_ok_length _ _ Hd Hne') as Hlen.
    pose proof (height_nonneg t).
    split_and!; try lia.
    + intros Hpos.
      destruct bs as [|s bs0 _] using rev_ind; [simpl in Hsp; lia|].
      apply Forall_app in Hne' as [Hne0 Hs]. apply Forall_cons in Hs as [Hs _].
      destruct s as [|l n r]; [done|].
      pose proof (depth_ok_node (height t) q bs0 l n r Hd) as Hd1.
      assert (Forall (λ s, s ≠ E) (bs0 ++ kids q l r)) as Hne1.
      { apply Forall_app. split; [done|].
        apply Forall_app in Hsub as [_ Hs1]. apply Forall_cons in Hs1 as [Hs1 _].
        eapply Forall_impl; [exact (sub_ok_kids h hdr q l n r Hs1)|]. by intros ? (? & _). }
      pose proof (depth_ok_length _ _ Hd1 Hne1) as Hlen1.
      destruct (forward_step_spec h hdr q it bs0 l n r Hit) as (it' & Hstep' & _).
      { unfold STACK_SIZE in *. lia. }
      by rewrite Hstep'.
    + by rewrite (overlapping_spec h hdr hb hv t cnt dummy e q Hrep Hne Hh He).
Qed.

Lemma C9_query_stack_bounded_witness :
  let root : interval_type * interval_tree_value unit :=
    ((1, 5), Interval_tree_value 5 1 tt) in
  let hv : interval_type * interval_tree_value unit :=
    ((0, 0), Interval_tree_value 0 0 tt) in
  let h : heap (interval_type * interval_tree_value unit) :=
    <[1%nat := Node (Some 0%nat) None None 0 root]>
      (<[0%nat := Node (Some 1%nat) (Some 1%nat) (Some 1%nat) 0 hv]> ∅) in
  let t := T E (Info 1%nat 0 root) E in
  let e := Interval_iterator (Some 0%nat) (0, 0) (Some 0%nat) [] 0 in
  let it := started (2, 3) 0%nat (root_ptr t) in
  rep h 0%nat 0 hv t
  ∧ height t ≤ STACK_SIZE
  ∧ (Iterator.push (Interval_iterator None (2, 3) (Some 0%nat)
                      (replicate (Z.to_nat STACK_SIZE) None) 0) (root_ptr t) h
     = Ok (started (2, 3) 0%nat (root_ptr t), h)
     ∧ 0 ≤ _sp it ≤ Z.max 1 (height t)
     ∧ _sp it ≤ STACK_SIZE
     ∧ (_sp it > 0 → Iterator._forward_step it h ≠ Err StackOverflow)
     ∧ IntervalTree.overlapping (Interval_tree (Avl_tree 0%nat 7) (0, 0) e) (2, 3) h
       ≠ Err StackOverflow).
Proof.
  cbv zeta.
  assert (rep (<[1%nat := Node (Some 0%nat) None None 0
                            ((1, 5), Interval_tree_value 5 1 tt)]>
                 (<[0%nat := Node (Some 1%nat) (Some 1%nat) (Some 1%nat) 0
                               ((0, 0), Interval_tree_value 0 0 tt)]> ∅))
            0%nat 0 ((0, 0), Interval_tree_value 0 0 tt)
            (T E (Info 1%nat 0 ((1, 5), Interval_tree_value 5 1 tt)) E)) as Hrep.
  { split_and!.
    - apply (bool_decide_unpack _). vm_compute. exact I.
    - simpl. split_and!; [|exact I|exact I]. vm_compute. reflexivity.
    - vm_compute. reflexivity. }
  split; [exact Hrep|]. split; [vm_compute; discriminate|].
  apply (C9_query_stack_bounded _ 0%nat 0 _ _ 7 (0, 0) _ (2, 3) _ Hrep).
  - vm_compute. discriminate.
  - reflexivity.
  - apply visits_here.
Defined.

(** C7.  [avl_tree::insert] returns the pair of a handle and a flag,
    but [interval_tree::insert] is declared [void]: it drops the pair of
    the base [insert].  Inserting an entry whose low endpoint is
    already stored (here the one of the last insertion, with any high
    endpoint and value) leaves the store and the tree as they were and
    gives the caller nothing: no flag saying the entry was rejected, no
    handle of the stored entry. *)
Theorem C7_interval_insert_returns_nothing {Data : Type} `{!ValueInit Data}
    (l : list (interval_type * Data)) (x : interval_type * Data) (hi' : Z) (d' : Data)
    (h0 : heap (interval_type * interval_tree_value Data)) (garbage : Z) :
  ∃ T h a,
    IntervalTree.build garbage (l ++ [x]) h0 = Ok (T, h)
    ∧ Tree.insert (P := Interval.policy) Interval_Compare (base T)
        (to_node ((x.1.1, hi'), d')) h
      = Ok (((Some a, false), base T), h)
    ∧ IntervalTree.insert T ((x.1.1, hi'), d') h = Ok ((tt, T), h).
Proof.
  destruct (itv_insert_dup (l ++ [x]) ((x.1.1, hi'), d') h0 garbage)
    as (T & h & a & nd & Hrun & Hbase & Hins & _).
  { exact (stored_snoc_low l x). }
  by exists T, h, a.
Qed.

(** C5.  The overlap query on an interval tree without entries does not
    return the end iterator: [equal_range] pushes the null root,
    [_forward] takes it from the stack and reads its [_left] field.
    The model's run ends in the null dereference. *)
Theorem C5_empty_tree_query_null_deref {Data : Type} `{!ValueInit Data}
    (q : interval_type) (k : Z)
    (h0 : heap (interval_type * interval_tree_value Data)) (garbage : Z) :
  ∃ T h,
    IntervalTree.build garbage [] h0 = Ok (T, h)
    ∧ get _parent (Some (_header (base T))) h = Ok (None, h)
    ∧ IntervalTree.equal_range T q h = Err NullDeref
    ∧ IntervalTree.overlapping T q h = Err NullDeref
    ∧ IntervalTree.containing T k h = Err NullDeref.
Proof.
  destruct (itv_new_spec h0 garbage) as (h & e & Hnew & He & Hrep).
  eexists _, h. split_and!.
  - unfold IntervalTree.build. erewrite bind_ok by exact Hnew. reflexivity.
  - simpl. erewrite get_ok by exact (rep_header _ _ _ _ _ Hrep). done.
  - apply (equal_range_empty h _ _ _ garbage (0, 0) e q Hrep).
  - unfold IntervalTree.overlapping.
    rewrite (bind_congr _ (fail NullDeref) _ h); [done|].
    apply (equal_range_empty h _ _ _ garbage (0, 0) e q Hrep).
  - unfold IntervalTree.containing, IntervalTree.equal_range_key.
    rewrite (bind_congr _ (fail NullDeref) _ h); [done|].
    apply (equal_range_empty h _ _ _ garbage (0, 0) e (k, k) Hrep).
Qed.

Lemma bind_load {D B} (a : ptr) (n : node D) (k : node D → M D B) (h : heap D) :
  h !! a = Some n → bind (load (Some a)) k h = k n h.
Proof. unfold bind, load. by intros ->. Qed.

(** C6.  The copy of a tree without entries is not independent of its
    source: the copy constructor copies the header node of the source,
    links included, and repairs them only when the source has a root.
    The [_left] and [_right] links of the copy's header are the address
    of the source's header, so [begin()] of the copy is a node of the
    source and differs from [end()] of the copy. *)
Theorem C6_empty_copy_aliases_source {K V : Type} `{!ValueInit K, !ValueInit V}
    (h0 : heap (K * V)) (garbage : Z) :
  ∃ T C h nd,
    bind (Tree.avl_tree_new garbage)
      (λ T, bind (Tree.avl_tree_copy T) (λ C, ret (T, C))) h0 = Ok ((T, C), h)
    ∧ _header C ≠ _header T
    ∧ h !! _header C = Some nd
    ∧ _left nd = Some (_header T)
    ∧ _right nd = Some (_header T)
    ∧ Tree.begin C h = Ok (Some (_header T), h)
    ∧ Tree.end_ C = Some (_header C).
Proof.
  destruct (new_spec h0 garbage) as (h1 & Hnew & Hrep).
  pose proof (rep_header _ _ _ _ _ Hrep) as Hh.
  unfold header_cell, leftmost, rightmost in Hh. simpl in Hh.
  assert (fresh (dom h1) ≠ fresh (dom h0)) as Hne.
  { intros E'. pose proof (is_fresh (dom h1)) as Hf. rewrite E' in Hf.
    apply Hf. apply elem_of_dom. eauto. }
  exists (Avl_tree (fresh (dom h0)) garbage), (Avl_tree (fresh (dom h1)) garbage).
  eexists _, _. split_and!.
  - erewrite bind_ok by exact Hnew.
    unfold Tree.avl_tree_copy. simpl _header.
    rewrite bind_assoc. rewrite (bind_load _ _ _ _ Hh).
    rewrite bind_assoc, bind_allocate. cbv beta.
    mrun. reflexivity.
  - done.
  - by rewrite lookup_insert_eq.
  - done.
  - done.
  - unfold Tree.begin, Tree._end. simpl.
    erewrite get_ok by (by rewrite lookup_insert_eq). done.
  - done.
Qed.

(** C2.  The first insertion into an empty interval tree leaves the
    root with a [min] that is not the minimum low endpoint of its
    subtree: the updater walks from the new leaf to the header and from
    the header (whose payload is value-initialised, so its [max] and
    [min] are 0) back to the root, and merges the header's fields into
    the root.  After inserting [[1, 5)] the root, the only node, holds
    [max = 5] and [min = 0], while the low endpoint of its interval is
    1. *)
Theorem C2_first_insert_root_min :
  ∃ T h nd,
    IntervalTree.build 0 [((1, 5), tt)] ∅ = Ok (T, h)
    ∧ get _parent (Some (_header (base T))) h = Ok (Some 1%nat, h)
    ∧ h !! 1%nat = Some nd
    ∧ _left nd = None ∧ _right nd = None
    ∧ (_value nd).1 = (1, 5)
    ∧ max (_value nd).2 = 5
    ∧ min (_value nd).2 = 0.
Proof.
  destruct (IntervalTree.build 0 [((1, 5), tt)] ∅) as [[T h]|] eqn:Hrun;
    [|vm_compute in Hrun; discriminate].
  exists T, h. vm_compute in Hrun. injection Hrun as <- <-.
  eexists. split_and!; [reflexivity|vm_compute; reflexivity|vm_compute; reflexivity|..];
    reflexivity.
Qed.


(** * More of the library *)

(** ** [find] *)

Section Find.
Context {K V U : Type} (user : V → U) (compare : K → K → bool).
Abbreviation D := (K * V)%type.
Implicit Types (h : heap D) (t s : tree D) (c : ctx D) (n : info D) (k : K).

(** The context of the null link the loop of [find] ends at: left
    where the node's key is not before [k]. *)
Fixpoint seek k s c : ctx D :=
  match s with
  | E => c
  | T l n r =>
      if negb (compare (val n).1 k) then seek k l ((L, n, r) :: c)
      else seek k r ((R, n, l) :: c)
  end.

Definition seek_ok k c : Prop :=
  Forall (λ f : frame D,
            match f.1.1 with
            | L => compare (val f.1.2).1 k = false
            | R => compare (val f.1.2).1 k = true
            end) c.

Lemma plug_seek k s c : plug E (seek k s c) = plug s c.
Proof.
  revert c. induction s as [|l IHl n r IHr]; intros c; simpl; [done|].
  destruct (compare (val n).1 k); simpl; [rewrite IHr|rewrite IHl]; done.
Qed.

Lemma seek_seek_ok k s c : seek_ok k c → seek_ok k (seek k s c).
Proof.
  revert c. induction s as [|l IHl n r IHr]; intros c Hc; simpl; [done|].
  destruct (compare (val n).1 k) eqn:Hcmp; simpl.
  - apply IHr. by constructor.
  - apply IHl. by constructor.
Qed.

(** [y], the last node the loop went left at, as a pointer. *)
Definition seek_ptr (hdr : ptr) c : option ptr :=
  Some (default hdr (addr <$> succ_info c)).

Lemma find_loop_spec fuel k s c h hdr :
  tree_at h (ctx_parent (Some hdr) c) s →
  (length (inorder s) ≤ fuel)%nat →
  Tree.find_loop compare fuel k (root_ptr s) (seek_ptr hdr c) h
  = Ok (seek_ptr hdr (seek k s c), h).
Proof.
  revert fuel c. induction s as [|l IHl n r IHr]; intros fuel c Hs Hf.
  - destruct fuel; done.
  - destruct fuel as [|fuel]; [simpl in Hf; rewrite length_app in Hf; simpl in Hf; lia|].
    destruct Hs as (Hn & Hl & Hr). unfold cell in Hn.
    simpl in Hf. rewrite length_app in Hf. simpl in Hf.
    simpl. mrun.
    destruct (compare (val n).1 k) eqn:Hcmp; simpl; mrun.
    + apply (IHr fuel ((R, n, l) :: c) Hr). lia.
    + apply (IHl fuel ((L, n, r) :: c) Hl). lia.
Qed.

Lemma succ_info_seek_ok k c m :
  seek_ok k c → succ_info c = Some m → compare (val m).1 k = false.
Proof.
  induction c as [|[[[] n] sib] c IH]; simpl; [done|..]; intros Hp Hm;
    apply Forall_cons in Hp as [Hn Hp]; simpl in Hn.
  - by injection Hm as <-.
  - by apply IH.
Qed.

Lemma succ_info_in c m : succ_info c = Some m → m ∈ ctx_after c.
Proof.
  intros H. pose proof (ctx_after_succ c) as H'. rewrite H in H'.
  destruct H' as [l ->]. apply elem_of_cons. by left.
Qed.

Context (Htrans : ∀ a b c : K,
           compare a b = true → compare b c = true → compare a c = true).

(** Everything before the hole of the search for [k] is before [k]. *)
Lemma seek_before_lt k c s :
  seek_ok k c → bst user compare (plug s c) →
  Forall (λ e, compare e.1 k = true) (entries user (ctx_before c)).
Proof.
  revert s. induction c as [|[[[] n] sib] c IH]; intros s Hp Hs;
    [constructor|..]; apply Forall_cons in Hp as [Hn Hp]; simpl in Hn.
  - exact (IH _ Hp Hs).
  - specialize (IH _ Hp Hs).
    change (ctx_before ((R, n, sib) :: c)) with (ctx_before c ++ inorder sib ++ [n]).
    rewrite !entries_app. apply Forall_app. split; [done|].
    apply Forall_app. split; [|by repeat constructor].
    unfold bst in Hs.
    change (plug s ((R, n, sib) :: c)) with (plug (T sib n s) c) in Hs.
    rewrite entries_plug in Hs.
    apply StronglySorted_app_1_r, StronglySorted_app_1_l in Hs.
    change (inorder (T sib n s)) with (inorder sib ++ n :: inorder s) in Hs.
    rewrite entries_app, entries_cons in Hs.
    apply Forall_forall. intros e He.
    eapply Htrans; [|exact Hn].
    eapply (StronglySorted_app_1_elem_of (lt_key compare) _ _ e (entry user (val n)));
      [exact Hs|done|]. apply elem_of_cons. by left.
Qed.

(** Everything from the successor of the hole on is at or after it. *)
Lemma seek_after_ge k c s m :
  bst user compare (plug s c) → succ_info c = Some m →
  compare k (val m).1 = true →
  Forall (λ e, compare k e.1 = true) (entries user (ctx_after c)).
Proof.
  intros Hs Hm Hk. unfold bst in Hs. rewrite entries_plug in Hs.
  apply StronglySorted_app_1_r, StronglySorted_app_1_r in Hs.
  pose proof (ctx_after_succ c) as H'. rewrite Hm in H'. destruct H' as [l Hl].
  rewrite Hl in *. rewrite entries_cons in *.
  apply StronglySorted_cons in Hs as [Hall _].
  constructor; [done|].
  eapply Forall_impl; [exact Hall|]. intros e He. unfold lt_key in He. simpl in He.
  eapply Htrans; [exact Hk|exact He].
Qed.

(** What [find] returns for the key [k]. *)
Definition found k t : option (info D) :=
  match succ_info (seek k t []) with
  | Some m => if compare k (val m).1 then None else Some m
  | None => None
  end.

Lemma found_some k t m :
  found k t = Some m → m ∈ inorder t ∧ equiv_key compare (val m).1 k = true.
Proof.
  unfold found. set (c := seek k t []).
  assert (seek_ok k c) as Hp by (apply seek_seek_ok; constructor).
  assert (plug E c = t) as Ht by apply (plug_seek k t []).
  destruct (succ_info c) as [m'|] eqn:Hm; [|done].
  destruct (compare k (val m').1) eqn:Hk; [done|]. intros [= <-].
  split.
  - rewrite <- Ht, inorder_plug. apply elem_of_app. right. by apply succ_info_in.
  - unfold equiv_key. by rewrite Hk, (succ_info_seek_ok k c m' Hp Hm).
Qed.

Lemma found_none k t :
  bst user compare t → found k t = None →
  Forall (λ e, equiv_key compare e.1 k = false) (entries user (inorder t)).
Proof.
  intros Hs. unfold found. set (c := seek k t []).
  assert (seek_ok k c) as Hp by (apply seek_seek_ok; constructor).
  assert (plug E c = t) as Ht by apply (plug_seek k t []).
  rewrite <- Ht in Hs. rewrite <- Ht. intros Hf.
  rewrite entries_plug. simpl.
  apply Forall_app. split.
  - eapply Forall_impl; [exact (seek_before_lt k c E Hp Hs)|].
    intros e He. simpl in He. unfold equiv_key. by rewrite He.
  - destruct (succ_info c) as [m|] eqn:Hm.
    + destruct (compare k (val m).1) eqn:Hk; [|done].
      eapply Forall_impl; [exact (seek_after_ge k c E m Hs Hm Hk)|].
      intros e He. simpl in He. unfold equiv_key. rewrite He.
      by rewrite andb_false_r.
    + pose proof (ctx_after_succ c) as H'. rewrite Hm in H'. rewrite H'. constructor.
Qed.

Lemma found_has_key k t :
  bst user compare t →
  has_key compare (entries user (inorder t)) k
  = match found k t with Some _ => true | None => false end.
Proof.
  intros Hs. destruct (found k t) as [m|] eqn:Hf.
  - destruct (found_some k t m Hf) as [Hin Heq].
    apply existsb_exists. exists (entry user (val m)). split; [|done].
    apply list_elem_of_In. unfold entries.
    apply (list_elem_of_fmap_2 (λ n, entry user (val n))). done.
  - pose proof (found_none k t Hs Hf) as Hall.
    unfold has_key. induction (entries user (inorder t)) as [|e es IH]; [done|].
    apply Forall_cons in Hall as [He Hall]. simpl. rewrite He. by apply IH.
Qed.
End Find.

Section FindRun.
Context {K V : Type} (compare : K → K → bool).
Abbreviation D := (K * V)%type.
Implicit Types (h : heap D) (t s : tree D) (c : ctx D) (n : info D) (k : K).

Lemma find_spec h hdr hb hv t cnt k :
  rep h hdr hb hv t →
  Tree.find compare (Avl_tree hdr cnt) k h
  = Ok (match found compare k t with
        | Some m => Some (addr m)
        | None => Some hdr
        end, h).
Proof.
  intros Hrep.
  pose proof (rep_size _ _ _ _ _ Hrep) as Hsize.
  pose proof Hrep as (Hnd & Ht & Hh).
  unfold Tree.find, Tree._begin, Tree._end, Tree.end_. simpl _header.
  erewrite bind_get by exact Hh. simpl.
  unfold with_fuel.
  erewrite bind_ok.
  2:{ apply (find_loop_spec compare (fuel_of h) k t [] h hdr Ht). unfold fuel_of. lia. }
  unfold found, seek_ptr.
  set (c := seek compare k t []).
  pose proof (plug_seek compare k t []) as Hplug. fold c in Hplug. simpl in Hplug.
  destruct (succ_info c) as [m|] eqn:Hm; simpl.
  - assert (m ∈ inorder t) as Hin.
    { rewrite <- Hplug, inorder_plug. apply elem_of_app. right.
      by apply (succ_info_in (K := K)). }
    destruct (tree_at_lookup h _ t m Ht Hin) as (nd & Hlook & Hval & _).
    assert (addr m ≠ hdr) as Hne.
    { intros E'. apply NoDup_cons in Hnd as [Hnh _]. apply Hnh. rewrite <- E'.
      unfold addrs. by apply list_elem_of_fmap_2. }
    rewrite decide_False by (intros [= E']; done).
    erewrite bind_get by exact Hlook. rewrite Hval.
    by destruct (compare k (val m).1).
  - rewrite decide_True by done. done.
Qed.
End FindRun.


(** ** [find] on a tree built by insertions *)

Section StoredKeys.
Context {K U : Type} (compare : K → K → bool).

Lemma stored_snoc (l : list (K * U)) x :
  stored compare (l ++ [x]) = add_entry compare (stored compare l) x.
Proof. unfold stored, stored_from. by rewrite fold_left_app. Qed.

Lemma has_key_app (es1 es2 : list (K * U)) k :
  has_key compare (es1 ++ es2) k = has_key compare es1 k || has_key compare es2 k.
Proof. unfold has_key. apply existsb_app. Qed.

(** Under an irreflexive comparison the key of the last insertion is
    a stored one. *)
Lemma has_key_stored_snoc (l : list (K * U)) x :
  compare x.1 x.1 = false →
  has_key compare (stored compare (l ++ [x])) x.1 = true.
Proof.
  intros Hirr. rewrite stored_snoc. unfold add_entry.
  destruct (has_key compare (stored compare l) x.1) eqn:Hhas; [done|].
  rewrite has_key_app. simpl. unfold equiv_key. rewrite Hirr. simpl.
  by rewrite orb_true_r.
Qed.
End StoredKeys.

Section FindBuilt.
Context {K V : Type} `{!ValueInit K, !ValueInit V} (compare : K → K → bool).
Context (Htrans : ∀ a b c : K,
           compare a b = true → compare b c = true → compare a c = true).
Abbreviation D := (K * V)%type.

Lemma find_built (l : list D) (k : K) (h0 : heap D) garbage :
  ∃ T h r,
    Tree.build (P := AVL.policy) compare garbage l h0 = Ok (T, h)
    ∧ Tree.find compare T k h = Ok (r, h)
    ∧ if has_key compare (stored compare l) k
      then ∃ a nd, r = Some a ∧ r ≠ Tree.end_ T ∧ h !! a = Some nd
                   ∧ _value nd ∈ stored compare l
                   ∧ equiv_key compare (_value nd).1 k = true
      else r = Tree.end_ T.
Proof.
  destruct (avl_build_spec compare Htrans l h0 garbage)
    as (h & hdr & cnt & t & Hrun & (hb & hv & Hrep & Havl & Hbst & _) & Hes & _).
  eexists (Avl_tree hdr cnt), h, _. split; [exact Hrun|].
  split; [apply (find_spec compare h hdr hb hv t cnt k Hrep)|].
  rewrite <- (has_key_perm compare _ _ k Hes), <- entries_id.
  rewrite (found_has_key (@id V) compare Htrans k t Hbst).
  destruct (found compare k t) as [m|] eqn:Hf; [|done].
  destruct (found_some compare k t m Hf) as [Hin Heq].
  pose proof Hrep as (Hnd & Ht & _).
  destruct (tree_at_lookup h _ t m Ht Hin) as (nd & Hlook & Hval & _).
  exists (addr m), nd. split_and!; try done.
  - unfold Tree.end_, Tree._end. simpl. intros [= E'].
    apply NoDup_cons in Hnd as [Hnh _]. apply Hnh. rewrite <- E'.
    unfold addrs. by apply list_elem_of_fmap_2.
  - rewrite <- Hes, Hval. by apply list_elem_of_fmap_2.
  - by rewrite Hval.
Qed.
End FindBuilt.

(** [find] on a tree built by any sequence of insertions, under a
    transitive comparison: when a stored entry has a key equivalent to
    [k] the result is the handle of a stored entry with such a key, and
    it is not [end()]; when none has, the result is [end()].  The store
    is not changed. *)
Theorem find_stored_or_end {K V : Type} `{!ValueInit K, !ValueInit V}
    (compare : K → K → bool) (l : list (K * V)) (k : K)
    (h0 : heap (K * V)) (garbage : Z) :
  (∀ a b c : K, compare a b = true → compare b c = true → compare a c = true) →
  ∃ T h r,
    Tree.build (P := AVL.policy) compare garbage l h0 = Ok (T, h)
    ∧ Tree.find compare T k h = Ok (r, h)
    ∧ if has_key compare (stored compare l) k
      then ∃ a nd, r = Some a ∧ r ≠ Tree.end_ T ∧ h !! a = Some nd
                   ∧ _value nd ∈ stored compare l
                   ∧ equiv_key compare (_value nd).1 k = true
      else r = Tree.end_ T.
Proof. intros Htrans. by apply find_built. Qed.

Lemma find_stored_or_end_witness :
  ∃ T h r,
    Tree.build (P := AVL.policy) Z.ltb 0 [(2, 20); (1, 10); (3, 30)] ∅ = Ok (T, h)
    ∧ Tree.find Z.ltb T 3 h = Ok (r, h)
    ∧ if has_key Z.ltb (stored Z.ltb [(2, 20); (1, 10); (3, 30)]) 3
      then ∃ a nd, r = Some a ∧ r ≠ Tree.end_ T ∧ h !! a = Some nd
                   ∧ _value nd ∈ stored Z.ltb [(2, 20); (1, 10); (3, 30)]
                   ∧ equiv_key Z.ltb (_value nd).1 3 = true
      else r = Tree.end_ T.
Proof.
  apply (find_stored_or_end Z.ltb [(2, 20); (1, 10); (3, 30)] 3 ∅ 0).
  intros a b c. rewrite !Z.ltb_lt. lia.
Defined.

(** Insert, then look up: under a strict ordering (irreflexive and
    transitive), [find] of the key of the entry inserted last never
    answers [end()]; it hands back a stored entry with an equivalent
    key. *)
Theorem find_after_insert {K V : Type} `{!ValueInit K, !ValueInit V}
    (compare : K → K → bool) (l : list (K * V)) (v : K * V)
    (h0 : heap (K * V)) (garbage : Z) :
  (∀ a : K, compare a a = false) →
  (∀ a b c : K, compare a b = true → compare b c = true → compare a c = true) →
  ∃ T h a nd,
    Tree.build (P := AVL.policy) compare garbage (l ++ [v]) h0 = Ok (T, h)
    ∧ Tree.find compare T v.1 h = Ok (Some a, h)
    ∧ Some a ≠ Tree.end_ T
    ∧ h !! a = Some nd
    ∧ _value nd ∈ stored compare (l ++ [v])
    ∧ equiv_key compare (_value nd).1 v.1 = true.
Proof.
  intros Hirr Htrans.
  destruct (find_built compare Htrans (l ++ [v]) v.1 h0 garbage)
    as (T & h & r & Hrun & Hfind & Hres).
  rewrite (has_key_stored_snoc compare l v (Hirr _)) in Hres.
  destruct Hres as (a & nd & -> & Hne & Hlook & Hin & Heq).
  by exists T, h, a, nd.
Qed.

Lemma find_after_insert_witness :
  ∃ T h a nd,
    Tree.build (P := AVL.policy) Z.ltb 0 ([(2, 20); (1, 10)] ++ [(3, 30)]) ∅ = Ok (T, h)
    ∧ Tree.find Z.ltb T (3, 30).1 h = Ok (Some a, h)
    ∧ Some a ≠ Tree.end_ T
    ∧ h !! a = Some nd
    ∧ _value nd ∈ stored Z.ltb ([(2, 20); (1, 10)] ++ [(3, 30)])
    ∧ equiv_key Z.ltb (_value nd).1 (3, 30).1 = true.
Proof.
  apply (find_after_insert Z.ltb [(2, 20); (1, 10)] (3, 30) ∅ 0).
  - intros a. apply Z.ltb_irrefl.
  - intros a b c. rewrite !Z.ltb_lt. lia.
Defined.

(** ** The fresh tree *)

(** The tree the default constructor makes, in any store: [begin()] is
    [end()], the walk from [begin()] to [end()] visits nothing and
    [find] answers [end()] for every key, under any comparison.  The
    constructor does not assign [_node_count]. *)
Theorem fresh_tree_is_empty {K V : Type} `{!ValueInit K, !ValueInit V}
    (compare : K → K → bool) (k : K) (h0 : heap (K * V)) (garbage : Z) :
  ∃ T h,
    Tree.avl_tree_new garbage h0 = Ok (T, h)
    ∧ Tree.begin T h = Ok (Tree.end_ T, h)
    ∧ Tree.traverse T h = Ok ([], h)
    ∧ Tree.find compare T k h = Ok (Tree.end_ T, h)
    ∧ _node_count T = garbage
    ∧ h0 ⊆ h.
Proof.
  destruct (new_spec (K := K) (V := V) h0 garbage) as (h & Hnew & Hrep).
  exists (Avl_tree (fresh (dom h0)) garbage), h. split_and!; try done.
  - pose proof (rep_header _ _ _ _ _ Hrep) as Hh.
    unfold Tree.begin, Tree.end_, Tree._end. simpl.
    erewrite get_ok by exact Hh. done.
  - apply (traverse_spec h _ _ _ E garbage Hrep).
  - apply (find_spec compare h _ _ _ E garbage k Hrep).
  - unfold Tree.avl_tree_new, allocate in Hnew. unfold bind at 1 in Hnew.
    unfold set_left, set_right, set_parent, set_balance, store, bind, ret in Hnew.
    repeat (rewrite ?lookup_insert_eq in Hnew; simpl in Hnew).
    injection Hnew as <-. rewrite !insert_insert_eq.
    apply insert_subseteq. apply not_elem_of_dom, is_fresh.
Qed.

(** ** The interval tree after any insertions *)

Section HeightBound.
Lemma min_nodes_pow k : 2 ^ Z.of_nat k ≤ min_nodes (2 * k) + 1.
Proof.
  induction k as [|k IH]; [done|].
  replace (2 * S k)%nat with (S (S (2 * k))) by lia.
  rewrite min_nodes_SS. pose proof (min_nodes_S_le (2 * k)).
  rewrite Nat2Z.inj_succ, Z.pow_succ_r by lia. lia.
Qed.

(** A balanced tree with [n] nodes has height at most [2 * log2 (n + 1) + 1]. *)
Lemma avl_height_log {D} (t : tree D) :
  avl t → 2 ^ (height t / 2) ≤ Z.of_nat (length (inorder t)) + 1.
Proof.
  intros Havl. pose proof (avl_min_nodes t Havl) as Hmin.
  pose proof (height_nonneg t) as Hh.
  pose proof (min_nodes_pow (Z.to_nat (height t / 2))) as Hpow.
  rewrite Z2Nat.id in Hpow by (apply Z.div_pos; lia).
  assert (min_nodes (2 * Z.to_nat (height t / 2)) ≤ min_nodes (Z.to_nat (height t))).
  { apply min_nodes_mono.
    pose proof (Z.mul_div_le (height t) 2 ltac:(lia)).
    assert (0 ≤ height t / 2) by (apply Z.div_pos; lia). lia. }
  lia.
Qed.
End HeightBound.

(** After any sequence of insertions the store holds the interval tree
    as a balanced tree with one node for each stored entry, whose
    height [h] (in nodes) satisfies [2 ^ (h / 2) <= n + 1] for the
    number [n] of stored entries: the depth of every search and the
    depth of the traversal stack are logarithmic in [n]. *)
Theorem interval_tree_height_logarithmic {Data : Type} `{!ValueInit Data}
    (l : list (interval_type * Data))
    (h0 : heap (interval_type * interval_tree_value Data)) (garbage : Z) :
  ∃ IT h hb hv t,
    IntervalTree.build garbage l h0 = Ok (IT, h)
    ∧ rep h (_header (base IT)) hb hv t
    ∧ length (inorder t) = length (stored Interval_Compare l)
    ∧ (length (stored Interval_Compare l) ≤ length l)%nat
    ∧ 2 ^ (height t / 2) ≤ Z.of_nat (length (stored Interval_Compare l)) + 1.
Proof.
  destruct (itv_build_spec l h0 garbage)
    as (h & hdr & cnt & e & t & Hrun & He & (hb & hv & Hrep & Havl & _) & Hes & _).
  assert (length (inorder t) = length (stored Interval_Compare l)) as Hlen.
  { apply Permutation_length in Hes. unfold entries in Hes. by rewrite length_fmap in Hes. }
  eexists _, h, hb, hv, t. split; [exact Hrun|]. split_and!; try done.
  - pose proof (length_stored_from Interval_Compare l []) as Hl. simpl in Hl.
    unfold stored. lia.
  - rewrite <- Hlen. by apply avl_height_log.
Qed.

(** After any sequence of insertions, at every node of the interval
    tree the field [max] is at least the high endpoint, and the field
    [min] at most the low endpoint, of every interval stored in the
    subtree of the node: the bounds by which the query prunes never cut
    off a stored interval. *)
Theorem interval_bounds_cover_subtree {Data : Type} `{!ValueInit Data}
    (l : list (interval_type * Data))
    (h0 : heap (interval_type * interval_tree_value Data)) (garbage : Z) :
  ∃ IT h hb hv t,
    IntervalTree.build garbage l h0 = Ok (IT, h)
    ∧ rep h (_header (base IT)) hb hv t
    ∧ entries data (inorder t) ≡ₚ stored Interval_Compare l
    ∧ ∀ c lt n rt e,
        t = plug (T lt n rt) c → e ∈ inorder (T lt n rt) →
        (val e).1.2 ≤ max (val n).2 ∧ min (val n).2 ≤ (val e).1.1.
Proof.
  destruct (itv_build_spec l h0 garbage)
    as (h & hdr & cnt & e & t & Hrun & He & (hb & hv & Hrep & _ & _ & Haug) & Hes & _).
  eexists _, h, hb, hv, t. split; [exact Hrun|]. split_and!; try done.
  intros c lt n rt x -> Hx.
  apply aug_ok_plug_inv in Haug.
  apply (aug_ok_cover (T lt n rt) (val n) x Haug); [|done].
  simpl. lia.
Qed.

(** [_node_count] is increased by one for each entry that is stored and
    by nothing else, modulo [2 ^ 64]; the default constructor does not
    assign it, so it counts from whatever the field held. *)
Theorem node_count_counts_from_garbage {Data : Type} `{!ValueInit Data}
    (l : list (interval_type * Data))
    (h0 : heap (interval_type * interval_tree_value Data)) (garbage : Z) :
  ∃ IT h,
    IntervalTree.build garbage l h0 = Ok (IT, h)
    ∧ (_node_count (base IT) - garbage
       - Z.of_nat (length (stored Interval_Compare l))) mod 2 ^ 64 = 0.
Proof.
  destruct (itv_build_spec l h0 garbage)
    as (h & hdr & cnt & e & t & Hrun & He & _ & Hes & Hcnt).
  eexists _, h. split; [exact Hrun|]. simpl.
  apply Permutation_length in Hes. unfold entries in Hes. rewrite length_fmap in Hes.
  by rewrite <- Hes.
Qed.

(** ** The handle of a new entry *)

Section Tagged.
Context {K V U : Type} (user : V → U) (A : APolicy (K * V)).
Abbreviation D := (K * V)%type.
Implicit Types (t s : tree D) (c : ctx D) (n : info D).
Context (HK : Keeps user A).

(** The entries with the addresses of their nodes. *)
Definition tag n : ptr * (K * U) := (addr n, entry user (val n)).
Definition tagged (l : list (info D)) : list (ptr * (K * U)) := tag <$> l.

Lemma tagged_app l1 l2 : tagged (l1 ++ l2) = tagged l1 ++ tagged l2.
Proof. apply fmap_app. Qed.

Lemma tagged_cons n l : tagged (n :: l) = tag n :: tagged l.
Proof. done. Qed.

Lemma tagged_plug s c :
  tagged (inorder (plug s c))
  = tagged (ctx_before c) ++ tagged (inorder s) ++ tagged (ctx_after c).
Proof. by rewrite inorder_plug, !tagged_app. Qed.

Lemma tagged_plug_congr s s' c :
  tagged (inorder s') = tagged (inorder s) →
  tagged (inorder (plug s' c)) = tagged (inorder (plug s c)).
Proof. intros H. by rewrite !tagged_plug, H. Qed.

Lemma tagged_rotl s : tagged (inorder (rotl A s)) = tagged (inorder s).
Proof.
  destruct s as [|t1 x [|t2 y t3]]; try done. simpl.
  rewrite !tagged_app, !tagged_cons, !tagged_app, !tagged_cons. unfold tag. simpl.
  rewrite (keeps_down _ _ HK), (keeps_up _ _ HK). by rewrite <- app_assoc.
Qed.

Lemma tagged_rotr s : tagged (inorder (rotr A s)) = tagged (inorder s).
Proof.
  destruct s as [|[|t1 y t2] x t3]; try done. simpl.
  rewrite !tagged_app, !tagged_cons, !tagged_app, !tagged_cons. unfold tag. simpl.
  rewrite (keeps_down _ _ HK), (keeps_up _ _ HK). by rewrite <- app_assoc.
Qed.

Lemma tagged_T l n r l' n' r' :
  tagged (inorder l') = tagged (inorder l) →
  tag n' = tag n →
  tagged (inorder r') = tagged (inorder r) →
  tagged (inorder (T l' n' r')) = tagged (inorder (T l n r)).
Proof.
  intros Hl Hn Hr. simpl. rewrite !tagged_app, !tagged_cons. by rewrite Hl, Hn, Hr.
Qed.

Lemma tagged_rebal s : tagged (inorder (rebal A s)) = tagged (inorder s).
Proof.
  destruct s as [|l u r]; [done|]. unfold rebal.
  destruct (decide (bal u = 2)).
  - destruct r as [|rl rn rr]; [done|].
    destruct (decide (bal rn = 1)).
    + rewrite tagged_rotl. repeat first [reflexivity|apply tagged_T].
    + destruct rl as [|rll rln rlr]; [done|].
      destruct (if decide (bal rln = 1) then (-1, 0)
                else if decide (bal rln = 0) then (0, 0)
                else if decide (bal rln = -1) then (0, 1)
                else (bal u, bal rn)) as [bu br].
      rewrite tagged_rotl. apply tagged_T; [reflexivity|reflexivity|].
      rewrite tagged_rotr. repeat first [reflexivity|apply tagged_T].
  - destruct (decide (bal u = -2)); [|done].
    destruct l as [|ll ln lr]; [done|].
    destruct (decide (bal ln = -1)).
    + rewrite tagged_rotr. repeat first [reflexivity|apply tagged_T].
    + destruct lr as [|lrl lrn lrr]; [done|].
      destruct (if decide (bal lrn = 1) then (0, -1)
                else if decide (bal lrn = 0) then (0, 0)
                else if decide (bal lrn = -1) then (1, 0)
                else (bal u, bal ln)) as [bu bl].
      rewrite tagged_rotr. apply tagged_T; [|reflexivity|reflexivity].
      rewrite tagged_rotl. repeat first [reflexivity|apply tagged_T].
Qed.

Lemma tagged_before_retrace cv sw c :
  tagged (ctx_before (retrace A cv sw c)) = tagged (ctx_before c).
Proof.
  revert cv sw. induction c as [|[[[] n] sib] c IH]; intros cv sw; simpl; [done|..].
  - apply IH.
  - rewrite !tagged_app, IH. simpl. unfold tag. simpl. by rewrite (keeps_merge _ _ HK).
Qed.

Lemma tagged_after_retrace cv sw c :
  tagged (ctx_after (retrace A cv sw c)) = tagged (ctx_after c).
Proof.
  revert cv sw. induction c as [|[[[] n] sib] c IH]; intros cv sw; simpl; [done|..].
  - unfold tagged in *. rewrite !fmap_app, IH. f_equal.
    unfold tag. simpl. by rewrite (keeps_merge _ _ HK).
  - apply IH.
Qed.

(** The new node sits at the hole, under the address it was given. *)
Lemma tagged_ins_tree hv a v c :
  tagged (inorder (ins_tree A hv a v c))
  = tagged (ctx_before c) ++ (a, entry user v) :: tagged (ctx_after c).
Proof.
  unfold ins_tree.
  set (lf := T E (Info a 0 (leaf_val A hv v c)) E).
  assert (tagged (inorder (plug lf (retrace A v false c)))
          = tagged (ctx_before c) ++ (a, entry user v) :: tagged (ctx_after c)) as H.
  { rewrite tagged_plug, tagged_before_retrace, tagged_after_retrace.
    simpl. unfold tag. simpl. by rewrite (entry_leaf_val user A HK). }
  destruct (cand_index c) as [i|]; [|exact H].
  rewrite <- H.
  rewrite (plug_take_drop lf (retrace A v false c) (S i)).
  apply tagged_plug_congr, tagged_rebal.
Qed.

Lemma ins_tree_new_node hv a v c :
  ∃ m, m ∈ inorder (ins_tree A hv a v c) ∧ addr m = a
       ∧ entry user (val m) = entry user v.
Proof.
  pose proof (tagged_ins_tree hv a v c) as H.
  assert ((a, entry user v) ∈ tagged (inorder (ins_tree A hv a v c))) as Hin.
  { rewrite H. apply elem_of_app. right. apply elem_of_cons. by left. }
  apply list_elem_of_fmap in Hin as (m & Hm & Hin).
  exists m. pose proof (f_equal fst Hm) as H1. pose proof (f_equal snd Hm) as H2.
  simpl in H1, H2. by split_and!.
Qed.
End Tagged.

Section InsertNew.
Context {K V U : Type} (user : V → U) (compare : K → K → bool).
Context `{!ValueInit K, !ValueInit V}.
Context {P : Policy (K * V)} (A : APolicy (K * V)).
Abbreviation D := (K * V)%type.
Implicit Types (h : heap D) (t : tree D) (v : D).
Context (PS : PolicySpec A) (HK : Keeps user A).

Lemma insert_new h hdr hb hv t cnt v :
  rep h hdr hb hv t → avl t → find_dup compare v.1 t = None →
  ∃ h' hb' hv' t' m nd,
    Tree.insert compare (Avl_tree hdr cnt) v h
    = Ok (((Some (fresh (dom h)), true), Avl_tree hdr ((cnt + 1) mod 2 ^ 64)), h')
    ∧ rep h' hdr hb' hv' t'
    ∧ h !! fresh (dom h) = None
    ∧ h' !! fresh (dom h) = Some nd ∧ _value nd = val m
    ∧ entry user (val m) = entry user v
    ∧ entries user (inorder t') ≡ₚ entry user v :: entries user (inorder t).
Proof.
  intros Hrep Havl Hf.
  pose proof (insert_spec compare A PS h hdr hb hv t v cnt Hrep) as Hspec.
  simpl in Hspec. rewrite Hf in Hspec.
  pose proof (plug_descend compare v.1 t []) as Hplug. simpl in Hplug.
  set (c := descend compare v.1 t []) in *.
  rewrite <- Hplug in Havl.
  destruct (ins_tree_avl A hv (fresh (dom h)) v c Havl) as (Hrb & _ & _).
  destruct (Hspec Hrb) as (h' & Hrun & Hrep').
  destruct (ins_tree_new_node user A HK hv (fresh (dom h)) v c) as (m & Hin & Ha & He).
  pose proof Hrep' as (_ & Ht' & _).
  destruct (tree_at_lookup h' _ _ m Ht' Hin) as (nd & Hnd & Hval & _).
  rewrite Ha in Hnd.
  eexists h', _, _, _, m, nd. split_and!; try done.
  - by apply (rep_fresh h hdr hb hv t).
  - rewrite (entries_ins_tree user A HK). rewrite <- Hplug, entries_plug. simpl.
    by rewrite <- Permutation_middle.
Qed.
End InsertNew.

Section InsertNewAvl.
Context {K V : Type} `{!ValueInit K, !ValueInit V} (compare : K → K → bool).
Context (Htrans : ∀ a b c : K,
           compare a b = true → compare b c = true → compare a c = true).
Abbreviation D := (K * V)%type.

Lemma avl_insert_new (l : list D) (v : D) (h0 : heap D) garbage :
  has_key compare (stored compare l) v.1 = false →
  ∃ T h a h' nd out,
    Tree.build (P := AVL.policy) compare garbage l h0 = Ok (T, h)
    ∧ Tree.insert (P := AVL.policy) compare T v h
      = Ok (((Some a, true),
             Avl_tree (_header T) ((_node_count T + 1) mod 2 ^ 64)), h')
    ∧ h !! a = None
    ∧ h' !! a = Some nd ∧ _value nd = v
    ∧ Tree.traverse (Avl_tree (_header T) ((_node_count T + 1) mod 2 ^ 64)) h'
      = Ok (out, h')
    ∧ out ≡ₚ v :: stored compare l.
Proof.
  intros Hhas.
  destruct (avl_build_spec compare Htrans l h0 garbage)
    as (h & hdr & cnt & t & Hrun & (hb & hv & Hrep & Havl & Hbst & _) & Hes & _).
  assert (find_dup compare v.1 t = None) as Hf.
  { pose proof (find_dup_has_key (@id V) compare Htrans t v.1 Hbst) as H.
    rewrite entries_id, (has_key_perm compare _ _ v.1 Hes), Hhas in H.
    by destruct (find_dup compare v.1 t). }
  destruct (insert_new (P := AVL.policy) (@id V) compare avl_apolicy avl_policy_spec
              avl_keeps h hdr hb hv t cnt v Hrep Havl Hf)
    as (h' & hb' & hv' & t' & m & nd & Hins & Hrep' & Hnone & Hnd & Hval & He & Hes').
  exists (Avl_tree hdr cnt), h, (fresh (dom h)), h', nd, (val <$> inorder t').
  split_and!; try done.
  - rewrite Hval. unfold entry in He. simpl in He. destruct (val m), v. simpl in *.
    by injection He as -> ->.
  - by apply (traverse_spec h' hdr hb' hv' t').
  - rewrite !entries_id in Hes'. rewrite Hes', Hes.
    unfold entry. simpl. by destruct v.
Qed.
End InsertNewAvl.

(** Inserting an entry whose key is equivalent to no stored key, under
    a transitive comparison: [insert] answers [true] with the handle of
    a node that was not allocated before and now holds exactly the
    entry; [_node_count] grows by one (modulo [2 ^ 64]); the walk over
    the tree then visits the entries stored before and the new one. *)
Theorem insert_new_key_adds_entry {K V : Type} `{!ValueInit K, !ValueInit V}
    (compare : K → K → bool) (l : list (K * V)) (v : K * V)
    (h0 : heap (K * V)) (garbage : Z) :
  (∀ a b c : K, compare a b = true → compare b c = true → compare a c = true) →
  has_key compare (stored compare l) v.1 = false →
  ∃ T h a h' nd out,
    Tree.build (P := AVL.policy) compare garbage l h0 = Ok (T, h)
    ∧ Tree.insert (P := AVL.policy) compare T v h
      = Ok (((Some a, true),
             Avl_tree (_header T) ((_node_count T + 1) mod 2 ^ 64)), h')
    ∧ h !! a = None
    ∧ h' !! a = Some nd ∧ _value nd = v
    ∧ Tree.traverse (Avl_tree (_header T) ((_node_count T + 1) mod 2 ^ 64)) h'
      = Ok (out, h')
    ∧ out ≡ₚ v :: stored compare l.
Proof. intros Htrans Hhas. by apply avl_insert_new. Qed.

Lemma insert_new_key_adds_entry_witness :
  ∃ T h a h' nd out,
    Tree.build (P := AVL.policy) Z.ltb 0 [(2, 20); (1, 10)] ∅ = Ok (T, h)
    ∧ Tree.insert (P := AVL.policy) Z.ltb T (3, 30) h
      = Ok (((Some a, true),
             Avl_tree (_header T) ((_node_count T + 1) mod 2 ^ 64)), h')
    ∧ h !! a = None
    ∧ h' !! a = Some nd ∧ _value nd = (3, 30)
    ∧ Tree.traverse (Avl_tree (_header T) ((_node_count T + 1) mod 2 ^ 64)) h'
      = Ok (out, h')
    ∧ out ≡ₚ (3, 30) :: stored Z.ltb [(2, 20); (1, 10)].
Proof.
  apply (insert_new_key_adds_entry Z.ltb [(2, 20); (1, 10)] (3, 30) ∅ 0).
  - intros a b c. rewrite !Z.ltb_lt. lia.
  - vm_compute. reflexivity.
Defined.


(** ** [operator++] and [operator--] of the tree iterator *)

Section Focus.
Context {K V : Type}.
Abbreviation D := (K * V)%type.
Implicit Types (h : heap D) (t s l r : tree D) (c : ctx D) (n m : info D).

Lemma inorder_nil_inv t : inorder t = [] → t = E.
Proof. destruct t as [|l n r]; [done|]. simpl. by destruct (inorder l). Qed.

(** Every position of the in-order sequence is the focus of a
    decomposition of the tree. *)
Lemma focus_at t : ∀ c pre m post,
  inorder t = pre ++ m :: post →
  ∃ l r c', plug t c = plug (T l m r) c'
            ∧ ctx_before c' ++ inorder l = ctx_before c ++ pre
            ∧ inorder r ++ ctx_after c' = post ++ ctx_after c.
Proof.
  induction t as [|l IHl n r IHr]; intros c pre m post Hin.
  - by destruct pre.
  - simpl in Hin. apply app_eq_app in Hin as [x [[Hl Hr]|[Hl Hr]]].
    + destruct x as [|x0 x].
      * rewrite app_nil_r in Hl. simpl in Hr. injection Hr as -> ->.
        exists l, r, c. by rewrite Hl.
      * simpl in Hr. injection Hr as <- ->.
        destruct (IHl ((L, n, r) :: c) pre m x Hl) as (l' & r' & c' & Hp & Hb & Ha).
        exists l', r', c'. split_and!; try done.
        rewrite Ha. simpl. by rewrite <- !app_assoc.
    + destruct x as [|x0 x].
      * rewrite app_nil_r in Hl. simpl in Hr. injection Hr as -> Hr.
        exists l, r, c. by rewrite Hl, Hr.
      * simpl in Hr. injection Hr as <- Hr.
        destruct (IHr ((R, n, l) :: c) x m post Hr) as (l' & r' & c' & Hp & Hb & Ha).
        exists l', r', c'. split_and!; try done.
        rewrite Hb, Hl. simpl. by rewrite <- !app_assoc.
Qed.

Lemma focus t pre m post :
  inorder t = pre ++ m :: post →
  ∃ l r c, t = plug (T l m r) c
           ∧ ctx_before c ++ inorder l = pre
           ∧ inorder r ++ ctx_after c = post.
Proof.
  intros Hin. destruct (focus_at t [] pre m post Hin) as (l & r & c & Hp & Hb & Ha).
  exists l, r, c. simpl in *. by rewrite app_nil_r in Ha.
Qed.

(** [operator--] on a node that is not the first: the node before it. *)
Lemma decrement_pred h hdr hb hv l n r c :
  rep h hdr hb hv (plug (T l n r) c) → ctx_before c ++ inorder l ≠ [] →
  _avl_tree_decrement (Some (addr n)) h
  = Ok (addr <$> last (ctx_before c ++ inorder l), h).
Proof.
  intros Hrep Hne.
  assert (length c + length (inorder l) + 3 ≤ fuel_of h)%nat as Hf.
  { pose proof (rep_size _ _ _ _ _ Hrep) as Hs. rewrite length_inorder_plug in Hs.
    pose proof (length_ctx_le c). simpl in Hs. rewrite length_app in Hs. simpl in Hs.
    unfold fuel_of. lia. }
  destruct l as [|ll ln lr].
  - rewrite app_nil_r in *.
    pose proof (ctx_before_pred c) as Hp.
    destruct (pred_info c) as [m|] eqn:Hm; [|done].
    destruct Hp as [l' Hl']. rewrite Hl', last_snoc. simpl.
    change (plug (T E n r) c) with (plug E ((L, n, r) :: c)) in Hrep.
    pose proof (rep_plug_elim _ _ _ _ _ _ Hrep) as (Hnd & _ & Hc & _).
    apply (decrement_spec n r c h (Some hdr) m Hc Hm).
    + simpl in Hnd. by apply NoDup_cons in Hnd as [_ Hnd].
    + lia.
  - pose proof (rep_plug_elim _ _ _ _ _ _ Hrep) as (Hnd & (Hn & Hl & Hr) & Hc & Hh).
    unfold cell in Hn.
    unfold _avl_tree_decrement, with_fuel.
    generalize dependent (fuel_of h). intros fuel Hf. simpl in *. mrun.
    rewrite (descend_right_spec lr ln ll (Some (addr n)) fuel h Hl).
    + rewrite last_app. change (inorder (T ll ln lr)) with (inorder ll ++ ln :: inorder lr).
      destruct (last (inorder ll ++ ln :: inorder lr)) eqn:E'; [done|].
      apply last_None in E'. by destruct (inorder ll).
    + simpl in Hf. rewrite !length_app in Hf. simpl in Hf. lia.
Qed.
End Focus.

Section EndSteps.
Context {K V : Type}.
Abbreviation D := (K * V)%type.
Implicit Types (h : heap D) (t s l r : tree D) (c : ctx D) (n m : info D).

Lemma before_nil_after c : ctx_before c = [] → c ≠ [] → ctx_after c ≠ [].
Proof.
  destruct c as [|[[[] n] sib] c]; simpl.
  - intros _ H. by destruct H.
  - done.
  - intros H _. apply (f_equal length) in H. rewrite !length_app in H.
    simpl in H. lia.
Qed.

(** [operator--] on [end()]: the last node below the first node. *)
Lemma decrement_header h hdr hb hv m r c :
  rep h hdr hb hv (plug (T E m r) c) → ctx_before c = [] →
  _avl_tree_decrement (Some hdr) h = Ok (addr <$> last (m :: inorder r), h).
Proof.
  intros Hrep Hb.
  assert (length (inorder r) + 3 ≤ fuel_of h)%nat as Hf.
  { pose proof (rep_size _ _ _ _ _ Hrep) as Hs. rewrite length_inorder_plug in Hs.
    simpl in Hs. unfold fuel_of. lia. }
  pose proof (rep_plug_elim _ _ _ _ _ _ Hrep) as (Hnd & Ht & Hc & Hh).
  rewrite leftmost_plug, Hb in Hh. simpl in Hh.
  unfold _avl_tree_decrement, with_fuel.
  generalize dependent (fuel_of h). intros fuel Hf.
  erewrite bind_get by exact Hh. simpl.
  rewrite (descend_right_spec r m E _ fuel h Ht) by lia. done.
Qed.

Lemma decrement_header_not_last h hdr hb hv m r c z :
  rep h hdr hb hv (plug (T E m r) c) → ctx_before c = [] → c ≠ [] →
  last (m :: inorder r) = Some z →
  ∃ w, last (inorder (plug (T E m r) c)) = Some w ∧ addr w ≠ addr z.
Proof.
  intros Hrep Hb Hne Hz.
  pose proof (rep_plug_elim _ _ _ _ _ _ Hrep) as (Hnd & _).
  pose proof (before_nil_after c Hb Hne) as Ha.
  rewrite inorder_plug, Hb. simpl app.
  change (m :: inorder r ++ ctx_after c) with ((m :: inorder r) ++ ctx_after c).
  rewrite last_app.
  destruct (last (ctx_after c)) as [w|] eqn:Hw; [|by apply last_None in Hw].
  exists w. split; [done|].
  apply last_Some_elem_of in Hw, Hz.
  apply ctx_after_addrs in Hw.
  assert (addr z ∈ addrs (T E m r)) as Hz'.
  { unfold addrs. change (inorder (T E m r)) with (m :: inorder r).
    by apply (list_elem_of_fmap_2 addr). }
  apply NoDup_cons in Hnd as [_ Hnd]. apply NoDup_app in Hnd as (_ & Hdj & _).
  intros E'. apply (Hdj _ Hz'). by rewrite <- E'.
Qed.

(** On the tree without nodes both links of the header are the header
    itself: the loops of [operator--] and [operator++] never leave it. *)
Lemma descend_right_header h hdr hb hv fuel :
  rep h hdr hb hv E → descend_right fuel (Some hdr) h = Err OutOfFuel.
Proof.
  intros Hrep. pose proof (rep_header _ _ _ _ _ Hrep) as Hh.
  unfold header_cell, leftmost, rightmost in Hh. simpl in Hh.
  induction fuel as [|fuel IH]; [done|].
  simpl. erewrite bind_get by exact Hh. simpl. exact IH.
Qed.

Lemma descend_left_header h hdr hb hv fuel :
  rep h hdr hb hv E → descend_left fuel (Some hdr) h = Err OutOfFuel.
Proof.
  intros Hrep. pose proof (rep_header _ _ _ _ _ Hrep) as Hh.
  unfold header_cell, leftmost, rightmost in Hh. simpl in Hh.
  induction fuel as [|fuel IH]; [done|].
  simpl. erewrite bind_get by exact Hh. simpl. exact IH.
Qed.
End EndSteps.

(** A tree of three nodes, [1] and [3] below [2], with its header at
    address [0]. *)
Definition three_heap : heap (Z * Z) :=
  <[3%nat := Node (Some 2%nat) None None 0 (3, 30)]>
    (<[1%nat := Node (Some 2%nat) None None 0 (1, 10)]>
       (<[2%nat := Node (Some 0%nat) (Some 1%nat) (Some 3%nat) 0 (2, 20)]>
          (<[0%nat := Node (Some 2%nat) (Some 1%nat) (Some 3%nat) 0 (0, 0)]> ∅))).

Definition three_tree : tree (Z * Z) :=
  T (T E (Info 1%nat 0 (1, 10)) E) (Info 2%nat 0 (2, 20)) (T E (Info 3%nat 0 (3, 30)) E).

Lemma three_rep : rep three_heap 0%nat 0 (0, 0) three_tree.
Proof.
  split_and!.
  - apply (bool_decide_unpack _). vm_compute. exact I.
  - simpl. split_and!; try exact I; vm_compute; reflexivity.
  - vm_compute. reflexivity.
Qed.

(** [operator++] on the handle of a node: the handle of the node that
    follows it in order, and [end()] for the last node.  The store is
    left as it was. *)
Theorem increment_successor_or_end {K V : Type} (h : heap (K * V)) (hdr : ptr) (hb : Z)
    (hv : K * V) (t : tree (K * V)) (pre post : list (info (K * V))) (a : info (K * V)) :
  rep h hdr hb hv t → inorder t = pre ++ a :: post →
  _avl_tree_increment (Some (addr a)) h
  = Ok (Some (default hdr (addr <$> head post)), h).
Proof.
  intros Hrep Hin. destruct (focus t pre a post Hin) as (l & r & c & -> & _ & <-).
  apply (increment_spec h hdr hb hv l a r c Hrep).
Qed.

Lemma increment_successor_or_end_witness :
  _avl_tree_increment (Some 2%nat) three_heap = Ok (Some 3%nat, three_heap)
  ∧ _avl_tree_increment (Some 3%nat) three_heap = Ok (Some 0%nat, three_heap).
Proof.
  split.
  - apply (increment_successor_or_end three_heap 0%nat 0 (0, 0) three_tree
             [Info 1%nat 0 (1, 10)] [Info 3%nat 0 (3, 30)] (Info 2%nat 0 (2, 20))
             three_rep).
    reflexivity.
  - apply (increment_successor_or_end three_heap 0%nat 0 (0, 0) three_tree
             [Info 1%nat 0 (1, 10); Info 2%nat 0 (2, 20)] [] (Info 3%nat 0 (3, 30))
             three_rep).
    reflexivity.
Defined.

(** [operator--] undoes [operator++]: for two nodes that follow each
    other in order, [++] on the handle of the first gives the handle of
    the second and [--] on the handle of the second gives back the
    handle of the first. *)
Theorem decrement_undoes_increment {K V : Type} (h : heap (K * V)) (hdr : ptr) (hb : Z)
    (hv : K * V) (t : tree (K * V)) (pre post : list (info (K * V)))
    (a b : info (K * V)) :
  rep h hdr hb hv t → inorder t = pre ++ a :: b :: post →
  _avl_tree_increment (Some (addr a)) h = Ok (Some (addr b), h)
  ∧ _avl_tree_decrement (Some (addr b)) h = Ok (Some (addr a), h).
Proof.
  intros Hrep Hin. split.
  - destruct (focus t pre a (b :: post) Hin) as (l & r & c & -> & _ & Hpost).
    rewrite (increment_spec h hdr hb hv l a r c Hrep), Hpost. done.
  - assert (inorder t = (pre ++ [a]) ++ b :: post) as Hin'
      by (by rewrite <- app_assoc).
    destruct (focus t (pre ++ [a]) b post Hin') as (l & r & c & -> & Hpre & _).
    rewrite (decrement_pred h hdr hb hv l b r c Hrep).
    + by rewrite Hpre, last_snoc.
    + rewrite Hpre. by destruct pre.
Qed.

Lemma decrement_undoes_increment_witness :
  _avl_tree_increment (Some 1%nat) three_heap = Ok (Some 2%nat, three_heap)
  ∧ _avl_tree_decrement (Some 2%nat) three_heap = Ok (Some 1%nat, three_heap).
Proof.
  apply (decrement_undoes_increment three_heap 0%nat 0 (0, 0) three_tree
           [] [Info 3%nat 0 (3, 30)] (Info 1%nat 0 (1, 10)) (Info 2%nat 0 (2, 20))
           three_rep).
  reflexivity.
Defined.

(** [operator--] on [end()] does not look for the last node of the
    tree: it takes the first node ([_header._left]) and walks down its
    right links.  The result is the last node of the subtree of the
    first node, which is the last node of the tree only when the first
    node is the root.  Here [m] is the first node, [r] its right
    subtree and [c] the path from it up to the root. *)
Theorem decrement_end_stays_below_first {K V : Type} (h : heap (K * V)) (hdr : ptr)
    (hb : Z) (hv : K * V) (m : info (K * V)) (r : tree (K * V)) (c : ctx (K * V)) :
  rep h hdr hb hv (plug (T E m r) c) → ctx_before c = [] →
  ∃ z, last (m :: inorder r) = Some z
       ∧ _avl_tree_decrement (Some hdr) h = Ok (Some (addr z), h)
       ∧ (c ≠ [] →
          ∃ w, last (inorder (plug (T E m r) c)) = Some w ∧ addr w ≠ addr z).
Proof.
  intros Hrep Hb.
  destruct (last (m :: inorder r)) as [z|] eqn:Hz; [|by apply last_None in Hz].
  exists z. split; [done|]. split.
  - rewrite (decrement_header h hdr hb hv m r c Hrep Hb), Hz. done.
  - intros Hne. by apply (decrement_header_not_last h hdr hb hv m r c z).
Qed.

Lemma decrement_end_stays_below_first_witness :
  ∃ z, last (Info 1%nat 0 (1, 10) :: inorder E) = Some z
       ∧ _avl_tree_decrement (Some 0%nat) three_heap = Ok (Some (addr z), three_heap)
       ∧ ([(L, Info 2%nat 0 (2, 20), T E (Info 3%nat 0 (3, 30)) E)] ≠ [] →
          ∃ w, last (inorder three_tree) = Some w ∧ addr w ≠ addr z).
Proof.
  apply (decrement_end_stays_below_first three_heap 0%nat 0 (0, 0)
           (Info 1%nat 0 (1, 10)) E
           [(L, Info 2%nat 0 (2, 20), T E (Info 3%nat 0 (3, 30)) E)]).
  - exact three_rep.
  - reflexivity.
Defined.

(** On the tree the default constructor makes, neither [operator--]
    nor [operator++] on [end()] returns: [_header._left] and
    [_header._right] are the header itself and its links are never
    null, so the descending loop has no exit, whatever bound it is
    given. *)
Theorem end_of_fresh_tree_cannot_step {K V : Type} `{!ValueInit K, !ValueInit V}
    (h0 : heap (K * V)) (garbage : Z) :
  ∃ T h,
    Tree.avl_tree_new garbage h0 = Ok (T, h)
    ∧ (∀ fuel, descend_right fuel (Tree.end_ T) h = Err OutOfFuel)
    ∧ (∀ fuel, descend_left fuel (Tree.end_ T) h = Err OutOfFuel)
    ∧ _avl_tree_decrement (Tree.end_ T) h = Err OutOfFuel
    ∧ _avl_tree_increment (Tree.end_ T) h = Err OutOfFuel.
Proof.
  destruct (new_spec (K := K) (V := V) h0 garbage) as (h & Hnew & Hrep).
  pose proof (rep_header _ _ _ _ _ Hrep) as Hh.
  unfold header_cell, leftmost, rightmost in Hh. simpl in Hh.
  exists (Avl_tree (fresh (dom h0)) garbage), h. split; [done|].
  unfold Tree.end_, Tree._end. simpl.
  split_and!.
  - intros fuel. by apply (descend_right_header h _ _ _ fuel Hrep).
  - intros fuel. by apply (descend_left_header h _ _ _ fuel Hrep).
  - unfold _avl_tree_decrement, with_fuel. erewrite bind_get by exact Hh.
    cbn -[descend_right]. by apply (descend_right_header h _ _ _ _ Hrep).
  - unfold _avl_tree_increment, with_fuel. erewrite bind_get by exact Hh.
    cbn -[descend_left]. by apply (descend_left_header h _ _ _ _ Hrep).
Qed.


(** ** The destructor *)

Section Erase.
Context {K V : Type}.
Abbreviation D := (K * V)%type.
Implicit Types (h : heap D) (t s l r : tree D) (n m : info D).

Lemma bind_deallocate {B} (k : unit → M D B) a nd h :
  h !! a = Some nd →
  bind (Tree.deallocate (Some a)) k h = k tt (delete a h).
Proof. intros H. unfold bind, Tree.deallocate. by rewrite H. Qed.

(** [_erase] frees the nodes of the subtree it is given, each once,
    and touches nothing else. *)
Lemma erase_spec s : ∀ par h fuel,
  tree_at h par s → NoDup (addrs s) → (length (inorder s) ≤ fuel)%nat →
  ∃ h', Tree._erase fuel (root_ptr s) h = Ok (tt, h')
        ∧ ∀ a, h' !! a = if decide (a ∈ addrs s) then None else h !! a.
Proof.
  induction s as [|l IHl n r IHr]; intros par h fuel Ht Hnd Hf.
  - exists h. split; [by destruct fuel|]. intros a.
    rewrite decide_False; [done|]. unfold addrs. simpl. apply not_elem_of_nil.
  - destruct fuel as [|fuel]; [simpl in Hf; rewrite length_app in Hf; simpl in Hf; lia|].
    simpl in Hf. rewrite length_app in Hf. simpl in Hf.
    destruct Ht as (Hn & Hl & Hr). unfold cell in Hn.
    rewrite addrs_T in Hnd. dj_split.
    destruct (IHr (Some (addr n)) h fuel Hr) as (h1 & Hrun1 & Hh1); [done|lia|].
    assert (h1 !! addr n = h !! addr n) as Hn1.
    { rewrite Hh1. by rewrite decide_False. }
    set (h2 := delete (addr n) h1).
    assert (tree_at h2 (Some (addr n)) l) as Hl2.
    { eapply tree_at_frame; [|exact Hl]. intros a Ha. unfold h2.
      rewrite lookup_delete_ne by (intros <-; done).
      rewrite Hh1. rewrite decide_False; [done|].
      intros Har. eauto. }
    destruct (IHl (Some (addr n)) h2 fuel Hl2) as (h3 & Hrun3 & Hh3); [done|lia|].
    exists h3. split.
    + simpl. erewrite bind_get by exact Hn. simpl.
      erewrite bind_ok by exact Hrun1.
      erewrite bind_get by (rewrite Hn1; exact Hn). simpl.
      erewrite bind_deallocate by (rewrite Hn1; exact Hn).
      exact Hrun3.
    + intros a. rewrite Hh3. unfold h2. rewrite addrs_T.
      destruct (decide (a ∈ addrs l)) as [Hal|Hal].
      { rewrite decide_True; [done|]. apply elem_of_app. by left. }
      destruct (decide (a = addr n)) as [->|Han].
      { rewrite lookup_delete_eq. rewrite decide_True; [done|].
        apply elem_of_app. right. apply elem_of_cons. by left. }
      rewrite lookup_delete_ne by done. rewrite Hh1.
      destruct (decide (a ∈ addrs r)) as [Har|Har].
      { rewrite decide_True; [done|].
        apply elem_of_app. right. apply elem_of_cons. by right. }
      rewrite decide_False; [done|].
      rewrite elem_of_app, elem_of_cons. tauto.
Qed.

Lemma destroy_spec h hdr hb hv t cnt :
  rep h hdr hb hv t →
  ∃ h', Tree.avl_tree_destroy (Avl_tree hdr cnt) h = Ok (tt, h')
        ∧ (∀ a, h' !! a = if decide (a ∈ addrs t) then None else h !! a)
        ∧ h' !! hdr = Some (header_cell hdr hb hv t).
Proof.
  intros Hrep.
  pose proof (rep_size _ _ _ _ _ Hrep) as Hs.
  pose proof Hrep as (Hnd & Ht & Hh).
  apply NoDup_cons in Hnd as [Hhdr Hnd].
  destruct (erase_spec t (Some hdr) h (fuel_of h) Ht Hnd) as (h' & Hrun & Hh').
  { unfold fuel_of. lia. }
  exists h'. split_and!; [|done|].
  - unfold Tree.avl_tree_destroy, Tree._begin, Tree._end. simpl _header.
    erewrite bind_get by exact Hh. exact Hrun.
  - rewrite Hh'. by rewrite decide_False.
Qed.
End Erase.

(** The destructor frees every node of the tree, each once, and
    nothing else: afterwards no node of the tree is allocated, every
    other cell of the store, the header among them, is as it was, and
    no step frees or reads a cell that is not allocated. *)
Theorem destructor_frees_exactly_the_nodes {K V : Type} (h : heap (K * V)) (hdr : ptr)
    (hb : Z) (hv : K * V) (t : tree (K * V)) (cnt : Z) :
  rep h hdr hb hv t →
  ∃ h', Tree.avl_tree_destroy (Avl_tree hdr cnt) h = Ok (tt, h')
        ∧ (∀ a, h' !! a = if decide (a ∈ addrs t) then None else h !! a)
        ∧ h' !! hdr = h !! hdr.
Proof.
  intros Hrep. destruct (destroy_spec h hdr hb hv t cnt Hrep) as (h' & Hrun & Hh' & Hhdr).
  exists h'. split_and!; try done.
  destruct Hrep as (_ & _ & Hh). by rewrite Hhdr, Hh.
Qed.

Lemma destructor_frees_exactly_the_nodes_witness :
  ∃ h', Tree.avl_tree_destroy (Avl_tree 0%nat 3) three_heap = Ok (tt, h')
        ∧ (∀ a, h' !! a = if decide (a ∈ addrs three_tree) then None else three_heap !! a)
        ∧ h' !! 0%nat = three_heap !! 0%nat.
Proof.
  apply (destructor_frees_exactly_the_nodes three_heap 0%nat 0 (0, 0) three_tree 3).
  exact three_rep.
Defined.


(** ** The copy constructor on a tree with a root *)

Section Copy.
Context {K V : Type}.
Abbreviation D := (K * V)%type.
Implicit Types (h g : heap D) (t s l r : tree D) (n m : info D).

(** The same tree up to the addresses of the nodes. *)
Fixpoint same s s' : Prop :=
  match s, s' with
  | E, E => True
  | T l n r, T l' n' r' =>
      same l l' ∧ bal n' = bal n ∧ val n' = val n ∧ same r r'
  | _, _ => False
  end.

Lemma same_vals s : ∀ s', same s s' → val <$> inorder s' = val <$> inorder s.
Proof.
  induction s as [|l IHl n r IHr]; intros [|l' n' r']; simpl; try done.
  intros (Hl & _ & Hv & Hr). rewrite !fmap_app, !fmap_cons.
  by rewrite (IHl _ Hl), (IHr _ Hr), Hv.
Qed.

Lemma same_bals s : ∀ s', same s s' → bal <$> inorder s' = bal <$> inorder s.
Proof.
  induction s as [|l IHl n r IHr]; intros [|l' n' r']; simpl; try done.
  intros (Hl & Hb & _ & Hr). rewrite !fmap_app, !fmap_cons.
  by rewrite (IHl _ Hl), (IHr _ Hr), Hb.
Qed.

Lemma same_height s : ∀ s', same s s' → height s' = height s.
Proof.
  induction s as [|l IHl n r IHr]; intros [|l' n' r']; simpl; try done.
  intros (Hl & _ & _ & Hr). by rewrite (IHl _ Hl), (IHr _ Hr).
Qed.

Lemma same_nil s s' : same s s' → s' = E → s = E.
Proof. by destruct s, s'. Qed.

Lemma bind_ret_r {A} (m : M D A) h : bind m ret h = m h.
Proof. unfold bind, ret. destruct (m h) as [[a h']|]; done. Qed.

Lemma fresh_ne h x nd : h !! x = Some nd → fresh (dom h) ≠ x.
Proof.
  intros Hx E'. pose proof (is_fresh (dom h)) as Hf. rewrite E' in Hf.
  apply Hf. apply elem_of_dom. eauto.
Qed.

Lemma fresh_none h : h !! fresh (dom h) = None.
Proof. apply not_elem_of_dom, is_fresh. Qed.

(** [_clone_node]: a new node with the payload and the balance of
    the source node and no links. *)
Lemma bind_clone {B} (k : option ptr → M D B) x nd h :
  h !! x = Some nd →
  bind (Tree._clone_node (Some x)) k h
  = k (Some (fresh (dom h)))
      (<[fresh (dom h) := Node None None None (_balance nd) (_value nd)]> h).
Proof.
  intros Hx. pose proof (fresh_ne h x nd Hx) as Hne.
  unfold Tree._clone_node. rewrite !bind_assoc.
  erewrite bind_get by exact Hx. rewrite bind_assoc, bind_allocate. cbv beta.
  rewrite bind_assoc.
  erewrite bind_get by (rewrite lookup_insert_ne by done; exact Hx).
  rewrite bind_assoc. unfold set_balance at 1.
  erewrite bind_store by apply lookup_insert_eq.
  rewrite bind_assoc. unfold set_left at 1.
  erewrite bind_store by apply lookup_insert_eq.
  rewrite bind_assoc. unfold set_right at 1.
  erewrite bind_store by apply lookup_insert_eq.
  rewrite bind_ret_l. unfold_with. simpl. by rewrite !insert_insert_eq.
Qed.

Definition copy_ok s : Prop := ∀ fuel h par p,
  s ≠ E → tree_at h par s → (length (inorder s) < fuel)%nat →
  ∃ s' h',
    Tree._copy fuel (root_ptr s) p h = Ok (root_ptr s', h')
    ∧ tree_at h' p s' ∧ same s s' ∧ NoDup (addrs s')
    ∧ (∀ x, x ∈ addrs s' → h !! x = None)
    ∧ (∀ x, x ∉ addrs s' → h' !! x = h !! x).

Definition loop_ok s : Prop := ∀ fuel h par p pn,
  tree_at h par s → h !! p = Some pn → _left pn = None → p ∉ addrs s →
  (length (inorder s) < fuel)%nat →
  ∃ s' h',
    Tree._copy_loop fuel (root_ptr s) (Some p) h = Ok (tt, h')
    ∧ tree_at h' (Some p) s' ∧ same s s' ∧ NoDup (addrs s')
    ∧ (∀ x, x ∈ addrs s' → h !! x = None)
    ∧ h' !! p = Some (with_left (root_ptr s') pn)
    ∧ (∀ x, x ∉ addrs s' → x ≠ p → h' !! x = h !! x).

Lemma allocated_not_new h (xs : list ptr) x nd :
  (∀ y, y ∈ xs → h !! y = None) → h !! x = Some nd → x ∉ xs.
Proof. intros Hxs Hx Hin. by rewrite (Hxs _ Hin) in Hx. Qed.

(** The part [_copy] and its loop share: the right subtree by the
    recursive call, the left one by the loop. *)
Lemma copy_children l n r (a : ptr) pp fuel h par :
  copy_ok r → loop_ok l →
  tree_at h par (T l n r) →
  h !! a = Some (Node pp None None (bal n) (val n)) →
  a ∉ addrs (T l n r) →
  (length (inorder (T l n r)) < S fuel)%nat →
  ∃ l' r' h',
    (∀ B (k : unit → M D B),
       bind (get _right (Some (addr n)))
         (λ xr, bind (if decide (xr ≠ None)
                      then bind (Tree._copy fuel xr (Some a))
                             (λ c, set_right (Some a) c)
                      else ret tt)
                  (λ _, bind (get _left (Some (addr n)))
                          (λ xl, bind (Tree._copy_loop fuel xl (Some a)) k))) h
       = k tt h')
    ∧ tree_at h' pp (T l' (Info a (bal n) (val n)) r')
    ∧ same l l' ∧ same r r'
    ∧ NoDup (addrs l' ++ addrs r')
    ∧ (∀ x, x ∈ addrs l' ++ addrs r' → h !! x = None)
    ∧ (∀ x, x ∉ addrs l' ++ addrs r' → x ≠ a → h' !! x = h !! x).
Proof.
  intros IHr IHl (Hn & Hl & Hr) Ha Hanew Hf. unfold cell in Hn.
  simpl in Hf. rewrite length_app in Hf. simpl in Hf.
  rewrite addrs_T in Hanew. apply not_elem_of_app in Hanew as [Hal Han].
  apply not_elem_of_cons in Han as [Han Har].
  (* the right subtree *)
  assert (∃ r' h3,
    (∀ B (k : unit → M D B),
       bind (if decide (root_ptr r ≠ None)
             then bind (Tree._copy fuel (root_ptr r) (Some a))
                    (λ c, set_right (Some a) c)
             else ret tt) k h = k tt h3)
    ∧ tree_at h3 (Some a) r' ∧ same r r' ∧ NoDup (addrs r')
    ∧ (∀ x, x ∈ addrs r' → h !! x = None)
    ∧ h3 !! a = Some (Node pp None (root_ptr r') (bal n) (val n))
    ∧ (∀ x, x ∉ addrs r' → x ≠ a → h3 !! x = h !! x))
    as (r' & h3 & Hrun3 & Hr' & Hsr & Hndr & Hnewr & Ha3 & Hfr3).
  { destruct r as [|rl rn rr].
    - exists E, h. split_and!; try done.
      + apply NoDup_nil_2.
      + intros x Hx. by apply elem_of_nil in Hx.
    - destruct (IHr fuel h (Some (addr n)) (Some a)) as (r' & h3 & Hrun & Hr' & Hsr & Hndr & Hnewr & Hfr);
        [done|done|simpl in *; rewrite length_app in *; simpl in *; lia|].
      pose proof (allocated_not_new h (addrs r') a _ Hnewr Ha) as Har'.
      exists r', (<[a := Node pp None (root_ptr r') (bal n) (val n)]> h3).
      split_and!; try done.
      + intros B k. rewrite decide_True by done.
        rewrite bind_assoc. erewrite bind_ok by exact Hrun.
        unfold set_right. erewrite bind_store by (rewrite Hfr by done; exact Ha).
        done.
      + by apply tree_at_insert_ne.
      + by rewrite lookup_insert_eq.
      + intros x Hx Hxa. rewrite lookup_insert_ne by done. by apply Hfr. }
  (* the left subtree *)
  assert (tree_at h3 (Some (addr n)) l) as Hl3.
  { eapply tree_at_frame; [|exact Hl]. intros x Hx. apply Hfr3.
    - destruct (tree_at_dom h _ l x Hl Hx) as [nd Hnd].
      by apply (allocated_not_new h (addrs r') x nd).
    - by intros ->. }
  destruct (IHl fuel h3 (Some (addr n)) a _ Hl3 Ha3 eq_refl Hal)
    as (l' & h' & Hrun' & Hl' & Hsl & Hndl & Hnewl & Ha' & Hfr'); [lia|].
  assert (∀ x, x ∈ addrs r' → x ∉ addrs l') as Hdj.
  { intros x Hx. destruct (tree_at_dom h3 _ r' x Hr' Hx) as [nd Hnd].
    by apply (allocated_not_new h3 (addrs l') x nd). }
  assert (a ∉ addrs r') as Har' by (by apply (allocated_not_new h _ a _ Hnewr Ha)).
  assert (addr n ∉ addrs r') as Hnr' by (by apply (allocated_not_new h _ _ _ Hnewr Hn)).
  exists l', r', h'. split_and!; try done.
  - intros B k.
    erewrite bind_get by exact Hn. simpl.
    rewrite Hrun3.
    erewrite bind_get by (rewrite Hfr3 by done; exact Hn). simpl.
    erewrite bind_ok by exact Hrun'. done.
  - simpl. split_and!; [exact Ha'|exact Hl'|].
    eapply tree_at_frame; [|exact Hr']. intros x Hx. apply Hfr'; [by apply Hdj|].
    by intros ->.
  - apply NoDup_app. split_and!; try done. intros x Hx Hx'. by apply (Hdj x).
  - intros x Hx. apply elem_of_app in Hx as [Hx|Hx]; [|by apply Hnewr].
    specialize (Hnewl x Hx).
    destruct (decide (x = a)) as [->|Hxa]; [by rewrite Ha3 in Hnewl|].
    destruct (decide (x ∈ addrs r')) as [Hxr|Hxr]; [by apply Hnewr|].
    by rewrite <- (Hfr3 x Hxr Hxa).
  - intros x Hx Hxa. apply not_elem_of_app in Hx as [Hxl Hxr].
    rewrite Hfr' by done. by apply Hfr3.
Qed.

Lemma copy_S f x p h :
  Tree._copy (S f) x p h
  = bind (Tree._clone_node x)
      (λ top, bind (set_parent top p)
         (λ _, bind (get _right x)
            (λ xr, bind (if decide (xr ≠ None)
                         then bind (Tree._copy f xr top) (λ c, set_right top c)
                         else ret tt)
               (λ _, bind (get _left x)
                  (λ xl, bind (Tree._copy_loop f xl top) (λ _, ret top)))))) h.
Proof. reflexivity. Qed.

Lemma copy_loop_S f x p h :
  Tree._copy_loop (S f) (Some x) p h
  = bind (Tree._clone_node (Some x))
      (λ y, bind (set_left p y)
         (λ _, bind (set_parent y p)
            (λ _, bind (get _right (Some x))
               (λ xr, bind (if decide (xr ≠ None)
                            then bind (Tree._copy f xr y) (λ c, set_right y c)
                            else ret tt)
                  (λ _, bind (get _left (Some x))
                     (λ xl, bind (Tree._copy_loop f xl y) ret)))))) h.
Proof.
  change (Tree._copy_loop (S f) (Some x) p h)
    with (bind (Tree._clone_node (Some x))
      (λ y, bind (set_left p y)
         (λ _, bind (set_parent y p)
            (λ _, bind (get _right (Some x))
               (λ xr, bind (if decide (xr ≠ None)
                            then bind (Tree._copy f xr y) (λ c, set_right y c)
                            else ret tt)
                  (λ _, bind (get _left (Some x))
                     (λ xl, Tree._copy_loop f xl y)))))) h).
  repeat (apply bind_ext; intros). symmetry. apply bind_ret_r.
Qed.

Lemma source_not_fresh h par s : tree_at h par s → fresh (dom h) ∉ addrs s.
Proof.
  intros Ht Hin. destruct (tree_at_dom h par s _ Ht Hin) as [nd Hnd].
  by rewrite fresh_none in Hnd.
Qed.

(** [_copy] and its loop build a tree of new nodes, equal to the
    source up to addresses, and leave every other cell as it was. *)
Lemma copy_both s : copy_ok s ∧ loop_ok s.
Proof.
  induction s as [|l [IHlc IHll] n r [IHrc IHrl]].
  - split; [by intros fuel h par p Hne|].
    intros fuel h par p pn _ Hp Hleft _ Hf.
    destruct fuel as [|fuel]; [lia|].
    exists E, h. split_and!; try done.
    + apply NoDup_nil_2.
    + intros x Hx. by apply elem_of_nil in Hx.
    + rewrite Hp. f_equal. destruct pn. simpl in *. by subst.
  - split.
    + intros fuel h par p _ Ht Hf.
      destruct fuel as [|fuel]; [lia|].
      pose proof Ht as (Hn & _). unfold cell in Hn.
      pose proof (source_not_fresh h par _ Ht) as Hnew.
      pose proof (fresh_none h) as Hanone.
      pose proof (λ B k, bind_clone (B := B) k _ _ h Hn) as Hclone. simpl in Hclone.
      generalize dependent (fresh (dom h)). intros a Hnew Hanone Hclone.
      set (h2 := <[a := Node p None None (bal n) (val n)]> h).
      destruct (copy_children l n r a p fuel h2 par IHrc IHll)
        as (l' & r' & h' & Hrun & Ht' & Hsl & Hsr & Hnd & Hnone & Hfr).
      { by apply tree_at_insert_ne. }
      { apply lookup_insert_eq. }
      { done. }
      { lia. }
      assert (a ∉ addrs l' ++ addrs r') as Ha'.
      { eapply (allocated_not_new h2 _ a); [exact Hnone|apply lookup_insert_eq]. }
      exists (T l' (Info a (bal n) (val n)) r'), h'. split_and!; try done.
      * rewrite copy_S. simpl root_ptr.
        rewrite Hclone.
        unfold set_parent. erewrite bind_store by apply lookup_insert_eq.
        unfold_with. simpl. rewrite insert_insert_eq. fold h2.
        rewrite Hrun. done.
      * rewrite addrs_T. apply NoDup_app in Hnd as (Hndl & Hdj & Hndr).
        apply not_elem_of_app in Ha' as [Hal Har].
        apply NoDup_app. split_and!; [done| |by apply NoDup_cons].
        intros x Hx Hx'. apply elem_of_cons in Hx' as [->|Hx']; [done|].
        by apply (Hdj x).
      * intros x Hx. rewrite addrs_T in Hx.
        apply elem_of_app in Hx as [Hx|Hx];
          [|apply elem_of_cons in Hx as [->|Hx]; [done|]].
        -- assert (x ≠ a) as Hxa.
           { intros ->. apply Ha'. apply elem_of_app. by left. }
           rewrite <- (lookup_insert_ne h a x (Node p None None (bal n) (val n))) by done.
           apply Hnone. apply elem_of_app. by left.
        -- assert (x ≠ a) as Hxa.
           { intros ->. apply Ha'. apply elem_of_app. by right. }
           rewrite <- (lookup_insert_ne h a x (Node p None None (bal n) (val n))) by done.
           apply Hnone. apply elem_of_app. by right.
      * intros x Hx. rewrite addrs_T in Hx.
        apply not_elem_of_app in Hx as [Hxl Hx].
        apply not_elem_of_cons in Hx as [Hxa Hxr].
        rewrite Hfr; [by apply lookup_insert_ne| |done].
        apply not_elem_of_app. done.
    + intros fuel h par p pn Ht Hp Hleft Hps Hf.
      destruct fuel as [|fuel]; [lia|].
      pose proof Ht as (Hn & _). unfold cell in Hn.
      pose proof (source_not_fresh h par _ Ht) as Hnew.
      pose proof (fresh_ne h p pn Hp) as Hap.
      pose proof (fresh_none h) as Hanone.
      pose proof (λ B k, bind_clone (B := B) k _ _ h Hn) as Hclone. simpl in Hclone.
      generalize dependent (fresh (dom h)). intros a Hnew Hap Hanone Hclone.
      set (h2 := <[a := Node (Some p) None None (bal n) (val n)]>
                   (<[p := with_left (Some a) pn]> h)).
      destruct (copy_children l n r a (Some p) fuel h2 par IHrc IHll)
        as (l' & r' & h' & Hrun & Ht' & Hsl & Hsr & Hnd & Hnone & Hfr).
      { apply tree_at_insert_ne; [done|]. by apply tree_at_insert_ne. }
      { apply lookup_insert_eq. }
      { done. }
      { lia. }
      assert (a ∉ addrs l' ++ addrs r') as Ha'.
      { eapply (allocated_not_new h2 _ a); [exact Hnone|apply lookup_insert_eq]. }
      assert (p ∉ addrs l' ++ addrs r') as Hp'.
      { apply (allocated_not_new h2 _ p (with_left (Some a) pn) Hnone).
        unfold h2. rewrite lookup_insert_ne by done. apply lookup_insert_eq. }
      exists (T l' (Info a (bal n) (val n)) r'), h'. split_and!; try done.
      * simpl root_ptr. rewrite copy_loop_S.
        rewrite Hclone.
        unfold set_left at 1.
        erewrite bind_store by (rewrite lookup_insert_ne by done; exact Hp).
        unfold set_parent at 1.
        erewrite bind_store
          by (rewrite lookup_insert_ne by done; apply lookup_insert_eq).
        unfold_with. simpl.
        rewrite (insert_insert_ne _ p a) by done.
        rewrite insert_insert_eq. fold h2.
        rewrite Hrun. done.
      * rewrite addrs_T. apply NoDup_app in Hnd as (Hndl & Hdj & Hndr).
        apply not_elem_of_app in Ha' as [Hal Har].
        apply NoDup_app. split_and!; [done| |by apply NoDup_cons].
        intros x Hx Hx'. apply elem_of_cons in Hx' as [->|Hx']; [done|].
        by apply (Hdj x).
      * intros x Hx. rewrite addrs_T in Hx.
        assert (∀ y, y ∈ addrs l' ++ addrs r' → h !! y = None) as Hnone'.
        { intros y Hy. specialize (Hnone y Hy). unfold h2 in Hnone.
          rewrite lookup_insert_ne in Hnone by (intros ->; done).
          rewrite lookup_insert_ne in Hnone by (intros ->; done). done. }
        apply elem_of_app in Hx as [Hx|Hx];
          [|apply elem_of_cons in Hx as [->|Hx]; [done|]].
        -- apply Hnone'. apply elem_of_app. by left.
        -- apply Hnone'. apply elem_of_app. by right.
      * rewrite Hfr by done. unfold h2.
        rewrite lookup_insert_ne by done. by rewrite lookup_insert_eq.
      * intros x Hx Hxp. rewrite addrs_T in Hx.
        apply not_elem_of_app in Hx as [Hxl Hx].
        apply not_elem_of_cons in Hx as [Hxa Hxr].
        rewrite Hfr; [|by apply not_elem_of_app|done].
        unfold h2. rewrite !lookup_insert_ne by done. done.
Qed.

Lemma tree_at_size h par t a nd :
  tree_at h par t → NoDup (addrs t) → h !! a = Some nd → a ∉ addrs t →
  (length (inorder t) < size h)%nat.
Proof.
  intros Ht Hnd Ha Hat.
  assert (list_to_set (a :: addrs t) ⊆ dom h) as Hsub.
  { intros x Hx. apply elem_of_list_to_set in Hx. apply elem_of_dom.
    apply elem_of_cons in Hx as [->|Hx]; [eauto|].
    eapply tree_at_dom; done. }
  apply subseteq_size in Hsub.
  rewrite size_list_to_set in Hsub by (by apply NoDup_cons).
  rewrite size_dom in Hsub.
  simpl in Hsub. unfold addrs in Hsub. rewrite length_fmap in Hsub. lia.
Qed.

Lemma same_length s s' : same s s' → length (inorder s') = length (inorder s).
Proof.
  intros H. apply same_vals in H. apply (f_equal length) in H.
  by rewrite !length_fmap in H.
Qed.

Lemma head_addrs t : head (addrs t) = addr <$> head (inorder t).
Proof. unfold addrs. by destruct (inorder t). Qed.

Lemma last_addrs t : last (addrs t) = addr <$> last (inorder t).
Proof. unfold addrs. by rewrite fmap_last. Qed.

(** The copy constructor on a tree with a root: a tree of new nodes
    under a new header, equal to the source up to addresses; the
    source is left as it was. *)
Lemma avl_tree_copy_spec h hdr hb hv t cnt :
  rep h hdr hb hv t → t ≠ E →
  ∃ t' h',
    Tree.avl_tree_copy (Avl_tree hdr cnt) h = Ok (Avl_tree (fresh (dom h)) cnt, h')
    ∧ rep h' (fresh (dom h)) hb hv t'
    ∧ rep h' hdr hb hv t
    ∧ same t t'
    ∧ (∀ x, x ∈ addrs t' → h !! x = None)
    ∧ (∀ x, x ∉ addrs t' → x ≠ fresh (dom h) → h' !! x = h !! x).
Proof.
  intros Hrep Hne.
  pose proof (rep_size _ _ _ _ _ Hrep) as Hsize.
  pose proof Hrep as (Hnd & Ht & Hh). unfold header_cell in Hh.
  pose proof (fresh_none h) as Hanone.
  pose proof (fresh_ne h hdr _ Hh) as Hahdr.
  pose proof (source_not_fresh h _ _ Ht) as Hat.
  unfold Tree.avl_tree_copy. simpl _header. simpl _node_count.
  rewrite (bind_load _ _ _ _ Hh).
  rewrite bind_allocate. cbv beta.
  generalize dependent (fresh (dom h)). intros a0 Hanone Hahdr Hat.
  erewrite bind_store by apply lookup_insert_eq.
  rewrite insert_insert_eq. simpl _value.
  set (oh := Node (root_ptr t) (Some (leftmost hdr t)) (Some (rightmost hdr t)) hb hv).
  set (h1 := <[a0 := oh]> h).
  assert (h1 !! hdr = Some oh) as Hh1.
  { unfold h1. rewrite lookup_insert_ne by done. exact Hh. }
  assert (tree_at h1 (Some hdr) t) as Ht1 by (by apply tree_at_insert_ne).
  destruct (proj1 (copy_both t) (fuel_of h1) h1 (Some hdr) (Some a0) Hne Ht1)
    as (t' & h2 & Hrun & Ht' & Hsame & Hnd' & Hnone & Hfr).
  { unfold fuel_of, h1. rewrite map_size_insert_None by done. lia. }
  assert (a0 ∉ addrs t') as Ha0'.
  { eapply (allocated_not_new h1 _ a0); [exact Hnone|apply lookup_insert_eq]. }
  assert (hdr ∉ addrs t') as Hhdr'.
  { eapply (allocated_not_new h1 _ hdr); [exact Hnone|exact Hh1]. }
  assert (h2 !! a0 = Some oh) as Ha2.
  { rewrite Hfr by done. apply lookup_insert_eq. }
  destruct t as [|l n r]; [done|]. destruct t' as [|l' n' r']; [done|].
  pose proof Ht' as (Hn' & Hl' & Hr'). unfold cell in Hn'.
  assert (addr n' ≠ a0) as Hn'a.
  { intros E'. apply Ha0'. rewrite <- E'. rewrite addrs_T.
    apply elem_of_app. right. apply elem_of_cons. by left. }
  set (lm' := default a0 (head (addrs (T l' n' r')))).
  set (rm' := default a0 (last (addrs (T l' n' r')))).
  set (h' := <[a0 := Node (Some (addr n')) (Some lm') (Some rm') hb hv]> h2).
  assert (tree_at h' (Some a0) (T l' n' r')) as Ht''.
  { by apply tree_at_insert_ne. }
  assert (length (inorder (T l' n' r')) < size h2)%nat as Hsize2.
  { by apply (tree_at_size h2 (Some a0) _ a0 oh). }
  exists (T l' n' r'), h'. split_and!; try done.
  - erewrite bind_get by exact Hh1. simpl _parent.
    rewrite decide_True by done.
    rewrite !bind_assoc. unfold Tree._begin, Tree._end. simpl _header.
    erewrite bind_get by exact Hh1. simpl _parent.
    rewrite bind_assoc. unfold with_fuel at 1.
    erewrite bind_ok by exact Hrun. simpl root_ptr.
    rewrite bind_assoc. unfold set_parent at 1.
    erewrite bind_store by exact Ha2.
    rewrite bind_assoc.
    erewrite bind_get by apply lookup_insert_eq. simpl _parent.
    rewrite bind_assoc. unfold set_parent at 1.
    erewrite bind_store by (rewrite lookup_insert_ne by done; exact Hn').
    unfold with_parent at 1. simpl.
    rewrite (insert_id (<[a0 := _]> h2) (addr n'))
      by (rewrite lookup_insert_ne by done; exact Hn').
    rewrite bind_assoc.
    erewrite bind_get by apply lookup_insert_eq. simpl _parent.
    rewrite bind_assoc. unfold with_fuel at 1.
    erewrite bind_ok.
    2:{ apply (descend_left_spec l' n' r' (Some a0)).
        - apply tree_at_insert_ne; [done|exact Ht'].
        - unfold fuel_of. rewrite map_size_insert_Some by eauto.
          simpl in Hsize2. rewrite length_app in Hsize2. simpl in Hsize2. lia. }
    rewrite bind_assoc. unfold set_left at 1.
    erewrite bind_store by apply lookup_insert_eq.
    rewrite insert_insert_eq.
    rewrite bind_assoc.
    erewrite bind_get by apply lookup_insert_eq. simpl _parent.
    rewrite bind_assoc. unfold with_fuel at 1.
    erewrite bind_ok.
    2:{ apply (descend_right_spec r' n' l' (Some a0)).
        - apply tree_at_insert_ne; [done|exact Ht'].
        - unfold fuel_of. rewrite map_size_insert_Some by eauto.
          simpl in Hsize2. rewrite length_app in Hsize2. simpl in Hsize2. lia. }
    unfold set_right at 1.
    erewrite bind_store by apply lookup_insert_eq.
    rewrite insert_insert_eq.
    unfold with_parent, with_left, with_right, oh. simpl.
    unfold h', lm', rm'. rewrite head_addrs, last_addrs.
    pose proof (last_Some_elem_of (inorder (T l' n' r'))) as Hlast.
    destruct (head (inorder (T l' n' r'))) as [x|] eqn:Hhd;
      [|by (simpl in Hhd; destruct (inorder l'))].
    destruct (last (inorder (T l' n' r'))) as [y|] eqn:Hla;
      [|by (apply last_None in Hla; simpl in Hla; destruct (inorder l'))].
    simpl in Hhd, Hla. rewrite Hhd, Hla. done.
  - split_and!.
    + by apply NoDup_cons.
    + exact Ht''.
    + unfold header_cell, h', lm', rm', leftmost, rightmost. by rewrite lookup_insert_eq.
  - split_and!.
    + done.
    + eapply tree_at_frame; [|exact Ht]. intros x Hx. unfold h'.
      destruct (tree_at_dom h _ _ x Ht Hx) as [nd Hx'].
      assert (x ≠ a0) by (intros ->; by rewrite Hanone in Hx').
      rewrite lookup_insert_ne by done. rewrite Hfr.
      * unfold h1. by rewrite lookup_insert_ne.
      * eapply (allocated_not_new h1 _ x); [exact Hnone|].
        unfold h1. rewrite lookup_insert_ne by done. exact Hx'.
    + unfold h'. rewrite lookup_insert_ne by done. rewrite Hfr by done. exact Hh1.
  - intros x Hx. specialize (Hnone x Hx). unfold h1 in Hnone.
    rewrite lookup_insert_ne in Hnone; [done|]. intros ->. done.
  - intros x Hx Hxa. unfold h'. rewrite lookup_insert_ne by done.
    rewrite Hfr by done. unfold h1. by rewrite lookup_insert_ne.
Qed.
End Copy.

(** The copy constructor on a tree with at least one node makes a deep
    copy: a new header and one new node for every node of the source,
    with the same shape, balance factors and payloads, linked among
    themselves only, so that the copy is a well-formed tree of its own
    and the walk over it visits what the walk over the source visits.
    No cell that was allocated before is changed. *)
Theorem copy_of_nonempty_tree_is_deep {K V : Type} (h : heap (K * V)) (hdr : ptr)
    (hb : Z) (hv : K * V) (t : tree (K * V)) (cnt : Z) :
  rep h hdr hb hv t → t ≠ E →
  ∃ C h' t',
    Tree.avl_tree_copy (Avl_tree hdr cnt) h = Ok (C, h')
    ∧ _node_count C = cnt
    ∧ h !! _header C = None
    ∧ rep h' (_header C) hb hv t'
    ∧ same t t'
    ∧ (∀ x, x ∈ addrs t' → h !! x = None)
    ∧ (∀ x, is_Some (h !! x) → h' !! x = h !! x)
    ∧ Tree.traverse C h' = Ok (val <$> inorder t, h')
    ∧ Tree.traverse (Avl_tree hdr cnt) h' = Ok (val <$> inorder t, h').
Proof.
  intros Hrep Hne.
  destruct (avl_tree_copy_spec h hdr hb hv t cnt Hrep Hne)
    as (t' & h' & Hrun & Hrep' & Hsrc & Hsame & Hnew & Hfr).
  exists (Avl_tree (fresh (dom h)) cnt), h', t'. split_and!; try done.
  - apply fresh_none.
  - intros x [nd Hx]. apply Hfr.
    + by apply (allocated_not_new h _ x nd).
    + intros ->. by rewrite fresh_none in Hx.
  - rewrite <- (same_vals t t' Hsame).
    apply (traverse_spec h' _ hb hv t' cnt Hrep').
  - apply (traverse_spec h' hdr hb hv t cnt Hsrc).
Qed.

Lemma copy_of_nonempty_tree_is_deep_witness :
  ∃ C h' t',
    Tree.avl_tree_copy (Avl_tree 0%nat 3) three_heap = Ok (C, h')
    ∧ _node_count C = 3
    ∧ three_heap !! _header C = None
    ∧ rep h' (_header C) 0 (0, 0) t'
    ∧ same three_tree t'
    ∧ (∀ x, x ∈ addrs t' → three_heap !! x = None)
    ∧ (∀ x, is_Some (three_heap !! x) → h' !! x = three_heap !! x)
    ∧ Tree.traverse C h' = Ok (val <$> inorder three_tree, h')
    ∧ Tree.traverse (Avl_tree 0%nat 3) h' = Ok (val <$> inorder three_tree, h').
Proof.
  apply (copy_of_nonempty_tree_is_deep three_heap 0%nat 0 (0, 0) three_tree 3).
  - exact three_rep.
  - discriminate.
Defined.

(** ** The end iterator of an interval tree that has nodes *)

Section HeaderQuery.
Context {Data : Type}.
Abbreviation IV := (interval_tree_value Data).
Abbreviation D := (interval_type * IV)%type.
Implicit Types (h : heap D) (t s l r : tree D) (n m : info D) (q : interval_type).
Implicit Types (it : _interval_const_iterator) (bs : list (tree D)).

(** The subtrees under the first and under the last node: what
    [_header._left] and [_header._right] point to. *)
Fixpoint first_sub t : tree D :=
  match t with
  | E => E
  | T l n r => match l with E => t | T _ _ _ => first_sub l end
  end.

Fixpoint last_sub t : tree D :=
  match t with
  | E => E
  | T l n r => match r with E => t | T _ _ _ => last_sub r end
  end.

Lemma first_sub_ne t : t ≠ E → first_sub t ≠ E.
Proof. induction t as [|l IHl n r _]; [done|]. intros _. destruct l; [done|]. by apply IHl. Qed.

Lemma last_sub_ne t : t ≠ E → last_sub t ≠ E.
Proof. induction t as [|l _ n r IHr]; [done|]. intros _. destruct r; [done|]. by apply IHr. Qed.

Lemma root_first_sub t : root_ptr (first_sub t) = head (addrs t).
Proof.
  induction t as [|l IHl n r _]; [done|]. destruct l as [|ll ln lr]; [done|].
  change (first_sub (T (T ll ln lr) n r)) with (first_sub (T ll ln lr)).
  rewrite IHl, (addrs_T (T ll ln lr)). rewrite (addrs_T ll).
  by destruct (addrs ll).
Qed.

Lemma root_last_sub t : root_ptr (last_sub t) = last (addrs t).
Proof.
  induction t as [|l _ n r IHr]; [done|]. destruct r as [|rl rn rr].
  - simpl. rewrite addrs_T. unfold addrs at 2. simpl. by rewrite last_snoc.
  - change (last_sub (T l n (T rl rn rr))) with (last_sub (T rl rn rr)).
    rewrite IHr, (addrs_T l n). rewrite last_app_cons_ne; [done|].
    rewrite addrs_T. by destruct (addrs rl).
Qed.

Lemma tree_at_first_sub h t : ∀ par,
  tree_at h par t → ∃ par', tree_at h par' (first_sub t).
Proof.
  induction t as [|l IHl n r _]; intros par Ht; [by exists par|].
  destruct l as [|ll ln lr]; [by exists par|].
  destruct Ht as (_ & Hl & _). by apply (IHl (Some (addr n))).
Qed.

Lemma tree_at_last_sub h t : ∀ par,
  tree_at h par t → ∃ par', tree_at h par' (last_sub t).
Proof.
  induction t as [|l _ n r IHr]; intros par Ht; [by exists par|].
  destruct r as [|rl rn rr]; [by exists par|].
  destruct Ht as (_ & _ & Hr). by apply (IHr (Some (addr n))).
Qed.

Lemma inorder_first_sub t x : x ∈ inorder (first_sub t) → x ∈ inorder t.
Proof.
  induction t as [|l IHl n r _]; [done|]. destruct l as [|ll ln lr]; [done|].
  intros Hx. change (inorder (T (T ll ln lr) n r))
    with (inorder (T ll ln lr) ++ n :: inorder r).
  apply elem_of_app. left. by apply IHl.
Qed.

Lemma inorder_last_sub t x : x ∈ inorder (last_sub t) → x ∈ inorder t.
Proof.
  induction t as [|l _ n r IHr]; [done|]. destruct r as [|rl rn rr]; [done|].
  intros Hx. change (inorder (T l n (T rl rn rr)))
    with (inorder l ++ n :: inorder (T rl rn rr)).
  apply elem_of_app. right. apply elem_of_cons. right. by apply IHr.
Qed.

Lemma height_first_sub t : avl t → height (first_sub t) ≤ 2.
Proof.
  induction t as [|l IHl n r _]; [simpl; lia|]. intros (Hl & Hr & Hb & Hb').
  destruct l as [|ll ln lr]; [|by apply IHl].
  simpl in *. pose proof (height_nonneg r). lia.
Qed.

Lemma height_last_sub t : avl t → height (last_sub t) ≤ 2.
Proof.
  induction t as [|l _ n r IHr]; [simpl; lia|]. intros (Hl & Hr & Hb & Hb').
  destruct r as [|rl rn rr]; [|by apply IHr].
  simpl in *. pose proof (height_nonneg l). lia.
Qed.

(** Whatever the traversal reports overlaps the query. *)
Lemma hits_overlap q t x :
  x ∈ hits q t → x ∈ inorder t ∧ Interval_overlap q (val x).1 = true.
Proof.
  induction t as [|l IHl n r IHr]; simpl; [by intros H; apply elem_of_nil in H|].
  intros Hx. apply elem_of_app in Hx as [Hx|Hx]; [|apply elem_of_app in Hx as [Hx|Hx]].
  - destruct (Interval_overlap q (val n).1) eqn:Hov; [|by apply elem_of_nil in Hx].
    apply list_elem_of_singleton in Hx as ->. split; [|done].
    apply elem_of_app. right. apply elem_of_cons. by left.
  - destruct (go_right q r); [|by apply elem_of_nil in Hx].
    destruct (IHr Hx). split; [|done].
    apply elem_of_app. right. apply elem_of_cons. by right.
  - destruct (go_left q l); [|by apply elem_of_nil in Hx].
    destruct (IHl Hx). split; [|done]. apply elem_of_app. by left.
Qed.

Lemma hits_nil q t :
  (∀ x, x ∈ inorder t → Interval_overlap q (val x).1 = false) → hits q t = [].
Proof.
  intros H. destruct (hits q t) as [|x xs] eqn:E'; [done|].
  destruct (hits_overlap q t x) as [Hin Hov]; [rewrite E'; apply elem_of_cons; by left|].
  by rewrite (H x Hin) in Hov.
Qed.

(** The iterator the constructor has built when it enters
    [_forward]: the header is the only entry of the stack. *)
Definition header_it q (hdr : ptr) : _interval_const_iterator :=
  Interval_iterator None q (Some hdr)
    (<[0%nat := Some hdr]> (replicate (Z.to_nat STACK_SIZE) None)) 1.

Lemma length_first_sub t :
  (length (inorder (first_sub t)) ≤ length (inorder t))%nat.
Proof.
  induction t as [|l IHl n r _]; [done|]. destruct l as [|ll ln lr]; [done|].
  change (first_sub (T (T ll ln lr) n r)) with (first_sub (T ll ln lr)).
  change (inorder (T (T ll ln lr) n r)) with (inorder (T ll ln lr) ++ n :: inorder r).
  etrans; [exact IHl|]. rewrite length_app. lia.
Qed.

Lemma length_last_sub t :
  (length (inorder (last_sub t)) ≤ length (inorder t))%nat.
Proof.
  induction t as [|l _ n r IHr]; [done|]. destruct r as [|rl rn rr]; [done|].
  change (last_sub (T l n (T rl rn rr))) with (last_sub (T rl rn rr)).
  change (inorder (T l n (T rl rn rr))) with (inorder l ++ n :: inorder (T rl rn rr)).
  etrans; [exact IHr|]. rewrite length_app, length_cons. lia.
Qed.

Lemma length_first_last t :
  (total_size [first_sub t; last_sub t] ≤ 2 * length (inorder t))%nat.
Proof.
  pose proof (length_first_sub t). pose proof (length_last_sub t). simpl. lia.
Qed.

(** The first turn of the loop, on the header: its links are the
    first and the last node. *)
Lemma header_step h hdr hb hv t q :
  rep h hdr hb hv t → t ≠ E →
  ∃ it', Iterator._forward_step (header_it q hdr) h
         = Ok ((it', Interval_overlap q hv.1), h)
         ∧ _node it' = Some hdr
         ∧ it_ok h hdr q it' (kids q (first_sub t) (last_sub t)).
Proof.
  intros Hrep Hne.
  pose proof Hrep as (Hnd & Ht & Hh). unfold header_cell in Hh.
  apply NoDup_cons in Hnd as [Hhdr Hnd].
  destruct (tree_at_first_sub h t _ Ht) as [pl Hl].
  destruct (tree_at_last_sub h t _ Ht) as [pr Hr].
  assert (Some (leftmost hdr t) = root_ptr (first_sub t)) as Hlm.
  { rewrite root_first_sub. unfold leftmost. destruct t as [|tl tn tr]; [done|].
    rewrite addrs_T. by destruct (addrs tl). }
  assert (Some (rightmost hdr t) = root_ptr (last_sub t)) as Hrm.
  { rewrite root_last_sub. unfold rightmost. destruct t as [|tl tn tr]; [done|].
    destruct (last (addrs (T tl tn tr))) eqn:E'; [done|].
    apply last_None in E'. rewrite addrs_T in E'. by destruct (addrs tl). }
  rewrite Hlm, Hrm in Hh.
  assert (sub_ok h hdr (first_sub t)) as Hsl.
  { split_and!; [by apply first_sub_ne|eauto|].
    intros Hin. apply Hhdr. unfold addrs in *.
    apply list_elem_of_fmap in Hin as (x & -> & Hx).
    apply list_elem_of_fmap_2. by apply inorder_first_sub. }
  assert (sub_ok h hdr (last_sub t)) as Hsr.
  { split_and!; [by apply last_sub_ne|eauto|].
    intros Hin. apply Hhdr. unfold addrs in *.
    apply list_elem_of_fmap in Hin as (x & -> & Hx).
    apply list_elem_of_fmap_2. by apply inorder_last_sub. }
  set (st := <[0%nat := Some hdr]> (replicate (Z.to_nat STACK_SIZE) None)).
  set (it1 := Interval_iterator (Some hdr) q (Some hdr) st 0).
  assert (it_ok h hdr q it1 []) as Hit1.
  { split_and!; done. }
  unfold kids.
  set (bl := go_left q (first_sub t)). set (br := go_right q (last_sub t)).
  assert (it_ok h hdr q (push_if bl it1 (root_ptr (first_sub t)))
            ([] ++ if bl then [first_sub t] else [])) as Hit2.
  { apply (push_if_ok h hdr q it1 [] (first_sub t) bl Hit1 Hsl).
    simpl. unfold STACK_SIZE. lia. }
  set (it2 := push_if bl it1 (root_ptr (first_sub t))) in *.
  assert (it_ok h hdr q (push_if br it2 (root_ptr (last_sub t)))
            (([] ++ if bl then [first_sub t] else [])
             ++ if br then [last_sub t] else [])) as Hit3.
  { apply (push_if_ok h hdr q it2 _ (last_sub t) br Hit2 Hsr).
    destruct bl; simpl; unfold STACK_SIZE; lia. }
  exists (push_if br it2 (root_ptr (last_sub t))).
  assert (_node it2 = Some hdr ∧ _interval it2 = q) as [Hnode2 Hq2].
  { unfold it2, push_if. destruct bl; done. }
  split_and!.
  - unfold Iterator._forward_step, Iterator.pop, header_it.
    cbn [_sp _stack _interval _end]. fold st.
    assert (st !! Z.to_nat (1 - 1) = Some (Some hdr)) as ->.
    { unfold st. done. }
    rewrite decide_True by lia.
    change (1 - 1) with 0.
    fold it1. rewrite bind_ret_l.
    change (_node it1) with (Some hdr).
    erewrite bind_get by exact Hh. cbn [_left].
    unfold Interval.get_max.
    rewrite (maybe_push h pl (first_sub t) it1 _ _ _ bl Hl).
    2:{ unfold bl, go_left. destruct (first_sub t); done. }
    2:{ intros _. simpl. unfold STACK_SIZE. lia. }
    fold it2. rewrite Hnode2.
    erewrite bind_get by exact Hh. cbn [_right].
    unfold Interval.get_min.
    rewrite (maybe_push h pr (last_sub t) it2 _ _ _ br Hr).
    2:{ unfold br, go_right. destruct (last_sub t); [done|]. simpl. by rewrite Hq2. }
    2:{ intros _. destruct Hit2 as (_ & _ & _ & -> & _).
        destruct bl; simpl; unfold STACK_SIZE; lia. }
    assert (_node (push_if br it2 (root_ptr (last_sub t))) = Some hdr
            ∧ _interval (push_if br it2 (root_ptr (last_sub t))) = q) as [-> ->].
    { unfold push_if. destruct br; done. }
    erewrite bind_get by exact Hh. done.
  - unfold push_if. destruct br; done.
  - exact Hit3.
Qed.

(** The iterator [(&_header, q, &_header)] on a tree with nodes: it
    stops at the header when the header's own interval overlaps [q]
    or nothing under the first and the last node does, and at the
    first node found there otherwise. *)
Lemma new_at_header h hdr hb hv t q :
  rep h hdr hb hv t → t ≠ E → avl t → (2 * length (inorder t) < size h)%nat →
  ∃ it, Iterator.new (Some hdr) q (Some hdr) h = Ok (it, h)
        ∧ if Interval_overlap q hv.1 then _node it = Some hdr
          else match pending q (kids q (first_sub t) (last_sub t)) with
               | [] => _node it = Some hdr
               | n :: _ => _node it = Some (addr n) ∧ addr n ≠ hdr
               end.
Proof.
  intros Hrep Hne Havl Hsz.
  destruct (header_step h hdr hb hv t q Hrep Hne) as (it' & Hstep & Hnode & Hit).
  assert (depth_ok 3 (kids q (first_sub t) (last_sub t))) as Hd.
  { pose proof (height_first_sub t Havl). pose proof (height_last_sub t Havl).
    intros i s Hi. unfold kids in Hi.
    destruct (go_left q (first_sub t)), (go_right q (last_sub t)); simpl in Hi;
      destruct i as [|[|i]]; simpl in Hi; try done; injection Hi as <-; lia. }
  assert (total_size (kids q (first_sub t) (last_sub t)) < size h)%nat as Htot.
  { pose proof (length_first_last t) as Hl. simpl in Hl. unfold kids.
    destruct (go_left q (first_sub t)), (go_right q (last_sub t)); simpl; lia. }
  destruct (forward_loop_spec h hdr q 3 ltac:(unfold STACK_SIZE; lia) (size h) it'
              _ Hit Hd Htot) as (it'' & bs' & Hrun & Hit'' & Hd' & Hpost).
  assert (Iterator.new (Some hdr) q (Some hdr) h
          = bind (Iterator._forward_step (header_it q hdr))
              (λ '(it, found),
                 if found : bool then ret it
                 else Iterator._forward_loop (size h) it) h) as Hnew.
  { unfold Iterator.new, Iterator.push. cbn [_sp].
    rewrite decide_True by (unfold STACK_SIZE; lia).
    rewrite bind_ret_l. reflexivity. }
  rewrite Hnew. erewrite bind_ok by exact Hstep.
  destruct (Interval_overlap q hv.1) eqn:Hov.
  - exists it'. done.
  - exists it''. split; [exact Hrun|].
    destruct (pending q (kids q (first_sub t) (last_sub t))) as [|n rest];
      simpl in Hpost; [by destruct Hpost|].
    destruct Hpost as (? & _ & _ & _ & ?). done.
Qed.
End HeaderQuery.

Section CopyQuery.
Context {Data : Type} `{!ValueInit Data}.
Abbreviation IV := (interval_tree_value Data).
Abbreviation D := (interval_type * IV)%type.
Implicit Types (h : heap D) (t s l r : tree D) (n m : info D) (q : interval_type).

Lemma same_avl t : ∀ t', same t t' → avl t → avl t'.
Proof.
  induction t as [|l IHl n r IHr]; intros [|l' n' r']; simpl; try done.
  intros (Hl & Hb & _ & Hr) (Al & Ar & Hbal & Hrange).
  rewrite (same_height l l' Hl), (same_height r r' Hr), Hb.
  split_and!; [by apply IHl|by apply IHr|done|lia|lia].
Qed.

Lemma same_go_left q l l' : same l l' → go_left q l' = go_left q l.
Proof. destruct l, l'; simpl; try done. by intros (_ & _ & -> & _). Qed.

Lemma same_go_right q r r' : same r r' → go_right q r' = go_right q r.
Proof. destruct r, r'; simpl; try done. by intros (_ & _ & -> & _). Qed.

Lemma same_hits q t : ∀ t', same t t' → val <$> hits q t' = val <$> hits q t.
Proof.
  induction t as [|l IHl n r IHr]; intros [|l' n' r']; simpl; try done.
  intros (Hl & Hb & Hv & Hr).
  rewrite (same_go_left q l l' Hl), (same_go_right q r r' Hr), Hv.
  rewrite !fmap_app. f_equal; [|f_equal].
  - destruct (Interval_overlap q (val n).1); [|done]. simpl. by rewrite Hv.
  - destruct (go_right q r); [|done]. by apply IHr.
  - destruct (go_left q l); [|done]. by apply IHl.
Qed.

(** Source and copy side by side: the store holds both. *)
Lemma copy_size h h' hdr hb hv t (a0 : ptr) t' :
  rep h hdr hb hv t → rep h' a0 hb hv t' → rep h' hdr hb hv t →
  h !! a0 = None → (∀ x, x ∈ addrs t' → h !! x = None) →
  (length (inorder t) + length (inorder t') + 1 < size h')%nat.
Proof.
  intros Hrep Hrep' Hsrc Ha0 Hnew.
  pose proof Hrep as (Hnd & Ht & Hh).
  pose proof Hrep' as (Hnd' & Ht' & Hh').
  pose proof Hsrc as (_ & Hts & Hhs).
  apply NoDup_cons in Hnd as [Hhdr Hnd]. apply NoDup_cons in Hnd' as [Ha0' Hnd'].
  assert (NoDup (hdr :: a0 :: addrs t ++ addrs t')) as HND.
  { apply NoDup_cons. split.
    - rewrite elem_of_cons, elem_of_app. intros [->|[Hin|Hin]].
      + by rewrite Ha0 in Hh.
      + done.
      + by rewrite (Hnew _ Hin) in Hh.
    - apply NoDup_cons. split.
      + rewrite elem_of_app. intros [Hin|Hin]; [|done].
        destruct (tree_at_dom h _ t a0 Ht Hin) as [nd Hx]. by rewrite Ha0 in Hx.
      + apply NoDup_app. split_and!; [done| |done].
        intros x Hx Hx'. destruct (tree_at_dom h _ t x Ht Hx) as [nd Hnd2].
        by rewrite (Hnew _ Hx') in Hnd2. }
  assert (list_to_set (hdr :: a0 :: addrs t ++ addrs t') ⊆ dom h') as Hsub.
  { intros x Hx. apply elem_of_list_to_set in Hx. apply elem_of_dom.
    apply elem_of_cons in Hx as [->|Hx]; [eauto|].
    apply elem_of_cons in Hx as [->|Hx]; [eauto|].
    apply elem_of_app in Hx as [Hx|Hx].
    - exact (tree_at_dom h' _ t x Hts Hx).
    - exact (tree_at_dom h' _ t' x Ht' Hx). }
  apply subseteq_size in Hsub.
  rewrite size_list_to_set in Hsub by done. rewrite size_dom in Hsub.
  simpl in Hsub. rewrite length_app in Hsub. unfold addrs in Hsub.
  rewrite !length_fmap in Hsub. lia.
Qed.

(** The copy constructor of the interval tree on a tree with nodes:
    the deep copy of the base, and an end iterator found by the
    query for [(0, 0)] that starts at the header of the copy. *)
Lemma interval_copy_spec h hdr hb hv t cnt d e :
  rep h hdr hb hv t → t ≠ E → avl t →
  ∃ t' h' e',
    IntervalTree.interval_tree_copy (Interval_tree (Avl_tree hdr cnt) d e) h
    = Ok (Interval_tree (Avl_tree (fresh (dom h)) cnt) (0, 0) e', h')
    ∧ rep h' (fresh (dom h)) hb hv t'
    ∧ rep h' hdr hb hv t
    ∧ same t t'
    ∧ (∀ x, is_Some (h !! x) → h' !! x = h !! x)
    ∧ if Interval_overlap (0, 0) hv.1 then _node e' = Some (fresh (dom h))
      else match pending (0, 0) (kids (0, 0) (first_sub t') (last_sub t')) with
           | [] => _node e' = Some (fresh (dom h))
           | n :: _ => _node e' = Some (addr n) ∧ addr n ≠ fresh (dom h)
           end.
Proof.
  intros Hrep Hne Havl.
  destruct (avl_tree_copy_spec h hdr hb hv t cnt Hrep Hne)
    as (t' & h' & Hrun & Hrep' & Hsrc & Hsame & Hnew & Hfr).
  assert (t' ≠ E) as Hne' by (intros ->; by apply Hne, (same_nil t E)).
  pose proof (copy_size h h' hdr hb hv t _ t' Hrep Hrep' Hsrc (fresh_none h) Hnew) as Hsz.
  pose proof (same_length t t' Hsame) as Hlen.
  destruct (new_at_header h' (fresh (dom h)) hb hv t' (0, 0) Hrep' Hne'
              (same_avl t t' Hsame Havl)) as (e' & Hnew' & Hend); [lia|].
  exists t', h', e'. split_and!; try done.
  - unfold IntervalTree.interval_tree_copy. simpl base.
    erewrite bind_ok by exact Hrun. simpl _header.
    erewrite bind_ok by exact Hnew'. done.
  - intros x [nd Hx]. apply Hfr.
    + by apply (allocated_not_new h _ x nd).
    + intros ->. by rewrite fresh_none in Hx.
Qed.
End CopyQuery.

Section StoredSubset.
Context {K U : Type} (compare : K → K → bool).

Lemma stored_from_subset (l : list (K * U)) : ∀ es x,
  x ∈ stored_from compare es l → x ∈ es ∨ x ∈ l.
Proof.
  induction l as [|y l IH]; intros es x Hx; [by left|].
  rewrite stored_from_cons in Hx. apply IH in Hx as [Hx|Hx].
  - unfold add_entry in Hx. destruct (has_key compare es y.1); [by left|].
    apply elem_of_app in Hx as [Hx|Hx]; [by left|].
    apply list_elem_of_singleton in Hx as ->. right. apply elem_of_cons. by left.
  - right. apply elem_of_cons. by right.
Qed.

Lemma stored_subset (l : list (K * U)) x : x ∈ stored compare l → x ∈ l.
Proof.
  intros Hx. apply stored_from_subset in Hx as [Hx|Hx]; [|done].
  by apply elem_of_nil in Hx.
Qed.
End StoredSubset.

Section CopyBuilt.
Context {Data : Type} `{!ValueInit Data}.
Abbreviation IV := (interval_tree_value Data).
Abbreviation D := (interval_type * IV)%type.
Implicit Types (h : heap D) (t s : tree D) (q : interval_type).
Implicit Types (l : list (interval_type * Data)).

Lemma pending_nil q (bs : list (tree D)) :
  Forall (λ s, hits q s = []) bs → pending q bs = [].
Proof.
  intros H. unfold pending.
  induction bs as [|s bs IH] using rev_ind; [done|].
  apply Forall_app in H as [H Hs]. apply Forall_cons in Hs as [Hs _].
  rewrite reverse_snoc. simpl. rewrite Hs. by apply IH.
Qed.

Lemma same_entries (t t' : tree D) :
  same t t' → entries data (inorder t') = entries data (inorder t).
Proof.
  intros H. apply same_vals in H.
  trans (entry data <$> (val <$> inorder t')).
  { unfold entries. by rewrite <- list_fmap_compose. }
  rewrite H. unfold entries. by rewrite <- list_fmap_compose.
Qed.
End CopyBuilt.

(** The copy of an interval tree that stores no interval with
    [lo < 0 < hi] answers every query as its source does.  The copy
    constructor finds [end()] of the copy by running the query for
    [_dummy_interval], which is [(0, 0)], from the header of the copy;
    with no stored interval around [0] that query ends at the header,
    and the client loop over the copy then yields what the loop over
    the source yields: the stored entries [[a0, a1)] with [a0 < hi] and
    [lo < a1] for the query [(lo, hi)].  The
    source is a tree built by a non-empty sequence of fewer than
    [2 ^ 45] insertions. *)
Theorem copy_answers_like_source {Data : Type} `{!ValueInit Data}
    (l : list (interval_type * Data)) (q : interval_type)
    (h0 : heap (interval_type * interval_tree_value Data)) (garbage : Z) :
  l ≠ [] → Z.of_nat (length l) < 2 ^ 45 →
  Forall (λ x, ¬ (x.1.1 < 0 < x.1.2)) l →
  ∃ T h C h' out,
    IntervalTree.build garbage l h0 = Ok (T, h)
    ∧ IntervalTree.interval_tree_copy T h = Ok (C, h')
    ∧ _node (IntervalTree.end_ C) = Some (_header (base C))
    ∧ h !! _header (base C) = None
    ∧ IntervalTree.overlapping C q h' = Ok (out, h')
    ∧ IntervalTree.overlapping T q h' = Ok (out, h')
    ∧ entry data <$> out
      ≡ₚ filter (λ x, x.1.1 < q.2 ∧ q.1 < x.1.2) (stored Interval_Compare l).
Proof.
  intros Hne Hlen Hzero.
  destruct (itv_build_spec l h0 garbage)
    as (h & hdr & cnt & e & t & Hrun & He & Hgood & Hes & _).
  destruct (built_height l h hdr t Hgood Hes Hne Hlen) as [HtE Hh].
  destruct Hgood as (hb & hv & Hrep & Havl & Hbst & Haug).
  destruct (interval_copy_spec h hdr hb hv t cnt (0, 0) e Hrep HtE Havl)
    as (t' & h' & e' & Hcopy & Hrep' & Hsrc & Hsame & Hfr & Hend).
  assert (t' ≠ E) as HtE' by (intros ->; by apply HtE, (same_nil t E)).
  assert (∀ x, x ∈ inorder t' → Interval_overlap (0, 0) (val x).1 = false) as Hno.
  { intros x Hx.
    assert (entry data (val x) ∈ l) as Hin.
    { apply (stored_subset Interval_Compare). rewrite <- Hes, <- (same_entries t t' Hsame).
      unfold entries. by apply (list_elem_of_fmap_2 (λ n, entry data (val n))). }
    rewrite Forall_forall in Hzero. specialize (Hzero _ Hin). simpl in Hzero.
    unfold Interval_overlap, key_compare. simpl.
    destruct (decide (0 < (val x).1.2)) as [H1|H1].
    - rewrite (bool_decide_false ((val x).1.1 < 0)) by lia. by rewrite andb_false_r.
    - by rewrite (bool_decide_false (0 < (val x).1.2)). }
  assert (_node e' = Some (fresh (dom h))) as He'.
  { destruct (Interval_overlap (0, 0) hv.1); [done|].
    rewrite pending_nil in Hend; [done|].
    unfold kids. apply Forall_app. split.
    - destruct (go_left (0, 0) (first_sub t')); constructor; [|constructor].
      apply hits_nil. intros x Hx. by apply Hno, inorder_first_sub.
    - destruct (go_right (0, 0) (last_sub t')); constructor; [|constructor].
      apply hits_nil. intros x Hx. by apply Hno, inorder_last_sub. }
  eexists _, h, _, h', (val <$> hits q t). split_and!.
  - exact Hrun.
  - exact Hcopy.
  - exact He'.
  - apply fresh_none.
  - rewrite <- (same_hits q t t' Hsame).
    apply (overlapping_spec h' _ hb hv t' cnt (0, 0) e' q Hrep' HtE'); [|exact He'].
    by rewrite (same_height t t' Hsame).
  - apply (overlapping_spec h' hdr hb hv t cnt (0, 0) e q Hsrc HtE Hh He).
  - rewrite <- (filter_ext_in (λ x, Interval_overlap q x.1 = true)
                 (λ x, x.1.1 < q.2 ∧ q.1 < x.1.2)).
    + rewrite <- Hes. unfold entries.
      rewrite (filter_fmap (λ n : info _, entry data (val n))).
      rewrite <- list_fmap_compose.
      apply fmap_Permutation. apply (hits_perm q t Haug).
    + intros x _. unfold Interval_overlap, key_compare.
      rewrite andb_true_iff, !bool_decide_eq_true. lia.
Qed.

Lemma copy_answers_like_source_witness :
  ∃ T h C h' out,
    IntervalTree.build 0 [((1, 5), tt); ((3, 9), tt)] ∅ = Ok (T, h)
    ∧ IntervalTree.interval_tree_copy T h = Ok (C, h')
    ∧ _node (IntervalTree.end_ C) = Some (_header (base C))
    ∧ h !! _header (base C) = None
    ∧ IntervalTree.overlapping C (4, 6) h' = Ok (out, h')
    ∧ IntervalTree.overlapping T (4, 6) h' = Ok (out, h')
    ∧ entry data <$> out
      ≡ₚ filter (λ x, x.1.1 < (4, 6).2 ∧ (4, 6).1 < x.1.2)
           (stored Interval_Compare [((1, 5), tt); ((3, 9), tt)]).
Proof.
  apply (copy_answers_like_source [((1, 5), tt); ((3, 9), tt)] (4, 6) ∅ 0).
  - discriminate.
  - vm_compute. reflexivity.
  - repeat constructor; simpl; lia.
Defined.


(** ** The client loop against an end iterator that is not the header *)

Section DrainTo.
Context {Data : Type} `{!ValueInit Data}.
Abbreviation IV := (interval_tree_value Data).
Abbreviation D := (interval_type * IV)%type.
Implicit Types (h : heap D) (t s l r : tree D) (n m : info D) (q : interval_type).
Implicit Types (it e : _interval_const_iterator) (bs : list (tree D)).

(** [_forward] on an iterator whose stack is empty: [_node = _end]. *)
Lemma forward_at_end h hdr q it :
  it_ok h hdr q it [] →
  ∃ it', Iterator._forward it h = Ok (it', h)
         ∧ it_ok h hdr q it' [] ∧ _node it' = Some hdr.
Proof.
  intros (Hq & He & Hlen & Hsp & Hst & Hsub). simpl in Hsp.
  exists (Interval_iterator (_end it) (_interval it) (_end it) (_stack it) (_sp it)).
  split_and!; try done.
  unfold Iterator._forward, with_fuel, fuel_of. simpl.
  rewrite decide_False by lia. done.
Qed.

(** Once the traversal is over the loop compares the header with the
    end iterator for ever. *)
Lemma drain_stuck h hdr q e (a : ptr) nd :
  h !! hdr = Some nd → _node e = Some a → a ≠ hdr →
  ∀ fuel it, it_ok h hdr q it [] → _node it = Some hdr →
  IntervalTree.drain fuel it e h = Err OutOfFuel.
Proof.
  intros Hh He Hne. induction fuel as [|fuel IH]; intros it Hit Hnode; simpl;
    unfold Iterator.eqb; rewrite bool_decide_false by (rewrite Hnode, He; congruence);
    [done|].
  unfold Iterator.deref. rewrite Hnode.
  erewrite bind_get by exact Hh.
  unfold Iterator.incr.
  destruct (forward_at_end h hdr q it Hit) as (it' & Hrun & Hit' & Hnode').
  erewrite bind_ok by exact Hrun.
  unfold bind at 1. by rewrite (IH it' Hit' Hnode').
Qed.

(** The loop stops at the first reported node that the end iterator
    points to, and never reports it. *)
Lemma drain_to_node h hdr q H e (a : ptr) :
  H ≤ STACK_SIZE → _node e = Some a →
  ∀ pre fuel it m post,
    cur h hdr q H it (pre ++ m :: post) → addr m = a → a ∉ addr <$> pre →
    (length pre < S fuel)%nat →
    IntervalTree.drain fuel it e h = Ok (val <$> pre, h).
Proof.
  intros HH He. induction pre as [|p pre IH]; intros fuel it m post (bs & Hit & Hd & Hpost) Hm Ha Hf.
  - simpl in Hpost. destruct Hpost as (Hnode & _).
    destruct fuel; simpl; unfold Iterator.eqb;
      rewrite bool_decide_true by (rewrite Hnode, He; congruence); done.
  - simpl in Hpost. destruct Hpost as (Hnode & Hpend & Hsz & (nd & Hnd & Hv) & Hne).
    rewrite fmap_cons in Ha. apply not_elem_of_cons in Ha as [Hap Ha].
    destruct fuel as [|fuel]; [simpl in Hf; lia|].
    simpl. unfold Iterator.eqb.
    rewrite bool_decide_false by (rewrite Hnode, He; congruence).
    unfold Iterator.deref. rewrite Hnode.
    erewrite bind_get by exact Hnd. rewrite Hv.
    unfold Iterator.incr.
    destruct (forward_spec h hdr q H it bs HH Hit Hd Hsz) as (it' & Hrun & Hcur).
    erewrite bind_ok by exact Hrun.
    rewrite Hpend in Hcur.
    erewrite bind_ok; [reflexivity|].
    apply (IH fuel it' m post Hcur Hm Ha). simpl in Hf. lia.
Qed.

(** When the end iterator points to a node the traversal does not
    report, the loop does not end. *)
Lemma drain_never h hdr q H e (a : ptr) nd :
  H ≤ STACK_SIZE → h !! hdr = Some nd → _node e = Some a → a ≠ hdr →
  ∀ out fuel it,
    cur h hdr q H it out → a ∉ addr <$> out →
    IntervalTree.drain fuel it e h = Err OutOfFuel.
Proof.
  intros HH Hh He Hne. induction out as [|p out IH]; intros fuel it (bs & Hit & Hd & Hpost) Ha.
  - simpl in Hpost. destruct Hpost as [Hnode ->].
    by apply (drain_stuck h hdr q e a nd).
  - simpl in Hpost. destruct Hpost as (Hnode & Hpend & Hsz & (nd' & Hnd & Hv) & Hne').
    rewrite fmap_cons in Ha. apply not_elem_of_cons in Ha as [Hap Ha].
    destruct fuel as [|fuel]; simpl; unfold Iterator.eqb;
      rewrite bool_decide_false by (rewrite Hnode, He; congruence); [done|].
    unfold Iterator.deref. rewrite Hnode.
    erewrite bind_get by exact Hnd.
    unfold Iterator.incr.
    destruct (forward_spec h hdr q H it bs HH Hit Hd Hsz) as (it' & Hrun & Hcur).
    erewrite bind_ok by exact Hrun.
    rewrite Hpend in Hcur.
    unfold bind at 1. by rewrite (IH fuel it' Hcur Ha).
Qed.
End DrainTo.

(** ** The header of a built interval tree keeps the key [(0, 0)] *)

Section HeaderKey.
Context {Data : Type} `{!ValueInit Data}.
Abbreviation IV := (interval_tree_value Data).
Abbreviation D := (interval_type * IV)%type.
Implicit Types (h : heap D) (t s : tree D) (c : ctx D) (n : info D) (v : D).

Definition keyed h (hdr : ptr) t : Prop :=
  ∃ hb hv, rep h hdr hb hv t ∧ avl t ∧ hv.1 = (0, 0).

Lemma insert_keyed h hdr t cnt v :
  keyed h hdr t →
  ∃ h' t' r cnt',
    Tree.insert (P := Interval.policy) Interval_Compare (Avl_tree hdr cnt) v h
    = Ok ((r, Avl_tree hdr cnt'), h')
    ∧ keyed h' hdr t'.
Proof.
  intros (hb & hv & Hrep & Havl & Hkey).
  pose proof (insert_spec Interval_Compare itv_apolicy itv_policy_spec
                h hdr hb hv t v cnt Hrep) as Hspec.
  simpl in Hspec.
  pose proof (plug_descend Interval_Compare v.1 t []) as Hplug. simpl in Hplug.
  destruct (find_dup Interval_Compare v.1 t) as [m|].
  - exists h, t. eexists _, _. split; [exact Hspec|]. by exists hb, hv.
  - rewrite <- Hplug in Havl.
    destruct (ins_tree_avl itv_apolicy hv (fresh (dom h)) v _ Havl) as (Hrb & Ha' & Hh').
    destruct (Hspec Hrb) as (h' & Hrun & Hrep').
    exists h'. eexists _, _, _. split; [exact Hrun|].
    eexists _, _. split_and!; [exact Hrep'|exact Ha'|].
    unfold itv_header. by destruct (descend Interval_Compare v.1 t []).
Qed.

Lemma insert_all_keyed (l : list D) : ∀ h hdr t cnt,
  keyed h hdr t →
  ∃ h' t' cnt',
    Tree.insert_all (P := Interval.policy) Interval_Compare (Avl_tree hdr cnt) l h
    = Ok (Avl_tree hdr cnt', h')
    ∧ keyed h' hdr t'.
Proof.
  induction l as [|v l IH]; intros h hdr t cnt Hk.
  - by exists h, t, cnt.
  - destruct (insert_keyed h hdr t cnt v Hk) as (h' & t' & r & cnt' & Hrun & Hk').
    destruct (IH h' hdr t' cnt' Hk') as (h'' & t'' & cnt'' & Hrun' & Hk'').
    exists h'', t'', cnt''. split; [|done].
    simpl. erewrite bind_ok by exact Hrun. destruct r. exact Hrun'.
Qed.

Lemma build_keyed (l : list (interval_type * Data)) (h0 : heap D) garbage T h :
  IntervalTree.build garbage l h0 = Ok (T, h) →
  ∃ t, keyed h (_header (base T)) t.
Proof.
  intros Hrun.
  destruct (itv_new_spec h0 garbage) as (h1 & e & Hnew & He & Hrep).
  destruct (insert_all_keyed (to_node <$> l) h1 (fresh (dom h0)) E garbage)
    as (h' & t' & cnt' & Hrun' & Hk).
  { exists 0, value_init. split_and!; done. }
  unfold IntervalTree.build in Hrun. erewrite bind_ok in Hrun by exact Hnew.
  rewrite itv_insert_all in Hrun. simpl in Hrun.
  erewrite bind_ok in Hrun by exact Hrun'. injection Hrun as <- <-.
  by exists t'.
Qed.

(** The header cell fixes the payload of the header. *)
Lemma rep_header_inj h hdr hb hv t hb' hv' t' :
  rep h hdr hb hv t → rep h hdr hb' hv' t' → hv' = hv.
Proof.
  intros (_ & _ & H1) (_ & _ & H2). rewrite H1 in H2.
  unfold header_cell in H2. by injection H2.
Qed.
End HeaderKey.

(** ** The last node *)

Section LastNode.
Context {Data : Type} `{!ValueInit Data}.
Abbreviation IV := (interval_tree_value Data).
Abbreviation D := (interval_type * IV)%type.
Implicit Types (h : heap D) (t s l r : tree D) (n m : info D) (q : interval_type).

Lemma last_sub_shape t :
  t ≠ E → ∃ l m, last_sub t = T l m E ∧ last (inorder t) = Some m.
Proof.
  induction t as [|l _ n r IHr]; [done|]. intros _.
  destruct r as [|rl rn rr].
  - exists l, n. split; [done|]. simpl. by rewrite last_snoc.
  - destruct (IHr ltac:(done)) as (l' & m & Hs & Hl). exists l', m. split; [exact Hs|].
    change (inorder (T l n (T rl rn rr))) with (inorder l ++ n :: inorder (T rl rn rr)).
    rewrite last_app_cons_ne; [done|]. simpl. by destruct (inorder rl).
Qed.

Lemma aug_ok_last_sub t : aug_ok t → aug_ok (last_sub t).
Proof.
  induction t as [|l _ n r IHr]; [done|]. intros H.
  destruct r as [|rl rn rr]; [done|]. apply IHr.
  destruct H as (_ & Hr & _). exact Hr.
Qed.

Lemma same_sub_le s s' (v v' : D) :
  same s s' → v'.2 = v.2 → sub_le s v → sub_le s' v'.
Proof.
  destruct s as [|sl sn sr], s' as [|sl' sn' sr']; simpl; try done.
  intros (_ & _ & -> & _) ->. done.
Qed.

Lemma same_aug t : ∀ t', same t t' → aug_ok t → aug_ok t'.
Proof.
  induction t as [|l IHl n r IHr]; intros [|l' n' r']; simpl; try done.
  intros (Hl & Hb & Hv & Hr) (Al & Ar & Ho & Hsl & Hsr).
  split_and!; [by apply IHl|by apply IHr|by rewrite Hv| |].
  - apply (same_sub_le l l' (val n)); [done|by rewrite Hv|done].
  - apply (same_sub_le r r' (val n)); [done|by rewrite Hv|done].
Qed.

(** Nodes of one tree with one address are one node. *)
Lemma addr_inj (ns : list (info D)) x y :
  NoDup (addr <$> ns) → x ∈ ns → y ∈ ns → addr x = addr y → x = y.
Proof.
  induction ns as [|z ns IH]; intros Hnd Hx Hy Ha; [by apply elem_of_nil in Hx|].
  rewrite fmap_cons in Hnd. apply NoDup_cons in Hnd as [Hz Hnd].
  apply elem_of_cons in Hx as [->|Hx], Hy as [->|Hy]; try done.
  - exfalso. apply Hz. rewrite Ha. by apply list_elem_of_fmap_2.
  - exfalso. apply Hz. rewrite <- Ha. by apply list_elem_of_fmap_2.
  - by apply IH.
Qed.

(** In a search tree nodes with one low endpoint are one node. *)
Lemma low_inj t x y :
  bst data Interval_Compare t → x ∈ inorder t → y ∈ inorder t →
  (val x).1.1 = (val y).1.1 → x = y.
Proof.
  unfold bst, entries. intros Hs Hx Hy Hlow.
  apply list_elem_of_lookup in Hx as [i Hi], Hy as [j Hj].
  assert (∀ i j a b, (i < j)%nat → inorder t !! i = Some a → inorder t !! j = Some b →
            (val a).1.1 < (val b).1.1) as Hlt.
  { intros i0 j0 a b Hij Ha Hb.
    pose proof (StronglySorted_lookup _ _ i0 j0 (entry data (val a)) (entry data (val b))
                  Hs Hij) as H.
    rewrite !list_lookup_fmap, Ha, Hb in H. specialize (H eq_refl eq_refl).
    unfold lt_key, Interval_Compare, key_compare in H. simpl in H.
    by apply bool_decide_eq_true in H. }
  destruct (decide (i = j)) as [->|Hij]; [congruence|].
  destruct (decide (i < j)%nat).
  - specialize (Hlt i j x y ltac:(done) Hi Hj). lia.
  - specialize (Hlt j i y x ltac:(lia) Hj Hi). lia.
Qed.

(** The stored entry with the largest low endpoint sits in the last node. *)
Lemma last_is_largest t (x : interval_type * Data) :
  bst data Interval_Compare t → x ∈ entries data (inorder t) →
  (∀ y, y ∈ entries data (inorder t) → y.1.1 ≤ x.1.1) →
  ∃ m, last (inorder t) = Some m ∧ entry data (val m) = x.
Proof.
  intros Hs Hx Hmax. unfold entries in Hx.
  apply list_elem_of_fmap in Hx as (mx & -> & Hmx).
  destruct (last (inorder t)) as [m|] eqn:Hl;
    [|apply last_None in Hl; rewrite Hl in Hmx; by apply elem_of_nil in Hmx].
  exists m. split; [done|].
  assert (m ∈ inorder t) as Hm by (by apply last_Some_elem_of).
  assert ((val m).1.1 ≤ (val mx).1.1) as Hle.
  { apply (Hmax (entry data (val m))). unfold entries.
    by apply (list_elem_of_fmap_2 (λ n, entry data (val n))). }
  assert ((val mx).1.1 ≤ (val m).1.1) as Hge.
  { apply list_elem_of_lookup in Hmx as [i Hi].
    rewrite last_lookup in Hl.
    destruct (decide (i = Nat.pred (length (inorder t)))) as [->|Hne].
    - rewrite Hi in Hl. injection Hl as ->. lia.
    - assert (i < Nat.pred (length (inorder t)))%nat as Hlt.
      { apply lookup_lt_Some in Hi. lia. }
      pose proof (StronglySorted_lookup _ _ i _ (entry data (val mx))
                    (entry data (val m)) Hs Hlt) as H.
      unfold entries in H. rewrite !list_lookup_fmap, Hi, Hl in H.
      specialize (H eq_refl eq_refl).
      unfold lt_key, Interval_Compare, key_compare in H. simpl in H.
      apply bool_decide_eq_true in H. lia. }
  rewrite (low_inj t m mx Hs Hm Hmx); [done|lia].
Qed.
End LastNode.

(** The copy constructor of the interval tree finds [end()] of the
    copy by the query for [(0, 0)] started at the header of the copy.
    When the stored interval with the largest low endpoint has
    [lo < 0 < hi], that query stops at the last node of the copy:
    [end()] of the copy is the handle of that node, not the header.
    The client loop [for (it = equal_range(q); it != end(); ++it)] over
    the copy then never yields that entry: for a query that overlaps it
    the loop stops when it reaches the node (while the same loop over
    the source yields the entry), and for any other query the loop
    never meets [end()]: it runs out of every number of iterations.  A
    query [(lo, hi)] overlaps [[a0, a1)] when [a0 < hi] and [lo < a1].  The source is a tree
    built by fewer than [2 ^ 45] insertions. *)
Theorem copy_end_is_last_node {Data : Type} `{!ValueInit Data}
    (l : list (interval_type * Data)) (x : interval_type * Data) (q : interval_type)
    (h0 : heap (interval_type * interval_tree_value Data)) (garbage : Z) :
  Z.of_nat (length l) < 2 ^ 45 →
  x ∈ stored Interval_Compare l →
  Forall (λ y, y.1.1 ≤ x.1.1) l →
  x.1.1 < 0 < x.1.2 →
  ∃ T h C h' a nd,
    IntervalTree.build garbage l h0 = Ok (T, h)
    ∧ IntervalTree.interval_tree_copy T h = Ok (C, h')
    ∧ _node (IntervalTree.end_ C) = Some a
    ∧ a ≠ _header (base C)
    ∧ h' !! a = Some nd ∧ entry data (_value nd) = x
    ∧ if decide (x.1.1 < q.2 ∧ q.1 < x.1.2)
      then ∃ out out',
             IntervalTree.overlapping C q h' = Ok (out, h')
             ∧ x ∉ (entry data <$> out)
             ∧ IntervalTree.overlapping T q h' = Ok (out', h')
             ∧ x ∈ entry data <$> out'
      else ∃ it,
             IntervalTree.equal_range C q h' = Ok (it, h')
             ∧ ∀ fuel, IntervalTree.drain fuel it (IntervalTree.end_ C) h' = Err OutOfFuel.
Proof.
  intros Hlen Hx Hmax Hzero.
  assert (l ≠ []) as Hne by (intros ->; by apply elem_of_nil in Hx).
  destruct (itv_build_spec l h0 garbage)
    as (h & hdr & cnt & e & t & Hrun & He & Hgood & Hes & _).
  destruct (built_height l h hdr t Hgood Hes Hne Hlen) as [HtE Hh].
  destruct Hgood as (hb & hv & Hrep & Havl & Hbst & Haug).
  assert (hv.1 = (0, 0)) as Hkey.
  { destruct (build_keyed l h0 garbage _ h Hrun) as (t2 & hb2 & hv2 & Hrep2 & _ & Hk).
    simpl in Hrep2. by rewrite (rep_header_inj h hdr hb2 hv2 t2 hb hv t Hrep2 Hrep). }
  destruct (interval_copy_spec h hdr hb hv t cnt (0, 0) e Hrep HtE Havl)
    as (t' & h' & e' & Hcopy & Hrep' & Hsrc & Hsame & Hfr & Hend).
  rewrite Hkey in Hend. change (Interval_overlap (0, 0) (0, 0)) with false in Hend.
  assert (t' ≠ E) as HtE' by (intros ->; by apply HtE, (same_nil t E)).
  pose proof (same_entries t t' Hsame) as Hent.
  assert (bst data Interval_Compare t') as Hbst' by (unfold bst; by rewrite Hent).
  pose proof (same_aug t t' Hsame Haug) as Haug'.
  assert (height t' ≤ STACK_SIZE) as Hh' by (by rewrite (same_height t t' Hsame)).
  rewrite Forall_forall in Hmax.
  destruct (last_is_largest t' x Hbst') as (m & Hlast & Hmx).
  { by rewrite Hent, Hes. }
  { intros y Hy. apply Hmax. apply (stored_subset Interval_Compare).
    by rewrite <- Hes, <- Hent. }
  destruct (last_sub_shape t' HtE') as (ls & m2 & Hsub & Hlast2).
  rewrite Hlast in Hlast2. injection Hlast2 as <-.
  assert (m ∈ inorder t') as Hmin by (by apply last_Some_elem_of).
  assert ((val m).1 = x.1) as Hival by (by rewrite <- Hmx).
  pose proof (aug_ok_last_sub t' Haug') as Hal. rewrite Hsub in Hal.
  destruct Hal as (_ & _ & [_ Hmn] & _ & _). rewrite Hival in Hmn.
  assert (Interval_overlap (0, 0) (val m).1 = true) as Hov0.
  { rewrite Hival. unfold Interval_overlap, key_compare. simpl.
    rewrite !bool_decide_true by lia. done. }
  assert (_node e' = Some (addr m) ∧ addr m ≠ fresh (dom h)) as [He' Hma].
  { rewrite Hsub in Hend. unfold kids in Hend.
    assert (go_right (0, 0) (T ls m E) = true) as Hgo.
    { simpl. unfold key_compare. simpl. apply bool_decide_eq_true. lia. }
    rewrite Hgo in Hend.
    rewrite pending_snoc in Hend. simpl hits in Hend. rewrite Hov0 in Hend.
    exact Hend. }
  pose proof Hrep' as (Hnd' & Ht' & Hh0').
  apply NoDup_cons in Hnd' as [_ Hnd'].
  destruct (tree_at_lookup h' _ t' m Ht' Hmin) as (nd & Hnd & Hval & _).
  pose proof (hits_perm q t' Haug') as Hperm.
  destruct (equal_range_spec h' (fresh (dom h)) hb hv t' cnt (0, 0) e' q Hrep' HtE' Hh')
    as (it & Hit & Hcur).
  eexists _, h, _, h', (addr m), nd. split_and!; try done.
  - by rewrite Hval.
  - assert (Interval_overlap q x.1 = true ↔ x.1.1 < q.2 ∧ q.1 < x.1.2) as Hiff.
    { unfold Interval_overlap, key_compare.
      rewrite andb_true_iff, !bool_decide_eq_true. lia. }
    destruct (decide (x.1.1 < q.2 ∧ q.1 < x.1.2)) as [Hovq|Hovq].
    + apply Hiff in Hovq.
      assert (m ∈ hits q t') as Hmh.
      { rewrite Hperm. apply list_elem_of_filter. split; [by rewrite Hival|done]. }
      apply list_elem_of_split in Hmh as (pre & post & Hsplit).
      assert (NoDup (addr <$> hits q t')) as Hndh.
      { rewrite Hperm. apply (sublist_NoDup _ (addrs t')); [exact Hnd'|].
        unfold addrs. apply fmap_sublist, sublist_filter. }
      rewrite Hsplit, fmap_app, fmap_cons in Hndh.
      apply NoDup_app in Hndh as (_ & Hdj & _).
      assert (addr m ∉ addr <$> pre) as Hpre.
      { intros Hin. apply (Hdj _ Hin). apply elem_of_cons. by left. }
      exists (val <$> pre), (val <$> hits q t). split_and!.
      * unfold IntervalTree.overlapping. erewrite bind_ok by exact Hit.
        unfold with_fuel, IntervalTree.end_. cbn [_end_it].
        rewrite Hsplit in Hcur.
        apply (drain_to_node h' _ q (height t') e' (addr m) Hh' He' pre _ it m post Hcur
                 eq_refl Hpre).
        pose proof (length_hits q t') as Hlh. rewrite Hsplit, length_app in Hlh.
        pose proof (rep_size _ _ _ _ _ Hrep'). unfold fuel_of. lia.
      * intros Hin. apply list_elem_of_fmap in Hin as (v & Hv & Hin).
        apply list_elem_of_fmap in Hin as (p & -> & Hp).
        assert (p ∈ inorder t') as Hpin.
        { assert (p ∈ hits q t') as Hph
            by (rewrite Hsplit; apply elem_of_app; by left).
          by apply (hits_overlap q t' p). }
        assert (p = m) as ->.
        { apply (low_inj t' p m Hbst' Hpin Hmin). by rewrite Hival, Hv. }
        apply Hpre. by apply list_elem_of_fmap_2.
      * apply (overlapping_spec h' hdr hb hv t cnt (0, 0) e q Hsrc HtE Hh He).
      * rewrite <- Hes in Hx. unfold entries in Hx.
        apply list_elem_of_fmap in Hx as (mx & -> & Hmxin).
        rewrite <- list_fmap_compose.
        apply (list_elem_of_fmap_2 (entry data ∘ val)).
        rewrite (hits_perm q t Haug). apply list_elem_of_filter. split; [|done].
        exact Hovq.
    + exists it. split; [exact Hit|]. intros fuel.
      unfold IntervalTree.end_. cbn [_end_it].
      destruct Hrep' as (_ & _ & Hhdr').
      apply (drain_never h' _ q (height t') e' (addr m) _ Hh' Hhdr' He' Hma
               (hits q t') fuel it Hcur).
      intros Hin. apply list_elem_of_fmap in Hin as (p & Hpa & Hp).
      destruct (hits_overlap q t' p Hp) as [Hpin Hpov].
      assert (p = m) as ->.
      { apply (addr_inj (inorder t') p m Hnd' Hpin Hmin). done. }
      rewrite Hival in Hpov. by apply Hovq, Hiff.
Qed.

Lemma copy_end_is_last_node_witness :
  ∃ T h C h' a nd,
    IntervalTree.build 0 [((-1, 1), tt)] ∅ = Ok (T, h)
    ∧ IntervalTree.interval_tree_copy T h = Ok (C, h')
    ∧ _node (IntervalTree.end_ C) = Some a
    ∧ a ≠ _header (base C)
    ∧ h' !! a = Some nd ∧ entry data (_value nd) = ((-1, 1), tt)
    ∧ if decide (((-1, 1), tt).1.1 < (0, 3).2 ∧ (0, 3).1 < ((-1, 1), tt).1.2)
      then ∃ out out',
             IntervalTree.overlapping C (0, 3) h' = Ok (out, h')
             ∧ ((-1, 1), tt) ∉ (entry data <$> out)
             ∧ IntervalTree.overlapping T (0, 3) h' = Ok (out', h')
             ∧ ((-1, 1), tt) ∈ entry data <$> out'
      else ∃ it,
             IntervalTree.equal_range C (0, 3) h' = Ok (it, h')
             ∧ ∀ fuel, IntervalTree.drain fuel it (IntervalTree.end_ C) h' = Err OutOfFuel.
Proof.
  apply (copy_end_is_last_node [((-1, 1), tt)] ((-1, 1), tt) (0, 3) ∅ 0).
  - vm_compute. reflexivity.
  - vm_compute. apply elem_of_cons. by left.
  - repeat constructor; simpl; lia.
  - simpl. lia.
Defined.
